(** * CactUScript: lexer, parser, tree-walking evaluator, compiler and VM

    A shallow embedding of the CactUScript implementation
    (src/cactuscript/{tokens,lexer,ast_nodes,parser,interpreter,vm}.py)
    together with the properties of its specification.

    Conventions of the embedding.
    - Python exceptions are outcomes: every effectful function returns
      either a value or the exception that propagates.
    - Python objects with identity (lists, dicts, struct instances,
      environments) live in explicit stores and are referred to by
      location; aliasing is aliasing of locations.
    - Loops and recursion of the source that need not terminate take a
      fuel argument; running out of fuel is its own outcome, never a
      value.
    - Host behaviour that is not embedded (formatting of floats, reading
      standard input, non-ASCII character classes, ...) is the outcome
      [Unmodelled]; no theorem draws a conclusion from it. *)

From Stdlib Require Import ZArith String Ascii List Bool Lia.
From Stdlib Require Import Sorting.Sorted Sorting.Permutation.
From Stdlib Require Import Floats.PrimFloat Numbers.Cyclic.Int63.Uint63.
From Stdlib Require Import Floats.SpecFloat Floats.FloatAxioms.
From stdpp Require Import gmap strings list pretty.

Set Warnings "-register-all".

Local Open Scope string_scope.
Local Open Scope list_scope.
Local Open Scope nat_scope.

(** ** Characters and strings of the host language *)

Module Chars.

Definition nl : ascii := ascii_of_nat 10.
Definition tab : ascii := ascii_of_nat 9.
Definition cr : ascii := ascii_of_nat 13.
Definition backslash : ascii := ascii_of_nat 92.
Definition dquote : ascii := ascii_of_nat 34.
Definition squote : ascii := ascii_of_nat 39.

Definition code (c : ascii) : nat := nat_of_ascii c.

Definition is_ascii (c : ascii) : bool := code c <? 128.

(** [str.isdigit], [str.isalpha], [str.isalnum] on 7-bit characters. *)
Definition isdigit (c : ascii) : bool := (48 <=? code c) && (code c <=? 57).
Definition isalpha (c : ascii) : bool :=
  ((65 <=? code c) && (code c <=? 90)) || ((97 <=? code c) && (code c <=? 122)).
Definition isalnum (c : ascii) : bool := isalpha c || isdigit c.

(** [c in s] for a one-character string [c]. *)
Fixpoint char_in (c : ascii) (s : string) : bool :=
  match s with
  | EmptyString => false
  | String d s' => Ascii.eqb c d || char_in c s'
  end.

Definition digit_val (c : ascii) : Z := Z.of_nat (code c - 48).

(** [int(s)] for a run of decimal digits. *)
Definition int_of_digits (cs : list ascii) : Z :=
  fold_left (fun acc c => (10 * acc + digit_val c)%Z) cs 0%Z.

Fixpoint take_while (p : ascii -> bool) (cs : list ascii) : list ascii :=
  match cs with
  | [] => []
  | c :: r => if p c then c :: take_while p r else []
  end.

Fixpoint drop_while (p : ascii -> bool) (cs : list ascii) : list ascii :=
  match cs with
  | [] => []
  | c :: r => if p c then drop_while p r else cs
  end.

Definition float_of_Z (z : Z) : float :=
  match z with
  | Z0 => PrimFloat.of_uint63 (Uint63.of_Z 0)
  | Zpos _ => PrimFloat.of_uint63 (Uint63.of_Z z)
  | Zneg p => PrimFloat.opp (PrimFloat.of_uint63 (Uint63.of_Z (Zpos p)))
  end.

(** Integers that binary64 represents exactly. *)
Definition exact_float_range (z : Z) : bool := (Z.abs z <=? 2 ^ 53)%Z.

(** [float(s)] for [digits.digits]: the correctly rounded quotient of the
    digit string read as an integer by the power of ten of its fraction.
    Both are exact in binary64 below the bounds tested here, and both
    are below [2 ^ 63], the range of the integers [float_of_Z] converts,
    so one IEEE division is the correctly rounded value; longer
    literals are not embedded. *)
Definition float_of_decimal (cs : list ascii) : option float :=
  let ip := take_while isdigit cs in
  let fp := drop 1 (drop_while isdigit cs) in
  let num := int_of_digits (ip ++ fp) in
  if exact_float_range num && (length fp <=? 18)
  then Some (PrimFloat.div (float_of_Z num) (float_of_Z (10 ^ Z.of_nat (length fp))))
  else None.

End Chars.

(** ** Tokens (tokens.py) *)

Module Tokens.

Inductive TokenType : Set :=
  | INTEGER | FLOAT | STRING | BOOLEAN | NULL
  | IDENTIFIER
  | IF | ELSE | ELIF | WHILE | FOR | IN | BREAK | CONTINUE | RETURN
  | LET | CONST | FN | ASYNC | AWAIT | CONTRACT | STRUCT | ENUM | IMPL
  | TYPE_INT | TYPE_FLOAT | TYPE_STRING | TYPE_BOOL | TYPE_VOID | TYPE_LIST | TYPE_MAP
  | TRUE | FALSE | NONE | AND | OR | NOT | EMIT | EVENT
  | PLUS | MINUS | MULTIPLY | DIVIDE | MODULO | POWER
  | EQUAL | NOT_EQUAL | LESS | GREATER | LESS_EQUAL | GREATER_EQUAL
  | ASSIGN | PLUS_ASSIGN | MINUS_ASSIGN | MULTIPLY_ASSIGN | DIVIDE_ASSIGN
  | BIT_AND | BIT_OR | BIT_XOR | BIT_NOT | LEFT_SHIFT | RIGHT_SHIFT
  | LPAREN | RPAREN | LBRACKET | RBRACKET | LBRACE | RBRACE
  | COMMA | DOT | COLON | SEMICOLON | ARROW | FAT_ARROW
  | NEWLINE | EOF | COMMENT.

Definition TokenType_eq_dec (a b : TokenType) : {a = b} + {a <> b}.
Proof. decide equality. Defined.

Definition tt_eqb (a b : TokenType) : bool :=
  if TokenType_eq_dec a b then true else false.

(** The payload of a token: [Any] in the source, one of these in fact. *)
Inductive payload : Type :=
  | PInt (n : Z)
  | PFloat (f : float)
  | PStr (s : string)
  | PBool (b : bool)
  | PNone.

Record Token : Type := mkToken {
  type : TokenType;
  value : payload;
  line : nat;
  column : nat
}.

(** [TokenType.name], used in parser messages. *)
Definition type_name (t : TokenType) : string :=
  match t with
  | INTEGER => "INTEGER" | FLOAT => "FLOAT" | STRING => "STRING"
  | BOOLEAN => "BOOLEAN" | NULL => "NULL" | IDENTIFIER => "IDENTIFIER"
  | IF => "IF" | ELSE => "ELSE" | ELIF => "ELIF" | WHILE => "WHILE"
  | FOR => "FOR" | IN => "IN" | BREAK => "BREAK" | CONTINUE => "CONTINUE"
  | RETURN => "RETURN" | LET => "LET" | CONST => "CONST" | FN => "FN"
  | ASYNC => "ASYNC" | AWAIT => "AWAIT" | CONTRACT => "CONTRACT"
  | STRUCT => "STRUCT" | ENUM => "ENUM" | IMPL => "IMPL"
  | TYPE_INT => "TYPE_INT" | TYPE_FLOAT => "TYPE_FLOAT"
  | TYPE_STRING => "TYPE_STRING" | TYPE_BOOL => "TYPE_BOOL"
  | TYPE_VOID => "TYPE_VOID" | TYPE_LIST => "TYPE_LIST" | TYPE_MAP => "TYPE_MAP"
  | TRUE => "TRUE" | FALSE => "FALSE" | NONE => "NONE" | AND => "AND"
  | OR => "OR" | NOT => "NOT" | EMIT => "EMIT" | EVENT => "EVENT"
  | PLUS => "PLUS" | MINUS => "MINUS" | MULTIPLY => "MULTIPLY"
  | DIVIDE => "DIVIDE" | MODULO => "MODULO" | POWER => "POWER"
  | EQUAL => "EQUAL" | NOT_EQUAL => "NOT_EQUAL" | LESS => "LESS"
  | GREATER => "GREATER" | LESS_EQUAL => "LESS_EQUAL"
  | GREATER_EQUAL => "GREATER_EQUAL" | ASSIGN => "ASSIGN"
  | PLUS_ASSIGN => "PLUS_ASSIGN" | MINUS_ASSIGN => "MINUS_ASSIGN"
  | MULTIPLY_ASSIGN => "MULTIPLY_ASSIGN" | DIVIDE_ASSIGN => "DIVIDE_ASSIGN"
  | BIT_AND => "BIT_AND" | BIT_OR => "BIT_OR" | BIT_XOR => "BIT_XOR"
  | BIT_NOT => "BIT_NOT" | LEFT_SHIFT => "LEFT_SHIFT"
  | RIGHT_SHIFT => "RIGHT_SHIFT" | LPAREN => "LPAREN" | RPAREN => "RPAREN"
  | LBRACKET => "LBRACKET" | RBRACKET => "RBRACKET" | LBRACE => "LBRACE"
  | RBRACE => "RBRACE" | COMMA => "COMMA" | DOT => "DOT" | COLON => "COLON"
  | SEMICOLON => "SEMICOLON" | ARROW => "ARROW" | FAT_ARROW => "FAT_ARROW"
  | NEWLINE => "NEWLINE" | EOF => "EOF" | COMMENT => "COMMENT"
  end.

(** The keyword table, as an association list in the order of the source. *)
Definition KEYWORDS : list (string * TokenType) :=
  [ ("if", IF); ("else", ELSE); ("elif", ELIF); ("while", WHILE);
    ("for", FOR); ("in", IN); ("break", BREAK); ("continue", CONTINUE);
    ("return", RETURN);
    ("let", LET); ("const", CONST); ("fn", FN); ("async", ASYNC);
    ("await", AWAIT); ("contract", CONTRACT); ("struct", STRUCT);
    ("enum", ENUM); ("impl", IMPL);
    ("int", TYPE_INT); ("float", TYPE_FLOAT); ("string", TYPE_STRING);
    ("bool", TYPE_BOOL); ("void", TYPE_VOID); ("list", TYPE_LIST);
    ("map", TYPE_MAP);
    ("true", TRUE); ("false", FALSE); ("none", NONE);
    ("and", AND); ("or", OR); ("not", NOT);
    ("emit", EMIT); ("event", EVENT) ].

Fixpoint assoc {A : Type} (k : string) (l : list (string * A)) : option A :=
  match l with
  | [] => None
  | (k', v) :: l' => if String.eqb k k' then Some v else assoc k l'
  end.

End Tokens.

(** ** Lexer (lexer.py) *)

Module Lexer.

Import Chars.

(** Outcome of a lexer routine: a result, the exception [LexerError], or
    host behaviour outside the embedding. *)
Inductive result (A : Type) : Type :=
  | Ok (a : A)
  | LexerError (message : string) (line column : nat)
  | Unmodelled.
Arguments Ok {A} a.
Arguments LexerError {A} message line column.
Arguments Unmodelled {A}.

Record Lexer : Type := mkLexer {
  source : string;
  pos : nat;
  line : nat;
  column : nat;
  tokens : list Tokens.Token
}.

(** [Lexer(source)] *)
Definition init (src : string) : Lexer :=
  {| source := src; pos := 0; line := 1; column := 1; tokens := [] |}.

Definition current_char (lx : Lexer) : option ascii :=
  String.get (pos lx) (source lx).

Definition peek (lx : Lexer) (offset : nat) : option ascii :=
  String.get (pos lx + offset) (source lx).

(** [advance]: its return value is never used by the lexer. *)
Definition advance (lx : Lexer) : Lexer :=
  match current_char lx with
  | Some c =>
      if Ascii.eqb c nl
      then {| source := source lx; pos := S (pos lx); line := S (line lx);
              column := 1; tokens := tokens lx |}
      else {| source := source lx; pos := S (pos lx); line := line lx;
              column := S (column lx); tokens := tokens lx |}
  | None => {| source := source lx; pos := S (pos lx); line := line lx;
               column := S (column lx); tokens := tokens lx |}
  end.

(** Number of characters from [pos] to the end: a bound on the
    iterations of every [while self.current_char ...] loop. *)
Definition remaining (lx : Lexer) : nat := String.length (source lx) - pos lx.

Fixpoint skip_whitespace_loop (n : nat) (lx : Lexer) : Lexer :=
  match n with
  | 0 => lx
  | S n' =>
      match current_char lx with
      | Some c => if char_in c (String " " (String tab (String cr "")))
                  then skip_whitespace_loop n' (advance lx) else lx
      | None => lx
      end
  end.

Definition skip_whitespace (lx : Lexer) : Lexer :=
  skip_whitespace_loop (remaining lx) lx.

Fixpoint skip_line_loop (n : nat) (lx : Lexer) : Lexer :=
  match n with
  | 0 => lx
  | S n' =>
      match current_char lx with
      | Some c => if Ascii.eqb c nl then lx else skip_line_loop n' (advance lx)
      | None => lx
      end
  end.

Fixpoint skip_block_loop (n : nat) (lx : Lexer) : Lexer :=
  match n with
  | 0 => lx
  | S n' =>
      match current_char lx with
      | Some c =>
          if Ascii.eqb c "*" && match peek lx 1 with
                                | Some d => Ascii.eqb d "/"
                                | None => false
                                end
          then advance (advance lx)
          else skip_block_loop n' (advance lx)
      | None => lx
      end
  end.

Definition skip_comment (lx : Lexer) : Lexer :=
  match current_char lx, peek lx 1 with
  | Some c, Some d =>
      if Ascii.eqb c "/" && Ascii.eqb d "/" then skip_line_loop (remaining lx) lx
      else if Ascii.eqb c "/" && Ascii.eqb d "*"
      then let lx2 := advance (advance lx) in skip_block_loop (remaining lx2) lx2
      else lx
  | _, _ => lx
  end.

(** The dictionary [escape_chars] of [read_string]. *)
Definition escape_chars (c : ascii) : option ascii :=
  if Ascii.eqb c "n" then Some nl
  else if Ascii.eqb c "t" then Some tab
  else if Ascii.eqb c "r" then Some cr
  else if Ascii.eqb c backslash then Some backslash
  else if Ascii.eqb c dquote then Some dquote
  else if Ascii.eqb c squote then Some squote
  else None.

(** The [while] loop of [read_string]. After a backslash at the very end
    of the input the source appends [None] to the buffer; the loop then
    ends at end of input and the error is raised before the buffer is
    read, so the buffer is left as it is here. *)
Fixpoint read_string_loop (n : nat) (quote_char : ascii) (lx : Lexer)
    (result : list ascii) : Lexer * list ascii :=
  match n with
  | 0 => (lx, result)
  | S n' =>
      match current_char lx with
      | None => (lx, result)
      | Some c =>
          if Ascii.eqb c quote_char then (lx, result)
          else if Ascii.eqb c backslash then
            let lx1 := advance lx in
            match current_char lx1 with
            | Some e =>
                match escape_chars e with
                | Some t => read_string_loop n' quote_char (advance lx1) (result ++ [t])
                | None => read_string_loop n' quote_char (advance lx1) (result ++ [e])
                end
            | None => read_string_loop n' quote_char (advance lx1) result
            end
          else read_string_loop n' quote_char (advance lx) (result ++ [c])
      end
  end.

Definition read_string (lx : Lexer) : result (Tokens.Token * Lexer) :=
  match current_char lx with
  | None => Unmodelled (* never called at end of input *)
  | Some quote_char =>
      let start_line := line lx in
      let start_col := column lx in
      let lx1 := advance lx in
      let '(lx2, res) := read_string_loop (remaining lx1) quote_char lx1 [] in
      match current_char lx2 with
      | None => LexerError "Unterminated string literal" start_line start_col
      | Some _ =>
          Ok (Tokens.mkToken Tokens.STRING
                (Tokens.PStr (string_of_list_ascii res)) start_line start_col,
              advance lx2)
      end
  end.

(** The [while] loop of [read_number]; [None] on a non-ASCII character,
    whose digit class is not embedded. *)
Fixpoint read_number_loop (n : nat) (lx : Lexer) (result : list ascii)
    (is_float : bool) : option (Lexer * list ascii * bool) :=
  match n with
  | 0 => Some (lx, result, is_float)
  | S n' =>
      match current_char lx with
      | None => Some (lx, result, is_float)
      | Some c =>
          if negb (is_ascii c) then None
          else if isdigit c then read_number_loop n' (advance lx) (result ++ [c]) is_float
          else if Ascii.eqb c "." then
            if is_float then Some (lx, result, is_float)
            else match peek lx 1 with
                 | Some d =>
                     if negb (is_ascii d) then None
                     else if isdigit d
                     then read_number_loop n' (advance lx) (result ++ [c]) true
                     else Some (lx, result, is_float)
                 | None => Some (lx, result, is_float)
                 end
          else Some (lx, result, is_float)
      end
  end.

(** [int(value_str)] refuses more than 4300 digits in current Python. *)
Definition max_str_digits : nat := 4300.

Definition read_number (lx : Lexer) : result (Tokens.Token * Lexer) :=
  let start_line := line lx in
  let start_col := column lx in
  match read_number_loop (remaining lx) lx [] false with
  | None => Unmodelled
  | Some (lx', res, is_float) =>
      if is_float then
        match float_of_decimal res with
        | Some f => Ok (Tokens.mkToken Tokens.FLOAT (Tokens.PFloat f) start_line start_col, lx')
        | None => Unmodelled
        end
      else if length res <=? max_str_digits
      then Ok (Tokens.mkToken Tokens.INTEGER (Tokens.PInt (int_of_digits res))
                 start_line start_col, lx')
      else Unmodelled
  end.

Fixpoint read_identifier_loop (n : nat) (lx : Lexer) (result : list ascii)
    : option (Lexer * list ascii) :=
  match n with
  | 0 => Some (lx, result)
  | S n' =>
      match current_char lx with
      | None => Some (lx, result)
      | Some c =>
          if negb (is_ascii c) then None
          else if isalnum c || Ascii.eqb c "_"
          then read_identifier_loop n' (advance lx) (result ++ [c])
          else Some (lx, result)
      end
  end.

Definition read_identifier (lx : Lexer) : result (Tokens.Token * Lexer) :=
  let start_line := line lx in
  let start_col := column lx in
  match read_identifier_loop (remaining lx) lx [] with
  | None => Unmodelled
  | Some (lx', res) =>
      let value := string_of_list_ascii res in
      match Tokens.assoc value Tokens.KEYWORDS with
      | Some Tokens.TRUE =>
          Ok (Tokens.mkToken Tokens.TRUE (Tokens.PBool true) start_line start_col, lx')
      | Some Tokens.FALSE =>
          Ok (Tokens.mkToken Tokens.FALSE (Tokens.PBool false) start_line start_col, lx')
      | Some Tokens.NONE =>
          Ok (Tokens.mkToken Tokens.NULL Tokens.PNone start_line start_col, lx')
      | Some token_type =>
          Ok (Tokens.mkToken token_type (Tokens.PStr value) start_line start_col, lx')
      | None =>
          Ok (Tokens.mkToken Tokens.IDENTIFIER (Tokens.PStr value) start_line start_col, lx')
      end
  end.

(** [make_token]: a token at the current position. *)
Definition make_token (lx : Lexer) (token_type : Tokens.TokenType)
    (value : Tokens.payload) : Tokens.Token :=
  Tokens.mkToken token_type value (line lx) (column lx).

Definition two_char_ops : list (string * Tokens.TokenType) :=
  [ ("==", Tokens.EQUAL); ("!=", Tokens.NOT_EQUAL); ("<=", Tokens.LESS_EQUAL);
    (">=", Tokens.GREATER_EQUAL); ("+=", Tokens.PLUS_ASSIGN);
    ("-=", Tokens.MINUS_ASSIGN); ("*=", Tokens.MULTIPLY_ASSIGN);
    ("/=", Tokens.DIVIDE_ASSIGN); ("**", Tokens.POWER); ("->", Tokens.ARROW);
    ("=>", Tokens.FAT_ARROW); ("<<", Tokens.LEFT_SHIFT); (">>", Tokens.RIGHT_SHIFT) ].

Definition single_char_ops : list (string * Tokens.TokenType) :=
  [ ("+", Tokens.PLUS); ("-", Tokens.MINUS); ("*", Tokens.MULTIPLY);
    ("/", Tokens.DIVIDE); ("%", Tokens.MODULO); ("<", Tokens.LESS);
    (">", Tokens.GREATER); ("=", Tokens.ASSIGN); ("&", Tokens.BIT_AND);
    ("|", Tokens.BIT_OR); ("^", Tokens.BIT_XOR); ("~", Tokens.BIT_NOT);
    ("(", Tokens.LPAREN); (")", Tokens.RPAREN); ("[", Tokens.LBRACKET);
    ("]", Tokens.RBRACKET); ("{", Tokens.LBRACE); ("}", Tokens.RBRACE);
    (",", Tokens.COMMA); (".", Tokens.DOT); (":", Tokens.COLON);
    (";", Tokens.SEMICOLON) ].

(** [_read_operator_or_delimiter]; called with a current character. *)
Definition read_operator_or_delimiter (lx : Lexer) : option (Tokens.Token * Lexer) :=
  let start_line := line lx in
  let start_col := column lx in
  match current_char lx with
  | None => None
  | Some char =>
      let two :=
        match peek lx 1 with
        | Some next_char =>
            let s := String char (String next_char "") in
            match Tokens.assoc s two_char_ops with
            | Some ty => Some (Tokens.mkToken ty (Tokens.PStr s) start_line start_col,
                               advance (advance lx))
            | None => None
            end
        | None => None
        end in
      match two with
      | Some r => Some r
      | None =>
          let s := String char "" in
          match Tokens.assoc s single_char_ops with
          | Some ty => Some (Tokens.mkToken ty (Tokens.PStr s) start_line start_col,
                             advance lx)
          | None => None
          end
      end
  end.

Definition push_token (lx : Lexer) (t : Tokens.Token) : Lexer :=
  {| source := source lx; pos := pos lx; line := line lx; column := column lx;
     tokens := tokens lx ++ [t] |}.

(** A sub-reader returns the token and the lexer after it; the token is
    appended to [self.tokens] of that lexer. *)
Definition append_read (r : result (Tokens.Token * Lexer)) : result Lexer :=
  match r with
  | Ok (t, lx') => Ok (push_token lx' t)
  | LexerError m l c => LexerError m l c
  | Unmodelled => Unmodelled
  end.

(** One iteration of the [while self.current_char] loop of [tokenize]. *)
Definition tokenize_step (c : ascii) (lx : Lexer) : result Lexer :=
  if char_in c (String " " (String tab (String cr ""))) then Ok (skip_whitespace lx)
  else if Ascii.eqb c nl
  then Ok (advance (push_token lx (make_token lx Tokens.NEWLINE (Tokens.PStr (String nl "")))))
  else if Ascii.eqb c "/" && match peek lx 1 with
                             | Some d => Ascii.eqb d "/" || Ascii.eqb d "*"
                             | None => false
                             end
  then Ok (skip_comment lx)
  else if Ascii.eqb c dquote || Ascii.eqb c squote then append_read (read_string lx)
  else if negb (is_ascii c) then Unmodelled
  else if isdigit c then append_read (read_number lx)
  else if isalpha c || Ascii.eqb c "_" then append_read (read_identifier lx)
  else match read_operator_or_delimiter lx with
       | Some (t, lx') => Ok (push_token lx' t)
       | None => LexerError ("Unexpected character: " +:+ String c "") (line lx) (column lx)
       end.

(** The loop of [tokenize]. Every iteration consumes a character, so
    [S (remaining lx)] iterations are enough; [None] is running out of
    fuel. *)
Fixpoint tokenize_loop (n : nat) (lx : Lexer) : option (result (list Tokens.Token)) :=
  match n with
  | 0 => None
  | S n' =>
      match current_char lx with
      | None => Some (Ok (tokens lx ++ [make_token lx Tokens.EOF Tokens.PNone]))
      | Some c =>
          match tokenize_step c lx with
          | Ok lx' => tokenize_loop n' lx'
          | LexerError m l k => Some (LexerError m l k)
          | Unmodelled => Some Unmodelled
          end
      end
  end.

Definition tokenize (src : string) : option (result (list Tokens.Token)) :=
  tokenize_loop (S (String.length src)) (init src).

End Lexer.

(** ** Syntax tree (ast_nodes.py)

    A field of class [Block] in the source holds the statements of that
    block here; the parser builds nothing else there. *)

Module Ast.

Inductive expr : Type :=
  | IntegerLiteral (value : Z)
  | FloatLiteral (value : float)
  | StringLiteral (value : string)
  | BooleanLiteral (value : bool)
  | NullLiteral
  | ListLiteral (elements : list expr)
  | MapLiteral (pairs : list (expr * expr))
  | Identifier (name : string)
  | MemberAccess (object : expr) (member : string)
  | IndexAccess (object : expr) (index : expr)
  | BinaryOp (left : expr) (operator : string) (right : expr)
  | UnaryOp (operator : string) (operand : expr)
  | ComparisonOp (left : expr) (operator : string) (right : expr)
  | LogicalOp (left : expr) (operator : string) (right : expr)
  | FunctionCall (function : expr) (arguments : list expr)
  | MethodCall (object : expr) (method : string) (arguments : list expr)
  | LambdaExpression (parameters : list string) (body : expr)
  | AwaitExpression (expression : expr).

Record Param : Type := mkParameter {
  param_name : string;
  param_type_annotation : option string;
  default_value : option expr
}.

Inductive stmt : Type :=
  | ExpressionStatement (expression : expr)
  | VariableDeclaration (name : string) (type_annotation : option string)
      (value : option expr) (is_const : bool)
  | Assignment (target : expr) (operator : string) (value : expr)
  | Block (statements : list stmt)
  | IfStatement (condition : expr) (then_branch : list stmt)
      (elif_branches : list (expr * list stmt)) (else_branch : option (list stmt))
  | WhileStatement (condition : expr) (body : list stmt)
  | ForStatement (variable : string) (iterable : expr) (body : list stmt)
  | BreakStatement
  | ContinueStatement
  | ReturnStatement (value : option expr)
  | FunctionDeclaration (decl : fundecl)
  | StructDeclaration (name : string) (fields : list (string * string))
  | EnumDeclaration (name : string) (variants : list string)
  | ContractDeclaration (name : string) (body : list stmt)
  | EventDeclaration (name : string) (fields : list (string * string))
  | EmitStatement (event_name : string) (arguments : list expr)
  | ImplBlock (type_name : string) (methods : list fundecl)
with fundecl : Type :=
  | mkFunction (name : string) (parameters : list Param)
      (return_type : option string) (body : list stmt) (is_async : bool).

Definition fn_name (d : fundecl) : string :=
  match d with mkFunction n _ _ _ _ => n end.
Definition fn_parameters (d : fundecl) : list Param :=
  match d with mkFunction _ ps _ _ _ => ps end.
Definition fn_body (d : fundecl) : list stmt :=
  match d with mkFunction _ _ _ b _ => b end.
Definition fn_is_async (d : fundecl) : bool :=
  match d with mkFunction _ _ _ _ a => a end.

(** [Program(statements)] *)
Definition Program : Type := list stmt.

(** [type(node).__name__] of an expression node. *)
Definition expr_class (e : expr) : string :=
  match e with
  | IntegerLiteral _ => "IntegerLiteral"
  | FloatLiteral _ => "FloatLiteral"
  | StringLiteral _ => "StringLiteral"
  | BooleanLiteral _ => "BooleanLiteral"
  | NullLiteral => "NullLiteral"
  | ListLiteral _ => "ListLiteral"
  | MapLiteral _ => "MapLiteral"
  | Identifier _ => "Identifier"
  | MemberAccess _ _ => "MemberAccess"
  | IndexAccess _ _ => "IndexAccess"
  | BinaryOp _ _ _ => "BinaryOp"
  | UnaryOp _ _ => "UnaryOp"
  | ComparisonOp _ _ _ => "ComparisonOp"
  | LogicalOp _ _ _ => "LogicalOp"
  | FunctionCall _ _ => "FunctionCall"
  | MethodCall _ _ _ => "MethodCall"
  | LambdaExpression _ _ => "LambdaExpression"
  | AwaitExpression _ => "AwaitExpression"
  end.

End Ast.

(** ** Parser (parser.py) *)

Module Parser.

Import Ast.

(** Outcome of a parser routine. [IndexError] is what [self.tokens[-1]]
    raises on an empty token list. A token whose payload does not have
    the type the lexer gives its kind is outside the embedding. *)
Inductive result (A : Type) : Type :=
  | Ok (a : A)
  | ParserError (message : string) (token : Tokens.Token)
  | IndexError
  | Unmodelled
  | OutOfFuel.
Arguments Ok {A} a.
Arguments ParserError {A} message token.
Arguments IndexError {A}.
Arguments Unmodelled {A}.
Arguments OutOfFuel {A}.

(** A parser routine reads and moves [self.pos]. *)
Definition P (A : Type) : Type := nat -> result (A * nat).

Definition ret {A} (a : A) : P A := fun pos => Ok (a, pos).

Definition bind {A B} (m : P A) (k : A -> P B) : P B :=
  fun pos =>
    match m pos with
    | Ok (a, pos') => k a pos'
    | ParserError msg t => ParserError msg t
    | IndexError => IndexError
    | Unmodelled => Unmodelled
    | OutOfFuel => OutOfFuel
    end.

Definition fail {A} (r : result (A * nat)) : P A := fun _ => r.

Notation "'let*' x := m 'in' k" := (bind m (fun x => k))
  (at level 10, x name, m at level 100, k at level 200, only parsing).
Notation "m ;; k" := (bind m (fun _ => k))
  (at level 100, k at level 200, right associativity, only parsing).

Section Routines.

Variable tokens : list Tokens.Token.

Definition current_token : P Tokens.Token :=
  fun pos =>
    match tokens !! pos with
    | Some t => Ok (t, pos)
    | None => match last tokens with
              | Some t => Ok (t, pos)
              | None => IndexError
              end
    end.

Definition advance : P Tokens.Token :=
  let* token := current_token in
  fun pos => Ok (token, S pos).

(** [match]: is the current token of one of the given kinds *)
Definition match_ (token_types : list Tokens.TokenType) : P bool :=
  let* t := current_token in
  ret (existsb (Tokens.tt_eqb (Tokens.type t)) token_types).

Fixpoint skip_newlines_loop (n : nat) : P unit :=
  match n with
  | 0 => fail OutOfFuel
  | S n' =>
      let* t := current_token in
      if Tokens.tt_eqb (Tokens.type t) Tokens.NEWLINE
      then advance ;; skip_newlines_loop n'
      else ret tt
  end.

Definition expect (token_type : Tokens.TokenType) (message : option string)
    : P Tokens.Token :=
  let* t := current_token in
  if negb (Tokens.tt_eqb (Tokens.type t) token_type)
  then
    let msg := match message with
               | Some m => m
               | None => "Expected " +:+ Tokens.type_name token_type +:+ ", got "
                         +:+ Tokens.type_name (Tokens.type t)
               end in
    fail (ParserError msg t)
  else advance.

Definition str_value (t : Tokens.Token) : P string :=
  match Tokens.value t with
  | Tokens.PStr s => ret s
  | _ => fail Unmodelled
  end.

Definition parse_type_annotation : P string :=
  let* b := match_ [Tokens.TYPE_INT; Tokens.TYPE_FLOAT; Tokens.TYPE_STRING;
               Tokens.TYPE_BOOL; Tokens.TYPE_VOID; Tokens.TYPE_LIST;
               Tokens.TYPE_MAP; Tokens.IDENTIFIER] in
  if b then let* t := advance in str_value t
  else let* t := current_token in fail (ParserError "Expected type annotation" t).

(** The routines below call [parse_expression] and [parse_statement]
    recursively; the knot is tied on the fuel after the section. [n] is
    the fuel of the loops and of the self-recursion of a routine. *)
Variable parse_expression : P expr.

Fixpoint parse_arguments_loop (n : nat) (args : list expr) : P (list expr) :=
  match n with
  | 0 => fail OutOfFuel
  | S n' =>
      let* b := match_ [Tokens.RPAREN] in
      if b then ret args
      else
        let* e := parse_expression in
        let* c := match_ [Tokens.COMMA] in
        if c then advance ;; parse_arguments_loop n' (args ++ [e])
        else ret (args ++ [e])
  end.

Definition parse_arguments (n : nat) : P (list expr) := parse_arguments_loop n [].

Fixpoint parse_list_loop (n : nat) (elements : list expr) : P (list expr) :=
  match n with
  | 0 => fail OutOfFuel
  | S n' =>
      let* b := match_ [Tokens.RBRACKET] in
      if b then ret elements
      else
        let* e := parse_expression in
        let* c := match_ [Tokens.COMMA] in
        if c then advance ;; parse_list_loop n' (elements ++ [e])
        else ret (elements ++ [e])
  end.

Definition parse_list_literal (n : nat) : P expr :=
  expect Tokens.LBRACKET None ;;
  let* elements := parse_list_loop n [] in
  expect Tokens.RBRACKET None ;;
  ret (ListLiteral elements).

Fixpoint parse_map_loop (n : nat) (pairs : list (expr * expr)) : P (list (expr * expr)) :=
  match n with
  | 0 => fail OutOfFuel
  | S n' =>
      let* b := match_ [Tokens.RBRACE] in
      if b then ret pairs
      else
        let* key := parse_expression in
        expect Tokens.COLON None ;;
        let* value := parse_expression in
        skip_newlines_loop n' ;;
        let* c := match_ [Tokens.COMMA] in
        (if c then advance ;; ret tt else ret tt) ;;
        skip_newlines_loop n' ;;
        parse_map_loop n' (pairs ++ [(key, value)])
  end.

Definition parse_map_literal (n : nat) : P expr :=
  expect Tokens.LBRACE None ;;
  skip_newlines_loop n ;;
  let* pairs := parse_map_loop n [] in
  expect Tokens.RBRACE None ;;
  ret (MapLiteral pairs).

Definition parse_primary (n : nat) : P expr :=
  let* token := current_token in
  match Tokens.type token with
  | Tokens.INTEGER =>
      advance ;;
      match Tokens.value token with
      | Tokens.PInt v => ret (IntegerLiteral v)
      | _ => fail Unmodelled
      end
  | Tokens.FLOAT =>
      advance ;;
      match Tokens.value token with
      | Tokens.PFloat v => ret (FloatLiteral v)
      | _ => fail Unmodelled
      end
  | Tokens.STRING =>
      advance ;; let* v := str_value token in ret (StringLiteral v)
  | Tokens.TRUE | Tokens.FALSE =>
      advance ;;
      match Tokens.value token with
      | Tokens.PBool v => ret (BooleanLiteral v)
      | _ => fail Unmodelled
      end
  | Tokens.NULL => advance ;; ret NullLiteral
  | Tokens.IDENTIFIER =>
      advance ;; let* v := str_value token in ret (Identifier v)
  | Tokens.LPAREN =>
      advance ;;
      let* e := parse_expression in
      expect Tokens.RPAREN None ;;
      ret e
  | Tokens.LBRACKET => parse_list_literal n
  | Tokens.LBRACE => parse_map_literal n
  | ty => fail (ParserError ("Unexpected token: " +:+ Tokens.type_name ty) token)
  end.

Fixpoint parse_postfix_loop (n : nat) (e : expr) : P expr :=
  match n with
  | 0 => fail OutOfFuel
  | S n' =>
      let* t := current_token in
      match Tokens.type t with
      | Tokens.LPAREN =>
          advance ;;
          let* args := parse_arguments n' in
          expect Tokens.RPAREN None ;;
          parse_postfix_loop n' (FunctionCall e args)
      | Tokens.DOT =>
          advance ;;
          let* member := expect Tokens.IDENTIFIER None in
          let* m := str_value member in
          let* b := match_ [Tokens.LPAREN] in
          if b then
            advance ;;
            let* args := parse_arguments n' in
            expect Tokens.RPAREN None ;;
            parse_postfix_loop n' (MethodCall e m args)
          else parse_postfix_loop n' (MemberAccess e m)
      | Tokens.LBRACKET =>
          advance ;;
          let* index := parse_expression in
          expect Tokens.RBRACKET None ;;
          parse_postfix_loop n' (IndexAccess e index)
      | _ => ret e
      end
  end.

Definition parse_postfix (n : nat) : P expr :=
  let* e := parse_primary n in parse_postfix_loop n e.

Definition parse_await (n : nat) : P expr :=
  let* b := match_ [Tokens.AWAIT] in
  if b then advance ;; let* e := parse_postfix n in ret (AwaitExpression e)
  else parse_postfix n.

Fixpoint parse_unary (n : nat) : P expr :=
  match n with
  | 0 => fail OutOfFuel
  | S n' =>
      let* b := match_ [Tokens.MINUS; Tokens.BIT_NOT] in
      if b then
        let* t := advance in let* op := str_value t in
        let* operand := parse_unary n' in
        ret (UnaryOp op operand)
      else parse_await n'
  end.

Fixpoint parse_power (n : nat) : P expr :=
  match n with
  | 0 => fail OutOfFuel
  | S n' =>
      let* left := parse_unary n' in
      let* b := match_ [Tokens.POWER] in
      if b then
        let* t := advance in let* op := str_value t in
        let* right := parse_power n' in
        ret (BinaryOp left op right)
      else ret left
  end.

(** The shape shared by the left-associative levels:
    [left = sub(); while match(ops): op = advance().value; right = sub();
    left = node(left, op, right)]. *)
Fixpoint left_assoc_loop (n : nat) (ops : list Tokens.TokenType)
    (sub : P expr) (node : expr -> string -> expr -> expr) (left : expr) : P expr :=
  match n with
  | 0 => fail OutOfFuel
  | S n' =>
      let* b := match_ ops in
      if b then
        let* t := advance in let* op := str_value t in
        let* right := sub in
        left_assoc_loop n' ops sub node (node left op right)
      else ret left
  end.

Definition parse_multiplicative (n : nat) : P expr :=
  let* left := parse_power n in
  left_assoc_loop n [Tokens.MULTIPLY; Tokens.DIVIDE; Tokens.MODULO]
    (parse_power n) BinaryOp left.

Definition parse_additive (n : nat) : P expr :=
  let* left := parse_multiplicative n in
  left_assoc_loop n [Tokens.PLUS; Tokens.MINUS] (parse_multiplicative n) BinaryOp left.

Definition parse_comparison (n : nat) : P expr :=
  let* left := parse_additive n in
  left_assoc_loop n
    [Tokens.EQUAL; Tokens.NOT_EQUAL; Tokens.LESS; Tokens.GREATER;
     Tokens.LESS_EQUAL; Tokens.GREATER_EQUAL]
    (parse_additive n) ComparisonOp left.

Fixpoint parse_not_expression (n : nat) : P expr :=
  match n with
  | 0 => fail OutOfFuel
  | S n' =>
      let* b := match_ [Tokens.NOT] in
      if b then
        advance ;;
        let* operand := parse_not_expression n' in
        ret (UnaryOp "not" operand)
      else parse_comparison n'
  end.

(** [and] and [or] write the operator as a constant, not [advance().value]. *)
Fixpoint logical_loop (n : nat) (kw : Tokens.TokenType) (op : string)
    (sub : P expr) (left : expr) : P expr :=
  match n with
  | 0 => fail OutOfFuel
  | S n' =>
      let* b := match_ [kw] in
      if b then
        advance ;;
        let* right := sub in
        logical_loop n' kw op sub (LogicalOp left op right)
      else ret left
  end.

Definition parse_and_expression (n : nat) : P expr :=
  let* left := parse_not_expression n in
  logical_loop n Tokens.AND "and" (parse_not_expression n) left.

Definition parse_or_expression (n : nat) : P expr :=
  let* left := parse_and_expression n in
  logical_loop n Tokens.OR "or" (parse_and_expression n) left.

End Routines.

(** [parse_expression], the knot tied on the fuel. *)
Fixpoint parse_expression (tokens : list Tokens.Token) (fuel : nat) : P expr :=
  match fuel with
  | 0 => fail OutOfFuel
  | S f => parse_or_expression tokens (parse_expression tokens f) f
  end.

Section Statements.

Variable tokens : list Tokens.Token.

Local Abbreviation current_token := (current_token tokens).
Local Abbreviation advance := (advance tokens).
Local Abbreviation match_ := (match_ tokens).
Local Abbreviation expect := (expect tokens).
Local Abbreviation skip_newlines := (skip_newlines_loop tokens).
Local Abbreviation parse_type_annotation := (parse_type_annotation tokens).
Local Abbreviation parse_expression := (parse_expression tokens).

Definition parse_variable_declaration (n : nat) (is_const : bool) : P stmt :=
  advance ;;
  let* name_token := expect Tokens.IDENTIFIER None in
  let* name := str_value name_token in
  let* c := match_ [Tokens.COLON] in
  let* type_annotation :=
    (if c then advance ;; let* t := parse_type_annotation in ret (Some t)
     else ret None) in
  let* a := match_ [Tokens.ASSIGN] in
  let* value :=
    (if a then advance ;; let* e := parse_expression n in ret (Some e)
     else ret None) in
  ret (VariableDeclaration name type_annotation value is_const).

Fixpoint parse_parameters_loop (n : nat) (parameters : list Param)
    : P (list Param) :=
  match n with
  | 0 => fail OutOfFuel
  | S n' =>
      let* b := match_ [Tokens.RPAREN] in
      if b then ret parameters
      else
        let* name_token := expect Tokens.IDENTIFIER None in
        let* name := str_value name_token in
        let* c := match_ [Tokens.COLON] in
        let* type_annotation :=
          (if c then advance ;; let* t := parse_type_annotation in ret (Some t)
           else ret None) in
        let* a := match_ [Tokens.ASSIGN] in
        let* default :=
          (if a then advance ;; let* e := parse_expression n' in ret (Some e)
           else ret None) in
        let parameters' := parameters ++ [mkParameter name type_annotation default] in
        let* k := match_ [Tokens.COMMA] in
        if k then advance ;; parse_parameters_loop n' parameters'
        else ret parameters'
  end.

Definition parse_parameters (n : nat) : P (list Param) :=
  parse_parameters_loop n [].

Definition parse_return_statement (n : nat) : P stmt :=
  expect Tokens.RETURN None ;;
  let* b := match_ [Tokens.NEWLINE; Tokens.RBRACE; Tokens.EOF] in
  if b then ret (ReturnStatement None)
  else let* e := parse_expression n in ret (ReturnStatement (Some e)).

Fixpoint parse_struct_fields (n : nat) (fields : list (string * string))
    : P (list (string * string)) :=
  match n with
  | 0 => fail OutOfFuel
  | S n' =>
      let* b := match_ [Tokens.RBRACE; Tokens.EOF] in
      if b then ret fields
      else
        let* f := match_ [Tokens.FN] in
        if f then ret fields
        else
          let* field_name := expect Tokens.IDENTIFIER None in
          let* fname := str_value field_name in
          expect Tokens.COLON None ;;
          let* field_type := parse_type_annotation in
          skip_newlines n' ;;
          let* c := match_ [Tokens.COMMA] in
          (if c then advance ;; ret tt else ret tt) ;;
          skip_newlines n' ;;
          parse_struct_fields n' (fields ++ [(fname, field_type)])
  end.

Definition parse_struct_declaration (n : nat) : P stmt :=
  expect Tokens.STRUCT None ;;
  let* name_token := expect Tokens.IDENTIFIER None in
  let* name := str_value name_token in
  skip_newlines n ;;
  expect Tokens.LBRACE None ;;
  skip_newlines n ;;
  let* fields := parse_struct_fields n [] in
  expect Tokens.RBRACE None ;;
  ret (StructDeclaration name fields).

Fixpoint parse_enum_variants (n : nat) (variants : list string) : P (list string) :=
  match n with
  | 0 => fail OutOfFuel
  | S n' =>
      let* b := match_ [Tokens.RBRACE; Tokens.EOF] in
      if b then ret variants
      else
        let* variant := expect Tokens.IDENTIFIER None in
        let* v := str_value variant in
        skip_newlines n' ;;
        let* c := match_ [Tokens.COMMA] in
        (if c then advance ;; ret tt else ret tt) ;;
        skip_newlines n' ;;
        parse_enum_variants n' (variants ++ [v])
  end.

Definition parse_enum_declaration (n : nat) : P stmt :=
  expect Tokens.ENUM None ;;
  let* name_token := expect Tokens.IDENTIFIER None in
  let* name := str_value name_token in
  skip_newlines n ;;
  expect Tokens.LBRACE None ;;
  skip_newlines n ;;
  let* variants := parse_enum_variants n [] in
  expect Tokens.RBRACE None ;;
  ret (EnumDeclaration name variants).

Fixpoint parse_event_fields (n : nat) (fields : list (string * string))
    : P (list (string * string)) :=
  match n with
  | 0 => fail OutOfFuel
  | S n' =>
      let* b := match_ [Tokens.RPAREN] in
      if b then ret fields
      else
        let* field_name := expect Tokens.IDENTIFIER None in
        let* fname := str_value field_name in
        expect Tokens.COLON None ;;
        let* field_type := parse_type_annotation in
        let* c := match_ [Tokens.COMMA] in
        if c then advance ;; parse_event_fields n' (fields ++ [(fname, field_type)])
        else ret (fields ++ [(fname, field_type)])
  end.

Definition parse_event_declaration (n : nat) : P stmt :=
  expect Tokens.EVENT None ;;
  let* name_token := expect Tokens.IDENTIFIER None in
  let* name := str_value name_token in
  expect Tokens.LPAREN None ;;
  let* fields := parse_event_fields n [] in
  expect Tokens.RPAREN None ;;
  ret (EventDeclaration name fields).

Definition parse_emit_statement (n : nat) : P stmt :=
  expect Tokens.EMIT None ;;
  let* event_name := expect Tokens.IDENTIFIER None in
  let* name := str_value event_name in
  expect Tokens.LPAREN None ;;
  let* arguments := parse_arguments tokens (parse_expression n) n in
  expect Tokens.RPAREN None ;;
  ret (EmitStatement name arguments).

(** [parse_expression_or_assignment]: the expression read first becomes
    the target whatever its node class. *)
Definition parse_expression_or_assignment (n : nat) : P stmt :=
  let* e := parse_expression n in
  let* b := match_ [Tokens.ASSIGN; Tokens.PLUS_ASSIGN; Tokens.MINUS_ASSIGN;
               Tokens.MULTIPLY_ASSIGN; Tokens.DIVIDE_ASSIGN] in
  if b then
    let* t := advance in let* op := str_value t in
    let* value := parse_expression n in
    ret (Assignment e op value)
  else ret (ExpressionStatement e).

(** Routines that contain statements take [parse_statement] at a
    smaller fuel. *)
Variable parse_statement : P stmt.

(** Every node is truthy in the host language, so [if stmt:] always
    appends. *)
Fixpoint parse_block_loop (n : nat) (statements : list stmt) : P (list stmt) :=
  match n with
  | 0 => fail OutOfFuel
  | S n' =>
      let* b := match_ [Tokens.RBRACE; Tokens.EOF] in
      if b then ret statements
      else
        let* s := parse_statement in
        skip_newlines n' ;;
        parse_block_loop n' (statements ++ [s])
  end.

Definition parse_block (n : nat) : P (list stmt) :=
  skip_newlines n ;;
  expect Tokens.LBRACE None ;;
  skip_newlines n ;;
  let* statements := parse_block_loop n [] in
  expect Tokens.RBRACE None ;;
  ret statements.

Definition parse_function_declaration (n : nat) (is_async : bool) : P fundecl :=
  expect Tokens.FN None ;;
  let* name_token := expect Tokens.IDENTIFIER None in
  let* name := str_value name_token in
  expect Tokens.LPAREN None ;;
  let* parameters := parse_parameters n in
  expect Tokens.RPAREN None ;;
  let* a := match_ [Tokens.ARROW] in
  let* return_type :=
    (if a then advance ;; let* t := parse_type_annotation in ret (Some t)
     else ret None) in
  let* body := parse_block n in
  ret (mkFunction name parameters return_type body is_async).

Definition parse_async_function (n : nat) : P fundecl :=
  expect Tokens.ASYNC None ;;
  parse_function_declaration n true.

Fixpoint parse_elif_loop (n : nat) (elif_branches : list (expr * list stmt))
    : P (list (expr * list stmt)) :=
  match n with
  | 0 => fail OutOfFuel
  | S n' =>
      let* b := match_ [Tokens.ELIF] in
      if b then
        advance ;;
        let* elif_cond := parse_expression n' in
        let* elif_body := parse_block n' in
        skip_newlines n' ;;
        parse_elif_loop n' (elif_branches ++ [(elif_cond, elif_body)])
      else ret elif_branches
  end.

Definition parse_if_statement (n : nat) : P stmt :=
  expect Tokens.IF None ;;
  let* condition := parse_expression n in
  let* then_branch := parse_block n in
  skip_newlines n ;;
  let* elif_branches := parse_elif_loop n [] in
  let* e := match_ [Tokens.ELSE] in
  let* else_branch :=
    (if e then advance ;; let* b := parse_block n in ret (Some b) else ret None) in
  ret (IfStatement condition then_branch elif_branches else_branch).

Definition parse_while_statement (n : nat) : P stmt :=
  expect Tokens.WHILE None ;;
  let* condition := parse_expression n in
  let* body := parse_block n in
  ret (WhileStatement condition body).

Definition parse_for_statement (n : nat) : P stmt :=
  expect Tokens.FOR None ;;
  let* var_token := expect Tokens.IDENTIFIER None in
  expect Tokens.IN None ;;
  let* iterable := parse_expression n in
  let* body := parse_block n in
  let* v := str_value var_token in
  ret (ForStatement v iterable body).

Definition parse_contract_declaration (n : nat) : P stmt :=
  expect Tokens.CONTRACT None ;;
  let* name_token := expect Tokens.IDENTIFIER None in
  let* body := parse_block n in
  let* name := str_value name_token in
  ret (ContractDeclaration name body).

(** A token that is neither [fn], [async] nor a newline is not consumed
    by this loop of the source, which then does not end. *)
Fixpoint parse_impl_loop (n : nat) (methods : list fundecl) : P (list fundecl) :=
  match n with
  | 0 => fail OutOfFuel
  | S n' =>
      let* b := match_ [Tokens.RBRACE; Tokens.EOF] in
      if b then ret methods
      else
        let* f := match_ [Tokens.FN] in
        let* a := match_ [Tokens.ASYNC] in
        let* methods' :=
          (if f then let* d := parse_function_declaration n' false in ret (methods ++ [d])
           else if a then let* d := parse_async_function n' in ret (methods ++ [d])
           else ret methods) in
        skip_newlines n' ;;
        parse_impl_loop n' methods'
  end.

Definition parse_impl_block (n : nat) : P stmt :=
  expect Tokens.IMPL None ;;
  let* type_name := expect Tokens.IDENTIFIER None in
  skip_newlines n ;;
  expect Tokens.LBRACE None ;;
  skip_newlines n ;;
  let* methods := parse_impl_loop n [] in
  expect Tokens.RBRACE None ;;
  let* name := str_value type_name in
  ret (ImplBlock name methods).

(** The dispatch of [parse_statement] on the leading token. *)
Definition parse_statement_body (n : nat) : P stmt :=
  skip_newlines n ;;
  let* t := current_token in
  match Tokens.type t with
  | Tokens.LET => parse_variable_declaration n false
  | Tokens.CONST => parse_variable_declaration n true
  | Tokens.FN => let* d := parse_function_declaration n false in ret (FunctionDeclaration d)
  | Tokens.ASYNC => let* d := parse_async_function n in ret (FunctionDeclaration d)
  | Tokens.IF => parse_if_statement n
  | Tokens.WHILE => parse_while_statement n
  | Tokens.FOR => parse_for_statement n
  | Tokens.RETURN => parse_return_statement n
  | Tokens.BREAK => advance ;; ret BreakStatement
  | Tokens.CONTINUE => advance ;; ret ContinueStatement
  | Tokens.STRUCT => parse_struct_declaration n
  | Tokens.ENUM => parse_enum_declaration n
  | Tokens.CONTRACT => parse_contract_declaration n
  | Tokens.IMPL => parse_impl_block n
  | Tokens.EMIT => parse_emit_statement n
  | Tokens.EVENT => parse_event_declaration n
  | _ => parse_expression_or_assignment n
  end.

End Statements.

Fixpoint parse_statement (tokens : list Tokens.Token) (fuel : nat) : P stmt :=
  match fuel with
  | 0 => fail OutOfFuel
  | S f => parse_statement_body tokens (parse_statement tokens f) f
  end.

Fixpoint parse_loop (tokens : list Tokens.Token) (fuel n : nat)
    (statements : list stmt) : P Program :=
  match n with
  | 0 => fail OutOfFuel
  | S n' =>
      let* b := match_ tokens [Tokens.EOF] in
      if b then ret statements
      else
        let* s := parse_statement tokens fuel in
        skip_newlines_loop tokens fuel ;;
        parse_loop tokens fuel n' (statements ++ [s])
  end.

(** [Parser(tokens).parse()] *)
Definition parse (tokens : list Tokens.Token) (fuel : nat) : result Program :=
  match (skip_newlines_loop tokens fuel ;; parse_loop tokens fuel fuel []) 0 with
  | Ok (p, _) => Ok p
  | ParserError m t => ParserError m t
  | IndexError => IndexError
  | Unmodelled => Unmodelled
  | OutOfFuel => OutOfFuel
  end.

End Parser.

(** Lexing then parsing a source text. *)
Inductive frontend_result : Type :=
  | Parsed (p : Ast.Program)
  | LexFailure (message : string) (line column : nat)
  | ParseFailure (message : string) (token : Tokens.Token)
  | FrontendOther.

(** Fuel for [Parser.parse]: nesting costs one unit per level and every
    loop iterates at most once per token. *)
Definition parse_fuel (toks : list Tokens.Token) : nat := length toks + 16.

Definition parse_source (src : string) : frontend_result :=
  match Lexer.tokenize src with
  | Some (Lexer.Ok toks) =>
      match Parser.parse toks (parse_fuel toks) with
      | Parser.Ok p => Parsed p
      | Parser.ParserError m t => ParseFailure m t
      | _ => FrontendOther
      end
  | Some (Lexer.LexerError m l c) => LexFailure m l c
  | _ => FrontendOther
  end.

(** ** Bytecode (vm.py: OpCode, Instruction, CompiledFunction) *)

Module Bytecode.

Inductive OpCode : Set :=
  | PUSH | POP | DUP
  | ADD | SUB | MUL | DIV | MOD | POW | NEG
  | EQ | NE | LT | GT | LE | GE
  | AND | OR | NOT
  | BIT_AND | BIT_OR | BIT_XOR | BIT_NOT | SHL | SHR
  | LOAD | STORE | LOAD_CONST | DEFINE
  | JUMP | JUMP_IF_FALSE | JUMP_IF_TRUE | LOOP
  | CALL | RETURN
  | BUILD_LIST | BUILD_MAP | INDEX | STORE_INDEX
  | GET_ATTR | SET_ATTR
  | PRINT | HALT | NOP.

(** The operand of an instruction: the host values the compiler puts
    there. [ArgNone] is [None], also the operand of an instruction
    without one. *)
Inductive operand_value : Type :=
  | ArgNone
  | ArgBool (b : bool)
  | ArgInt (n : Z)
  | ArgFloat (f : float)
  | ArgStr (s : string)
  | ArgPair (name : string) (slot : nat).

Record Instruction : Type := mkInstruction {
  opcode : OpCode;
  operand : operand_value
}.

Record CompiledFunction : Type := mkCompiledFunction {
  name : string;
  params : list string;
  code : list Instruction;
  num_locals : nat
}.

End Bytecode.

(** ** Values and primitives of the host language

    The runtime values of both backends are host values. Lists, dicts
    and struct instances are objects in a heap; environments are
    objects in a store of their own. *)

Module Py.

Import Chars.

(** Locations of heap objects and of environments are numbers. *)
Abbreviation loc := nat.
Abbreviation env_id := nat.

(** The bound methods [Interpreter._builtin_*]. *)
Inductive builtin : Set :=
  | b_print | b_println | b_len | b_range | b_str | b_int | b_float
  | b_type | b_input | b_append | b_pop | b_keys | b_values
  | b_abs | b_min | b_max | b_sum.

(** The host callables in [VirtualMachine.globals]. *)
Inductive vm_builtin : Set :=
  | vm_print | vm_println | vm_len | vm_range | vm_str | vm_int
  | vm_float | vm_abs | vm_min | vm_max | vm_sum.

Inductive value : Type :=
  | VNone
  | VBool (b : bool)
  | VInt (n : Z)
  | VFloat (f : float)
  | VStr (s : string)
  | VList (l : loc)
  | VDict (l : loc)
  | VTuple (items : list value)
  | VBuiltin (b : builtin)
  | VFunction (id : nat) (declaration : Ast.fundecl) (closure : env_id)
  | VStruct (id : nat) (name : string) (fields : list (string * string))
  | VInstance (l : loc)
  | VEnv (e : env_id)
  | VHostFn (b : vm_builtin)
  | VCompiled (id : nat) (f : Bytecode.CompiledFunction)
  | VBoundMethod (self : value) (name : string).

(** Heap objects. A dict keeps the insertion order of its keys. A
    struct instance holds its struct and its [values] dict. *)
Inductive obj : Type :=
  | OList (items : list value)
  | ODict (items : list (value * value))
  | OInstance (struct : value) (values : list (string * value)).

(** Exceptions. The first four are classes of interpreter.py (its
    [RuntimeError] shadows the host's); the others are host exceptions,
    kept without their message, except the host's own [RuntimeError],
    which vm.py raises with one. *)
Inductive exn : Type :=
  | RuntimeError (msg : string)
  | ReturnValue (v : value)
  | BreakException
  | ContinueException
  | TypeError
  | IndexError
  | KeyError
  | ValueError
  | ZeroDivisionError
  | AttributeError
  | HostRuntimeError (message : string).

Inductive outcome (A : Type) : Type :=
  | Val (a : A)
  | Raise (e : exn)
  | Unmodelled
  | OutOfFuel.
Arguments Val {A} a.
Arguments Raise {A} e.
Arguments Unmodelled {A}.
Arguments OutOfFuel {A}.

(** *** Kinds *)

(** [type(v).__name__] *)
Definition type_name (v : value) : string :=
  match v with
  | VNone => "NoneType"
  | VBool _ => "bool"
  | VInt _ => "int"
  | VFloat _ => "float"
  | VStr _ => "str"
  | VList _ => "list"
  | VDict _ => "dict"
  | VTuple _ => "tuple"
  | VBuiltin _ => "method"
  | VFunction _ _ _ => "CactUScriptFunction"
  | VStruct _ _ _ => "CactUScriptStruct"
  | VInstance _ => "CactUScriptInstance"
  | VEnv _ => "Environment"
  | VHostFn vm_print | VHostFn vm_println | VHostFn vm_range => "function"
  | VHostFn vm_str | VHostFn vm_int | VHostFn vm_float => "type"
  | VHostFn _ => "builtin_function_or_method"
  | VCompiled _ _ => "CompiledFunction"
  | VBoundMethod _ _ => "method-wrapper"
  end.

(** Booleans and integers as integers, floats as floats: the numeric
    tower of the host. *)
Inductive num : Type :=
  | NInt (z : Z)
  | NFloat (f : float).

Definition as_num (v : value) : option num :=
  match v with
  | VBool b => Some (NInt (if b then 1 else 0)%Z)
  | VInt n => Some (NInt n)
  | VFloat f => Some (NFloat f)
  | _ => None
  end.

Definition as_int (v : value) : option Z :=
  match v with
  | VBool b => Some (if b then 1 else 0)%Z
  | VInt n => Some n
  | _ => None
  end.

(** An integer as a float, where the conversion is exact. *)
Definition to_float (n : num) : option float :=
  match n with
  | NFloat f => Some f
  | NInt z => if exact_float_range z then Some (float_of_Z z) else None
  end.

Definition is_nan (f : float) : bool := negb (PrimFloat.eqb f f).

(** *** Equality ([==]) *)

(** [==] on two numbers; [None] where an integer beyond the exactly
    represented range meets a float. *)
Definition num_eq (a b : num) : option bool :=
  match a, b with
  | NInt x, NInt y => Some (Z.eqb x y)
  | _, _ =>
      match to_float a, to_float b with
      | Some x, Some y => Some (PrimFloat.eqb x y)
      | _, _ => None
      end
  end.

(** Is [v] the same object as [w]? Decided for objects with identity;
    for immutable scalars the host may or may not share objects, and
    only floats tell the difference (a NaN equals itself in a container
    exactly when it is the same object). *)
Definition same_object (v w : value) : option bool :=
  match v, w with
  | VList a, VList b | VDict a, VDict b | VInstance a, VInstance b
  | VEnv a, VEnv b => Some (Nat.eqb a b)
  | VFunction a _ _, VFunction b _ _ | VStruct a _ _, VStruct b _ _
  | VCompiled a _, VCompiled b _ => Some (Nat.eqb a b)
  | VFloat a, VFloat b => if is_nan a || is_nan b then None else Some false
  | _, _ => Some false
  end.

Definition builtin_eqb (a b : builtin) : bool :=
  match a, b with
  | b_print, b_print | b_println, b_println | b_len, b_len | b_range, b_range
  | b_str, b_str | b_int, b_int | b_float, b_float | b_type, b_type
  | b_input, b_input | b_append, b_append | b_pop, b_pop | b_keys, b_keys
  | b_values, b_values | b_abs, b_abs | b_min, b_min | b_max, b_max
  | b_sum, b_sum => true
  | _, _ => false
  end.

Definition vm_builtin_eqb (a b : vm_builtin) : bool :=
  match a, b with
  | vm_print, vm_print | vm_println, vm_println | vm_len, vm_len
  | vm_range, vm_range | vm_str, vm_str | vm_int, vm_int | vm_float, vm_float
  | vm_abs, vm_abs | vm_min, vm_min | vm_max, vm_max | vm_sum, vm_sum => true
  | _, _ => false
  end.

Section Equality.

Variable heap : list obj.

(** [all(x is y or x == y for x, y in zip(xs, ys))], left to right. *)
Fixpoint all_eq (eq : value -> value -> option bool) (xs ys : list value)
    : option bool :=
  match xs, ys with
  | [], [] => Some true
  | x :: xs', y :: ys' =>
      match same_object x y with
      | None => None
      | Some true => all_eq eq xs' ys'
      | Some false =>
          match eq x y with
          | Some true => all_eq eq xs' ys'
          | r => r
          end
      end
  | _, _ => Some false
  end.

(** Dict lookup by key among hashable keys of one dict. Float keys are
    not embedded. *)
Definition hashable (v : value) : option bool :=
  match v with
  | VList _ | VDict _ | VCompiled _ _ => Some false
  | VFloat _ => None
  | VTuple _ => None
  | VBoundMethod _ _ => None
  | _ => Some true
  end.

(** Equality of two hashable keys: numbers by value, strings by
    content, every other object by identity. *)
Definition key_eqb (k k' : value) : bool :=
  match as_int k, as_int k' with
  | Some a, Some b => Z.eqb a b
  | None, None =>
      match k, k' with
      | VNone, VNone => true
      | VStr a, VStr b => String.eqb a b
      | VBuiltin a, VBuiltin b => builtin_eqb a b
      | VHostFn a, VHostFn b => vm_builtin_eqb a b
      | VFunction a _ _, VFunction b _ _ | VStruct a _ _, VStruct b _ _
      | VCompiled a _, VCompiled b _ => Nat.eqb a b
      | VInstance a, VInstance b | VEnv a, VEnv b => Nat.eqb a b
      | _, _ => false
      end
  | _, _ => false
  end.

Fixpoint dict_lookup (k : value) (items : list (value * value)) : option value :=
  match items with
  | [] => None
  | (k', v) :: items' => if key_eqb k k' then Some v else dict_lookup k items'
  end.

(** [d[k] = v]: an existing key keeps its place and its key object. *)
Fixpoint dict_set (k v : value) (items : list (value * value))
    : list (value * value) :=
  match items with
  | [] => [(k, v)]
  | (k', v') :: items' =>
      if key_eqb k k' then (k', v) :: items'
      else (k', v') :: dict_set k v items'
  end.

(** [a == b] for dicts: same size and every key of [a] is in [b] with
    an equal value. *)
Fixpoint dict_eq (eq : value -> value -> option bool)
    (xs ys : list (value * value)) : option bool :=
  match xs with
  | [] => Some true
  | (k, v) :: xs' =>
      match dict_lookup k ys with
      | None => Some false
      | Some w =>
          match same_object v w with
          | None => None
          | Some true => dict_eq eq xs' ys
          | Some false =>
              match eq v w with
              | Some true => dict_eq eq xs' ys
              | r => r
              end
          end
      end
  end.

(** [a == b]. The fuel bounds the nesting of containers that is
    followed; [None] is running out of it or a comparison that is not
    embedded. Values of different kinds are unequal without looking
    further, except numbers, which compare by value. *)
Fixpoint py_eq (fuel : nat) (a b : value) : option bool :=
  match as_num a, as_num b with
  | Some x, Some y => num_eq x y
  | _, _ =>
      match a, b with
      | VNone, VNone => Some true
      | VStr s, VStr t => Some (String.eqb s t)
      | VList l, VList m =>
          if Nat.eqb l m then Some true
          else match fuel, heap !! l, heap !! m with
               | S f, Some (OList xs), Some (OList ys) => all_eq (py_eq f) xs ys
               | _, _, _ => None
               end
      | VDict l, VDict m =>
          if Nat.eqb l m then Some true
          else match fuel, heap !! l, heap !! m with
               | S f, Some (ODict xs), Some (ODict ys) =>
                   if Nat.eqb (length xs) (length ys) then dict_eq (py_eq f) xs ys
                   else Some false
               | _, _, _ => None
               end
      | VTuple xs, VTuple ys =>
          match fuel with
          | S f => all_eq (py_eq f) xs ys
          | 0 => None
          end
      | VBuiltin x, VBuiltin y => Some (builtin_eqb x y)
      | VHostFn x, VHostFn y => Some (vm_builtin_eqb x y)
      | VFunction x _ _, VFunction y _ _ => Some (Nat.eqb x y)
      | VStruct x _ _, VStruct y _ _ => Some (Nat.eqb x y)
      | VInstance x, VInstance y => Some (Nat.eqb x y)
      | VEnv x, VEnv y => Some (Nat.eqb x y)
      | VCompiled x _, VCompiled y _ => if Nat.eqb x y then Some true else None
      | VBoundMethod _ _, VBoundMethod _ _ => None
      | _, _ => Some false
      end
  end.

End Equality.

(** *** The host state and its monad *)

Record world : Type := mkWorld {
  heap : list obj;
  stdout : string;
  next_id : nat
}.

Definition H (A : Type) : Type := world -> outcome A * world.

Definition hret {A} (a : A) : H A := fun w => (Val a, w).
Definition hraise {A} (e : exn) : H A := fun w => (Raise e, w).
Definition hunmodelled {A} : H A := fun w => (Unmodelled, w).

Definition hbind {A B} (m : H A) (k : A -> H B) : H B :=
  fun w =>
    match m w with
    | (Val a, w') => k a w'
    | (Raise e, w') => (Raise e, w')
    | (Unmodelled, w') => (Unmodelled, w')
    | (OutOfFuel, w') => (OutOfFuel, w')
    end.

Definition of_outcome {A} (r : outcome A) : H A := fun w => (r, w).

(** A value computed from the heap without changing it; [None] is
    outside the embedding. *)
Definition of_heap {A} (f : list obj -> option A) : H A :=
  fun w => match f (heap w) with
           | Some a => (Val a, w)
           | None => (Unmodelled, w)
           end.

Module HNotations.
Notation "'let*' x := m 'in' k" := (hbind m (fun x => k))
  (at level 10, x name, m at level 100, k at level 200, only parsing).
Notation "m ;; k" := (hbind m (fun _ => k))
  (at level 100, k at level 200, right associativity, only parsing).
End HNotations.
Import HNotations.

Definition alloc (o : obj) : H loc :=
  fun w => (Val (length (heap w)),
            {| heap := heap w ++ [o]; stdout := stdout w; next_id := next_id w |}).

Definition get_obj (l : loc) : H obj :=
  fun w => match heap w !! l with
           | Some o => (Val o, w)
           | None => (Unmodelled, w)
           end.

Definition set_obj (l : loc) (o : obj) : H unit :=
  fun w => (Val tt,
            {| heap := <[l:=o]> (heap w); stdout := stdout w; next_id := next_id w |}).

Definition get_list (l : loc) : H (list value) :=
  let* o := get_obj l in
  match o with OList xs => hret xs | _ => hunmodelled end.

Definition get_dict (l : loc) : H (list (value * value)) :=
  let* o := get_obj l in
  match o with ODict xs => hret xs | _ => hunmodelled end.

Definition new_list (xs : list value) : H value :=
  let* l := alloc (OList xs) in hret (VList l).

Definition new_dict (xs : list (value * value)) : H value :=
  let* l := alloc (ODict xs) in hret (VDict l).

(** Identity of a new function or struct object. *)
Definition fresh_id : H nat :=
  fun w => (Val (next_id w),
            {| heap := heap w; stdout := stdout w; next_id := S (next_id w) |}).

(** Text written to standard output. *)
Definition write (s : string) : H unit :=
  fun w => (Val tt,
            {| heap := heap w; stdout := stdout w +:+ s; next_id := next_id w |}).

(** *** Truthiness *)

(** [Interpreter._is_truthy] *)
Definition is_truthy (v : value) : H bool :=
  match v with
  | VNone => hret false
  | VBool b => hret b
  | VInt n => hret (negb (Z.eqb n 0))
  | VFloat f => hret (negb (PrimFloat.eqb f PrimFloat.zero))
  | VStr s => hret (0 <? String.length s)
  | VList l => let* xs := get_list l in hret (0 <? length xs)
  | VDict l => let* xs := get_dict l in hret (0 <? length xs)
  | _ => hret true
  end.

(** [bool(v)] of the host, as [not v] of the VM uses it. *)
Definition py_bool (v : value) : H bool :=
  match v with
  | VTuple xs => hret (0 <? length xs)
  | _ => is_truthy v
  end.

(** *** Ordering *)

Inductive order_op : Set := OLt | OGt | OLe | OGe.

Definition order_Z (o : order_op) (x y : Z) : bool :=
  match o with
  | OLt => Z.ltb x y | OGt => Z.ltb y x | OLe => Z.leb x y | OGe => Z.leb y x
  end.

Definition order_float (o : order_op) (x y : float) : bool :=
  match o with
  | OLt => PrimFloat.ltb x y | OGt => PrimFloat.ltb y x
  | OLe => PrimFloat.leb x y | OGe => PrimFloat.leb y x
  end.

Definition order_string (o : order_op) (x y : string) : bool :=
  match o, String.compare x y with
  | OLt, Lt | OGt, Gt | OLe, Lt | OLe, Eq | OGe, Gt | OGe, Eq => true
  | _, _ => false
  end.

(** [a < b] and the like: numbers and strings; sequences compare
    element by element in the host and are not embedded; every other
    pair raises [TypeError]. *)
Definition py_order (o : order_op) (a b : value) : outcome bool :=
  match as_num a, as_num b with
  | Some (NInt x), Some (NInt y) => Val (order_Z o x y)
  | Some x, Some y =>
      match to_float x, to_float y with
      | Some f, Some g => Val (order_float o f g)
      | _, _ => Unmodelled
      end
  | _, _ =>
      match a, b with
      | VStr s, VStr t => Val (order_string o s t)
      | VList _, VList _ | VTuple _, VTuple _ => Unmodelled
      | _, _ => Raise TypeError
      end
  end.

(** *** Arithmetic and bitwise operators *)

Fixpoint repeat_list {A} (n : nat) (xs : list A) : list A :=
  match n with
  | 0 => []
  | S n' => xs ++ repeat_list n' xs
  end.

Fixpoint repeat_string (n : nat) (s : string) : string :=
  match n with
  | 0 => ""
  | S n' => s +:+ repeat_string n' s
  end.

Definition float_binop (f : float -> float -> float) (x y : num) : H value :=
  match to_float x, to_float y with
  | Some a, Some b => hret (VFloat (f a b))
  | _, _ => hunmodelled
  end.

Definition num_is_zero (n : num) : bool :=
  match n with
  | NInt z => Z.eqb z 0
  | NFloat f => PrimFloat.eqb f PrimFloat.zero
  end.

(** [a + b] *)
Definition py_add (a b : value) : H value :=
  match as_num a, as_num b with
  | Some (NInt x), Some (NInt y) => hret (VInt (x + y))
  | Some x, Some y => float_binop PrimFloat.add x y
  | _, _ =>
      match a, b with
      | VStr s, VStr t => hret (VStr (s +:+ t))
      | VList l, VList m =>
          let* xs := get_list l in
          let* ys := get_list m in
          new_list (xs ++ ys)
      | VTuple xs, VTuple ys => hret (VTuple (xs ++ ys))
      | _, _ => hraise TypeError
      end
  end.

(** [a - b] *)
Definition py_sub (a b : value) : H value :=
  match as_num a, as_num b with
  | Some (NInt x), Some (NInt y) => hret (VInt (x - y))
  | Some x, Some y => float_binop PrimFloat.sub x y
  | _, _ => hraise TypeError
  end.

(** [a * b]: numbers, and a sequence repeated by an integer. *)
Definition py_mul (a b : value) : H value :=
  match as_num a, as_num b with
  | Some (NInt x), Some (NInt y) => hret (VInt (x * y))
  | Some x, Some y => float_binop PrimFloat.mul x y
  | _, _ =>
      let seq_times (s : value) (n : Z) : H value :=
        match s with
        | VStr t => hret (VStr (repeat_string (Z.to_nat n) t))
        | VList l => let* xs := get_list l in new_list (repeat_list (Z.to_nat n) xs)
        | VTuple xs => hret (VTuple (repeat_list (Z.to_nat n) xs))
        | _ => hraise TypeError
        end in
      match as_int a, as_int b with
      | _, Some n => seq_times a n
      | Some n, _ => seq_times b n
      | _, _ => hraise TypeError
      end
  end.

(** [a / b]: true division; of two integers it is the correctly rounded
    quotient, which one IEEE division gives when both are exact. *)
Definition py_div (a b : value) : H value :=
  match as_num a, as_num b with
  | Some x, Some y =>
      if num_is_zero y then hraise ZeroDivisionError
      else float_binop PrimFloat.div x y
  | _, _ => hraise TypeError
  end.

(** [a % b]: the remainder has the sign of the divisor. Float remainder
    and string formatting are not embedded. *)
Definition py_mod (a b : value) : H value :=
  match as_num a, as_num b with
  | Some (NInt x), Some (NInt y) =>
      if Z.eqb y 0 then hraise ZeroDivisionError else hret (VInt (x mod y))
  | Some _, Some y =>
      if num_is_zero y then hraise ZeroDivisionError else hunmodelled
  | _, _ =>
      match a with
      | VStr _ => hunmodelled
      | _ => hraise TypeError
      end
  end.

(** [a ** b]: integer powers; a negative exponent or a float gives a
    float computed by the host's [pow], which is not embedded. *)
Definition py_pow (a b : value) : H value :=
  match as_num a, as_num b with
  | Some (NInt x), Some (NInt y) =>
      if (0 <=? y)%Z then hret (VInt (x ^ y))
      else if Z.eqb x 0 then hraise ZeroDivisionError
      else hunmodelled
  | Some _, Some _ => hunmodelled
  | _, _ => hraise TypeError
  end.

(** [&], [|], [^]: integers in two's complement; two booleans give a
    boolean. Dict union by [|] is not embedded. *)
Definition py_bitop (fz : Z -> Z -> Z) (fb : bool -> bool -> bool)
    (is_or : bool) (a b : value) : H value :=
  match a, b with
  | VBool x, VBool y => hret (VBool (fb x y))
  | VDict _, VDict _ => if is_or then hunmodelled else hraise TypeError
  | _, _ =>
      match as_int a, as_int b with
      | Some x, Some y => hret (VInt (fz x y))
      | _, _ => hraise TypeError
      end
  end.

(** [a << b], [a >> b]: a negative count raises [ValueError]. *)
Definition py_shift (f : Z -> Z -> Z) (a b : value) : H value :=
  match as_int a, as_int b with
  | Some x, Some y =>
      if (y <? 0)%Z then hraise ValueError else hret (VInt (f x y))
  | _, _ => hraise TypeError
  end.

(** [-a] *)
Definition py_neg (a : value) : H value :=
  match as_num a with
  | Some (NInt x) => hret (VInt (- x))
  | Some (NFloat f) => hret (VFloat (PrimFloat.opp f))
  | None => hraise TypeError
  end.

(** [~a] *)
Definition py_invert (a : value) : H value :=
  match as_int a with
  | Some x => hret (VInt (Z.lnot x))
  | None => hraise TypeError
  end.

(** [a == b] and [a != b] as values. *)
Definition py_eq_value (negate : bool) (a b : value) : H value :=
  of_heap (fun h =>
    match py_eq h (S (length h)) a b with
    | Some r => Some (VBool (if negate then negb r else r))
    | None => None
    end).

Definition py_order_value (o : order_op) (a b : value) : H value :=
  let* r := of_outcome (py_order o a b) in hret (VBool r).

(** *** Subscripts *)

(** A sequence index: negative indices count from the end. *)
Definition norm_index (len : nat) (i : Z) : option nat :=
  let j := if (i <? 0)%Z then (i + Z.of_nat len)%Z else i in
  if (0 <=? j)%Z && (j <? Z.of_nat len)%Z then Some (Z.to_nat j) else None.

Definition check_hashable (k : value) : H unit :=
  match hashable k with
  | Some true => hret tt
  | Some false => hraise TypeError
  | None => hunmodelled
  end.

(** [obj[index]] *)
Definition py_getitem (o index : value) : H value :=
  match o with
  | VList l =>
      let* xs := get_list l in
      match as_int index with
      | Some i =>
          match norm_index (length xs) i with
          | Some j => match xs !! j with Some v => hret v | None => hunmodelled end
          | None => hraise IndexError
          end
      | None => hraise TypeError
      end
  | VTuple xs =>
      match as_int index with
      | Some i =>
          match norm_index (length xs) i with
          | Some j => match xs !! j with Some v => hret v | None => hunmodelled end
          | None => hraise IndexError
          end
      | None => hraise TypeError
      end
  | VStr s =>
      match as_int index with
      | Some i =>
          match norm_index (String.length s) i with
          | Some j => match String.get j s with
                      | Some c => hret (VStr (String c ""))
                      | None => hunmodelled
                      end
          | None => hraise IndexError
          end
      | None => hraise TypeError
      end
  | VDict l =>
      let* xs := get_dict l in
      check_hashable index ;;
      match dict_lookup index xs with
      | Some v => hret v
      | None => hraise KeyError
      end
  | _ => hraise TypeError
  end.

(** [obj[index] = v] *)
Definition py_setitem (o index v : value) : H unit :=
  match o with
  | VList l =>
      let* xs := get_list l in
      match as_int index with
      | Some i =>
          match norm_index (length xs) i with
          | Some j => set_obj l (OList (<[j:=v]> xs))
          | None => hraise IndexError
          end
      | None => hraise TypeError
      end
  | VDict l =>
      let* xs := get_dict l in
      check_hashable index ;;
      set_obj l (ODict (dict_set index v xs))
  | _ => hraise TypeError
  end.

(** [dict(pairs)] built by successive stores. *)
Fixpoint dict_of_pairs (pairs : list (value * value)) (acc : list (value * value))
    : list (value * value) :=
  match pairs with
  | [] => acc
  | (k, v) :: rest => dict_of_pairs rest (dict_set k v acc)
  end.

(** *** Text of values: [repr] and [str] *)

Fixpoint join (sep : string) (xs : list string) : string :=
  match xs with
  | [] => ""
  | [x] => x
  | x :: xs' => x +:+ sep +:+ join sep xs'
  end.

Fixpoint option_map_all {A B} (f : A -> option B) (xs : list A) : option (list B) :=
  match xs with
  | [] => Some []
  | x :: xs' =>
      match f x, option_map_all f xs' with
      | Some y, Some ys => Some (y :: ys)
      | _, _ => None
      end
  end.

(** The body of [repr] of a string quoted by [q]; control characters
    other than newline, tab and carriage return, and non-ASCII
    characters, are not embedded. *)
Fixpoint repr_chars (q : ascii) (s : string) : option string :=
  match s with
  | EmptyString => Some ""
  | String c s' =>
      match repr_chars q s' with
      | None => None
      | Some r =>
          if Ascii.eqb c backslash then Some (String backslash (String backslash r))
          else if Ascii.eqb c q then Some (String backslash (String c r))
          else if Ascii.eqb c nl then Some (String backslash (String "n" r))
          else if Ascii.eqb c tab then Some (String backslash (String "t" r))
          else if Ascii.eqb c cr then Some (String backslash (String "r" r))
          else if (32 <=? code c) && (code c <? 127) then Some (String c r)
          else None
      end
  end.

(** [repr(s)]: single quotes, unless the string has a single quote and
    no double quote. *)
Definition repr_string (s : string) : option string :=
  let q := if char_in squote s && negb (char_in dquote s) then dquote else squote in
  match repr_chars q s with
  | Some r => Some (String q r +:+ String q "")
  | None => None
  end.

Definition loc_in (l : loc) (ls : list loc) : bool := existsb (Nat.eqb l) ls.

(** [repr(v)]. [visiting] holds the containers whose text is being
    built: the host prints [[...]] or [{...}] on meeting one again. The
    text of floats and of objects printed with their address is not
    embedded, nor is the conversion of an integer of more digits than
    the host converts, which raises there. *)
Fixpoint repr_aux (fuel : nat) (h : list obj) (visiting : list loc) (v : value)
    : option string :=
  match fuel with
  | 0 => None
  | S f =>
      let repr_dict (l : loc) (items : list (value * value)) : option string :=
        if loc_in l visiting then Some "{...}"
        else
          match option_map_all
                  (fun kv => match repr_aux f h (l :: visiting) (fst kv),
                                   repr_aux f h (l :: visiting) (snd kv) with
                             | Some a, Some b => Some (a +:+ ": " +:+ b)
                             | _, _ => None
                             end) items with
          | Some parts => Some ("{" +:+ join ", " parts +:+ "}")
          | None => None
          end in
      match v with
      | VNone => Some "None"
      | VBool true => Some "True"
      | VBool false => Some "False"
      | VInt n =>
          if String.length (pretty (Z.abs n)) <=? Lexer.max_str_digits
          then Some (pretty n) else None
      | VFloat _ => None
      | VStr s => repr_string s
      | VList l =>
          if loc_in l visiting then Some "[...]"
          else
            match h !! l with
            | Some (OList xs) =>
                match option_map_all (repr_aux f h (l :: visiting)) xs with
                | Some parts => Some ("[" +:+ join ", " parts +:+ "]")
                | None => None
                end
            | _ => None
            end
      | VDict l =>
          match h !! l with
          | Some (ODict items) => repr_dict l items
          | _ => None
          end
      | VTuple xs =>
          match option_map_all (repr_aux f h visiting) xs with
          | Some [p] => Some ("(" +:+ p +:+ ",)")
          | Some parts => Some ("(" +:+ join ", " parts +:+ ")")
          | None => None
          end
      | VFunction _ d _ => Some ("<function " +:+ Ast.fn_name d +:+ ">")
      | VStruct _ n _ => Some ("<struct " +:+ n +:+ ">")
      | VInstance l =>
          match h !! l with
          | Some (OInstance (VStruct _ n _) vals) =>
              match repr_dict l (map (fun kv => (VStr (fst kv), snd kv)) vals) with
              | Some d => Some (n +:+ "(" +:+ d +:+ ")")
              | None => None
              end
          | _ => None
          end
      | _ => None
      end
  end.

(** The nesting that [repr] follows is bounded by the number of heap
    objects, each entered at most once, and by the depth of tuples. *)
Fixpoint tuple_depth (v : value) : nat :=
  match v with
  | VTuple xs => S (fold_right (fun x d => Nat.max (tuple_depth x) d) 0 xs)
  | _ => 0
  end.

Definition heap_tuple_depth (h : list obj) : nat :=
  fold_right
    (fun o d =>
       match o with
       | OList xs => fold_right (fun x e => Nat.max (tuple_depth x) e) d xs
       | ODict kvs =>
           fold_right (fun kv e => Nat.max (tuple_depth (fst kv))
                                     (Nat.max (tuple_depth (snd kv)) e)) d kvs
       | OInstance _ vals =>
           fold_right (fun kv e => Nat.max (tuple_depth (snd kv)) e) d vals
       end) 0 h.

Definition repr_fuel (h : list obj) (v : value) : nat :=
  S (tuple_depth v) + S (length h) * S (heap_tuple_depth h).

Definition py_repr_opt (h : list obj) (v : value) : option string :=
  repr_aux (repr_fuel h v) h [] v.

Definition py_repr (v : value) : H string := of_heap (fun h => py_repr_opt h v).

(** [str(v)] *)
Definition py_str (v : value) : H string :=
  match v with
  | VStr s => hret s
  | _ => py_repr v
  end.

(** [repr] of a fresh host list of values, as in an f-string. *)
Definition repr_args (h : list obj) (args : list value) : option string :=
  match option_map_all (py_repr_opt h) args with
  | Some parts => Some ("[" +:+ join ", " parts +:+ "]")
  | None => None
  end.

Fixpoint hmap {A B} (f : A -> H B) (xs : list A) : H (list B) :=
  match xs with
  | [] => hret []
  | x :: xs' => let* y := f x in let* ys := hmap f xs' in hret (y :: ys)
  end.

(** [print] of the items of [args] with [end=e] *)
Definition py_print (args : list value) (e : string) : H value :=
  let* parts := hmap py_str args in
  write (join " " parts +:+ e) ;;
  hret VNone.

(** *** Sorting, minimum, maximum, sum *)

(** Insert [x] after the elements that are not greater: with the items
    taken from left to right the sort is stable, as the host's is. *)
Fixpoint insert_sorted {A} (lt : A -> A -> bool) (x : A) (l : list A) : list A :=
  match l with
  | [] => [x]
  | y :: l' => if lt x y then x :: l else y :: insert_sorted lt x l'
  end.

Definition stable_sort {A} (lt : A -> A -> bool) (l : list A) : list A :=
  fold_left (fun acc x => insert_sorted lt x acc) l [].

Definition is_some {A} (o : option A) : bool :=
  match o with Some _ => true | None => false end.

Definition float_key (v : value) : option float :=
  match as_num v with
  | Some n => match to_float n with
              | Some f => if is_nan f then None else Some f
              | None => None
              end
  | None => None
  end.

Definition lt_by {A B} (key : A -> option B) (lt : B -> B -> bool) (x y : A) : bool :=
  match key x, key y with
  | Some a, Some b => lt a b
  | _, _ => false
  end.

Definition str_key (v : value) : option string :=
  match v with VStr s => Some s | _ => None end.

Definition is_sequence (v : value) : bool :=
  match v with VList _ | VTuple _ => true | _ => false end.

(** [x < y] as the sort asks the host; [py_sorted] sorts by it where
    no comparison fails. *)
Definition sort_lt (x y : value) : bool :=
  match py_order OLt x y with
  | Val b => b
  | _ => false
  end.

(** [sorted(xs)]. A list of fewer than two items is copied without a
    comparison. Integers (and booleans) sort by value, numbers with
    floats by the host's [<] where the order is total and exactly
    represented, strings by code points. Any comparison sort compares
    the items that end up adjacent, so two items of kinds the host does
    not order raise [TypeError]; lists of sequences are not embedded. *)
Definition py_sorted (xs : list value) : outcome (list value) :=
  if length xs <=? 1 then Val xs
  else if forallb (fun v => is_some (as_int v)) xs
  then Val (stable_sort (lt_by as_int Z.ltb) xs)
  else if forallb (fun v => is_some (as_num v)) xs
  then if forallb (fun v => is_some (float_key v)) xs
       then Val (stable_sort sort_lt xs)
       else Unmodelled
  else if forallb (fun v => is_some (str_key v)) xs
  then Val (stable_sort (lt_by str_key (order_string OLt)) xs)
  else if forallb is_sequence xs then Unmodelled
  else Raise TypeError.

(** [min(xs)] / [max(xs)] of a non-empty sequence: the first extreme
    item, found with [<] (respectively [>]). *)
Fixpoint extreme (o : order_op) (best : value) (xs : list value) : outcome value :=
  match xs with
  | [] => Val best
  | x :: xs' =>
      match py_order o x best with
      | Val true => extreme o x xs'
      | Val false => extreme o best xs'
      | Raise e => Raise e
      | Unmodelled => Unmodelled
      | OutOfFuel => OutOfFuel
      end
  end.

Definition py_extreme (o : order_op) (xs : list value) : H value :=
  match xs with
  | [] => hraise ValueError
  | x :: xs' => of_outcome (extreme o x xs')
  end.

Fixpoint chars_of (s : string) : list value :=
  match s with
  | EmptyString => []
  | String c s' => VStr (String c "") :: chars_of s'
  end.

(** The items that iterating over [v] yields, when nothing changes [v]
    meanwhile. *)
Definition iter_items (v : value) : H (list value) :=
  match v with
  | VList l => get_list l
  | VTuple xs => hret xs
  | VStr s => hret (chars_of s)
  | VDict l => let* kvs := get_dict l in hret (map fst kvs)
  | _ => hraise TypeError
  end.

Fixpoint sum_from (acc : value) (xs : list value) : H value :=
  match xs with
  | [] => hret acc
  | x :: xs' => let* acc' := py_add acc x in sum_from acc' xs'
  end.

(** *** String methods *)

Fixpoint is_prefix (p s : string) : bool :=
  match p, s with
  | EmptyString, _ => true
  | String a p', String b s' => Ascii.eqb a b && is_prefix p' s'
  | _, _ => false
  end.

Fixpoint contains_sub (sub s : string) : bool :=
  is_prefix sub s ||
  match s with
  | EmptyString => false
  | String _ s' => contains_sub sub s'
  end.

(** [s.split(sep)] for a non-empty [sep]; [skip] counts the characters
    of a separator still to pass. *)
Fixpoint split_go (sep s : string) (skip : nat) (cur : string) : list string :=
  match s with
  | EmptyString => [cur]
  | String c s' =>
      match skip with
      | S k => split_go sep s' k cur
      | 0 =>
          if is_prefix sep s then cur :: split_go sep s' (String.length sep - 1) ""
          else split_go sep s' 0 (cur +:+ String c "")
      end
  end.

(** [s.replace(old, new)] for a non-empty [old]. *)
Fixpoint replace_go (old new s : string) (skip : nat) : string :=
  match s with
  | EmptyString => ""
  | String c s' =>
      match skip with
      | S k => replace_go old new s' k
      | 0 =>
          if is_prefix old s then new +:+ replace_go old new s' (String.length old - 1)
          else String c (replace_go old new s' 0)
      end
  end.

Definition all_ascii (s : string) : bool :=
  forallb is_ascii (list_ascii_of_string s).

Definition upper_char (c : ascii) : ascii :=
  if (97 <=? code c) && (code c <=? 122) then ascii_of_nat (code c - 32) else c.
Definition lower_char (c : ascii) : ascii :=
  if (65 <=? code c) && (code c <=? 90) then ascii_of_nat (code c + 32) else c.

Fixpoint map_string (f : ascii -> ascii) (s : string) : string :=
  match s with
  | EmptyString => ""
  | String c s' => String (f c) (map_string f s')
  end.

(** Whitespace of [str.strip()] among 7-bit characters. *)
Definition is_space (c : ascii) : bool :=
  ((9 <=? code c) && (code c <=? 13)) || ((28 <=? code c) && (code c <=? 32)).

Fixpoint lstrip (s : string) : string :=
  match s with
  | EmptyString => ""
  | String c s' => if is_space c then lstrip s' else s
  end.

Definition strip (s : string) : string :=
  let r := string_of_list_ascii (rev (list_ascii_of_string (lstrip s))) in
  string_of_list_ascii (rev (list_ascii_of_string (lstrip r))).

End Py.

(** ** Tree-walking evaluator (interpreter.py) *)

Module Interp.

Import Chars Ast Py.

(** *** Environments *)

Record Environment : Type := mkEnvironment {
  variables : gmap string value;
  constants : gset string;
  parent : option env_id
}.

(** The interpreter: the host state, the store of [Environment]
    objects, [global_env], [current_env] and the event log. *)
Record state : Type := mkState {
  host : world;
  envs : list Environment;
  global_env : env_id;
  current_env : env_id;
  events : gmap string (list (list value))
}.

Definition M (A : Type) : Type := state -> outcome A * state.

Definition ret {A} (a : A) : M A := fun s => (Val a, s).
Definition raise {A} (e : exn) : M A := fun s => (Raise e, s).
Definition unmodelled {A} : M A := fun s => (Unmodelled, s).
Definition out_of_fuel {A} : M A := fun s => (OutOfFuel, s).

Definition bind {A B} (m : M A) (k : A -> M B) : M B :=
  fun s =>
    match m s with
    | (Val a, s') => k a s'
    | (Raise e, s') => (Raise e, s')
    | (Unmodelled, s') => (Unmodelled, s')
    | (OutOfFuel, s') => (OutOfFuel, s')
    end.

Notation "'let*' x := m 'in' k" := (bind m (fun x => k))
  (at level 10, x name, m at level 100, k at level 200, only parsing).
Notation "m ;; k" := (bind m (fun _ => k))
  (at level 100, k at level 200, right associativity, only parsing).

Definition set_host (w : world) (s : state) : state :=
  {| host := w; envs := envs s; global_env := global_env s;
     current_env := current_env s; events := events s |}.

Definition set_envs (es : list Environment) (s : state) : state :=
  {| host := host s; envs := es; global_env := global_env s;
     current_env := current_env s; events := events s |}.

Definition set_current (e : env_id) (s : state) : state :=
  {| host := host s; envs := envs s; global_env := global_env s;
     current_env := e; events := events s |}.

Definition set_events (ev : gmap string (list (list value))) (s : state) : state :=
  {| host := host s; envs := envs s; global_env := global_env s;
     current_env := current_env s; events := ev |}.

(** A computation on the host state alone. *)
Definition lift {A} (h : H A) : M A :=
  fun s => let '(r, w) := h (host s) in (r, set_host w s).

Definition get_current : M env_id := fun s => (Val (current_env s), s).

(** [Environment(parent)] *)
Definition new_env (p : option env_id) : M env_id :=
  fun s => (Val (length (envs s)),
            set_envs (envs s ++ [{| variables := ∅; constants := ∅; parent := p |}]) s).

(** [Environment.define] *)
Definition define_in (E : Environment) (name : string) (v : value) (is_const : bool)
    : Environment :=
  {| variables := <[name:=v]> (variables E);
     constants := if is_const then {[name]} ∪ constants E else constants E;
     parent := parent E |}.

Definition env_define (e : env_id) (name : string) (v : value) (is_const : bool)
    : M unit :=
  fun s =>
    match envs s !! e with
    | Some E => (Val tt, set_envs (<[e:=define_in E name v is_const]> (envs s)) s)
    | None => (Unmodelled, s)
    end.

Definition undefined_variable (name : string) : exn :=
  RuntimeError ("Undefined variable '" +:+ name +:+ "'").

Definition cannot_reassign (name : string) : exn :=
  RuntimeError ("Cannot reassign constant '" +:+ name +:+ "'").

(** [Environment.assign]. The recursion follows the parent pointers;
    [n] bounds the length of the chain, which the number of
    environments bounds in turn. *)
Fixpoint env_assign (n : nat) (e : env_id) (name : string) (v : value) : M unit :=
  fun s =>
    match n with
    | 0 => (Unmodelled, s)
    | S n' =>
        match envs s !! e with
        | None => (Unmodelled, s)
        | Some E =>
            match variables E !! name with
            | Some _ =>
                if decide (name ∈ constants E)
                then (Raise (cannot_reassign name), s)
                else (Val tt,
                      set_envs (<[e:={| variables := <[name:=v]> (variables E);
                                        constants := constants E;
                                        parent := parent E |}]> (envs s)) s)
            | None =>
                match parent E with
                | Some p => env_assign n' p name v s
                | None => (Raise (undefined_variable name), s)
                end
            end
        end
    end.

(** [Environment.get] *)
Fixpoint env_get (n : nat) (es : list Environment) (e : env_id) (name : string)
    : outcome value :=
  match n with
  | 0 => Unmodelled
  | S n' =>
      match es !! e with
      | None => Unmodelled
      | Some E =>
          match variables E !! name with
          | Some v => Val v
          | None =>
              match parent E with
              | Some p => env_get n' es p name
              | None => Raise (undefined_variable name)
              end
          end
      end
  end.

(** [Environment.exists] *)
Fixpoint env_exists (n : nat) (es : list Environment) (e : env_id) (name : string)
    : option bool :=
  match n with
  | 0 => None
  | S n' =>
      match es !! e with
      | None => None
      | Some E =>
          match variables E !! name with
          | Some _ => Some true
          | None =>
              match parent E with
              | Some p => env_exists n' es p name
              | None => Some false
              end
          end
      end
  end.

(** [self.current_env.define / assign / get / exists] *)
Definition define (name : string) (v : value) (is_const : bool) : M unit :=
  fun s => env_define (current_env s) name v is_const s.

Definition assign (name : string) (v : value) : M unit :=
  fun s => env_assign (length (envs s)) (current_env s) name v s.

Definition get (name : string) : M value :=
  fun s => (env_get (length (envs s)) (envs s) (current_env s) name, s).

Definition exists_ (name : string) : M bool :=
  fun s => match env_exists (length (envs s)) (envs s) (current_env s) name with
           | Some b => (Val b, s)
           | None => (Unmodelled, s)
           end.

(** [previous_env = self.current_env; self.current_env = e;
    try: m finally: self.current_env = previous_env] *)
Definition with_env {A} (e : env_id) (m : M A) : M A :=
  fun s =>
    let previous_env := current_env s in
    let '(r, s') := m (set_current e s) in
    (r, set_current previous_env s').

(** *** Built-in functions *)

Definition runtime_error {A} (msg : string) : M A := raise (RuntimeError msg).

(** The list that [range] of the arguments gives. *)
Fixpoint range_up (n : nat) (start step : Z) : list value :=
  match n with
  | 0 => []
  | S n' => VInt start :: range_up n' (start + step) step
  end.

Definition range_list (start stop step : Z) : list value :=
  let len :=
    if (0 <? step)%Z then
      if (start <? stop)%Z then ((stop - start - 1) / step + 1)%Z else 0%Z
    else
      if (stop <? start)%Z then ((start - stop - 1) / (- step) + 1)%Z else 0%Z in
  range_up (Z.to_nat len) start step.

Definition builtin_range (args : list value) : H value :=
  match map as_int args with
  | [Some stop] => new_list (range_list 0 stop 1)
  | [Some start; Some stop] => new_list (range_list start stop 1)
  | [Some start; Some stop; Some step] =>
      if Z.eqb step 0 then hraise ValueError
      else new_list (range_list start stop step)
  | _ => hraise TypeError
  end.

(** [int(s)] for a string: an optional sign and decimal digits; the
    other spellings the host accepts or refuses are not embedded. *)
Definition int_of_string (s : string) : option Z :=
  let cs := list_ascii_of_string s in
  let digits (ds : list ascii) : option Z :=
    if (0 <? length ds) && forallb isdigit ds && (length ds <=? 4300)
    then Some (int_of_digits ds) else None in
  match cs with
  | c :: ds =>
      if Ascii.eqb c "-" then option_map Z.opp (digits ds)
      else if Ascii.eqb c "+" then digits ds
      else digits cs
  | [] => None
  end.

(** [_builtin_type] *)
Definition builtin_type (v : value) : H value :=
  match v with
  | VBool _ => hret (VStr "bool")
  | VInt _ => hret (VStr "int")
  | VFloat _ => hret (VStr "float")
  | VStr _ => hret (VStr "string")
  | VList _ => hret (VStr "list")
  | VDict _ => hret (VStr "map")
  | VNone => hret (VStr "none")
  | VInstance l =>
      hbind (get_obj l) (fun o =>
        match o with
        | OInstance (VStruct _ n _) _ => hret (VStr n)
        | _ => hunmodelled
        end)
  | VBuiltin _ | VHostFn _ | VBoundMethod _ _ => hret (VStr "function")
  | _ => hret (VStr (type_name v))
  end.

(** [lst.pop(index)] *)
Definition list_pop (l : loc) (index : value) : H value :=
  hbind (get_list l) (fun xs =>
    match as_int index with
    | Some i =>
        match norm_index (length xs) i with
        | Some j =>
            match xs !! j with
            | Some v => hbind (set_obj l (OList (take j xs ++ drop (S j) xs)))
                          (fun _ => hret v)
            | None => hunmodelled
            end
        | None => hraise IndexError
        end
    | None => hraise TypeError
    end).

(** [lst.append(item)] *)
Definition list_append (l : loc) (item : value) : H unit :=
  hbind (get_list l) (fun xs => set_obj l (OList (xs ++ [item]))).

(** The bound methods [_builtin_print] and so on, called with the
    arguments unpacked: a wrong number of arguments is the host's
    [TypeError]. *)
Definition call_builtin (b : builtin) (args : list value) : H value :=
  match b, args with
  | b_print, _ => py_print args ""
  | b_println, _ => py_print args (String nl "")
  | b_len, [VList l] => hbind (get_list l) (fun xs => hret (VInt (Z.of_nat (length xs))))
  | b_len, [VDict l] => hbind (get_dict l) (fun xs => hret (VInt (Z.of_nat (length xs))))
  | b_len, [VStr s] => hret (VInt (Z.of_nat (String.length s)))
  | b_len, [v] => hraise (RuntimeError ("len() not supported for " +:+ type_name v))
  | b_range, _ => builtin_range args
  | b_str, [v] => hbind (py_str v) (fun s => hret (VStr s))
  | b_int, [VInt n] => hret (VInt n)
  | b_int, [VBool b] => hret (VInt (if b then 1 else 0))
  | b_int, [VStr s] =>
      match int_of_string s with
      | Some n => hret (VInt n)
      | None => hunmodelled
      end
  | b_int, [VFloat _] => hunmodelled
  | b_int, [_] => hraise TypeError
  | b_float, [VFloat f] => hret (VFloat f)
  | b_float, [VStr _] => hunmodelled
  | b_float, [v] =>
      match as_num v with
      | Some n => match to_float n with
                  | Some f => hret (VFloat f)
                  | None => hunmodelled
                  end
      | None => hraise TypeError
      end
  | b_type, [v] => builtin_type v
  | b_input, [] | b_input, [_] => hunmodelled
  | b_append, [VList l; item] => hbind (list_append l item) (fun _ => hret (VList l))
  | b_append, [_; _] => hraise (RuntimeError "append() requires a list")
  | b_pop, [VList l] => list_pop l (VInt (-1))
  | b_pop, [VList l; index] => list_pop l index
  | b_pop, [_] | b_pop, [_; _] => hraise (RuntimeError "pop() requires a list")
  | b_keys, [VDict l] => hbind (get_dict l) (fun kvs => new_list (map fst kvs))
  | b_keys, [_] => hraise (RuntimeError "keys() requires a map")
  | b_values, [VDict l] => hbind (get_dict l) (fun kvs => new_list (map snd kvs))
  | b_values, [_] => hraise (RuntimeError "values() requires a map")
  | b_abs, [v] =>
      match as_num v with
      | Some (NInt z) => hret (VInt (Z.abs z))
      | Some (NFloat f) => hret (VFloat (PrimFloat.abs f))
      | None => hraise TypeError
      end
  | b_min, [VList l] => hbind (get_list l) (py_extreme OLt)
  | b_min, _ => py_extreme OLt args
  | b_max, [VList l] => hbind (get_list l) (py_extreme OGt)
  | b_max, _ => py_extreme OGt args
  | b_sum, [v] => hbind (iter_items v) (sum_from (VInt 0))
  | _, _ => hraise TypeError
  end.

(** *** Methods of lists, strings and dicts ([evaluate_MethodCall]) *)

(** [Some r]: the method is in the table and the call gives [r];
    [None]: the method is not in the table. *)
Definition list_method (l : loc) (method : string) (args : list value)
    : option (H value) :=
  if String.eqb method "append" then
    Some match args with
         | [x] => hbind (list_append l x) (fun _ => hret (VList l))
         | _ => hraise TypeError
         end
  else if String.eqb method "pop" then
    Some match args with
         | [] => list_pop l (VInt (-1))
         | [i] => list_pop l i
         | _ => hraise TypeError
         end
  else if String.eqb method "length" then
    Some match args with
         | [] => hbind (get_list l) (fun xs => hret (VInt (Z.of_nat (length xs))))
         | _ => hraise TypeError
         end
  else if String.eqb method "reverse" then
    Some match args with
         | [] => hbind (get_list l) (fun xs => new_list (rev xs))
         | _ => hraise TypeError
         end
  else if String.eqb method "sort" then
    Some match args with
         | [] => hbind (get_list l) (fun xs =>
                   hbind (of_outcome (py_sorted xs)) new_list)
         | _ => hraise TypeError
         end
  else None.

Definition string_method (obj : string) (method : string) (args : list value)
    : option (H value) :=
  let ascii_only (r : H value) : H value :=
    if all_ascii obj then r else hunmodelled in
  if String.eqb method "upper" then
    Some match args with
         | [] => ascii_only (hret (VStr (map_string upper_char obj)))
         | _ => hraise TypeError
         end
  else if String.eqb method "lower" then
    Some match args with
         | [] => ascii_only (hret (VStr (map_string lower_char obj)))
         | _ => hraise TypeError
         end
  else if String.eqb method "split" then
    let split_by (sep : value) : H value :=
      match sep with
      | VStr "" => hraise ValueError
      | VStr t => new_list (map VStr (split_go t obj 0 ""))
      | VNone => hunmodelled
      | _ => hraise TypeError
      end in
    Some match args with
         | [] => split_by (VStr " ")
         | [sep] => split_by sep
         | _ => hraise TypeError
         end
  else if String.eqb method "strip" then
    Some match args with
         | [] => ascii_only (hret (VStr (strip obj)))
         | _ => hraise TypeError
         end
  else if String.eqb method "replace" then
    Some match args with
         | [VStr ""; VStr _] => hunmodelled
         | [VStr old; VStr new] => hret (VStr (replace_go old new obj 0))
         | [_; _] => hraise TypeError
         | _ => hraise TypeError
         end
  else if String.eqb method "contains" then
    Some match args with
         | [VStr sub] => hret (VBool (contains_sub sub obj))
         | _ => hraise TypeError
         end
  else if String.eqb method "length" then
    Some match args with
         | [] => hret (VInt (Z.of_nat (String.length obj)))
         | _ => hraise TypeError
         end
  else None.

Definition dict_method (l : loc) (method : string) (args : list value)
    : option (H value) :=
  let get_or (k default : value) : H value :=
    hbind (get_dict l) (fun kvs =>
      hbind (check_hashable k) (fun _ =>
        match dict_lookup k kvs with
        | Some v => hret v
        | None => hret default
        end)) in
  if String.eqb method "get" then
    Some match args with
         | [k] => get_or k VNone
         | [k; default] => get_or k default
         | _ => hraise TypeError
         end
  else if String.eqb method "keys" then
    Some match args with
         | [] => hbind (get_dict l) (fun kvs => new_list (map fst kvs))
         | _ => hraise TypeError
         end
  else if String.eqb method "values" then
    Some match args with
         | [] => hbind (get_dict l) (fun kvs => new_list (map snd kvs))
         | _ => hraise TypeError
         end
  else if String.eqb method "contains" then
    Some match args with
         | [k] => hbind (get_dict l) (fun kvs =>
                    hbind (check_hashable k) (fun _ =>
                      hret (VBool (is_some (dict_lookup k kvs)))))
         | _ => hraise TypeError
         end
  else None.

(** *** Struct descriptors and instances *)

Fixpoint sdict_set {A} (k : string) (v : A) (items : list (string * A))
    : list (string * A) :=
  match items with
  | [] => [(k, v)]
  | (k', v') :: items' =>
      if String.eqb k k' then (k', v) :: items'
      else (k', v') :: sdict_set k v items'
  end.

(** [{name: type_name for name, type_name in fields}] *)
Definition struct_fields (fields : list (string * string)) : list (string * string) :=
  fold_left (fun acc nt => sdict_set (fst nt) (snd nt) acc) fields [].

(** The [values] dict that calling a struct builds from the arguments. *)
Fixpoint instance_values (fields : list (string * string)) (args : list value)
    : list (string * value) :=
  match fields with
  | [] => []
  | (field_name, _) :: fields' =>
      match args with
      | a :: args' => (field_name, a) :: instance_values fields' args'
      | [] => (field_name, VNone) :: instance_values fields' []
      end
  end.

Definition unknown_field (name struct_name : string) : exn :=
  RuntimeError ("Unknown field '" +:+ name +:+ "' on " +:+ struct_name).

(** [CactUScriptInstance.get] *)
Definition instance_get (l : loc) (name : string) : H value :=
  hbind (get_obj l) (fun o =>
    match o with
    | OInstance (VStruct _ sname _) vals =>
        match Tokens.assoc name vals with
        | Some v => hret v
        | None => hraise (unknown_field name sname)
        end
    | _ => hunmodelled
    end).

(** [CactUScriptInstance.set] *)
Definition instance_set (l : loc) (name : string) (v : value) : H unit :=
  hbind (get_obj l) (fun o =>
    match o with
    | OInstance (VStruct i sname fields) vals =>
        if is_some (Tokens.assoc name fields)
        then set_obj l (OInstance (VStruct i sname fields) (sdict_set name v vals))
        else hraise (unknown_field name sname)
    | _ => hunmodelled
    end).

(** *** Control flow by exceptions *)

(** The [try ... except BreakException: break / except
    ContinueException: continue] around a loop body: [None] leaves the
    loop, [Some r] goes on with [result = r]. *)
Definition loop_body (body : M value) (result : value) : M (option value) :=
  fun s =>
    match body s with
    | (Val v, s') => (Val (Some v), s')
    | (Raise BreakException, s') => (Val None, s')
    | (Raise ContinueException, s') => (Val (Some result), s')
    | (Raise e, s') => (Raise e, s')
    | (Unmodelled, s') => (Unmodelled, s')
    | (OutOfFuel, s') => (OutOfFuel, s')
    end.

(** [try: body; return None / except ReturnValue as rv: return rv.value] *)
Definition catch_return (body : M value) : M value :=
  fun s =>
    match body s with
    | (Val _, s') => (Val VNone, s')
    | (Raise (ReturnValue v), s') => (Val v, s')
    | (Raise e, s') => (Raise e, s')
    | (Unmodelled, s') => (Unmodelled, s')
    | (OutOfFuel, s') => (OutOfFuel, s')
    end.

Fixpoint while_loop (n : nat) (cond body : M value) (result : value) : M value :=
  match n with
  | 0 => out_of_fuel
  | S n' =>
      let* c := cond in
      let* t := lift (is_truthy c) in
      if t then
        let* r := loop_body body result in
        match r with
        | Some v => while_loop n' cond body v
        | None => ret result
        end
      else ret result
  end.

(** [for item in xs] over a host list: the iterator reads the list as
    it is at each step. *)
Fixpoint for_list (n : nat) (variable : string) (body : M value) (l : loc)
    (i : nat) (result : value) : M value :=
  match n with
  | 0 => out_of_fuel
  | S n' =>
      let* xs := lift (get_list l) in
      match xs !! i with
      | None => ret result
      | Some item =>
          define variable item false ;;
          let* r := loop_body body result in
          match r with
          | Some v => for_list n' variable body l (S i) v
          | None => ret result
          end
      end
  end.

(** [for item in xs] over an immutable sequence. *)
Fixpoint for_items (variable : string) (body : M value) (items : list value)
    (result : value) : M value :=
  match items with
  | [] => ret result
  | item :: items' =>
      define variable item false ;;
      let* r := loop_body body result in
      match r with
      | Some v => for_items variable body items' v
      | None => ret result
      end
  end.

Fixpoint same_keys (xs ys : list value) : bool :=
  match xs, ys with
  | [], [] => true
  | x :: xs', y :: ys' => key_eqb x y && same_keys xs' ys'
  | _, _ => false
  end.

(** [for key in d] over a dict: the keys in insertion order. What the
    host does when the keys change during the iteration is not
    embedded. *)
Fixpoint for_dict (variable : string) (body : M value) (l : loc)
    (keys todo : list value) (result : value) : M value :=
  let* kvs := lift (get_dict l) in
  if negb (same_keys (map fst kvs) keys) then unmodelled
  else
    match todo with
    | [] => ret result
    | item :: todo' =>
        define variable item false ;;
        let* r := loop_body body result in
        match r with
        | Some v => for_dict variable body l keys todo' v
        | None => ret result
        end
    end.

(** The [for item in iterable] statement inside [execute_ForStatement]. *)
Definition for_each (n : nat) (variable : string) (body : M value)
    (iterable : value) : M value :=
  match iterable with
  | VList l => for_list n variable body l 0 VNone
  | VStr s => for_items variable body (chars_of s) VNone
  | VTuple xs => for_items variable body xs VNone
  | VDict l =>
      let* kvs := lift (get_dict l) in
      for_dict variable body l (map fst kvs) (map fst kvs) VNone
  | _ => raise TypeError
  end.

(** *** Statements and expressions *)

Section Eval.

(** [self.execute] and [self.evaluate] at the fuel of the recursive
    calls. *)
Variable execute : stmt -> M value.
Variable evaluate : expr -> M value.
Variable n : nat.

Fixpoint execute_from (result : value) (statements : list stmt) : M value :=
  match statements with
  | [] => ret result
  | s :: rest => let* r := execute s in execute_from r rest
  end.

(** [execute_Block], also [Interpreter.run]. *)
Definition execute_Block (statements : list stmt) : M value :=
  execute_from VNone statements.

Fixpoint evaluate_all (es : list expr) : M (list value) :=
  match es with
  | [] => ret []
  | e :: es' =>
      let* v := evaluate e in
      let* vs := evaluate_all es' in
      ret (v :: vs)
  end.

Definition execute_VariableDeclaration (name : string) (value_e : option expr)
    (is_const : bool) : M value :=
  let* v := match value_e with
            | Some e => evaluate e
            | None => ret VNone
            end in
  define name v is_const ;;
  ret VNone.

Definition apply_compound_assignment (left : value) (op : string) (right : value)
    : M value :=
  if String.eqb op "+=" then lift (py_add left right)
  else if String.eqb op "-=" then lift (py_sub left right)
  else if String.eqb op "*=" then lift (py_mul left right)
  else if String.eqb op "/=" then lift (py_div left right)
  else runtime_error ("Unknown compound assignment operator: " +:+ op).

Definition invalid_assignment_target (target : expr) : exn :=
  RuntimeError ("Invalid assignment target: " +:+ expr_class target).

Definition execute_Assignment (target : expr) (operator : string) (value_e : expr)
    : M value :=
  let* value := evaluate value_e in
  match target with
  | Identifier name =>
      (if String.eqb operator "=" then assign name value
       else
         let* current := get name in
         let* new_value := apply_compound_assignment current operator value in
         assign name new_value) ;;
      ret value
  | IndexAccess object index_e =>
      let* obj := evaluate object in
      let* index := evaluate index_e in
      (if String.eqb operator "=" then lift (py_setitem obj index value)
       else
         let* current := lift (py_getitem obj index) in
         let* new_value := apply_compound_assignment current operator value in
         lift (py_setitem obj index new_value)) ;;
      ret value
  | MemberAccess object member =>
      let* obj := evaluate object in
      match obj with
      | VInstance l =>
          (if String.eqb operator "=" then lift (instance_set l member value)
           else
             let* current := lift (instance_get l member) in
             let* new_value := apply_compound_assignment current operator value in
             lift (instance_set l member new_value)) ;;
          ret value
      | VDict l =>
          (if String.eqb operator "=" then lift (py_setitem obj (VStr member) value)
           else
             let* kvs := lift (get_dict l) in
             let current := match dict_lookup (VStr member) kvs with
                            | Some v => v
                            | None => VNone
                            end in
             let* new_value := apply_compound_assignment current operator value in
             lift (py_setitem obj (VStr member) new_value)) ;;
          ret value
      | _ => raise (invalid_assignment_target target)
      end
  | _ => raise (invalid_assignment_target target)
  end.

Fixpoint execute_elifs (elif_branches : list (expr * list stmt))
    (else_branch : option (list stmt)) : M value :=
  match elif_branches with
  | (condition, block) :: rest =>
      let* c := evaluate condition in
      let* t := lift (is_truthy c) in
      if t then execute_Block block else execute_elifs rest else_branch
  | [] =>
      match else_branch with
      | Some block => execute_Block block
      | None => ret VNone
      end
  end.

Definition execute_IfStatement (condition : expr) (then_branch : list stmt)
    (elif_branches : list (expr * list stmt)) (else_branch : option (list stmt))
    : M value :=
  let* c := evaluate condition in
  let* t := lift (is_truthy c) in
  if t then execute_Block then_branch
  else execute_elifs elif_branches else_branch.

Definition execute_WhileStatement (condition : expr) (body : list stmt) : M value :=
  while_loop n (evaluate condition) (execute_Block body) VNone.

Definition execute_ForStatement (variable : string) (iterable_e : expr)
    (body : list stmt) : M value :=
  let* iterable := evaluate iterable_e in
  let* previous_env := get_current in
  let* loop_env := new_env (Some previous_env) in
  with_env loop_env (for_each n variable (execute_Block body) iterable).

Definition execute_ReturnStatement (value_e : option expr) : M value :=
  let* v := match value_e with
            | Some e => evaluate e
            | None => ret VNone
            end in
  raise (ReturnValue v).

(** [CactUScriptFunction(declaration, self.current_env)] *)
Definition make_function (d : fundecl) : M value :=
  let* closure := get_current in
  let* i := lift fresh_id in
  ret (VFunction i d closure).

Definition execute_FunctionDeclaration (d : fundecl) : M value :=
  let* func := make_function d in
  define (fn_name d) func false ;;
  ret VNone.

Definition execute_StructDeclaration (name : string) (fields : list (string * string))
    : M value :=
  let* i := lift fresh_id in
  define name (VStruct i name (struct_fields fields)) false ;;
  ret VNone.

Definition execute_EnumDeclaration (name : string) (variants : list string)
    : M value :=
  let* d := lift (new_dict (dict_of_pairs
                              (map (fun v => (VStr v, VStr v)) variants) [])) in
  define name d false ;;
  ret VNone.

Definition execute_ContractDeclaration (name : string) (body : list stmt) : M value :=
  let* outer := get_current in
  let* contract_env := new_env (Some outer) in
  with_env contract_env (execute_Block body) ;;
  let* d := lift (new_dict [ (VStr "__type__", VStr "contract");
                             (VStr "__name__", VStr name);
                             (VStr "__env__", VEnv contract_env) ]) in
  define name d false ;;
  ret VNone.

(** The dict of an event holds [node.fields] itself in the source; a
    list of the same tuples is allocated here. *)
Definition execute_EventDeclaration (name : string) (fields : list (string * string))
    : M value :=
  (fun s => (Val tt, set_events (<[name:=[]]> (events s)) s)) ;;
  let* fs := lift (new_list (map (fun nt => VTuple [VStr (fst nt); VStr (snd nt)])
                               fields)) in
  let* d := lift (new_dict [ (VStr "__type__", VStr "event");
                             (VStr "__name__", VStr name);
                             (VStr "__fields__", fs) ]) in
  define name d false ;;
  ret VNone.

(** [self.events[event_name].append(args)] after the entry is created
    when missing. *)
Definition log_event (event_name : string) (args : list value) : M unit :=
  fun s =>
    let entry := match events s !! event_name with
                 | Some l => l
                 | None => []
                 end in
    (Val tt, set_events (<[event_name:=entry ++ [args]]> (events s)) s).

Definition event_line (event_name : string) (args_text : string) : string :=
  "[EVENT] " +:+ event_name +:+ ": " +:+ args_text +:+ String nl "".

Definition execute_EmitStatement (event_name : string) (arguments : list expr)
    : M value :=
  let* args := evaluate_all arguments in
  log_event event_name args ;;
  let* text := lift (of_heap (fun h => repr_args h args)) in
  lift (write (event_line event_name text)) ;;
  ret VNone.

Fixpoint define_methods (type_name : string) (methods : list fundecl) : M unit :=
  match methods with
  | [] => ret tt
  | method :: rest =>
      let* func := make_function method in
      define (type_name +:+ "." +:+ fn_name method) func false ;;
      define_methods type_name rest
  end.

Definition execute_ImplBlock (type_name : string) (methods : list fundecl) : M value :=
  let* struct := get type_name in
  match struct with
  | VStruct _ _ _ => define_methods type_name methods ;; ret VNone
  | _ => runtime_error ("Cannot implement methods for non-struct type: " +:+ type_name)
  end.

(** The dispatch of [execute] on the class of the node. *)
Definition execute_node (node : stmt) : M value :=
  match node with
  | ExpressionStatement e => evaluate e
  | VariableDeclaration name _ value is_const =>
      execute_VariableDeclaration name value is_const
  | Assignment target operator value => execute_Assignment target operator value
  | Block statements => execute_Block statements
  | IfStatement c t el e => execute_IfStatement c t el e
  | WhileStatement c body => execute_WhileStatement c body
  | ForStatement v it body => execute_ForStatement v it body
  | BreakStatement => raise BreakException
  | ContinueStatement => raise ContinueException
  | ReturnStatement value => execute_ReturnStatement value
  | FunctionDeclaration d => execute_FunctionDeclaration d
  | StructDeclaration name fields => execute_StructDeclaration name fields
  | EnumDeclaration name variants => execute_EnumDeclaration name variants
  | ContractDeclaration name body => execute_ContractDeclaration name body
  | EventDeclaration name fields => execute_EventDeclaration name fields
  | EmitStatement name arguments => execute_EmitStatement name arguments
  | ImplBlock type_name methods => execute_ImplBlock type_name methods
  end.

(** The loop of [_call_function] over the parameters: a default value
    is evaluated by [self.evaluate], in [self.current_env] as it is
    then. *)
Fixpoint bind_parameters (func_env : env_id) (parameters : list Param)
    (args : list value) : M unit :=
  match parameters with
  | [] => ret tt
  | param :: rest =>
      match args with
      | a :: args' =>
          env_define func_env (param_name param) a false ;;
          bind_parameters func_env rest args'
      | [] =>
          (match default_value param with
           | Some d =>
               let* v := evaluate d in
               env_define func_env (param_name param) v false
           | None => env_define func_env (param_name param) VNone false
           end) ;;
          bind_parameters func_env rest []
      end
  end.

Definition call_function (func : value) (args : list value) : M value :=
  match func with
  | VFunction _ declaration closure =>
      let* func_env := new_env (Some closure) in
      bind_parameters func_env (fn_parameters declaration) args ;;
      with_env func_env (catch_return (execute_Block (fn_body declaration)))
  | _ => raise AttributeError
  end.

Fixpoint evaluate_pairs (pairs : list (expr * expr)) (result : list (value * value))
    : M (list (value * value)) :=
  match pairs with
  | [] => ret result
  | (key, value) :: rest =>
      let* k := evaluate key in
      let* v := evaluate value in
      lift (check_hashable k) ;;
      evaluate_pairs rest (dict_set k v result)
  end.

Definition evaluate_BinaryOp (left_e : expr) (operator : string) (right_e : expr)
    : M value :=
  let* left := evaluate left_e in
  let* right := evaluate right_e in
  if String.eqb operator "+" then lift (py_add left right)
  else if String.eqb operator "-" then lift (py_sub left right)
  else if String.eqb operator "*" then lift (py_mul left right)
  else if String.eqb operator "/" then lift (py_div left right)
  else if String.eqb operator "%" then lift (py_mod left right)
  else if String.eqb operator "**" then lift (py_pow left right)
  else if String.eqb operator "&" then lift (py_bitop Z.land andb false left right)
  else if String.eqb operator "|" then lift (py_bitop Z.lor orb true left right)
  else if String.eqb operator "^" then lift (py_bitop Z.lxor xorb false left right)
  else if String.eqb operator "<<" then lift (py_shift Z.shiftl left right)
  else if String.eqb operator ">>" then lift (py_shift Z.shiftr left right)
  else runtime_error ("Unknown binary operator: " +:+ operator).

Definition evaluate_UnaryOp (operator : string) (operand_e : expr) : M value :=
  let* operand := evaluate operand_e in
  if String.eqb operator "-" then lift (py_neg operand)
  else if String.eqb operator "~" then lift (py_invert operand)
  else if String.eqb operator "not" then
    let* t := lift (is_truthy operand) in ret (VBool (negb t))
  else runtime_error ("Unknown unary operator: " +:+ operator).

(** The table [ops] of [evaluate_ComparisonOp] applied to two values. *)
Definition compare_values (operator : string) (left right : value) : M value :=
  if String.eqb operator "==" then lift (py_eq_value false left right)
  else if String.eqb operator "!=" then lift (py_eq_value true left right)
  else if String.eqb operator "<" then lift (py_order_value OLt left right)
  else if String.eqb operator ">" then lift (py_order_value OGt left right)
  else if String.eqb operator "<=" then lift (py_order_value OLe left right)
  else if String.eqb operator ">=" then lift (py_order_value OGe left right)
  else runtime_error ("Unknown comparison operator: " +:+ operator).

Definition evaluate_ComparisonOp (left_e : expr) (operator : string) (right_e : expr)
    : M value :=
  let* left := evaluate left_e in
  let* right := evaluate right_e in
  compare_values operator left right.

Definition evaluate_LogicalOp (left_e : expr) (operator : string) (right_e : expr)
    : M value :=
  let* left := evaluate left_e in
  if String.eqb operator "and" then
    let* t := lift (is_truthy left) in
    if negb t then ret left else evaluate right_e
  else if String.eqb operator "or" then
    let* t := lift (is_truthy left) in
    if t then ret left else evaluate right_e
  else runtime_error ("Unknown logical operator: " +:+ operator).

Definition evaluate_FunctionCall (function : expr) (arguments : list expr) : M value :=
  let* func := evaluate function in
  let* args := evaluate_all arguments in
  match func with
  | VBuiltin b => lift (call_builtin b args)
  | VStruct _ _ fields =>
      let* l := lift (alloc (OInstance func (instance_values fields args))) in
      ret (VInstance l)
  | VFunction _ _ _ => call_function func args
  | _ => runtime_error ("Cannot call non-function: " +:+ type_name func)
  end.

Definition unknown_method (method : string) (obj : value) : exn :=
  RuntimeError ("Unknown method '" +:+ method +:+ "' on " +:+ type_name obj).

Definition evaluate_MethodCall (object : expr) (method : string)
    (arguments : list expr) : M value :=
  let* obj := evaluate object in
  let* args := evaluate_all arguments in
  match obj with
  | VInstance l =>
      let* o := lift (get_obj l) in
      match o with
      | OInstance (VStruct _ struct_name _) _ =>
          let method_name := struct_name +:+ "." +:+ method in
          let* found := exists_ method_name in
          if found then
            let* m := get method_name in
            call_function m (obj :: args)
          else raise (unknown_method method obj)
      | _ => unmodelled
      end
  | VList l =>
      match list_method l method args with
      | Some r => lift r
      | None => raise (unknown_method method obj)
      end
  | VStr s =>
      match string_method s method args with
      | Some r => lift r
      | None => raise (unknown_method method obj)
      end
  | VDict l =>
      match dict_method l method args with
      | Some r => lift r
      | None => raise (unknown_method method obj)
      end
  | _ => raise (unknown_method method obj)
  end.

Definition evaluate_MemberAccess (object : expr) (member : string) : M value :=
  let* obj := evaluate object in
  match obj with
  | VInstance l => lift (instance_get l member)
  | VDict l =>
      let* kvs := lift (get_dict l) in
      match dict_lookup (VStr member) kvs with
      | Some v => ret v
      | None => runtime_error ("Key '" +:+ member +:+ "' not found in map")
      end
  | _ => runtime_error ("Cannot access member '" +:+ member +:+ "' on "
                        +:+ type_name obj)
  end.

Definition evaluate_IndexAccess (object : expr) (index_e : expr) : M value :=
  let* obj := evaluate object in
  let* index := evaluate index_e in
  match obj with
  | VList _ | VStr _ | VDict _ => lift (py_getitem obj index)
  | _ => runtime_error ("Cannot index " +:+ type_name obj)
  end.

(** The dispatch of [evaluate] on the class of the node. There is no
    [evaluate_LambdaExpression]. No value of the embedding is a
    coroutine, so [await] returns its operand. *)
Definition evaluate_node (node : expr) : M value :=
  match node with
  | IntegerLiteral v => ret (VInt v)
  | FloatLiteral v => ret (VFloat v)
  | StringLiteral v => ret (VStr v)
  | BooleanLiteral v => ret (VBool v)
  | NullLiteral => ret VNone
  | ListLiteral elements =>
      let* vs := evaluate_all elements in lift (new_list vs)
  | MapLiteral pairs =>
      let* kvs := evaluate_pairs pairs [] in lift (new_dict kvs)
  | Identifier name => get name
  | MemberAccess object member => evaluate_MemberAccess object member
  | IndexAccess object index => evaluate_IndexAccess object index
  | BinaryOp l op r => evaluate_BinaryOp l op r
  | UnaryOp op e => evaluate_UnaryOp op e
  | ComparisonOp l op r => evaluate_ComparisonOp l op r
  | LogicalOp l op r => evaluate_LogicalOp l op r
  | FunctionCall f args => evaluate_FunctionCall f args
  | MethodCall o m args => evaluate_MethodCall o m args
  | LambdaExpression _ _ => runtime_error "No evaluation method for LambdaExpression"
  | AwaitExpression e => evaluate e
  end.

End Eval.

(** [Interpreter.execute] and [Interpreter.evaluate]: the recursion of
    the source is on the fuel here. *)
Fixpoint execute (fuel : nat) (node : stmt) {struct fuel} : M value :=
  match fuel with
  | 0 => out_of_fuel
  | S f => execute_node (execute f) (evaluate f) f node
  end
with evaluate (fuel : nat) (node : expr) {struct fuel} : M value :=
  match fuel with
  | 0 => out_of_fuel
  | S f => evaluate_node (execute f) (evaluate f) node
  end.

(** [Interpreter.run] *)
Definition run (fuel : nat) (program : Program) : M value :=
  execute_Block (execute fuel) program.

(** [Interpreter()]: the global environment with the built-ins. *)
Definition builtins : list (string * builtin) :=
  [ ("print", b_print); ("println", b_println); ("len", b_len);
    ("range", b_range); ("str", b_str); ("int", b_int); ("float", b_float);
    ("type", b_type); ("input", b_input); ("append", b_append);
    ("pop", b_pop); ("keys", b_keys); ("values", b_values); ("abs", b_abs);
    ("min", b_min); ("max", b_max); ("sum", b_sum) ].

Definition init : state :=
  {| host := {| heap := []; stdout := ""; next_id := 0 |};
     envs := [ {| variables :=
                    fold_left (fun m nb => <[fst nb:=VBuiltin (snd nb)]> m) builtins ∅;
                  constants := ∅;
                  parent := None |} ];
     global_env := 0;
     current_env := 0;
     events := ∅ |}.

(** Running a program in a fresh interpreter: the outcome and what was
    printed. *)
Definition run_program (fuel : nat) (program : Program) : outcome value * string :=
  let '(r, s) := run fuel program init in (r, stdout (host s)).

End Interp.

(** ** Compiler (vm.py: Compiler) *)

Module Compiler.

Import Ast Py Bytecode.

Record Compiler : Type := mkCompiler {
  instructions : list Instruction;
  constants : list value;
  functions : list (string * CompiledFunction);
  locals : list (string * nat);
  local_count : nat;
  loop_starts : list nat;
  loop_ends : list (list nat);
  next_object : nat   (* identity of the next [CompiledFunction] object *)
}.

(** [Compiler()] *)
Definition new_compiler (next : nat) : Compiler :=
  {| instructions := []; constants := []; functions := []; locals := [];
     local_count := 0; loop_starts := []; loop_ends := []; next_object := next |}.

(** Outcome of compiling: the host's [RuntimeError] of [compile_default]
    and [compile_expr_default], or running out of fuel. *)
Inductive result (A : Type) : Type :=
  | Ok (a : A)
  | CompileError (message : string)
  | NoFuel.
Arguments Ok {A} a.
Arguments CompileError {A} message.
Arguments NoFuel {A}.

Definition C (A : Type) : Type := Compiler -> result (A * Compiler).

Definition ret {A} (a : A) : C A := fun c => Ok (a, c).
Definition bind {A B} (m : C A) (k : A -> C B) : C B :=
  fun c =>
    match m c with
    | Ok (a, c') => k a c'
    | CompileError msg => CompileError msg
    | NoFuel => NoFuel
    end.
Definition error {A} (msg : string) : C A := fun _ => CompileError msg.

Notation "'let*' x := m 'in' k" := (bind m (fun x => k))
  (at level 10, x name, m at level 100, k at level 200, only parsing).
Notation "m ;; k" := (bind m (fun _ => k))
  (at level 100, k at level 200, right associativity, only parsing).

Definition with_instructions (ins : list Instruction) (c : Compiler) : Compiler :=
  {| instructions := ins; constants := constants c; functions := functions c;
     locals := locals c; local_count := local_count c;
     loop_starts := loop_starts c; loop_ends := loop_ends c;
     next_object := next_object c |}.

Definition with_loops (starts : list nat) (ends : list (list nat)) (c : Compiler)
    : Compiler :=
  {| instructions := instructions c; constants := constants c;
     functions := functions c; locals := locals c; local_count := local_count c;
     loop_starts := starts; loop_ends := ends; next_object := next_object c |}.

(** [emit]: appends and returns the address of the instruction. *)
Definition emit (op : OpCode) (arg : operand_value) : C nat :=
  fun c => Ok (length (instructions c),
               with_instructions (instructions c ++ [mkInstruction op arg]) c).

(** [len(self.instructions)] *)
Definition here : C nat := fun c => Ok (length (instructions c), c).

(** [patch_jump]: the operand of the instruction at [address] becomes
    [target]. *)
Definition patch_jump (address target : nat) : C unit :=
  fun c =>
    match instructions c !! address with
    | Some i =>
        Ok (tt, with_instructions
                  (<[address:=mkInstruction (opcode i) (ArgInt (Z.of_nat target))]>
                     (instructions c)) c)
    | None => CompileError "IndexError"
    end.

Definition add_constant (v : value) : C nat :=
  fun c => Ok (length (constants c),
               {| instructions := instructions c; constants := constants c ++ [v];
                  functions := functions c; locals := locals c;
                  local_count := local_count c; loop_starts := loop_starts c;
                  loop_ends := loop_ends c; next_object := next_object c |}).

Definition get_local (name : string) : C nat :=
  fun c =>
    match Tokens.assoc name (locals c) with
    | Some slot => Ok (slot, c)
    | None =>
        Ok (local_count c,
            {| instructions := instructions c; constants := constants c;
               functions := functions c;
               locals := locals c ++ [(name, local_count c)];
               local_count := S (local_count c); loop_starts := loop_starts c;
               loop_ends := loop_ends c; next_object := next_object c |})
    end.

Definition emit_ (op : OpCode) (arg : operand_value) : C unit :=
  emit op arg ;; ret tt.

(** [_emit_compound_op] *)
Definition emit_compound_op (op : string) : C unit :=
  if String.eqb op "+=" then emit_ ADD ArgNone
  else if String.eqb op "-=" then emit_ SUB ArgNone
  else if String.eqb op "*=" then emit_ MUL ArgNone
  else if String.eqb op "/=" then emit_ DIV ArgNone
  else ret tt.

Definition binary_opcode (op : string) : option OpCode :=
  if String.eqb op "+" then Some ADD
  else if String.eqb op "-" then Some SUB
  else if String.eqb op "*" then Some MUL
  else if String.eqb op "/" then Some DIV
  else if String.eqb op "%" then Some MOD
  else if String.eqb op "**" then Some POW
  else if String.eqb op "&" then Some BIT_AND
  else if String.eqb op "|" then Some BIT_OR
  else if String.eqb op "^" then Some BIT_XOR
  else if String.eqb op "<<" then Some SHL
  else if String.eqb op ">>" then Some SHR
  else None.

Definition comparison_opcode (op : string) : option OpCode :=
  if String.eqb op "==" then Some EQ
  else if String.eqb op "!=" then Some NE
  else if String.eqb op "<" then Some LT
  else if String.eqb op ">" then Some GT
  else if String.eqb op "<=" then Some LE
  else if String.eqb op ">=" then Some GE
  else None.

Definition emit_opt (o : option OpCode) : C unit :=
  match o with
  | Some op => emit_ op ArgNone
  | None => ret tt
  end.

Definition push_loop (loop_start : nat) : C unit :=
  fun c => Ok (tt, with_loops (loop_starts c ++ [loop_start]) (loop_ends c ++ [[]]) c).

Fixpoint patch_all (addresses : list nat) (target : nat) : C unit :=
  match addresses with
  | [] => ret tt
  | a :: rest => patch_jump a target ;; patch_all rest target
  end.

(** [for break_jump in self.loop_ends.pop(): patch; self.loop_starts.pop()] *)
Definition pop_loop (loop_end : nat) : C unit :=
  fun c =>
    match last (loop_ends c) with
    | Some breaks =>
        (patch_all breaks loop_end ;;
         fun c' => Ok (tt, with_loops (removelast (loop_starts c')) (loop_ends c') c'))
          (with_loops (loop_starts c) (removelast (loop_ends c)) c)
    | None => CompileError "IndexError"
    end.

Section Compile.

(** [compile_statement] and [compile_expression] at the fuel of the
    recursive calls. *)
Variable compile_statement : stmt -> C unit.
Variable compile_expression : expr -> C unit.
(** A fresh compiler run on the body of a function: the statements,
    the parameter names and the object counter go in, the compiler
    comes out. *)
Variable compile_function_body :
  list string -> list stmt -> nat -> result Compiler.

Fixpoint compile_statements (statements : list stmt) : C unit :=
  match statements with
  | [] => ret tt
  | s :: rest => compile_statement s ;; compile_statements rest
  end.

Fixpoint compile_expressions (es : list expr) : C unit :=
  match es with
  | [] => ret tt
  | e :: rest => compile_expression e ;; compile_expressions rest
  end.

Fixpoint compile_pairs (pairs : list (expr * expr)) : C unit :=
  match pairs with
  | [] => ret tt
  | (k, v) :: rest => compile_expression k ;; compile_expression v ;; compile_pairs rest
  end.

Definition compile_ExpressionStatement (e : expr) : C unit :=
  compile_expression e ;; emit_ POP ArgNone.

Definition compile_VariableDeclaration (name : string) (value_e : option expr)
    : C unit :=
  (match value_e with
   | Some e => compile_expression e
   | None => emit_ PUSH ArgNone
   end) ;;
  let* slot := get_local name in
  emit_ DEFINE (ArgPair name slot).

(** A target that is neither an identifier nor an index access emits
    nothing. *)
Definition compile_Assignment (target : expr) (operator : string) (value_e : expr)
    : C unit :=
  match target with
  | Identifier name =>
      (if String.eqb operator "=" then compile_expression value_e
       else
         emit_ LOAD (ArgStr name) ;;
         compile_expression value_e ;;
         emit_compound_op operator) ;;
      emit_ STORE (ArgStr name)
  | IndexAccess object index =>
      compile_expression object ;;
      compile_expression index ;;
      (if String.eqb operator "=" then compile_expression value_e
       else
         emit_ DUP ArgNone ;;
         emit_ DUP ArgNone ;;
         emit_ INDEX ArgNone ;;
         compile_expression value_e ;;
         emit_compound_op operator) ;;
      emit_ STORE_INDEX ArgNone
  | _ => ret tt
  end.

(** The jump to the end of each [elif] branch is emitted with target 0
    and is not patched. *)
Fixpoint compile_elifs (elif_branches : list (expr * list stmt)) : C unit :=
  match elif_branches with
  | [] => ret tt
  | (condition, block) :: rest =>
      compile_expression condition ;;
      let* elif_jump := emit JUMP_IF_FALSE (ArgInt 0) in
      compile_statements block ;;
      emit_ JUMP (ArgInt 0) ;;
      let* target := here in
      patch_jump elif_jump target ;;
      compile_elifs rest
  end.

Definition compile_IfStatement (condition : expr) (then_branch : list stmt)
    (elif_branches : list (expr * list stmt)) (else_branch : option (list stmt))
    : C unit :=
  compile_expression condition ;;
  let* jump_if_false := emit JUMP_IF_FALSE (ArgInt 0) in
  compile_statements then_branch ;;
  let* jump_to_end := emit JUMP (ArgInt 0) in
  let* target := here in
  patch_jump jump_if_false target ;;
  compile_elifs elif_branches ;;
  (match else_branch with
   | Some block => compile_statements block
   | None => ret tt
   end) ;;
  let* target_end := here in
  patch_jump jump_to_end target_end.

Definition compile_WhileStatement (condition : expr) (body : list stmt) : C unit :=
  let* loop_start := here in
  push_loop loop_start ;;
  compile_expression condition ;;
  let* exit_jump := emit JUMP_IF_FALSE (ArgInt 0) in
  compile_statements body ;;
  emit_ JUMP (ArgInt (Z.of_nat loop_start)) ;;
  let* loop_end := here in
  patch_jump exit_jump loop_end ;;
  pop_loop loop_end.

Definition compile_ForStatement (variable : string) (iterable : expr)
    (body : list stmt) : C unit :=
  compile_expression iterable ;;
  let* iter_slot := get_local "__iter__" in
  emit_ DEFINE (ArgPair "__iter__" iter_slot) ;;
  let* idx_slot := get_local "__idx__" in
  emit_ PUSH (ArgInt 0) ;;
  emit_ DEFINE (ArgPair "__idx__" idx_slot) ;;
  let* loop_start := here in
  push_loop loop_start ;;
  emit_ LOAD (ArgStr "__idx__") ;;
  emit_ LOAD (ArgStr "__iter__") ;;
  let* const_idx := add_constant (VStr "__len__") in
  emit_ GET_ATTR (ArgInt (Z.of_nat const_idx)) ;;
  emit_ LT ArgNone ;;
  let* exit_jump := emit JUMP_IF_FALSE (ArgInt 0) in
  emit_ LOAD (ArgStr "__iter__") ;;
  emit_ LOAD (ArgStr "__idx__") ;;
  emit_ INDEX ArgNone ;;
  let* var_slot := get_local variable in
  emit_ DEFINE (ArgPair variable var_slot) ;;
  compile_statements body ;;
  emit_ LOAD (ArgStr "__idx__") ;;
  emit_ PUSH (ArgInt 1) ;;
  emit_ ADD ArgNone ;;
  emit_ STORE (ArgStr "__idx__") ;;
  emit_ JUMP (ArgInt (Z.of_nat loop_start)) ;;
  let* loop_end := here in
  patch_jump exit_jump loop_end ;;
  pop_loop loop_end.

Definition compile_BreakStatement : C unit :=
  fun c =>
    match last (loop_ends c) with
    | Some breaks =>
        (let* jump := emit JUMP (ArgInt 0) in
         fun c' => Ok (tt, with_loops (loop_starts c')
                             (removelast (loop_ends c') ++ [breaks ++ [jump]]) c')) c
    | None => Ok (tt, c)
    end.

Definition compile_ContinueStatement : C unit :=
  fun c =>
    match last (loop_starts c) with
    | Some start => emit_ JUMP (ArgInt (Z.of_nat start)) c
    | None => Ok (tt, c)
    end.

Definition compile_ReturnStatement (value_e : option expr) : C unit :=
  (match value_e with
   | Some e => compile_expression e
   | None => emit_ PUSH ArgNone
   end) ;;
  emit_ RETURN ArgNone.

(** The body is compiled by a fresh [Compiler], whose constants and
    functions stay with it; only its instructions and its count of
    locals are kept. *)
Definition compile_FunctionDeclaration (d : fundecl) : C unit :=
  fun c =>
    let names := map param_name (fn_parameters d) in
    match compile_function_body names (fn_body d) (S (next_object c)) with
    | Ok func_compiler =>
        let compiled_func :=
          {| name := fn_name d; params := names;
             code := instructions func_compiler;
             num_locals := local_count func_compiler |} in
        let c1 :=
          {| instructions := instructions c; constants := constants c;
             functions := Interp.sdict_set (fn_name d) compiled_func (functions c);
             locals := locals c; local_count := local_count c;
             loop_starts := loop_starts c; loop_ends := loop_ends c;
             next_object := next_object func_compiler |} in
        (let* const_idx := add_constant (VCompiled (next_object c) compiled_func) in
         emit_ LOAD_CONST (ArgInt (Z.of_nat const_idx)) ;;
         let* slot := get_local (fn_name d) in
         emit_ DEFINE (ArgPair (fn_name d) slot)) c1
    | CompileError msg => CompileError msg
    | NoFuel => NoFuel
    end.

Definition stmt_class (s : stmt) : string :=
  match s with
  | ExpressionStatement _ => "ExpressionStatement"
  | VariableDeclaration _ _ _ _ => "VariableDeclaration"
  | Assignment _ _ _ => "Assignment"
  | Block _ => "Block"
  | IfStatement _ _ _ _ => "IfStatement"
  | WhileStatement _ _ => "WhileStatement"
  | ForStatement _ _ _ => "ForStatement"
  | BreakStatement => "BreakStatement"
  | ContinueStatement => "ContinueStatement"
  | ReturnStatement _ => "ReturnStatement"
  | FunctionDeclaration _ => "FunctionDeclaration"
  | StructDeclaration _ _ => "StructDeclaration"
  | EnumDeclaration _ _ => "EnumDeclaration"
  | ContractDeclaration _ _ => "ContractDeclaration"
  | EventDeclaration _ _ => "EventDeclaration"
  | EmitStatement _ _ => "EmitStatement"
  | ImplBlock _ _ => "ImplBlock"
  end.

(** The dispatch of [compile_statement]. *)
Definition compile_statement_node (s : stmt) : C unit :=
  match s with
  | ExpressionStatement e => compile_ExpressionStatement e
  | VariableDeclaration name _ value_e _ => compile_VariableDeclaration name value_e
  | Assignment target operator value_e => compile_Assignment target operator value_e
  | Block statements => compile_statements statements
  | IfStatement c t el e => compile_IfStatement c t el e
  | WhileStatement c body => compile_WhileStatement c body
  | ForStatement v it body => compile_ForStatement v it body
  | BreakStatement => compile_BreakStatement
  | ContinueStatement => compile_ContinueStatement
  | ReturnStatement value_e => compile_ReturnStatement value_e
  | FunctionDeclaration d => compile_FunctionDeclaration d
  | _ => error ("Cannot compile: " +:+ stmt_class s)
  end.

Definition compile_LogicalOp (left : expr) (operator : string) (right : expr)
    : C unit :=
  compile_expression left ;;
  if String.eqb operator "and" then
    let* jump := emit JUMP_IF_FALSE (ArgInt 0) in
    emit_ POP ArgNone ;;
    compile_expression right ;;
    let* target := here in
    patch_jump jump target
  else if String.eqb operator "or" then
    let* jump := emit JUMP_IF_TRUE (ArgInt 0) in
    emit_ POP ArgNone ;;
    compile_expression right ;;
    let* target := here in
    patch_jump jump target
  else ret tt.

Definition compile_UnaryOp (operator : string) (operand_e : expr) : C unit :=
  compile_expression operand_e ;;
  if String.eqb operator "-" then emit_ NEG ArgNone
  else if String.eqb operator "~" then emit_ BIT_NOT ArgNone
  else if String.eqb operator "not" then emit_ NOT ArgNone
  else ret tt.

(** The dispatch of [compile_expression]. *)
Definition compile_expression_node (e : expr) : C unit :=
  match e with
  | IntegerLiteral v => emit_ PUSH (ArgInt v)
  | FloatLiteral v => emit_ PUSH (ArgFloat v)
  | StringLiteral v => emit_ PUSH (ArgStr v)
  | BooleanLiteral v => emit_ PUSH (ArgBool v)
  | NullLiteral => emit_ PUSH ArgNone
  | Identifier name => emit_ LOAD (ArgStr name)
  | ListLiteral elements =>
      compile_expressions elements ;;
      emit_ BUILD_LIST (ArgInt (Z.of_nat (length elements)))
  | MapLiteral pairs =>
      compile_pairs pairs ;;
      emit_ BUILD_MAP (ArgInt (Z.of_nat (length pairs)))
  | BinaryOp l op r =>
      compile_expression l ;; compile_expression r ;; emit_opt (binary_opcode op)
  | UnaryOp op operand_e => compile_UnaryOp op operand_e
  | ComparisonOp l op r =>
      compile_expression l ;; compile_expression r ;; emit_opt (comparison_opcode op)
  | LogicalOp l op r => compile_LogicalOp l op r
  | FunctionCall function arguments =>
      compile_expressions arguments ;;
      compile_expression function ;;
      emit_ CALL (ArgInt (Z.of_nat (length arguments)))
  | IndexAccess object index =>
      compile_expression object ;; compile_expression index ;; emit_ INDEX ArgNone
  | MemberAccess object member =>
      compile_expression object ;;
      let* const_idx := add_constant (VStr member) in
      emit_ GET_ATTR (ArgInt (Z.of_nat const_idx))
  | _ => error ("Cannot compile expression: " +:+ expr_class e)
  end.

End Compile.

Definition out_of_fuel {A} : C A := fun _ => NoFuel.

(** [func_compiler = Compiler(); get_local of each parameter; compile
    each statement of the body; emit PUSH None; emit RETURN]. *)
Definition function_body (compile_statement : stmt -> C unit)
    (names : list string) (body : list stmt) (next : nat) : result Compiler :=
  let declare :=
    fold_right (fun p k => get_local p ;; k) (ret tt) names in
  match (declare ;;
         compile_statements compile_statement body ;;
         emit_ PUSH ArgNone ;;
         emit_ RETURN ArgNone) (new_compiler next) with
  | Ok (_, c) => Ok c
  | CompileError msg => CompileError msg
  | NoFuel => NoFuel
  end.

Fixpoint compile_expression (fuel : nat) (e : expr) : C unit :=
  match fuel with
  | 0 => out_of_fuel
  | S f => compile_expression_node (compile_expression f) e
  end.

Fixpoint compile_statement (fuel : nat) (s : stmt) : C unit :=
  match fuel with
  | 0 => out_of_fuel
  | S f =>
      compile_statement_node (compile_statement f) (compile_expression f)
        (function_body (compile_statement f)) s
  end.

(** [Compiler().compile(program)]: the instructions and the constants. *)
Definition compile (fuel : nat) (program : Program)
    : result (list Instruction * list value) :=
  match (compile_statements (compile_statement fuel) program ;;
         emit_ HALT ArgNone) (new_compiler 0) with
  | Ok (_, c) => Ok (instructions c, constants c)
  | CompileError msg => CompileError msg
  | NoFuel => NoFuel
  end.

End Compiler.

(** ** Virtual machine (vm.py: VirtualMachine) *)

Module VM.

Import Chars Py Bytecode.

(** The machine. The operand stack has its top at the head of the list
    ([push] is [append] in the source); the current frame is the last
    of [frames]. *)
Record VirtualMachine : Type := mkVM {
  host : world;
  stack : list value;
  frames : list (gmap string value);
  globals : gmap string value;
  constants : list value;
  pc : nat
}.

Definition V (A : Type) : Type := VirtualMachine -> outcome A * VirtualMachine.

Definition ret {A} (a : A) : V A := fun m => (Val a, m).
Definition raise {A} (e : exn) : V A := fun m => (Raise e, m).
Definition unmodelled {A} : V A := fun m => (Unmodelled, m).

Definition bind {A B} (x : V A) (k : A -> V B) : V B :=
  fun m =>
    match x m with
    | (Val a, m') => k a m'
    | (Raise e, m') => (Raise e, m')
    | (Unmodelled, m') => (Unmodelled, m')
    | (OutOfFuel, m') => (OutOfFuel, m')
    end.

Notation "'let*' x := m 'in' k" := (bind m (fun x => k))
  (at level 10, x name, m at level 100, k at level 200, only parsing).
Notation "m ;; k" := (bind m (fun _ => k))
  (at level 100, k at level 200, right associativity, only parsing).

Definition lift {A} (h : H A) : V A :=
  fun m =>
    let '(r, w) := h (host m) in
    (r, {| host := w; stack := stack m; frames := frames m; globals := globals m;
           constants := constants m; pc := pc m |}).

Definition set_stack (st : list value) (m : VirtualMachine) : VirtualMachine :=
  {| host := host m; stack := st; frames := frames m; globals := globals m;
     constants := constants m; pc := pc m |}.

Definition set_frames (fs : list (gmap string value)) (m : VirtualMachine)
    : VirtualMachine :=
  {| host := host m; stack := stack m; frames := fs; globals := globals m;
     constants := constants m; pc := pc m |}.

Definition set_globals (g : gmap string value) (m : VirtualMachine) : VirtualMachine :=
  {| host := host m; stack := stack m; frames := frames m; globals := g;
     constants := constants m; pc := pc m |}.

Definition set_pc (p : nat) : V unit :=
  fun m => (Val tt, {| host := host m; stack := stack m; frames := frames m;
                       globals := globals m; constants := constants m; pc := p |}).

Definition push (v : value) : V unit :=
  fun m => (Val tt, set_stack (v :: stack m) m).

(** [self.stack.pop()]: [IndexError] on the empty stack. *)
Definition pop : V value :=
  fun m =>
    match stack m with
    | v :: st => (Val v, set_stack st m)
    | [] => (Raise IndexError, m)
    end.

Definition peek : V value :=
  fun m => (Val (match stack m with v :: _ => v | [] => VNone end), m).

(** [self.frames[-1] if self.frames else self.globals] *)
Definition current_frame : V (gmap string value) :=
  fun m => (Val (match last (frames m) with
                 | Some f => f
                 | None => globals m
                 end), m).

(** [frame[name] = v] on the current frame. *)
Definition store_current (name : string) (v : value) : V unit :=
  fun m =>
    match last (frames m) with
    | Some f => (Val tt, set_frames (removelast (frames m) ++ [<[name:=v]> f]) m)
    | None => (Val tt, set_globals (<[name:=v]> (globals m)) m)
    end.

Fixpoint pop_n (n : nat) : V (list value) :=
  match n with
  | 0 => ret []
  | S n' => let* v := pop in let* vs := pop_n n' in ret (v :: vs)
  end.

(** [b, a = self.pop(), self.pop(); self.push(f(a, b))] *)
Definition binary (f : value -> value -> H value) : V unit :=
  let* b := pop in
  let* a := pop in
  let* r := lift (f a b) in
  push r.

Definition value_of_operand (arg : operand_value) : value :=
  match arg with
  | ArgNone => VNone
  | ArgBool b => VBool b
  | ArgInt n => VInt n
  | ArgFloat f => VFloat f
  | ArgStr s => VStr s
  | ArgPair name slot => VTuple [VStr name; VInt (Z.of_nat slot)]
  end.

(** An operand used as a count or an address. *)
Definition nat_operand (arg : operand_value) : V nat :=
  match arg with
  | ArgInt n => if (0 <=? n)%Z then ret (Z.to_nat n) else unmodelled
  | _ => unmodelled
  end.

Definition name_operand (arg : operand_value) : V string :=
  match arg with
  | ArgStr s => ret s
  | _ => unmodelled
  end.

(** The host callables of [_setup_builtins], called with the arguments
    unpacked. *)
Definition call_host (b : vm_builtin) (args : list value) : H value :=
  match b, args with
  | vm_print, _ => py_print args ""
  | vm_println, _ => py_print args (String nl "")
  | vm_len, [VList l] => hbind (get_list l) (fun xs => hret (VInt (Z.of_nat (length xs))))
  | vm_len, [VDict l] => hbind (get_dict l) (fun xs => hret (VInt (Z.of_nat (length xs))))
  | vm_len, [VStr s] => hret (VInt (Z.of_nat (String.length s)))
  | vm_len, [VTuple xs] => hret (VInt (Z.of_nat (length xs)))
  | vm_len, _ => hraise TypeError
  | vm_range, _ => Interp.builtin_range args
  | vm_str, [] => hret (VStr "")
  | vm_str, [v] => hbind (py_str v) (fun s => hret (VStr s))
  | vm_str, _ => hunmodelled
  | vm_int, [] => hret (VInt 0)
  | vm_int, [_] => Interp.call_builtin b_int args
  | vm_int, _ => hunmodelled
  | vm_float, [] => hret (VFloat PrimFloat.zero)
  | vm_float, [_] => Interp.call_builtin b_float args
  | vm_float, _ => hraise TypeError
  | vm_abs, [_] => Interp.call_builtin b_abs args
  | vm_abs, _ => hraise TypeError
  | vm_min, [] => hraise TypeError
  | vm_min, [v] => hbind (iter_items v) (py_extreme OLt)
  | vm_min, _ => py_extreme OLt args
  | vm_max, [] => hraise TypeError
  | vm_max, [v] => hbind (iter_items v) (py_extreme OGt)
  | vm_max, _ => py_extreme OGt args
  | vm_sum, [v] => hbind (iter_items v) (sum_from (VInt 0))
  | vm_sum, [v; start] => hbind (iter_items v) (sum_from start)
  | vm_sum, _ => hraise TypeError
  end.

(** Calling a bound method of a host object: only [__len__] of a
    sequence is embedded. *)
Definition call_bound (self : value) (name : string) (args : list value) : H value :=
  if String.eqb name "__len__" then
    match args with
    | [] => call_host vm_len [self]
    | _ => hraise TypeError
    end
  else hunmodelled.

(** [hasattr(obj, member)] then [getattr]: lists, strings and tuples
    have [__len__], a bound method; the attribute tables of the host
    are otherwise not embedded. *)
Definition get_attr (obj : value) (member : value) : V value :=
  match obj, member with
  | VDict l, _ =>
      let* kvs := lift (get_dict l) in
      lift (check_hashable member) ;;
      ret (match dict_lookup member kvs with Some v => v | None => VNone end)
  | VList _, VStr name | VStr _, VStr name | VTuple _, VStr name =>
      if String.eqb name "__len__" then ret (VBoundMethod obj name) else unmodelled
  | _, _ => unmodelled
  end.

Definition new_frame (params : list string) (args : list value) : gmap string value :=
  (fix go (ps : list string) (i : nat) (frame : gmap string value) :=
     match ps with
     | [] => frame
     | p :: ps' =>
         go ps' (S i) (<[p:=match args !! i with Some a => a | None => VNone end]> frame)
     end) params 0 ∅.

(** [_execute_instruction]: [true] is the return value ["HALT"]. *)
Definition execute_instruction (instr : Instruction) : V bool :=
  let arg := operand instr in
  match opcode instr with
  | PUSH => push (value_of_operand arg) ;; ret false
  | POP => pop ;; ret false
  | DUP => let* v := peek in push v ;; ret false
  | ADD => binary py_add ;; ret false
  | SUB => binary py_sub ;; ret false
  | MUL => binary py_mul ;; ret false
  | DIV => binary py_div ;; ret false
  | MOD => binary py_mod ;; ret false
  | POW => binary py_pow ;; ret false
  | NEG => let* a := pop in let* r := lift (py_neg a) in push r ;; ret false
  | EQ => binary (py_eq_value false) ;; ret false
  | NE => binary (py_eq_value true) ;; ret false
  | LT => binary (py_order_value OLt) ;; ret false
  | GT => binary (py_order_value OGt) ;; ret false
  | LE => binary (py_order_value OLe) ;; ret false
  | GE => binary (py_order_value OGe) ;; ret false
  | NOT =>
      let* a := pop in
      let* t := lift (py_bool a) in
      push (VBool (negb t)) ;; ret false
  | BIT_AND => binary (py_bitop Z.land andb false) ;; ret false
  | BIT_OR => binary (py_bitop Z.lor orb true) ;; ret false
  | BIT_XOR => binary (py_bitop Z.lxor xorb false) ;; ret false
  | BIT_NOT => let* a := pop in let* r := lift (py_invert a) in push r ;; ret false
  | SHL => binary (py_shift Z.shiftl) ;; ret false
  | SHR => binary (py_shift Z.shiftr) ;; ret false
  | LOAD =>
      let* name := name_operand arg in
      let* frame := current_frame in
      (fun m =>
         match frame !! name with
         | Some v => push v m
         | None =>
             match globals m !! name with
             | Some v => push v m
             | None => (Raise (HostRuntimeError ("Undefined variable: " +:+ name)), m)
             end
         end) ;;
      ret false
  | STORE =>
      let* name := name_operand arg in
      let* v := pop in
      store_current name v ;; ret false
  | DEFINE =>
      match arg with
      | ArgPair name _ => let* v := pop in store_current name v ;; ret false
      | _ => unmodelled
      end
  | LOAD_CONST =>
      let* i := nat_operand arg in
      (fun m => match constants m !! i with
                | Some v => push v m
                | None => (Raise IndexError, m)
                end) ;;
      ret false
  | JUMP => let* target := nat_operand arg in set_pc target ;; ret false
  | JUMP_IF_FALSE =>
      let* v := pop in
      let* t := lift (py_bool v) in
      (if negb t then let* target := nat_operand arg in set_pc target else ret tt) ;;
      ret false
  | JUMP_IF_TRUE =>
      let* v := pop in
      let* t := lift (py_bool v) in
      (if t then let* target := nat_operand arg in set_pc target else ret tt) ;;
      ret false
  | CALL =>
      let* num_args := nat_operand arg in
      let* func := pop in
      let* popped := pop_n num_args in
      let args := rev popped in
      match func with
      | VHostFn b => let* r := lift (call_host b args) in push r ;; ret false
      | VBoundMethod self name =>
          let* r := lift (call_bound self name args) in push r ;; ret false
      | VCompiled _ f =>
          (fun m => (Val tt, set_frames (frames m ++ [new_frame (params f) args]) m)) ;;
          ret false
      | _ => ret false
      end
  | RETURN =>
      let* return_value := pop in
      (fun m => match frames m with
                | [] => (Raise IndexError, m)
                | _ => (Val tt, set_frames (removelast (frames m)) m)
                end) ;;
      push return_value ;; ret false
  | BUILD_LIST =>
      let* n := nat_operand arg in
      let* popped := pop_n n in
      let* l := lift (new_list (rev popped)) in
      push l ;; ret false
  | BUILD_MAP =>
      let* n := nat_operand arg in
      let* popped := pop_n (2 * n) in
      let fix pairs (xs : list value) : list (value * value) :=
        match xs with
        | v :: k :: rest => (k, v) :: pairs rest
        | _ => []
        end in
      let kvs := rev (pairs popped) in
      (fix check (ps : list (value * value)) : V unit :=
         match ps with
         | [] => ret tt
         | (k, _) :: rest => lift (check_hashable k) ;; check rest
         end) kvs ;;
      let* d := lift (new_dict (dict_of_pairs kvs [])) in
      push d ;; ret false
  | INDEX =>
      let* index := pop in
      let* obj := pop in
      let* r := lift (py_getitem obj index) in
      push r ;; ret false
  | STORE_INDEX =>
      let* v := pop in
      let* index := pop in
      let* obj := pop in
      lift (py_setitem obj index v) ;; ret false
  | GET_ATTR =>
      let* i := nat_operand arg in
      let* member := (fun m => match constants m !! i with
                               | Some v => (Val v, m)
                               | None => (Raise IndexError, m)
                               end) in
      let* obj := pop in
      let* r := get_attr obj member in
      push r ;; ret false
  | SET_ATTR =>
      let* i := nat_operand arg in
      let* member := (fun m => match constants m !! i with
                               | Some v => (Val v, m)
                               | None => (Raise IndexError, m)
                               end) in
      let* v := pop in
      let* obj := pop in
      match obj with
      | VDict _ => lift (py_setitem obj member v) ;; ret false
      | VNone | VBool _ | VInt _ | VFloat _ | VStr _ | VList _ | VTuple _ =>
          raise AttributeError
      | _ => unmodelled
      end
  | PRINT => let* v := pop in lift (py_print [v] "") ;; ret false
  | HALT => ret true
  | NOP => ret false
  | AND | OR | LOOP => ret false
  end.

(** The loop of [run]: fetch, advance the program counter, execute. *)
Fixpoint run_loop (fuel : nat) (instructions : list Instruction) : V unit :=
  match fuel with
  | 0 => fun m => (OutOfFuel, m)
  | S f =>
      fun m =>
        match instructions !! pc m with
        | None => (Val tt, m)
        | Some instr =>
            (set_pc (S (pc m)) ;;
             let* halt := execute_instruction instr in
             if halt then ret tt else run_loop f instructions) m
        end
  end.

(** [VirtualMachine()] *)
Definition vm_builtins : list (string * vm_builtin) :=
  [ ("print", vm_print); ("println", vm_println); ("len", vm_len);
    ("range", vm_range); ("str", vm_str); ("int", vm_int); ("float", vm_float);
    ("abs", vm_abs); ("min", vm_min); ("max", vm_max); ("sum", vm_sum) ].

Definition init : VirtualMachine :=
  {| host := {| heap := []; stdout := ""; next_id := 0 |};
     stack := [];
     frames := [];
     globals := fold_left (fun g nb => <[fst nb:=VHostFn (snd nb)]> g) vm_builtins ∅;
     constants := [];
     pc := 0 |}.

(** [run(instructions, constants)] *)
Definition run (fuel : nat) (instructions : list Instruction) (consts : list value)
    : V value :=
  (fun m => (Val tt, {| host := host m; stack := stack m; frames := [∅];
                        globals := globals m; constants := consts; pc := 0 |})) ;;
  run_loop fuel instructions ;;
  peek.

End VM.

(** ** The two backends on a program *)

(** What a run shows: how it ended and what it printed. *)
Definition observation : Type := Py.outcome Py.value * string.

Definition run_interpreter (fuel : nat) (program : Ast.Program) : observation :=
  Interp.run_program fuel program.

(** Compile, then run on a fresh machine. [None]: the compiler raised. *)
Definition run_vm (fuel : nat) (program : Ast.Program) : option observation :=
  match Compiler.compile fuel program with
  | Compiler.Ok (instructions, consts) =>
      let '(r, m) := VM.run fuel instructions consts VM.init in
      Some (r, Py.stdout (VM.host m))
  | _ => None
  end.

(** * Definitions of the specification *)

Module Programs.
Import Ast.

(** A line of output. *)
Definition line (s : string) : string := s +:+ String Chars.nl "".

(** [fn f(a) { return a }  println(f(7))] *)
Definition call_source : string :=
  "fn f(a) { return a }
println(f(7))".

Definition call_program : Program :=
  [ FunctionDeclaration
      (mkFunction "f" [mkParameter "a" None None] None
         [ReturnStatement (Some (Identifier "a"))] false);
    ExpressionStatement
      (FunctionCall (Identifier "println")
         [FunctionCall (Identifier "f") [IntegerLiteral 7]]) ].

(** [for x in [1] { println(x) }] *)
Definition for_source : string := "for x in [1] { println(x) }".

Definition for_program : Program :=
  [ ForStatement "x" (ListLiteral [IntegerLiteral 1])
      [ExpressionStatement (FunctionCall (Identifier "println") [Identifier "x"])] ].

(** [1 + 2] *)
Definition sum_program : Program :=
  [ ExpressionStatement (BinaryOp (IntegerLiteral 1) "+" (IntegerLiteral 2)) ].

(** [println(1 and 2)] and [println(0 or 2)] *)
Definition and_source : string := "println(1 and 2)".
Definition and_program : Program :=
  [ ExpressionStatement
      (FunctionCall (Identifier "println")
         [LogicalOp (IntegerLiteral 1) "and" (IntegerLiteral 2)]) ].

Definition or_source : string := "println(0 or 2)".
Definition or_program : Program :=
  [ ExpressionStatement
      (FunctionCall (Identifier "println")
         [LogicalOp (IntegerLiteral 0) "or" (IntegerLiteral 2)]) ].

(** [println(0 and 2)]: the jump is taken. *)
Definition and_false_program : Program :=
  [ ExpressionStatement
      (FunctionCall (Identifier "println")
         [LogicalOp (IntegerLiteral 0) "and" (IntegerLiteral 2)]) ].

(** A default value that names a variable of the defining scope, and a
    caller with a variable of the same name. *)
Definition default_source : string :=
  "let d = 1
fn f(a = d) { return a }
fn g() { let d = 2
  return f() }
g()".

Definition default_prelude : list stmt :=
  [ VariableDeclaration "d" None (Some (IntegerLiteral 1)) false;
    FunctionDeclaration
      (mkFunction "f" [mkParameter "a" None (Some (Identifier "d"))] None
         [ReturnStatement (Some (Identifier "a"))] false);
    FunctionDeclaration
      (mkFunction "g" [] None
         [ VariableDeclaration "d" None (Some (IntegerLiteral 2)) false;
           ReturnStatement (Some (FunctionCall (Identifier "f") [])) ] false) ].

Definition default_program : Program :=
  default_prelude ++ [ExpressionStatement (FunctionCall (Identifier "g") [])].

(** The same declarations, with [f] called where it is defined. *)
Definition default_direct_program : Program :=
  default_prelude ++ [ExpressionStatement (FunctionCall (Identifier "f") [])].

(** [fn h() { 1 }  h()]: a body that ends without [return]. *)
Definition no_return_program : Program :=
  [ FunctionDeclaration
      (mkFunction "h" [] None [ExpressionStatement (IntegerLiteral 1)] false);
    ExpressionStatement (FunctionCall (Identifier "h") []) ].

End Programs.

Module KindSpec.
Import Ast Py.

(** The kinds of runtime values of the specification, and the two
    kinds of host objects that the evaluator handles besides: tuples
    (the fields of an event) and environments (held by a contract
    handle). *)
Inductive kind : Set :=
  | KInteger | KFloat | KString | KBoolean | KNone | KList | KMap
  | KCallable | KStructDescriptor | KStructInstance
  | KEnumDescriptor | KContractHandle
  | KTuple | KEnvironment.

(** The kinds a value can be of. The evaluator builds an enum
    descriptor and a contract handle as a host dictionary, as it does a
    mapping, and nothing in a dictionary tells which of the three it
    is: a dictionary is of each of these kinds. *)
Definition kinds_of (v : value) : list kind :=
  match v with
  | VNone => [KNone]
  | VBool _ => [KBoolean]
  | VInt _ => [KInteger]
  | VFloat _ => [KFloat]
  | VStr _ => [KString]
  | VList _ => [KList]
  | VDict _ => [KMap; KEnumDescriptor; KContractHandle]
  | VTuple _ => [KTuple]
  | VBuiltin _ | VFunction _ _ _ | VHostFn _ | VCompiled _ _ | VBoundMethod _ _ =>
      [KCallable]
  | VStruct _ _ _ => [KStructDescriptor]
  | VInstance _ => [KStructInstance]
  | VEnv _ => [KEnvironment]
  end.

Definition has_kind (v : value) (k : kind) : Prop := In k (kinds_of v).

(** The numeric tower of the host: booleans are integers there. *)
Definition numeric (k : kind) : bool :=
  match k with
  | KBoolean | KInteger | KFloat => true
  | _ => false
  end.

(** The kinds that are host dictionaries. *)
Definition dictionary (k : kind) : bool :=
  match k with
  | KMap | KEnumDescriptor | KContractHandle => true
  | _ => false
  end.

(** The value of a boolean or an integer as an integer: [true] is 1
    and [false] is 0. *)
Definition integer_value (v : value) : option Z :=
  match v with
  | VBool true => Some 1%Z
  | VBool false => Some 0%Z
  | VInt n => Some n
  | _ => None
  end.

(** The value of a number as a float: a float itself, and a boolean or
    an integer that binary64 represents exactly (up to [2 ^ 53] in
    absolute value) converted. *)
Definition float_value (v : value) : option float :=
  match v with
  | VFloat f => Some f
  | _ =>
      match integer_value v with
      | Some z =>
          if (Z.abs z <=? 2 ^ 53)%Z then Some (Chars.float_of_Z z) else None
      | None => None
      end
  end.

(** Equality of two numbers by numeric value: booleans and integers by
    their integer values; where a float is one of the two, by their
    float values, as IEEE 754 compares them. *)
Definition number_equal (a b : value) : option bool :=
  match integer_value a, integer_value b with
  | Some x, Some y => Some (x =? y)%Z
  | _, _ =>
      match float_value a, float_value b with
      | Some f, Some g => Some (PrimFloat.eqb f g)
      | _, _ => None
      end
  end.

(** [enum E { A }] and then [E == {'A': 'A'}]. *)
Definition enum_and_mapping : Program :=
  [ EnumDeclaration "E" ["A"];
    ExpressionStatement
      (ComparisonOp (Identifier "E") "=="
         (MapLiteral [(StringLiteral "A", StringLiteral "A")])) ].

End KindSpec.

Module AssignSpec.
Import Ast.

(** The targets that [execute_Assignment] handles. *)
Definition is_target (e : expr) : bool :=
  match e with
  | Identifier _ | IndexAccess _ _ | MemberAccess _ _ => true
  | _ => false
  end.

Definition assignment_operators : list Tokens.TokenType :=
  [Tokens.ASSIGN; Tokens.PLUS_ASSIGN; Tokens.MINUS_ASSIGN;
   Tokens.MULTIPLY_ASSIGN; Tokens.DIVIDE_ASSIGN].

Definition c5_tokens : list Tokens.Token :=
  [ Tokens.mkToken Tokens.INTEGER (Tokens.PInt 1) 1 1;
    Tokens.mkToken Tokens.ASSIGN (Tokens.PStr "=") 1 3;
    Tokens.mkToken Tokens.INTEGER (Tokens.PInt 2) 1 5;
    Tokens.mkToken Tokens.EOF Tokens.PNone 1 6 ].

End AssignSpec.

Module ConstSpec.
Import Ast Py Interp.

(** The binding that [name] resolves to from scope [e] is marked
    constant in the scope that holds it. *)
Fixpoint bound_constant (n : nat) (es : list Environment) (e : env_id)
    (name : string) : bool :=
  match n with
  | 0 => false
  | S n' =>
      match es !! e with
      | None => false
      | Some E =>
          match variables E !! name with
          | Some _ => bool_decide (name ∈ constants E)
          | None =>
              match parent E with
              | Some p => bound_constant n' es p name
              | None => false
              end
          end
      end
  end.

(** [name] is a visible constant in state [s]. *)
Definition is_constant (s : state) (name : string) : bool :=
  bound_constant (length (envs s)) (envs s) (current_env s) name.

Definition compound_operators : list string := ["+="; "-="; "*="; "/="].

Definition c6_state : state :=
  snd (execute 3 (VariableDeclaration "K" None (Some (IntegerLiteral 3)) true) init).

End ConstSpec.

Module ScopeSpec.
Import Ast Py Interp.

(** What assignments can do to a scope: the names bound, the constant
    marks and the parent stay, and so does the value of every name
    marked constant. *)
Definition assigned_only (E E' : Environment) : Prop :=
  dom (variables E') = dom (variables E)
  /\ constants E' = constants E
  /\ parent E' = parent E
  /\ forall name, name ∈ constants E -> variables E' !! name = variables E !! name.

(** What definitions and assignments can do to a scope: names and
    constant marks are only added. *)
Definition extended (E E' : Environment) : Prop :=
  dom (variables E) ⊆ dom (variables E')
  /\ constants E ⊆ constants E'
  /\ parent E' = parent E.

(** From [s] to [s']: environments are only added, and among the first
    [n] each one is changed by assignments only, except [cur] (if any),
    which may also receive definitions. *)
Definition changes (n : nat) (cur : option env_id) (s s' : state) : Prop :=
  length (envs s) <= length (envs s')
  /\ forall e E, e < n -> envs s !! e = Some E ->
       exists E', envs s' !! e = Some E'
                  /\ (if decide (cur = Some e) then extended E E' else assigned_only E E').

(** An expression leaves the current scope in place and changes the
    existing scopes by assignments only. *)
Definition frame_expr (n : nat) (s s' : state) : Prop :=
  current_env s' = current_env s /\ changes n None s s'.

(** A statement may also define names in the current scope. *)
Definition frame_stmt (n : nat) (s s' : state) : Prop :=
  current_env s' = current_env s /\ changes n (Some (current_env s)) s s'.

(** A computation that, from any state with at least [n] environments,
    changes the first [n] as an expression (a statement) may. *)
Definition below_expr (n : nat) {A} (m : M A) : Prop :=
  forall s r s', n <= length (envs s) -> m s = (r, s') -> frame_expr n s s'.

Definition below_stmt (n : nat) {A} (m : M A) : Prop :=
  forall s r s', n <= length (envs s) -> m s = (r, s') -> frame_stmt n s s'.

(** Is [name] bound in the scope [e] itself? *)
Definition bound_in (s : state) (e : env_id) (name : string) : Prop :=
  exists E, envs s !! e = Some E /\ is_Some (variables E !! name).

Definition c7_iterable : expr := ListLiteral [IntegerLiteral 1; IntegerLiteral 2].

Definition c7_body : list stmt :=
  [VariableDeclaration "t" None (Some (Identifier "i")) false].

Definition c7_loop : stmt := ForStatement "i" c7_iterable c7_body.

Definition c7_final : state := snd (execute 5 c7_loop init).

(** [let i = 10] and then [for i in [1, 2] { i = i + 1 }]. *)
Definition c7_shadowing : Program :=
  [ VariableDeclaration "i" None (Some (IntegerLiteral 10)) false;
    ForStatement "i" c7_iterable
      [Assignment (Identifier "i") "=" (BinaryOp (Identifier "i") "+" (IntegerLiteral 1))] ].

(** The items that a for-in statement iterates over, as the iterable
    holds them when the loop starts: the items of a list or a tuple,
    the characters of a string, the keys of a map. *)
Definition items_of (w : world) (iterable : value) : option (list value) :=
  match iterable with
  | VList l =>
      match heap w !! l with
      | Some (OList xs) => Some xs
      | _ => None
      end
  | VTuple xs => Some xs
  | VStr s => Some (chars_of s)
  | VDict l =>
      match heap w !! l with
      | Some (ODict kvs) =>
          if same_keys (map fst kvs) (map fst kvs) then Some (map fst kvs) else None
      | _ => None
      end
  | _ => None
  end.

(** The scope of a loop entered from [s]: a child of the current scope
    of [s], without constants. *)
Definition loop_scope (bindings : gmap string value) (s : state) : Environment :=
  {| variables := bindings; constants := ∅; parent := Some (current_env s) |}.

(** [s] with one more scope, the last one. *)
Definition with_scope (E : Environment) (s : state) : state :=
  set_envs (envs s ++ [E]) s.

(** The state in which the body of a loop entered from [s] runs first:
    the scope of the loop is a new scope, it binds the loop variable to
    the first item and nothing else, and it is the current scope. *)
Definition entered (variable : string) (item : value) (s : state) : state :=
  set_current (length (envs s))
    (with_scope (loop_scope (<[variable:=item]> ∅) s) s).

(** The value that the scope [e] itself binds [name] to. *)
Definition binding (s : state) (e : env_id) (name : string) : option value :=
  match envs s !! e with
  | Some E => variables E !! name
  | None => None
  end.

(** Run in the scope [L], the computation ends in the scope [L] and
    leaves the binding of [name] in the scope [e] as it was. *)
Definition keeps (e : env_id) (name : string) (L : env_id) {A} (m : M A) : Prop :=
  forall s r s', current_env s = L -> m s = (r, s') ->
    current_env s' = L /\ binding s' e name = binding s e name.

(** A run of the body of a loop on [variable], started in the scope
    [L] that binds [variable], leaves the binding of [name] in the
    scope [e] as it was. *)
Definition body_keeps (e : env_id) (name : string) (L : env_id) (variable : string)
    (body : M value) : Prop :=
  forall st rb sb,
    current_env st = L -> is_Some (binding st L variable) ->
    body st = (rb, sb) ->
    binding sb e name = binding st e name.

(** [for i in [1, 2] { i = i + 1 }] where [let i = 10] has been
    executed. *)
Definition shadowing_body : list stmt :=
  [Assignment (Identifier "i") "=" (BinaryOp (Identifier "i") "+" (IntegerLiteral 1))].

Definition shadowing_loop : stmt := ForStatement "i" c7_iterable shadowing_body.

Definition shadowed_start : state :=
  snd (execute 3 (VariableDeclaration "i" None (Some (IntegerLiteral 10)) false) init).

Definition shadowing_end : state := snd (execute 6 shadowing_loop shadowed_start).

End ScopeSpec.

Module LexerSpec.
Import Chars Lexer.

(** The characters from the current position on: [source[pos:]]. *)
Definition rest (lx : Lexer) : list ascii :=
  drop (pos lx) (list_ascii_of_string (source lx)).

(** The characters before the current position: [source[:pos]]. *)
Definition consumed (lx : Lexer) : list ascii :=
  take (pos lx) (list_ascii_of_string (source lx)).

(** Line and column of the character that follows the text [before]:
    lines and columns count from 1, a newline ends a line. *)
Fixpoint newlines (before : list ascii) : nat :=
  match before with
  | [] => 0
  | c :: r => (if Ascii.eqb c nl then 1 else 0) + newlines r
  end.

Definition line_of (before : list ascii) : nat := S (newlines before).

Fixpoint since_newline (before : list ascii) (col : nat) : nat :=
  match before with
  | [] => col
  | c :: r => if Ascii.eqb c nl then since_newline r 1 else since_newline r (S col)
  end.

Definition column_of (before : list ascii) : nat := since_newline before 1.

(** The body of a string literal as the specification describes it: a
    sequence of plain characters and of backslash-character pairs. *)
Inductive piece : Type :=
  | Plain (c : ascii)
  | Escaped (c : ascii).

Definition encode_piece (p : piece) : list ascii :=
  match p with
  | Plain c => [c]
  | Escaped c => [backslash; c]
  end.

Definition encode (ps : list piece) : list ascii := concat (map encode_piece ps).

(** The escape sequences of the specification: n, t, r, backslash and
    the two quotes are translated; any other character after a
    backslash is copied. *)
Definition translate_escape (c : ascii) : ascii :=
  if Ascii.eqb c "n" then nl
  else if Ascii.eqb c "t" then tab
  else if Ascii.eqb c "r" then cr
  else c.

Definition decode_piece (p : piece) : ascii :=
  match p with
  | Plain c => c
  | Escaped c => translate_escape c
  end.

Definition decode (ps : list piece) : list ascii := map decode_piece ps.

(** A plain character of a body quoted by [q] is neither [q] nor a
    backslash. *)
Definition plain_ok (q : ascii) (p : piece) : Prop :=
  match p with
  | Plain c => c <> q /\ c <> backslash
  | Escaped _ => True
  end.

Fixpoint advance_n (k : nat) (lx : Lexer) : Lexer :=
  match k with
  | 0 => lx
  | S k' => advance_n k' (advance lx)
  end.

(** The states at the head of the loop of [tokenize]. *)
Inductive loop_reaches : Lexer -> Lexer -> Prop :=
  | reaches_here lx : loop_reaches lx lx
  | reaches_step lx c lx1 lx2 :
      current_char lx = Some c ->
      tokenize_step c lx = Ok lx1 ->
      loop_reaches lx1 lx2 ->
      loop_reaches lx lx2.

(** The state at the head of the loop of [tokenize] after [k]
    iterations, when none of them fails. *)
Fixpoint loop_state (k : nat) (lx : Lexer) : option Lexer :=
  match k with
  | 0 => Some lx
  | S k' =>
      match current_char lx with
      | Some c =>
          match tokenize_step c lx with
          | Ok lx1 => loop_state k' lx1
          | _ => None
          end
      | None => None
      end
  end.

Definition cursor (lx : Lexer) : string * nat * nat * nat :=
  (source lx, pos lx, line lx, column lx).

Definition moved (lx lx' : Lexer) : Prop :=
  exists k, k <= length (rest lx) /\ cursor lx' = cursor (advance_n k lx).

Definition positioned (lx : Lexer) : Prop :=
  line lx = line_of (consumed lx) /\ column lx = column_of (consumed lx).

Definition c8_src : string := "x = 1
  'ab\n\q".

Definition c8_body : list piece :=
  [Plain "a"; Plain "b"; Escaped "n"; Escaped "q"].

Definition c8_state : Lexer :=
  match loop_state 7 (init c8_src) with
  | Some lx => lx
  | None => init c8_src
  end.

End LexerSpec.

Module ListSpec.
Import Ast Py Interp.

(** The state with the heap replaced. *)
Definition with_heap (h : list obj) (s : state) : state :=
  set_host {| heap := h; stdout := stdout (host s); next_id := next_id (host s) |} s.

(** [a] may stand before [b]: the host's [b < a] is false. *)
Definition not_after (a b : value) : Prop := py_order OLt b a = Val false.

Definition all_integers (xs : list value) : Prop :=
  forallb (fun v => is_some (as_int v)) xs = true.

(** Floats other than NaN. *)
Definition all_floats (xs : list value) : Prop :=
  forallb (fun v => match v with VFloat f => negb (is_nan f) | _ => false end) xs
  = true.

Definition all_strings (xs : list value) : Prop :=
  forallb (fun v => is_some (str_key v)) xs = true.

(** Numbers of any kind, mixed: booleans, integers that binary64
    represents exactly, floats other than NaN. *)
Definition all_numbers (xs : list value) : Prop :=
  forallb (fun v => is_some (float_key v)) xs = true.

(** [[3, 1, 2]], and [[1, 'a']], whose items the host does not order. *)
Definition numbers : expr :=
  ListLiteral [IntegerLiteral 3; IntegerLiteral 1; IntegerLiteral 2].

Definition numbers_state : state := snd (evaluate 2 numbers init).

Definition mixed_sort : Program :=
  [ ExpressionStatement
      (MethodCall (ListLiteral [IntegerLiteral 1; StringLiteral "a"]) "sort" []) ].

(** [[2, 1.5, true]]: numbers of three kinds. *)
Definition mixed_numbers : list value := [VInt 2; VFloat 1.5; VBool true].

End ListSpec.

Module EventSpec.
Import Ast Py Interp.

(** The items of a list display, separated by a comma and a space. *)
Fixpoint comma_separated (parts : list string) : string :=
  match parts with
  | [] => ""
  | [part] => part
  | part :: rest => part +:+ ", " +:+ comma_separated rest
  end.

(** The line of an emitted event: [[EVENT] ], the name of the event, a
    colon, the arguments displayed as a list, each argument by the text
    of [texts] that stands for it, and the end of the line. *)
Definition event_output (event_name : string) (texts : list string) : string :=
  "[EVENT] " +:+ event_name +:+ ": [" +:+ comma_separated texts +:+ "]"
  +:+ String Chars.nl "".

(** [texts] are the displays that the host gives the values [vs]. *)
Definition displayed (w : world) (vs : list value) (texts : list string) : Prop :=
  Forall2 (fun v text => py_repr_opt (heap w) v = Some text) vs texts.

(** The state after an [emit]: the log of the event is [entry] and
    [output] has been written on standard output; nothing else has
    changed. *)
Definition emitted (event_name : string) (entry : list (list value))
    (output : string) (s : state) : state :=
  {| host := {| heap := heap (host s);
                stdout := stdout (host s) +:+ output;
                next_id := next_id (host s) |};
     envs := envs s;
     global_env := global_env s;
     current_env := current_env s;
     events := <[event_name:=entry]> (events s) |}.

(** [emit Transfer("a", 5)] with and without [event Transfer(...)]
    before it. *)
Definition emit_arguments : list expr := [StringLiteral "a"; IntegerLiteral 5].

Definition emit_alone : Program := [EmitStatement "Transfer" emit_arguments].

Definition emit_declared : Program :=
  [ EventDeclaration "Transfer" [("to", "string"); ("amount", "int")];
    EmitStatement "Transfer" emit_arguments ].

Definition emit_values : list value := [VStr "a"; VInt 5].

End EventSpec.

Module EnvSpec.
Import Ast Py Interp.

(** [const K = 3] and then [let K = 4] in the same scope. *)
Definition redeclared_constant : Program :=
  [ VariableDeclaration "K" None (Some (IntegerLiteral 3)) true;
    VariableDeclaration "K" None (Some (IntegerLiteral 4)) false ].

Definition redeclared_state : state := snd (run 10 redeclared_constant init).

(** The state after [let x = 1] at top level. *)
Definition one_variable : state :=
  snd (execute 3 (VariableDeclaration "x" None (Some (IntegerLiteral 1)) false) init).

End EnvSpec.

Module CollectionSpec.
Import Ast Py Interp.

(** [let l = [10, 20, 30]] and [let m = {'a': 1}] at top level. *)
Definition list_program : Program :=
  [ VariableDeclaration "l" None
      (Some (ListLiteral [IntegerLiteral 10; IntegerLiteral 20; IntegerLiteral 30]))
      false ].

Definition list_state : state := snd (run 10 list_program init).

Definition three_items : list value := [VInt 10; VInt 20; VInt 30].

Definition map_program : Program :=
  [ VariableDeclaration "m" None
      (Some (MapLiteral [(StringLiteral "a", IntegerLiteral 1)])) false ].

Definition map_state : state := snd (run 10 map_program init).

(** [struct P { x: int, y: int }] at top level. *)
Definition struct_program : Program :=
  [ StructDeclaration "P" [("x", "int"); ("y", "int")] ].

Definition struct_state : state := snd (run 10 struct_program init).

Definition key_not_found (member : string) : exn :=
  RuntimeError ("Key '" +:+ member +:+ "' not found in map").

End CollectionSpec.

Module CallSpec.
Import Ast Py Interp.

(** The arguments a call effectively binds: the first [n], with none
    for the missing ones. *)
Definition fit_arguments (n : nat) (args : list value) : list value :=
  take n (args ++ repeat VNone n).

Definition no_defaults (d : fundecl) : Prop :=
  Forall (fun p => default_value p = None) (fn_parameters d).

(** [fn pair(a, b) { return [a, b] }] *)
Definition pair_function : fundecl :=
  mkFunction "pair" [mkParameter "a" None None; mkParameter "b" None None] None
    [ReturnStatement (Some (ListLiteral [Identifier "a"; Identifier "b"]))] false.

(** [fn stop() { break }], and a loop that calls it:
    [while true { stop() }  println('done')]. *)
Definition stop_function : fundecl :=
  mkFunction "stop" [] None [BreakStatement] false.

Definition loop_stopped_by_call : Program :=
  [ FunctionDeclaration stop_function;
    WhileStatement (BooleanLiteral true)
      [ExpressionStatement (FunctionCall (Identifier "stop") [])];
    ExpressionStatement
      (FunctionCall (Identifier "println") [StringLiteral "done"]) ].

(** [let i = 0] and [while i < 3 { i += 1 }]. *)
Definition counting_loop : stmt :=
  WhileStatement (ComparisonOp (Identifier "i") "<" (IntegerLiteral 3))
    [Assignment (Identifier "i") "+=" (IntegerLiteral 1)].

Definition counting_start : state :=
  snd (execute 3 (VariableDeclaration "i" None (Some (IntegerLiteral 0)) false) init).

Definition counting_end : state := snd (execute 10 counting_loop counting_start).

End CallSpec.

Module StructSpec.
Import Ast Py Interp.

(** [struct P { x: int, y: int }] and then [let p = P(1)]. *)
Definition point_program : Program :=
  [ StructDeclaration "P" [("x", "int"); ("y", "int")];
    VariableDeclaration "p" None
      (Some (FunctionCall (Identifier "P") [IntegerLiteral 1])) false ].

Definition point_state : state := snd (run 10 point_program init).

Definition point_struct : value := VStruct 0 "P" [("x", "int"); ("y", "int")].

(** [let l = []] at top level. *)
Definition empty_list_state : state :=
  snd (execute 3 (VariableDeclaration "l" None (Some (ListLiteral [])) false) init).

Definition list_methods : list string := ["append"; "pop"; "length"; "reverse"; "sort"].

End StructSpec.

Module TokenizeSpec.
Import Chars Lexer LexerSpec.

(** The characters of the source. *)
Definition chars (src : string) : list ascii := list_ascii_of_string src.

(** The token that ends every token list: EOF at the position after
    the last character. *)
Definition eof_token (src : string) : Tokens.Token :=
  Tokens.mkToken Tokens.EOF Tokens.PNone (line_of (chars src)) (column_of (chars src)).

(** The cursor is inside the source or just after it. *)
Definition in_source (lx : Lexer) : Prop := pos lx <= String.length (source lx).

(** No EOF among the tokens. *)
Definition no_eof (ts : list Tokens.Token) : Prop :=
  Forall (fun t => Tokens.type t <> Tokens.EOF) ts.

(** Characters that the tokenizer has no rule for: ASCII characters
    that are not blank, not a quote, not a digit, letter or underscore
    and do not begin an operator or delimiter. The exclamation mark,
    which begins [!=] only, is left out. *)
Definition operator_start : string := "+-*/%<>=&|^~()[]{},.:;!".

Definition unexpected (c : ascii) : bool :=
  is_ascii c
  && negb (char_in c (String " " (String tab (String cr (String nl "")))))
  && negb (Ascii.eqb c dquote || Ascii.eqb c squote)
  && negb (isdigit c)
  && negb (isalpha c || Ascii.eqb c "_")
  && negb (char_in c operator_start).

(** Offset of the first [*/] in a text. *)
Fixpoint find_close (cs : list ascii) : option nat :=
  match cs with
  | [] => None
  | c :: r =>
      if Ascii.eqb c "*" && match r with d :: _ => Ascii.eqb d "/" | [] => false end
      then Some 0
      else option_map S (find_close r)
  end.

Definition not_newline (c : ascii) : bool := negb (Ascii.eqb c nl).

(** A character of an identifier after its first. *)
Definition word_char (c : ascii) : bool :=
  is_ascii c && (isalnum c || Ascii.eqb c "_").

Definition word_start (c : ascii) : bool :=
  is_ascii c && (isalpha c || Ascii.eqb c "_").

(** The text [tl] does not go on with a character accepted by [p];
    the character it starts with, if any, is ASCII. *)
Definition stops (p : ascii -> bool) (tl : list ascii) : Prop :=
  match tl with
  | [] => True
  | d :: _ => is_ascii d = true /\ p d = false
  end.

(** Type and value of the token of a word. *)
Definition word_token (w : string) : Tokens.TokenType * Tokens.payload :=
  match Tokens.assoc w Tokens.KEYWORDS with
  | Some Tokens.TRUE => (Tokens.TRUE, Tokens.PBool true)
  | Some Tokens.FALSE => (Tokens.FALSE, Tokens.PBool false)
  | Some Tokens.NONE => (Tokens.NULL, Tokens.PNone)
  | Some ty => (ty, Tokens.PStr w)
  | None => (Tokens.IDENTIFIER, Tokens.PStr w)
  end.

(** The token at the cursor of [lx]. *)
Definition token_at (lx : Lexer) (tv : Tokens.TokenType * Tokens.payload)
    : Tokens.Token :=
  Tokens.mkToken (fst tv) (snd tv) (line_of (consumed lx)) (column_of (consumed lx)).

(** After a run of digits: the end, or a character that is neither a
    digit nor a dot, or a dot that no digit follows. *)
Definition number_ends (tl : list ascii) : Prop :=
  match tl with
  | [] => True
  | d :: tl' =>
      is_ascii d = true /\ isdigit d = false
      /\ (Ascii.eqb d "." = true -> stops isdigit tl')
  end.

End TokenizeSpec.

Module OperatorSpec.
Import Ast Py Bytecode.

Definition unary_opcode (op : string) : option OpCode :=
  if String.eqb op "-" then Some NEG
  else if String.eqb op "~" then Some BIT_NOT
  else if String.eqb op "not" then Some NOT
  else None.

(** Expressions built from literals with the binary, unary and
    comparison operators of the language. *)
Fixpoint operator_expr (e : expr) : bool :=
  match e with
  | IntegerLiteral _ | FloatLiteral _ | StringLiteral _ | BooleanLiteral _
  | NullLiteral => true
  | BinaryOp l op r =>
      is_some (Compiler.binary_opcode op) && operator_expr l && operator_expr r
  | UnaryOp op a => is_some (unary_opcode op) && operator_expr a
  | ComparisonOp l op r =>
      is_some (Compiler.comparison_opcode op) && operator_expr l && operator_expr r
  | _ => false
  end.

(** Number of nodes. *)
Fixpoint size (e : expr) : nat :=
  match e with
  | BinaryOp l _ r | ComparisonOp l _ r => S (size l + size r)
  | UnaryOp _ a => S (size a)
  | _ => 1
  end.

Definition instr (op : OpCode) : Instruction := mkInstruction op ArgNone.

(** The postfix code of an operator expression: operands first, left
    to right, then the operator. *)
Fixpoint code_of (e : expr) : list Instruction :=
  match e with
  | IntegerLiteral v => [mkInstruction PUSH (ArgInt v)]
  | FloatLiteral v => [mkInstruction PUSH (ArgFloat v)]
  | StringLiteral v => [mkInstruction PUSH (ArgStr v)]
  | BooleanLiteral v => [mkInstruction PUSH (ArgBool v)]
  | NullLiteral => [mkInstruction PUSH ArgNone]
  | BinaryOp l op r =>
      code_of l ++ code_of r
      ++ match Compiler.binary_opcode op with Some o => [instr o] | None => [] end
  | UnaryOp op a =>
      code_of a ++ match unary_opcode op with Some o => [instr o] | None => [] end
  | ComparisonOp l op r =>
      code_of l ++ code_of r
      ++ match Compiler.comparison_opcode op with Some o => [instr o] | None => [] end
  | _ => []
  end.

Definition not_tuple (v : value) : bool :=
  match v with VTuple _ => false | _ => true end.

(** The machine after a piece of code that left [v] on the stack:
    [n] instructions further, the host world [w]. *)
Definition pushed (v : value) (n : nat) (w : world) (m : VM.VirtualMachine)
    : VM.VirtualMachine :=
  {| VM.host := w; VM.stack := v :: VM.stack m; VM.frames := VM.frames m;
     VM.globals := VM.globals m; VM.constants := VM.constants m;
     VM.pc := n + VM.pc m |}.

(** The function of the host that an operator instruction applies. *)
Definition binary_function (o : OpCode) : option (value -> value -> H value) :=
  match o with
  | ADD => Some py_add | SUB => Some py_sub | MUL => Some py_mul
  | DIV => Some py_div | MOD => Some py_mod | POW => Some py_pow
  | BIT_AND => Some (py_bitop Z.land andb false)
  | BIT_OR => Some (py_bitop Z.lor orb true)
  | BIT_XOR => Some (py_bitop Z.lxor xorb false)
  | SHL => Some (py_shift Z.shiftl) | SHR => Some (py_shift Z.shiftr)
  | EQ => Some (py_eq_value false) | NE => Some (py_eq_value true)
  | LT => Some (py_order_value OLt) | GT => Some (py_order_value OGt)
  | LE => Some (py_order_value OLe) | GE => Some (py_order_value OGe)
  | _ => None
  end.

(** How a run of the machine ends when the evaluation did not give a
    value. *)
Definition ending (r : outcome value) : outcome unit :=
  match r with
  | Val _ => Val tt
  | Raise ex => Raise ex
  | Unmodelled => Unmodelled
  | OutOfFuel => OutOfFuel
  end.

(** The machine, standing before [n] instructions with the host world
    of the evaluator, does what the evaluator does: the value is pushed
    and the program counter is after the code, or the run ends as the
    evaluation did; in both cases the host world is [w]. *)
Definition simulates (instructions : list Instruction) (m : VM.VirtualMachine)
    (n : nat) (r : outcome value) (w : world) : Prop :=
  match r with
  | Val v =>
      not_tuple v = true
      /\ forall F, VM.run_loop (n + F) instructions m =
                   VM.run_loop F instructions (pushed v n w m)
  | _ =>
      forall F, n <= F ->
        exists m', VM.run_loop F instructions m = (ending r, m') /\ VM.host m' = w
  end.

(** [println(e)] as a program. *)
Definition print_program (e : expr) : Program :=
  [ExpressionStatement (FunctionCall (Identifier "println") [e])].

(** The code of [println(e)] after the code of [e], with the final
    [HALT] of the program. *)
Definition print_tail : list Instruction :=
  [ mkInstruction LOAD (ArgStr "println"); mkInstruction CALL (ArgInt 1);
    mkInstruction POP ArgNone; mkInstruction HALT ArgNone ].

(** The machine of [run] before the first instruction. *)
Definition started (consts : list value) : VM.VirtualMachine :=
  {| VM.host := VM.host VM.init; VM.stack := VM.stack VM.init; VM.frames := [∅];
     VM.globals := VM.globals VM.init; VM.constants := consts; VM.pc := 0 |}.

(** [(1 + 2) * 3 < 10] *)
Definition sample_expr : expr :=
  ComparisonOp
    (BinaryOp (BinaryOp (IntegerLiteral 1) "+" (IntegerLiteral 2)) "*"
       (IntegerLiteral 3))
    "<" (IntegerLiteral 10).

End OperatorSpec.

Module GrammarSpec.
Import Ast.

(** A token that the loop of [parse_impl_block] neither ends on nor
    consumes. *)
Definition not_consumed (t : Tokens.Token) : bool :=
  negb (existsb (Tokens.tt_eqb (Tokens.type t))
          [Tokens.RBRACE; Tokens.EOF; Tokens.FN; Tokens.ASYNC; Tokens.NEWLINE]).

(** The literal or the name that a token is on its own. *)
Definition atom_expr (t : Tokens.Token) : option expr :=
  match Tokens.type t, Tokens.value t with
  | Tokens.INTEGER, Tokens.PInt v => Some (IntegerLiteral v)
  | Tokens.FLOAT, Tokens.PFloat v => Some (FloatLiteral v)
  | Tokens.STRING, Tokens.PStr s => Some (StringLiteral s)
  | Tokens.TRUE, Tokens.PBool b | Tokens.FALSE, Tokens.PBool b =>
      Some (BooleanLiteral b)
  | Tokens.NULL, _ => Some NullLiteral
  | Tokens.IDENTIFIER, Tokens.PStr s => Some (Identifier s)
  | _, _ => None
  end.

Definition multiplicative_ops : list Tokens.TokenType :=
  [Tokens.MULTIPLY; Tokens.DIVIDE; Tokens.MODULO].
Definition additive_ops : list Tokens.TokenType := [Tokens.PLUS; Tokens.MINUS].
Definition comparison_ops : list Tokens.TokenType :=
  [Tokens.EQUAL; Tokens.NOT_EQUAL; Tokens.LESS; Tokens.GREATER;
   Tokens.LESS_EQUAL; Tokens.GREATER_EQUAL].

(** The tokens that continue an expression after an atom, a product, a
    sum and a comparison. *)
Definition after_atom : list Tokens.TokenType :=
  [Tokens.LPAREN; Tokens.DOT; Tokens.LBRACKET; Tokens.POWER].
Definition after_product : list Tokens.TokenType := after_atom ++ multiplicative_ops.
Definition after_sum : list Tokens.TokenType := after_product ++ additive_ops.
Definition after_comparison : list Tokens.TokenType := after_sum ++ comparison_ops.
Definition after_expression : list Tokens.TokenType :=
  after_comparison ++ [Tokens.AND; Tokens.OR].

Section Grammar.

Variable tokens : list Tokens.Token.

(** The token at [p] is none of [excluded]. *)
Definition follows (excluded : list Tokens.TokenType) (p : nat) : Prop :=
  exists t, tokens !! p = Some t
            /\ existsb (Tokens.tt_eqb (Tokens.type t)) excluded = false.

(** [chain item ops node pos e p]: the tokens from [pos] to [p] are
    items separated by operators of [ops], and [e] is the tree of the
    items nested to the left. *)
Inductive chain (item : nat -> expr -> nat -> Prop) (ops : list Tokens.TokenType)
    (node : expr -> string -> expr -> expr) : nat -> expr -> nat -> Prop :=
  | chain_one (pos : nat) (e : expr) (p : nat) :
      item pos e p -> chain item ops node pos e p
  | chain_more (pos : nat) (l : expr) (p : nat) (t : Tokens.Token) (op : string)
      (r : expr) (p' : nat) :
      chain item ops node pos l p ->
      tokens !! p = Some t ->
      existsb (Tokens.tt_eqb (Tokens.type t)) ops = true ->
      Tokens.value t = Tokens.PStr op ->
      item (S p) r p' ->
      chain item ops node pos (node l op r) p'.

Definition atom (pos : nat) (e : expr) (p : nat) : Prop :=
  exists t, tokens !! pos = Some t /\ atom_expr t = Some e /\ p = S pos.

Definition product : nat -> expr -> nat -> Prop :=
  chain atom multiplicative_ops BinaryOp.
Definition sum : nat -> expr -> nat -> Prop :=
  chain product additive_ops BinaryOp.
Definition comparison : nat -> expr -> nat -> Prop :=
  chain sum comparison_ops ComparisonOp.

End Grammar.

(** [1 - 2 * 3 - 4 < 5 == true] *)
Definition chain_source : string := "1 - 2 * 3 - 4 < 5 == true".

Definition chain_expr : expr :=
  ComparisonOp
    (ComparisonOp
       (BinaryOp
          (BinaryOp (IntegerLiteral 1) "-"
             (BinaryOp (IntegerLiteral 2) "*" (IntegerLiteral 3)))
          "-" (IntegerLiteral 4))
       "<" (IntegerLiteral 5))
    "==" (BooleanLiteral true).

(** [impl T { x }] *)
Definition impl_source : string := "impl T { x }".

End GrammarSpec.

(** * Properties *)

(** ** The two backends, the logical operators and default values *)

Module BackendProofs.
Import Ast Py Programs.

(** C1. On a program of the overlap subset, a function declared and
    called with one positional argument, the evaluator prints 7 and the
    compiler with the VM prints nothing and ends in the host's
    IndexError: CALL pushes a frame for the compiled function and never
    runs its code, so no value is left for the call of println. *)
Theorem C1_backends_differ_on_function_call :
  parse_source call_source = Parsed call_program
  /\ run_interpreter 10 call_program = (Val VNone, line "7")
  /\ run_vm 30 call_program = Some (Raise IndexError, "").
Proof. repeat split; vm_compute; reflexivity. Qed.

(** The same on a for-in loop: the VM compares the counter with the
    bound method [__len__] and ends in TypeError. *)
Example backends_differ_on_for_loop :
  parse_source for_source = Parsed for_program
  /\ run_interpreter 10 for_program = (Val VNone, line "1")
  /\ run_vm 30 for_program = Some (Raise TypeError, "").
Proof. repeat split; vm_compute; reflexivity. Qed.

(** The final value of an expression statement: the VM pops it. *)
Example backends_differ_on_final_value :
  run_interpreter 10 sum_program = (Val (VInt 3), "")
  /\ run_vm 30 sum_program = Some (Val VNone, "").
Proof. repeat split; vm_compute; reflexivity. Qed.

(** Where no function is called and no logical operator or for-in loop
    is used, the two backends do agree, as on the second scenario of
    the specification. *)
Example backends_agree_on_while_loop :
  forall p,
    parse_source "let x = 0
let i = 0
while i < 10 { x += i
  i += 1 }
println(x)" = Parsed p ->
    run_interpreter 100 p = (Val VNone, line "45")
    /\ run_vm 200 p = Some (Val VNone, line "45").
Proof.
  intros p H. vm_compute in H. injection H as <-. split; vm_compute; reflexivity.
Qed.

(** C2. With [a] truthy, [a and b] gives 2 under the evaluator, while
    under the VM JUMP_IF_FALSE has popped the operand and the POP that
    follows finds the stack empty: IndexError. With [a] falsy, [a or b]
    fails the same way, and when the jump is taken the operand it
    should leave is gone. *)
Theorem C2_vm_loses_the_operand :
  parse_source and_source = Parsed and_program
  /\ run_interpreter 10 and_program = (Val VNone, line "2")
  /\ run_vm 30 and_program = Some (Raise IndexError, "")
  /\ parse_source or_source = Parsed or_program
  /\ run_interpreter 10 or_program = (Val VNone, line "2")
  /\ run_vm 30 or_program = Some (Raise IndexError, "")
  /\ run_interpreter 10 and_false_program = (Val VNone, line "0")
  /\ run_vm 30 and_false_program = Some (Raise IndexError, "").
Proof. repeat split; vm_compute; reflexivity. Qed.

(** The evaluator does what the claim says of [and]: the left operand
    when it is falsy, without evaluating the right one; else whatever
    evaluating the right operand gives. *)
Lemma evaluate_and (fuel : nat) (a b : expr) (s s1 : Interp.state) (va : value)
    (t : bool) :
  Interp.evaluate fuel a s = (Val va, s1) ->
  Interp.lift (is_truthy va) s1 = (Val t, s1) ->
  Interp.evaluate (S fuel) (LogicalOp a "and" b) s =
    if t then Interp.evaluate fuel b s1 else (Val va, s1).
Proof.
  intros Ha Ht. cbn [Interp.evaluate Interp.evaluate_node].
  unfold Interp.evaluate_LogicalOp, Interp.bind at 1. rewrite Ha.
  cbn [String.eqb Ascii.eqb Bool.eqb]. unfold Interp.bind. rewrite Ht.
  destruct t; reflexivity.
Qed.

Lemma evaluate_or (fuel : nat) (a b : expr) (s s1 : Interp.state) (va : value)
    (t : bool) :
  Interp.evaluate fuel a s = (Val va, s1) ->
  Interp.lift (is_truthy va) s1 = (Val t, s1) ->
  Interp.evaluate (S fuel) (LogicalOp a "or" b) s =
    if t then (Val va, s1) else Interp.evaluate fuel b s1.
Proof.
  intros Ha Ht. cbn [Interp.evaluate Interp.evaluate_node].
  unfold Interp.evaluate_LogicalOp, Interp.bind at 1. rewrite Ha.
  cbn [String.eqb Ascii.eqb Bool.eqb]. unfold Interp.bind. rewrite Ht.
  destruct t; reflexivity.
Qed.

(** C3. The default value [d] of the parameter of [f] is evaluated in
    the scope of the caller: called from [g], where [d] is 2, [f()]
    gives 2, although [d] is 1 where [f] was defined, and there [f()]
    gives 1. *)
Theorem C3_default_evaluated_in_caller_scope :
  parse_source default_source = Parsed default_program
  /\ run_interpreter 10 default_program = (Val (VInt 2), "")
  /\ run_interpreter 10 default_direct_program = (Val (VInt 1), "").
Proof. repeat split; vm_compute; reflexivity. Qed.

(** The other half of the claim holds: a call whose body completes
    without [return] gives none, and restores the scope of the
    caller. *)
Lemma call_without_return_gives_none
    (execute : stmt -> Interp.M value) (evaluate : expr -> Interp.M value)
    (i : nat) (d : fundecl) (closure : nat) (args : list value)
    (s s1 s2 : Interp.state) (v : value) :
  Interp.bind (Interp.new_env (Some closure))
    (fun func_env =>
       Interp.bind (Interp.bind_parameters evaluate func_env (fn_parameters d) args)
         (fun _ => Interp.ret func_env)) s = (Val (length (Interp.envs s)), s1) ->
  Interp.execute_Block execute (fn_body d)
    (Interp.set_current (length (Interp.envs s)) s1) = (Val v, s2) ->
  Interp.call_function execute evaluate (VFunction i d closure) args s =
    (Val VNone, Interp.set_current (Interp.current_env s1) s2).
Proof.
  intros Hbind Hbody. unfold Interp.call_function.
  unfold Interp.bind at 1. unfold Interp.bind at 1 in Hbind.
  cbn [Interp.new_env] in *.
  unfold Interp.bind at 1. unfold Interp.bind at 1 in Hbind.
  destruct (Interp.bind_parameters evaluate _ _ _ _) as [[[]|e| |] s1'] eqn:Eb;
    try discriminate Hbind.
  injection Hbind as <-.
  unfold Interp.with_env, Interp.catch_return. by rewrite Hbody.
Qed.

Example call_without_return_example :
  run_interpreter 10 no_return_program = (Val VNone, "").
Proof. vm_compute. reflexivity. Qed.

End BackendProofs.

(** ** Equality between values of distinct kinds *)

Module KindProofs.
Import Ast Py KindSpec.

Lemma py_eq_distinct_kinds h n a b ka kb :
  has_kind a ka -> has_kind b kb -> ka <> kb ->
  numeric ka && numeric kb = false ->
  dictionary ka && dictionary kb = false ->
  py_eq h n a b = Some false.
Proof.
  unfold has_kind. intros Ha Hb Hk Hn Hd.
  destruct a, b; cbn [kinds_of In] in Ha, Hb;
    repeat match goal with
           | H : _ \/ _ |- _ => destruct H
           | H : False |- _ => destruct H
           end; subst; try congruence; try discriminate;
    destruct n; reflexivity.
Qed.

Lemma py_eq_numbers h n a b r :
  number_equal a b = Some r -> py_eq h n a b = Some r.
Proof.
  unfold number_equal, float_value.
  destruct a as [|[]| | | | | | | | | | | | | |], b as [|[]| | | | | | | | | | | | | |];
    cbn [integer_value]; try discriminate;
    destruct n; cbn [py_eq as_num num_eq to_float];
    unfold Chars.exact_float_range;
    repeat match goal with
           | |- context [(Z.abs ?z <=? 2 ^ 53)%Z] => destruct (Z.abs z <=? 2 ^ 53)%Z
           end; try discriminate; by intros [= <-].
Qed.

Lemma evaluate_equality (fuel : nat) (l r : expr) (s s1 s2 : Interp.state)
    (vl vr : value) (b : bool) :
  Interp.evaluate fuel l s = (Val vl, s1) ->
  Interp.evaluate fuel r s1 = (Val vr, s2) ->
  (forall h n, py_eq h n vl vr = Some b) ->
  Interp.evaluate (S fuel) (ComparisonOp l "==" r) s = (Val (VBool b), s2)
  /\ Interp.evaluate (S fuel) (ComparisonOp l "!=" r) s = (Val (VBool (negb b)), s2).
Proof.
  intros Hl Hr Heq.
  cbn [Interp.evaluate Interp.evaluate_node].
  unfold Interp.evaluate_ComparisonOp, Interp.bind. rewrite Hl, Hr.
  unfold Interp.compare_values. cbn [String.eqb Ascii.eqb Bool.eqb].
  unfold Interp.lift, py_eq_value, of_heap. rewrite Heq.
  destruct s2 as [w es g c ev]. destruct b; split; reflexivity.
Qed.

(** C4 (as the code has it). [==] on two values of distinct kinds
    gives false and [!=] gives true, and neither raises, unless both
    are numbers or both are dictionaries of the host (mappings, enum
    descriptors, contract handles). Numbers of distinct kinds compare
    by numeric value: a boolean and an integer as integers, and a float
    with a boolean or an integer as floats. *)
Theorem C4_equality_between_distinct_kinds
    (fuel : nat) (l r : expr) (s s1 s2 : Interp.state) (vl vr : value)
    (kl kr : kind) :
  Interp.evaluate fuel l s = (Val vl, s1) ->
  Interp.evaluate fuel r s1 = (Val vr, s2) ->
  has_kind vl kl -> has_kind vr kr -> kl <> kr ->
  (numeric kl && numeric kr = false ->
   dictionary kl && dictionary kr = false ->
   Interp.evaluate (S fuel) (ComparisonOp l "==" r) s = (Val (VBool false), s2)
   /\ Interp.evaluate (S fuel) (ComparisonOp l "!=" r) s = (Val (VBool true), s2))
  /\ (forall b, number_equal vl vr = Some b ->
      Interp.evaluate (S fuel) (ComparisonOp l "==" r) s = (Val (VBool b), s2)
      /\ Interp.evaluate (S fuel) (ComparisonOp l "!=" r) s =
           (Val (VBool (negb b)), s2)).
Proof.
  intros Hl Hr Hkl Hkr Hk. split.
  - intros Hn Hd.
    apply (evaluate_equality fuel l r s s1 s2 vl vr false Hl Hr).
    intros h n. by apply (py_eq_distinct_kinds h n vl vr kl kr).
  - intros b Hb.
    apply (evaluate_equality fuel l r s s1 s2 vl vr b Hl Hr).
    intros h n. by apply py_eq_numbers.
Qed.

Lemma C4_equality_between_distinct_kinds_witness :
  (Interp.evaluate 2 (ComparisonOp (IntegerLiteral 1) "==" (StringLiteral "1"))
     Interp.init = (Val (VBool false), Interp.init)
   /\ Interp.evaluate 2 (ComparisonOp (IntegerLiteral 1) "!=" (StringLiteral "1"))
       Interp.init = (Val (VBool true), Interp.init))
  /\ (Interp.evaluate 2 (ComparisonOp (BooleanLiteral false) "==" (FloatLiteral 0))
       Interp.init = (Val (VBool true), Interp.init)
      /\ Interp.evaluate 2 (ComparisonOp (BooleanLiteral false) "!=" (FloatLiteral 0))
          Interp.init = (Val (VBool false), Interp.init)).
Proof.
  split.
  - refine (proj1 (C4_equality_between_distinct_kinds 1 (IntegerLiteral 1)
                     (StringLiteral "1") Interp.init Interp.init Interp.init
                     (VInt 1) (VStr "1") KInteger KString _ _ _ _ _) _ _).
    + reflexivity.
    + reflexivity.
    + left. reflexivity.
    + left. reflexivity.
    + discriminate.
    + reflexivity.
    + reflexivity.
  - refine (proj2 (C4_equality_between_distinct_kinds 1 (BooleanLiteral false)
                     (FloatLiteral 0) Interp.init Interp.init Interp.init
                     (VBool false) (VFloat 0) KBoolean KFloat _ _ _ _ _) true _).
    + reflexivity.
    + reflexivity.
    + left. reflexivity.
    + left. reflexivity.
    + discriminate.
    + vm_compute. reflexivity.
Defined.

(** The claim as stated fails on a boolean and an integer: [true == 1]
    is true and [true != 1] is false. *)
Lemma C4_boolean_equals_integer :
  has_kind (VBool true) KBoolean /\ has_kind (VInt 1) KInteger
  /\ KBoolean <> KInteger
  /\ Interp.evaluate 2 (ComparisonOp (BooleanLiteral true) "==" (IntegerLiteral 1))
       Interp.init = (Val (VBool true), Interp.init)
  /\ Interp.evaluate 2 (ComparisonOp (BooleanLiteral true) "!=" (IntegerLiteral 1))
       Interp.init = (Val (VBool false), Interp.init).
Proof.
  split; [by left|]. split; [by left|]. split; [discriminate|].
  split; vm_compute; reflexivity.
Qed.

(** It fails on an enum descriptor and a mapping too: after
    [enum E { A }], [E == {'A': 'A'}] is true. *)
Example enum_descriptor_equals_mapping :
  fst (run_interpreter 10 enum_and_mapping) = Val (VBool true).
Proof. vm_compute. reflexivity. Qed.

End KindProofs.

(** ** Assignment targets *)

Module AssignProofs.
Import Ast Py AssignSpec.

(** C5 (as the code has it). The parser accepts [e op v] as an
    [Assignment] node whatever the class of the expression [e] read
    first; a target that is neither an identifier, an index access nor
    a member access is refused by the evaluator, which raises
    "Invalid assignment target" with the class of [e] once [v] has been
    evaluated. *)
Theorem C5_invalid_target_rejected_at_run_time
    (tokens : list Tokens.Token) (n p p1 p2 : nat) (e v : expr)
    (t : Tokens.Token) (op : string)
    (fuel : nat) (s s1 : Interp.state) (val : value) :
  Parser.parse_expression tokens n p = Parser.Ok (e, p1) ->
  Parser.current_token tokens p1 = Parser.Ok (t, p1) ->
  In (Tokens.type t) assignment_operators ->
  Tokens.value t = Tokens.PStr op ->
  Parser.parse_expression tokens n (S p1) = Parser.Ok (v, p2) ->
  is_target e = false ->
  Interp.evaluate fuel v s = (Val val, s1) ->
  Parser.parse_expression_or_assignment tokens n p = Parser.Ok (Assignment e op v, p2)
  /\ Interp.execute (S fuel) (Assignment e op v) s =
       (Raise (RuntimeError ("Invalid assignment target: " +:+ expr_class e)), s1).
Proof.
  intros He Ht Hin Hop Hv Htarget Heval. split.
  - unfold Parser.parse_expression_or_assignment, Parser.bind.
    rewrite He. unfold Parser.match_, Parser.bind. rewrite Ht.
    assert (existsb (Tokens.tt_eqb (Tokens.type t))
              [Tokens.ASSIGN; Tokens.PLUS_ASSIGN; Tokens.MINUS_ASSIGN;
               Tokens.MULTIPLY_ASSIGN; Tokens.DIVIDE_ASSIGN] = true) as ->.
    { apply existsb_exists. exists (Tokens.type t). split; [exact Hin|].
      unfold Tokens.tt_eqb. destruct (Tokens.TokenType_eq_dec _ _); congruence. }
    unfold Parser.ret, Parser.advance, Parser.bind. rewrite Ht.
    unfold Parser.str_value. rewrite Hop. unfold Parser.ret. rewrite Hv. reflexivity.
  - cbn [Interp.execute Interp.execute_node]. unfold Interp.execute_Assignment.
    unfold Interp.bind at 1. rewrite Heval.
    destruct e; try discriminate Htarget; reflexivity.
Qed.

Lemma C5_invalid_target_rejected_at_run_time_witness :
  Parser.parse_expression_or_assignment c5_tokens 20 0 =
    Parser.Ok (Assignment (IntegerLiteral 1) "=" (IntegerLiteral 2), 3)
  /\ Interp.execute 2 (Assignment (IntegerLiteral 1) "=" (IntegerLiteral 2)) Interp.init =
       (Raise (RuntimeError "Invalid assignment target: IntegerLiteral"), Interp.init).
Proof.
  apply (C5_invalid_target_rejected_at_run_time c5_tokens 20 0 1 3
           (IntegerLiteral 1) (IntegerLiteral 2)
           (Tokens.mkToken Tokens.ASSIGN (Tokens.PStr "=") 1 3) "=" 1
           Interp.init Interp.init (VInt 2)).
  - vm_compute. reflexivity.
  - vm_compute. reflexivity.
  - left. reflexivity.
  - reflexivity.
  - vm_compute. reflexivity.
  - reflexivity.
  - reflexivity.
Defined.

(** The claim as stated fails: lexing and parsing [1 = 2] succeeds and
    gives an assignment; it is the evaluator that fails. *)
Lemma C5_parser_accepts_literal_target :
  parse_source "1 = 2" = Parsed [Assignment (IntegerLiteral 1) "=" (IntegerLiteral 2)]
  /\ (forall m t, parse_source "1 = 2" <> ParseFailure m t)
  /\ run_interpreter 5 [Assignment (IntegerLiteral 1) "=" (IntegerLiteral 2)] =
       (Raise (RuntimeError "Invalid assignment target: IntegerLiteral"), "").
Proof.
  split; [vm_compute; reflexivity|]. split; [|vm_compute; reflexivity].
  intros m t H. vm_compute in H. discriminate H.
Qed.

End AssignProofs.

(** ** Constants *)

Module ConstProofs.
Import Ast Py Interp ConstSpec.

Lemma env_assign_constant n : forall s e name v,
  bound_constant n (envs s) e name = true ->
  env_assign n e name v s = (Raise (cannot_reassign name), s).
Proof.
  induction n; intros s e name v H; cbn [bound_constant] in H; [discriminate|].
  cbn [env_assign].
  destruct (envs s !! e) as [E|]; [|discriminate].
  destruct (variables E !! name).
  - apply bool_decide_eq_true in H. by rewrite decide_True.
  - destruct (parent E) as [p|]; [|discriminate]. by apply IHn.
Qed.

Lemma assign_constant s name v :
  is_constant s name = true -> assign name v s = (Raise (cannot_reassign name), s).
Proof. intros H. unfold assign. by apply env_assign_constant. Qed.

Lemma lift_envs {A} (h : H A) s r s' :
  lift h s = (r, s') ->
  envs s' = envs s /\ current_env s' = current_env s /\ events s' = events s
  /\ global_env s' = global_env s.
Proof.
  unfold lift. destruct (h (host s)) as [r0 w]. intros [= <- <-]. by destruct s.
Qed.

Lemma apply_compound_envs left op right s r s' :
  apply_compound_assignment left op right s = (r, s') ->
  envs s' = envs s /\ current_env s' = current_env s.
Proof.
  unfold apply_compound_assignment.
  repeat (destruct (String.eqb op _);
          [intros H; apply lift_envs in H; tauto|]).
  unfold runtime_error, raise. by intros [= <- <-].
Qed.

(** C6 (as the code has it). When the visible binding of a name is a
    constant, a plain assignment to the name whose right-hand side
    evaluates, and a compound assignment whose operator applies to the
    constant's value and the right-hand value, raise the runtime
    failure "Cannot reassign constant 'name'"; a compound assignment
    whose operator fails raises that failure instead; in each case the
    environments are as they were when the right-hand side had been
    evaluated. *)
Theorem C6_constant_reassignment_fails
    (fuel : nat) (name op : string) (rhs : expr) (s s1 : state) (val : value) :
  evaluate fuel rhs s = (Val val, s1) ->
  is_constant s1 name = true ->
  execute (S fuel) (Assignment (Identifier name) "=" rhs) s =
    (Raise (RuntimeError ("Cannot reassign constant '" +:+ name +:+ "'")), s1)
  /\
  (In op compound_operators ->
   forall cur r s2,
     get name s1 = (Val cur, s1) ->
     apply_compound_assignment cur op val s1 = (r, s2) ->
     envs s2 = envs s1 /\
     execute (S fuel) (Assignment (Identifier name) op rhs) s =
       (match r with
        | Val _ => Raise (RuntimeError ("Cannot reassign constant '" +:+ name +:+ "'"))
        | Raise e => Raise e
        | Unmodelled => Unmodelled
        | OutOfFuel => OutOfFuel
        end, s2)).
Proof.
  intros Hrhs Hconst. split.
  - cbn [execute execute_node]. unfold execute_Assignment, bind at 1.
    rewrite Hrhs. rewrite String.eqb_refl.
    unfold bind. rewrite (assign_constant s1 name val Hconst). reflexivity.
  - intros Hop cur r s2 Hget Happ.
    destruct (apply_compound_envs _ _ _ _ _ _ Happ) as [Henvs Hcur].
    split; [exact Henvs|].
    assert (String.eqb op "=" = false) as Hne.
    { simpl in Hop. destruct Hop as [<-|[<-|[<-|[<-|[]]]]]; reflexivity. }
    assert (is_constant s2 name = true) as Hconst2.
    { unfold is_constant in *. by rewrite Henvs, Hcur. }
    cbn [execute execute_node]. unfold execute_Assignment, bind at 1.
    rewrite Hrhs, Hne. unfold bind. rewrite Hget, Happ.
    destruct r as [new_value|e| |]; try reflexivity.
    by rewrite (assign_constant s2 name new_value Hconst2).
Qed.

Lemma C6_constant_reassignment_fails_witness :
  execute 2 (Assignment (Identifier "K") "=" (IntegerLiteral 4)) c6_state =
    (Raise (RuntimeError "Cannot reassign constant 'K'"), c6_state)
  /\ execute 2 (Assignment (Identifier "K") "+=" (IntegerLiteral 4)) c6_state =
    (Raise (RuntimeError "Cannot reassign constant 'K'"), c6_state)
  /\ get "K" c6_state = (Val (VInt 3), c6_state).
Proof.
  destruct (C6_constant_reassignment_fails 1 "K" "+=" (IntegerLiteral 4)
              c6_state c6_state (VInt 4)) as [Hplain Hcompound].
  - reflexivity.
  - vm_compute. reflexivity.
  - split; [exact Hplain|]. split; [|vm_compute; reflexivity].
    destruct (Hcompound (or_introl eq_refl) (VInt 3) (Val (VInt 7)) c6_state) as [_ H].
    + vm_compute. reflexivity.
    + vm_compute. reflexivity.
    + exact H.
Defined.

(** The claim as stated fails on a compound assignment whose operator
    does not apply: [const K = 3; K += 'a'] ends in the host's
    [TypeError] for the operands of [+], not in a failure about the
    constant. The constant keeps its value there too. *)
Lemma C6_compound_assignment_type_error :
  run_interpreter 5
    [ VariableDeclaration "K" None (Some (IntegerLiteral 3)) true;
      Assignment (Identifier "K") "+=" (StringLiteral "a") ]
  = (Raise TypeError, "")
  /\ execute 2 (Assignment (Identifier "K") "+=" (StringLiteral "a")) c6_state
     = (Raise TypeError, c6_state).
Proof. split; vm_compute; reflexivity. Qed.

End ConstProofs.

(** ** The scope of a for-in loop *)

Module ScopeProofs.
Import Ast Py Interp ScopeSpec.

Lemma assigned_only_refl E : assigned_only E E.
Proof. repeat split; auto. Qed.

Lemma extended_refl E : extended E E.
Proof. repeat split; auto. Qed.

Lemma assigned_only_trans E1 E2 E3 :
  assigned_only E1 E2 -> assigned_only E2 E3 -> assigned_only E1 E3.
Proof.
  intros (Hd & Hc & Hp & Hv) (Hd' & Hc' & Hp' & Hv'). repeat split; try congruence.
  intros name Hin. rewrite Hv' by (by rewrite Hc). by apply Hv.
Qed.

Lemma extended_trans E1 E2 E3 : extended E1 E2 -> extended E2 E3 -> extended E1 E3.
Proof.
  intros (Hd & Hc & Hp) (Hd' & Hc' & Hp'). repeat split; try congruence; set_solver.
Qed.

Lemma assigned_only_extended E E' : assigned_only E E' -> extended E E'.
Proof. intros (Hd & Hc & Hp & _). repeat split; auto; set_solver. Qed.

Lemma changes_refl n cur s : changes n cur s s.
Proof.
  split; [lia|]. intros e E _ HE. exists E. split; auto.
  destruct (decide _); [apply extended_refl|apply assigned_only_refl].
Qed.

Lemma changes_trans n cur s1 s2 s3 :
  changes n cur s1 s2 -> changes n cur s2 s3 -> changes n cur s1 s3.
Proof.
  intros [Hl H] [Hl' H']. split; [lia|]. intros e E Hn HE.
  destruct (H e E Hn HE) as (E2 & HE2 & Hr).
  destruct (H' e E2 Hn HE2) as (E3 & HE3 & Hr').
  exists E3. split; auto.
  destruct (decide _); [by eapply extended_trans|by eapply assigned_only_trans].
Qed.

Lemma changes_weaken n m cur cur' s s' :
  m <= n -> (cur = None \/ cur = cur') -> changes n cur s s' -> changes m cur' s s'.
Proof.
  intros Hm Hcur [Hl H]. split; [exact Hl|]. intros e E He HE.
  destruct (H e E ltac:(lia) HE) as (E' & HE' & Hr). exists E'. split; auto.
  destruct (decide (cur' = Some e)) as [Hc'|Hc']; destruct (decide (cur = Some e)) as [Hc|Hc];
    auto.
  - by apply assigned_only_extended.
  - destruct Hcur as [->| ->]; congruence.
Qed.

Lemma frame_expr_refl n s : frame_expr n s s.
Proof. split; [reflexivity|apply changes_refl]. Qed.

Lemma frame_stmt_refl n s : frame_stmt n s s.
Proof. split; [reflexivity|apply changes_refl]. Qed.

Lemma frame_expr_stmt n s s' : frame_expr n s s' -> frame_stmt n s s'.
Proof.
  intros [Hc H]. split; auto. by apply (changes_weaken n n None); [lia|left|].
Qed.

Lemma frame_expr_trans n1 n2 s1 s2 s3 :
  n1 <= n2 -> frame_expr n1 s1 s2 -> frame_expr n2 s2 s3 -> frame_expr n1 s1 s3.
Proof.
  intros Hn [Hc H] [Hc' H']. split; [congruence|].
  eapply changes_trans; [exact H|]. by apply (changes_weaken n2 n1 None); [lia|left|].
Qed.

Lemma frame_stmt_trans n1 n2 s1 s2 s3 :
  n1 <= n2 -> frame_stmt n1 s1 s2 -> frame_stmt n2 s2 s3 -> frame_stmt n1 s1 s3.
Proof.
  intros Hn [Hc H] [Hc' H']. split; [congruence|].
  eapply changes_trans; [exact H|]. rewrite Hc in H'.
  by apply (changes_weaken n2 n1 (Some (current_env s1))); [lia|right|].
Qed.

Lemma frame_length n s s' : frame_stmt n s s' -> length (envs s) <= length (envs s').
Proof. by intros [_ [H _]]. Qed.

(** *** The monad *)

Lemma below_expr_stmt n {A} (m : M A) : below_expr n m -> below_stmt n m.
Proof. intros H s r s' Hn Hm. apply frame_expr_stmt. eauto. Qed.

Lemma below_expr_unchanged n {A} (m : M A) :
  (forall s r s', m s = (r, s') -> envs s' = envs s /\ current_env s' = current_env s) ->
  below_expr n m.
Proof.
  intros H s r s' _ Hm. destruct (H s r s' Hm) as [He Hc].
  split; [exact Hc|]. split; [by rewrite He|].
  intros e E _ HE. exists E. rewrite He. split; auto.
  rewrite decide_False by discriminate. apply assigned_only_refl.
Qed.

Lemma below_expr_ret n {A} (a : A) : below_expr n (ret a).
Proof. apply below_expr_unchanged. by intros s r s' [= _ <-]. Qed.

Lemma below_expr_raise n {A} e : below_expr n (@raise A e).
Proof. apply below_expr_unchanged. by intros s r s' [= _ <-]. Qed.

Lemma below_expr_runtime_error n {A} msg : below_expr n (@runtime_error A msg).
Proof. apply below_expr_raise. Qed.

Lemma below_expr_unmodelled n {A} : below_expr n (@unmodelled A).
Proof. apply below_expr_unchanged. by intros s r s' [= _ <-]. Qed.

Lemma below_expr_out_of_fuel n {A} : below_expr n (@out_of_fuel A).
Proof. apply below_expr_unchanged. by intros s r s' [= _ <-]. Qed.

Lemma below_expr_lift n {A} (h : H A) : below_expr n (lift h).
Proof.
  apply below_expr_unchanged. intros s r s' Hm. unfold lift in Hm.
  destruct (h (host s)) as [r0 w]. injection Hm as _ <-. by destruct s.
Qed.

Lemma below_expr_get n name : below_expr n (get name).
Proof. apply below_expr_unchanged. by intros s r s' [= _ <-]. Qed.

Lemma below_expr_get_current n : below_expr n get_current.
Proof. apply below_expr_unchanged. by intros s r s' [= _ <-]. Qed.

Lemma below_expr_exists n name : below_expr n (exists_ name).
Proof.
  apply below_expr_unchanged. intros s r s'. unfold exists_.
  destruct (env_exists _ _ _ _); by intros [= _ <-].
Qed.

Lemma below_expr_log_event n name args : below_expr n (log_event name args).
Proof. apply below_expr_unchanged. intros s r s' [= _ <-]. by destruct s. Qed.

(** A bind whose continuation needs a fact [Q] about the value. *)
Lemma below_expr_bind_val n {A B} (Q : A -> Prop) (m : M A) (k : A -> M B) :
  below_expr n m ->
  (forall s a s', n <= length (envs s) -> m s = (Val a, s') -> Q a) ->
  (forall a, Q a -> below_expr n (k a)) ->
  below_expr n (bind m k).
Proof.
  intros Hm HQ Hk s r s' Hn H. unfold bind in H.
  destruct (m s) as [[a|e| |] s1] eqn:Em; try (injection H as _ <-; eauto).
  pose proof (Hm _ _ _ Hn Em) as Hf.
  eapply (frame_expr_trans n n); [lia|exact Hf|].
  eapply Hk; eauto. destruct Hf as [_ [Hl _]]. lia.
Qed.

Lemma below_expr_bind n {A B} (m : M A) (k : A -> M B) :
  below_expr n m -> (forall a, below_expr n (k a)) -> below_expr n (bind m k).
Proof. intros Hm Hk. apply (below_expr_bind_val n (fun _ => True)); auto. Qed.

Lemma below_stmt_bind_val n {A B} (Q : A -> Prop) (m : M A) (k : A -> M B) :
  below_stmt n m ->
  (forall s a s', n <= length (envs s) -> m s = (Val a, s') -> Q a) ->
  (forall a, Q a -> below_stmt n (k a)) ->
  below_stmt n (bind m k).
Proof.
  intros Hm HQ Hk s r s' Hn H. unfold bind in H.
  destruct (m s) as [[a|e| |] s1] eqn:Em; try (injection H as _ <-; eauto).
  pose proof (Hm _ _ _ Hn Em) as Hf.
  eapply (frame_stmt_trans n n); [lia|exact Hf|].
  eapply Hk; eauto. destruct Hf as [_ [Hl _]]. lia.
Qed.

Lemma below_stmt_bind n {A B} (m : M A) (k : A -> M B) :
  below_stmt n m -> (forall a, below_stmt n (k a)) -> below_stmt n (bind m k).
Proof. intros Hm Hk. apply (below_stmt_bind_val n (fun _ => True)); auto. Qed.

(** *** Environment operations *)

Lemma lookup_insert_env (es : list Environment) e e' E E' :
  es !! e' = Some E' ->
  <[e:=E]> es !! e' = Some (if decide (e = e') then E else E').
Proof.
  intros He'. destruct (decide (e = e')) as [->|Hne].
  - apply list_lookup_insert_eq. by eapply lookup_lt_Some.
  - by rewrite list_lookup_insert_ne.
Qed.

(** Replacing one environment by a related one. *)
Lemma changes_insert n cur s e E E' :
  envs s !! e = Some E ->
  (n <= e \/ (cur = Some e /\ extended E E') \/ assigned_only E E') ->
  changes n cur s (set_envs (<[e:=E']> (envs s)) s).
Proof.
  intros HE Hrel. split; [simpl; by rewrite length_insert|].
  intros e0 E0 Hn HE0. simpl.
  rewrite (lookup_insert_env _ e e0 E' E0 HE0).
  eexists. split; [reflexivity|].
  destruct (decide (e = e0)) as [->|Hne].
  - assert (E0 = E) as -> by congruence.
    destruct Hrel as [Hge|[[-> Hx]|Ha]]; [lia| |].
    + by rewrite decide_True.
    + destruct (decide _); [by apply assigned_only_extended|exact Ha].
  - destruct (decide _); [apply extended_refl|apply assigned_only_refl].
Qed.

Lemma extended_define E name v is_const : extended E (define_in E name v is_const).
Proof.
  unfold define_in. repeat split; simpl.
  - rewrite dom_insert. set_solver.
  - destruct is_const; set_solver.
Qed.

Lemma below_env_define n e name v is_const :
  forall s r s', env_define e name v is_const s = (r, s') ->
    current_env s' = current_env s /\
    (changes n (Some e) s s') /\ (n <= e -> changes n None s s').
Proof.
  intros s r s' H. unfold env_define in H.
  destruct (envs s !! e) as [E|] eqn:HE.
  - injection H as _ <-. split; [reflexivity|]. split.
    + eapply changes_insert; eauto. right. left. split; auto. apply extended_define.
    + intros Hn. eapply changes_insert; eauto.
  - injection H as _ <-. split; [reflexivity|]. split; intros; apply changes_refl.
Qed.

Lemma below_stmt_define n name v is_const : below_stmt n (define name v is_const).
Proof.
  intros s r s' _ H. unfold define in H.
  destruct (below_env_define n _ _ _ _ _ _ _ H) as (Hc & Hch & _). by split.
Qed.

Lemma below_expr_env_define n e name v is_const :
  n <= e -> below_expr n (env_define e name v is_const).
Proof.
  intros Hn s r s' _ H.
  destruct (below_env_define n _ _ _ _ _ _ _ H) as (Hc & _ & Hch). split; auto.
Qed.

Lemma env_assign_frame k : forall n e name v s r s',
  env_assign k e name v s = (r, s') ->
  current_env s' = current_env s /\ changes n None s s'.
Proof.
  induction k; intros n e name v s r s' H; cbn [env_assign] in H.
  { injection H as _ <-. split; [reflexivity|apply changes_refl]. }
  destruct (envs s !! e) as [E|] eqn:HE.
  2:{ injection H as _ <-. split; [reflexivity|apply changes_refl]. }
  destruct (variables E !! name) as [old|] eqn:Hold.
  - destruct (decide (name ∈ constants E)) as [Hin|Hnotin].
    + injection H as _ <-. split; [reflexivity|apply changes_refl].
    + injection H as _ <-. split; [reflexivity|].
      eapply changes_insert; eauto. right. right.
      repeat split; simpl; auto.
      * rewrite dom_insert_L. apply elem_of_dom_2 in Hold. set_solver.
      * intros x Hx. rewrite lookup_insert_ne; [reflexivity|]. congruence.
  - destruct (parent E) as [p|].
    + eapply IHk; eauto.
    + injection H as _ <-. split; [reflexivity|apply changes_refl].
Qed.

Lemma below_expr_assign n name v : below_expr n (assign name v).
Proof. intros s r s' _ H. unfold assign in H. by eapply env_assign_frame. Qed.

Lemma below_expr_new_env n p : below_expr n (new_env p).
Proof.
  intros s r s' _ H. injection H as _ <-. split; [reflexivity|].
  split; [simpl; rewrite length_app; lia|].
  intros e E _ HE. exists E. split; [simpl; by apply lookup_app_l_Some|].
  apply assigned_only_refl.
Qed.

Lemma new_env_fresh n p s a s' :
  n <= length (envs s) -> new_env p s = (Val a, s') -> n <= a.
Proof. intros Hn [= <- _]. exact Hn. Qed.

Lemma changes_not_current n e s s' :
  n <= e -> changes n (Some e) s s' -> changes n None s s'.
Proof.
  intros Hn [Hl H]. split; [exact Hl|]. intros e0 E0 He0 HE0.
  destruct (H e0 E0 He0 HE0) as (E' & HE' & Hr). exists E'. split; auto.
  rewrite decide_False in Hr by (intros [= ->]; lia).
  by rewrite decide_False by discriminate.
Qed.

(** Running a computation in a scope that is not among the first [n]
    leaves those to assignments. *)
Lemma below_expr_with_env n {A} e (m : M A) :
  n <= e -> below_stmt n m -> below_expr n (with_env e m).
Proof.
  intros Hn Hm s r s' Hlen H. unfold with_env in H.
  destruct (m (set_current e s)) as [r0 s2] eqn:Em. injection H as _ <-.
  destruct (Hm (set_current e s) _ _ Hlen Em) as [Hc Hch]. simpl in Hc, Hch.
  split; [reflexivity|].
  apply (changes_not_current n e) in Hch; [|exact Hn].
  destruct Hch as [Hl Hch]. split; [exact Hl|]. exact Hch.
Qed.

Lemma below_stmt_loop_body n body result :
  below_stmt n body -> below_stmt n (loop_body body result).
Proof.
  intros Hb s r s' Hn H. unfold loop_body in H.
  destruct (body s) as [[v|[]| |] s1] eqn:Eb; injection H as _ <-; eauto.
Qed.

Lemma below_stmt_catch_return n body :
  below_stmt n body -> below_stmt n (catch_return body).
Proof.
  intros Hb s r s' Hn H. unfold catch_return in H.
  destruct (body s) as [[v|[]| |] s1] eqn:Eb; injection H as _ <-; eauto.
Qed.

(** *** Statements and expressions *)

Ltac frame_step :=
  match goal with
  | |- below_expr _ (bind _ _) => apply below_expr_bind; [|intro]
  | |- below_stmt _ (bind _ _) => apply below_stmt_bind; [|intro]
  | |- below_expr _ (ret _) => apply below_expr_ret
  | |- below_expr _ (raise _) => apply below_expr_raise
  | |- below_expr _ (runtime_error _) => apply below_expr_runtime_error
  | |- below_expr _ unmodelled => apply below_expr_unmodelled
  | |- below_expr _ out_of_fuel => apply below_expr_out_of_fuel
  | |- below_expr _ (lift _) => apply below_expr_lift
  | |- below_expr _ (get _) => apply below_expr_get
  | |- below_expr _ get_current => apply below_expr_get_current
  | |- below_expr _ (exists_ _) => apply below_expr_exists
  | |- below_expr _ (assign _ _) => apply below_expr_assign
  | |- below_expr _ (log_event _ _) => apply below_expr_log_event
  | |- below_expr _ (new_env _) => apply below_expr_new_env
  | |- below_stmt _ (define _ _ _) => apply below_stmt_define
  | |- below_stmt _ (loop_body _ _) => apply below_stmt_loop_body
  | |- below_stmt _ (catch_return _) => apply below_stmt_catch_return
  | H : forall n node, below_expr n (?ev node) |- below_expr _ (?ev _) => apply H
  | H : forall n node, below_stmt n (?ex node) |- below_stmt _ (?ex _) => apply H
  | |- below_expr _ (if ?b then _ else _) => destruct b
  | |- below_stmt _ (if ?b then _ else _) => destruct b
  | |- below_expr _ (match ?x with _ => _ end) => destruct x
  | |- below_stmt _ (match ?x with _ => _ end) => destruct x
  end.

Ltac frame := repeat frame_step.
Ltac frame_weak := frame; try (apply below_expr_stmt; frame).

Section EvalFrame.

Variable execute : stmt -> M value.
Variable evaluate : expr -> M value.
Hypothesis Hexec : forall n node, below_stmt n (execute node).
Hypothesis Heval : forall n node, below_expr n (evaluate node).

Lemma execute_from_frame n statements : forall result,
  below_stmt n (execute_from execute result statements).
Proof.
  induction statements as [|st rest IH]; intros result; cbn [execute_from].
  - apply below_expr_stmt. frame.
  - frame. apply IH.
Qed.

Lemma execute_Block_frame n statements : below_stmt n (execute_Block execute statements).
Proof. apply execute_from_frame. Qed.

Lemma evaluate_all_frame n es : below_expr n (evaluate_all evaluate es).
Proof. induction es as [|e es IH]; cbn [evaluate_all]; frame. exact IH. Qed.

Lemma apply_compound_frame n l op r : below_expr n (apply_compound_assignment l op r).
Proof. unfold apply_compound_assignment. frame. Qed.

Lemma execute_Assignment_frame n target op v :
  below_expr n (execute_Assignment evaluate target op v).
Proof.
  unfold execute_Assignment. frame; try apply apply_compound_frame;
    unfold invalid_assignment_target; frame.
Qed.

Lemma execute_elifs_frame n elifs else_branch :
  below_stmt n (execute_elifs execute evaluate elifs else_branch).
Proof.
  induction elifs as [|[c b] rest IH]; cbn [execute_elifs].
  - destruct else_branch; [apply execute_Block_frame|apply below_expr_stmt; frame].
  - apply below_stmt_bind; [apply below_expr_stmt; frame|intro].
    apply below_stmt_bind; [apply below_expr_stmt; frame|intro].
    destruct a0; [apply execute_Block_frame|exact IH].
Qed.

Lemma while_loop_frame n k cond body : forall result,
  below_expr n cond -> below_stmt n body -> below_stmt n (while_loop k cond body result).
Proof.
  induction k; intros result Hc Hb; cbn [while_loop]; [apply below_expr_stmt; frame|].
  apply below_stmt_bind; [by apply below_expr_stmt|intro].
  apply below_stmt_bind; [apply below_expr_stmt; frame|intro].
  destruct a0; [|apply below_expr_stmt; frame].
  apply below_stmt_bind; [by apply below_stmt_loop_body|intros [result1|]].
  - by apply IHk.
  - apply below_expr_stmt; frame.
Qed.

Lemma for_list_frame n k variable body l : forall i result,
  below_stmt n body -> below_stmt n (for_list k variable body l i result).
Proof.
  induction k; intros i result Hb; cbn [for_list]; [apply below_expr_stmt; frame|].
  apply below_stmt_bind; [apply below_expr_stmt; frame|intro xs].
  destruct (xs !! i) as [item|]; [|apply below_expr_stmt; frame].
  apply below_stmt_bind; [frame|intro].
  apply below_stmt_bind; [by apply below_stmt_loop_body|intros [result1|]].
  - by apply IHk.
  - apply below_expr_stmt; frame.
Qed.

Lemma for_items_frame n variable body items : forall result,
  below_stmt n body -> below_stmt n (for_items variable body items result).
Proof.
  induction items as [|item items IH]; intros result Hb; cbn [for_items];
    [apply below_expr_stmt; frame|].
  apply below_stmt_bind; [frame|intro].
  apply below_stmt_bind; [by apply below_stmt_loop_body|intros [result1|]].
  - by apply IH.
  - apply below_expr_stmt; frame.
Qed.

Lemma for_dict_frame n variable body l keys todo : forall result,
  below_stmt n body -> below_stmt n (for_dict variable body l keys todo result).
Proof.
  induction todo as [|item todo IH]; intros result Hb; cbn [for_dict].
  - apply below_expr_stmt. frame.
  - apply below_stmt_bind; [apply below_expr_stmt; frame|intro kvs].
    destruct (negb _); [apply below_expr_stmt; frame|].
    apply below_stmt_bind; [frame|intro].
    apply below_stmt_bind; [by apply below_stmt_loop_body|intros [result1|]].
    + by apply IH.
    + apply below_expr_stmt; frame.
Qed.

Lemma for_each_frame n k variable body iterable :
  below_stmt n body -> below_stmt n (for_each k variable body iterable).
Proof.
  intros Hb. unfold for_each.
  destruct iterable; try (apply below_expr_stmt; frame; fail).
  - by apply for_items_frame.
  - by apply for_list_frame.
  - apply below_stmt_bind; [apply below_expr_stmt; frame|intro kvs].
    by apply for_dict_frame.
  - by apply for_items_frame.
Qed.

(** The [for] statement as a whole changes the existing scopes, the
    enclosing one included, by assignments only. *)
Lemma execute_ForStatement_frame n k variable iterable body :
  below_expr n (execute_ForStatement execute evaluate k variable iterable body).
Proof.
  unfold execute_ForStatement.
  apply below_expr_bind; [apply Heval|intro it].
  apply below_expr_bind; [frame|intro previous_env].
  apply (below_expr_bind_val n (fun e => n <= e)); [frame| |].
  - intros s a s' Hn H. by eapply new_env_fresh.
  - intros loop_env Hle. apply below_expr_with_env; [exact Hle|].
    apply for_each_frame. apply execute_Block_frame.
Qed.

Lemma make_function_frame n d : below_expr n (make_function d).
Proof. unfold make_function. frame. Qed.

Lemma define_methods_frame n type_name methods :
  below_stmt n (define_methods type_name methods).
Proof.
  induction methods as [|m rest IH]; cbn [define_methods].
  - apply below_expr_stmt. frame.
  - apply below_stmt_bind; [apply below_expr_stmt, make_function_frame|intro].
    frame. exact IH.
Qed.

Lemma execute_ContractDeclaration_frame n name body :
  below_stmt n (execute_ContractDeclaration execute name body).
Proof.
  unfold execute_ContractDeclaration.
  apply below_stmt_bind; [apply below_expr_stmt; frame|intro outer].
  apply (below_stmt_bind_val n (fun e => n <= e)); [apply below_expr_stmt; frame| |].
  - intros s a s' Hn H. by eapply new_env_fresh.
  - intros contract_env Hle.
    apply below_stmt_bind; [|intro].
    + apply below_expr_stmt. apply below_expr_with_env; [exact Hle|].
      apply execute_Block_frame.
    + apply below_stmt_bind; [apply below_expr_stmt; frame|intro].
      frame. apply below_expr_stmt. frame.
Qed.

Lemma execute_node_frame n k node : below_stmt n (execute_node execute evaluate k node).
Proof.
  destruct node; cbn [execute_node].
  - apply below_expr_stmt, Heval.
  - unfold execute_VariableDeclaration.
    apply below_stmt_bind; [apply below_expr_stmt; frame|intro].
    frame. apply below_expr_stmt; frame.
  - apply below_expr_stmt, execute_Assignment_frame.
  - apply execute_Block_frame.
  - unfold execute_IfStatement.
    apply below_stmt_bind; [apply below_expr_stmt; frame|intro].
    apply below_stmt_bind; [apply below_expr_stmt; frame|intro].
    destruct a0; [apply execute_Block_frame|apply execute_elifs_frame].
  - unfold execute_WhileStatement.
    apply while_loop_frame; [apply Heval|apply execute_Block_frame].
  - apply below_expr_stmt, execute_ForStatement_frame.
  - apply below_expr_stmt; frame.
  - apply below_expr_stmt; frame.
  - apply below_expr_stmt. unfold execute_ReturnStatement. frame.
  - unfold execute_FunctionDeclaration.
    apply below_stmt_bind; [apply below_expr_stmt, make_function_frame|intro].
    frame. apply below_expr_stmt; frame.
  - unfold execute_StructDeclaration.
    apply below_stmt_bind; [apply below_expr_stmt; frame|intro].
    frame. apply below_expr_stmt; frame.
  - unfold execute_EnumDeclaration.
    apply below_stmt_bind; [apply below_expr_stmt; frame|intro].
    frame. apply below_expr_stmt; frame.
  - apply execute_ContractDeclaration_frame.
  - unfold execute_EventDeclaration.
    apply below_stmt_bind; [apply below_expr_stmt|intro].
    { apply below_expr_unchanged. intros s r s' [= _ <-]. by destruct s. }
    apply below_stmt_bind; [apply below_expr_stmt; frame|intro].
    apply below_stmt_bind; [apply below_expr_stmt; frame|intro].
    frame. apply below_expr_stmt; frame.
  - apply below_expr_stmt. unfold execute_EmitStatement.
    apply below_expr_bind; [apply evaluate_all_frame|intro]. frame.
  - unfold execute_ImplBlock.
    apply below_stmt_bind; [apply below_expr_stmt; frame|intro st].
    destruct st; try (apply below_expr_stmt; frame; fail).
    apply below_stmt_bind; [apply define_methods_frame|intro].
    apply below_expr_stmt; frame.
Qed.

Lemma bind_parameters_frame n func_env parameters : forall args,
  n <= func_env ->
  below_expr n (bind_parameters evaluate func_env parameters args).
Proof.
  induction parameters as [|p rest IH]; intros args Hle; cbn [bind_parameters].
  - frame.
  - destruct args as [|a args'].
    + apply below_expr_bind; [|intro; by apply IH].
      destruct (default_value p).
      * apply below_expr_bind; [apply Heval|intro]. by apply below_expr_env_define.
      * by apply below_expr_env_define.
    + apply below_expr_bind; [by apply below_expr_env_define|intro; by apply IH].
Qed.

Lemma call_function_frame n func args :
  below_expr n (call_function execute evaluate func args).
Proof.
  unfold call_function. destruct func; try (frame; fail).
  apply (below_expr_bind_val n (fun e => n <= e)); [frame| |].
  - intros s a s' Hn H. by eapply new_env_fresh.
  - intros func_env Hle.
    apply below_expr_bind; [by apply bind_parameters_frame|intro].
    apply below_expr_with_env; [exact Hle|].
    apply below_stmt_catch_return, execute_Block_frame.
Qed.

Lemma evaluate_pairs_frame n pairs : forall result,
  below_expr n (evaluate_pairs evaluate pairs result).
Proof.
  induction pairs as [|[k v] rest IH]; intros result; cbn [evaluate_pairs]; frame.
  apply IH.
Qed.

Lemma evaluate_node_frame n node : below_expr n (evaluate_node execute evaluate node).
Proof.
  destruct node; cbn [evaluate_node]; frame.
  - apply evaluate_all_frame.
  - apply evaluate_pairs_frame.
  - unfold evaluate_MemberAccess. frame.
  - unfold evaluate_IndexAccess. frame.
  - unfold evaluate_BinaryOp. frame.
  - unfold evaluate_UnaryOp. frame.
  - unfold evaluate_ComparisonOp, compare_values. frame.
  - unfold evaluate_LogicalOp. frame.
  - unfold evaluate_FunctionCall.
    apply below_expr_bind; [apply Heval|intro f].
    apply below_expr_bind; [apply evaluate_all_frame|intro args].
    destruct f; try (frame; fail). apply call_function_frame.
  - unfold evaluate_MethodCall.
    apply below_expr_bind; [apply Heval|intro obj].
    apply below_expr_bind; [apply evaluate_all_frame|intro args].
    destruct obj; unfold unknown_method; try (frame; fail).
    apply below_expr_bind; [frame|intro o].
    destruct o as [| |st vals]; try (frame; fail).
    destruct st; try (frame; fail).
    apply below_expr_bind; [frame|intro found].
    destruct found; [|frame].
    apply below_expr_bind; [frame|intro m]. apply call_function_frame.
Qed.

End EvalFrame.

(** Every statement is a statement-like change and every expression an
    expression-like change, whatever the fuel and the outcome. *)
Lemma execute_evaluate_frame fuel :
  (forall n node, below_stmt n (execute fuel node))
  /\ (forall n node, below_expr n (evaluate fuel node)).
Proof.
  induction fuel as [|fuel [IHx IHv]].
  - split; intros n node; cbn [execute evaluate];
      [apply below_expr_stmt|]; apply below_expr_out_of_fuel.
  - split; intros n node; cbn [execute evaluate].
    + by apply execute_node_frame.
    + by apply evaluate_node_frame.
Qed.

Lemma for_child_scope fuel variable body it s1 r s' :
  with_env (length (envs s1))
    (for_each fuel variable (execute_Block (execute fuel) body) it)
    (set_envs (envs s1 ++ [{| variables := ∅; constants := ∅;
                              parent := Some (current_env s1) |}]) s1) = (r, s') ->
  exists L, envs s' !! length (envs s1) = Some L
            /\ parent L = Some (current_env s1).
Proof.
  intros H. unfold with_env in H.
  match type of H with
  | (let '(_, _) := ?m ?s0 in _) = _ => destruct (m s0) as [r0 s2] eqn:Em
  end.
  injection H as _ <-.
  destruct (execute_evaluate_frame fuel) as [Hx Hv].
  pose proof (for_each_frame (S (length (envs s1))) fuel variable _ it
                (execute_Block_frame _ Hx _ body)) as Hf.
  assert (Hlen : S (length (envs s1)) <=
                 length (envs (set_current (length (envs s1))
                   (set_envs (envs s1 ++ [{| variables := ∅; constants := ∅;
                                             parent := Some (current_env s1) |}]) s1)))).
  { unfold set_current, set_envs. cbn [envs]. rewrite length_app. cbn [length]. lia. }
  destruct (Hf _ _ _ Hlen Em) as [_ [_ Hch]].
  destruct (Hch (length (envs s1))
              {| variables := ∅; constants := ∅; parent := Some (current_env s1) |})
    as (L & HL & Hrel).
  - lia.
  - simpl. rewrite lookup_app_r by lia. by rewrite Nat.sub_diag.
  - exists L. split; [exact HL|]. simpl in Hrel.
    rewrite decide_True in Hrel by reflexivity. by destruct Hrel as (_ & _ & ->).
Qed.

(** ** The iterations of a for-in statement *)

Lemma set_host_same_state (s : state) : set_host (host s) s = s.
Proof. by destruct s. Qed.

Lemma lift_of_heap_state {A} (f : list obj -> option A) (s : state) :
  snd (lift (of_heap f) s) = s.
Proof.
  unfold lift, of_heap. destruct (f (heap (host s))); cbn; apply set_host_same_state.
Qed.

Lemma lift_get_list (l : loc) (xs : list value) (s : state) :
  heap (host s) !! l = Some (OList xs) -> lift (get_list l) s = (Val xs, s).
Proof.
  intros Hl. unfold lift, get_list, hbind, get_obj. rewrite Hl. cbn.
  by rewrite set_host_same_state.
Qed.

Lemma lift_get_dict (l : loc) (kvs : list (value * value)) (s : state) :
  heap (host s) !! l = Some (ODict kvs) -> lift (get_dict l) s = (Val kvs, s).
Proof.
  intros Hl. unfold lift, get_dict, hbind, get_obj. rewrite Hl. cbn.
  by rewrite set_host_same_state.
Qed.

(** The statement, once its iterable is evaluated, runs the loop in a
    new scope and restores the scope pointer. *)
Lemma execute_ForStatement_loop (fuel : nat) (variable : string) (iterable : expr)
    (body : list stmt) (s s1 : state) (it : value) :
  evaluate fuel iterable s = (Val it, s1) ->
  execute (S fuel) (ForStatement variable iterable body) s =
    with_env (length (envs s1))
      (for_each fuel variable (execute_Block (execute fuel) body) it)
      (with_scope (loop_scope ∅ s1) s1).
Proof.
  intros Hit. cbn [execute execute_node]. unfold execute_ForStatement.
  unfold bind at 1. rewrite Hit. reflexivity.
Qed.

Lemma define_current (variable : string) (item : value) (s : state) (E : Environment) :
  envs s !! current_env s = Some E ->
  define variable item false s =
    (Val tt, set_envs (<[current_env s:=define_in E variable item false]> (envs s)) s).
Proof. intros HE. unfold define, env_define. by rewrite HE. Qed.

(** The first iteration: the loop variable is defined in the current
    scope, the body runs, and a break ends the loop; what follows
    another end of the body is the rest of the loop. *)
Lemma for_each_first (n : nat) (variable : string) (body : M value) (it : value)
    (s : state) (x : value) (rest : list value) (E : Environment) :
  items_of (host s) it = Some (x :: rest) ->
  envs s !! current_env s = Some E ->
  exists k : option value -> M value,
    for_each (S n) variable body it s =
      bind (loop_body body VNone) k
        (set_envs (<[current_env s:=define_in E variable x false]> (envs s)) s)
    /\ k None = ret VNone
    /\ forall m v, below_stmt m body -> below_stmt m (k (Some v)).
Proof.
  intros Hitems HE. destruct it; try discriminate Hitems; cbn [items_of] in Hitems.
  - (* string *)
    injection Hitems as Hitems. exists (fun r => match r with
                       | Some v => for_items variable body rest v
                       | None => ret VNone
                       end).
    split; [|split; [reflexivity|]].
    + cbn [for_each]. rewrite Hitems. cbn [for_items]. unfold bind at 1.
      by rewrite (define_current _ _ _ _ HE).
    + intros m v Hb. by apply for_items_frame.
  - (* list *)
    destruct (heap (host s) !! l) as [[xs| |]|] eqn:Hl; try discriminate Hitems.
    injection Hitems as ->.
    exists (fun r => match r with
                     | Some v => for_list n variable body l 1 v
                     | None => ret VNone
                     end).
    split; [|split; [reflexivity|]].
    + cbn [for_each for_list]. unfold bind at 1. rewrite (lift_get_list _ _ _ Hl).
      change ((x :: rest) !! 0) with (Some x). cbv beta iota.
      unfold bind at 1. by rewrite (define_current _ _ _ _ HE).
    + intros m v Hb. by apply for_list_frame.
  - (* dict *)
    destruct (heap (host s) !! l) as [[|kvs|]|] eqn:Hl; try discriminate Hitems.
    destruct (same_keys (map fst kvs) (map fst kvs)) eqn:Hk; [|discriminate Hitems].
    injection Hitems as Hitems.
    exists (fun r => match r with
                     | Some v => for_dict variable body l (map fst kvs) rest v
                     | None => ret VNone
                     end).
    split; [|split; [reflexivity|]].
    + cbn [for_each]. unfold bind at 1. rewrite (lift_get_dict _ _ _ Hl).
      replace (for_dict variable body l (map fst kvs) (map fst kvs) VNone)
        with (for_dict variable body l (map fst kvs) (x :: rest) VNone)
        by (by rewrite <- Hitems).
      cbn [for_dict]. unfold bind at 1. rewrite (lift_get_dict _ _ _ Hl), Hk.
      cbn [negb]. unfold bind at 1. by rewrite (define_current _ _ _ _ HE).
    + intros m v Hb. by apply for_dict_frame.
  - (* tuple *)
    injection Hitems as ->.
    exists (fun r => match r with
                     | Some v => for_items variable body rest v
                     | None => ret VNone
                     end).
    split; [|split; [reflexivity|]].
    + cbn [for_each for_items]. unfold bind at 1.
      by rewrite (define_current _ _ _ _ HE).
    + intros m v Hb. by apply for_items_frame.
Qed.

(** Without items the body does not run. *)
Lemma for_each_empty (n : nat) (variable : string) (body : M value) (it : value)
    (s : state) :
  items_of (host s) it = Some [] ->
  for_each (S n) variable body it s = (Val VNone, s).
Proof.
  intros Hitems. destruct it; try discriminate Hitems; cbn [items_of] in Hitems.
  - injection Hitems as Hitems. cbn [for_each]. by rewrite Hitems.
  - destruct (heap (host s) !! l) as [[xs| |]|] eqn:Hl; try discriminate Hitems.
    injection Hitems as ->. cbn [for_each for_list]. unfold bind at 1.
    by rewrite (lift_get_list _ _ _ Hl).
  - destruct (heap (host s) !! l) as [[|kvs|]|] eqn:Hl; try discriminate Hitems.
    destruct (same_keys (map fst kvs) (map fst kvs)) eqn:Hk; [|discriminate Hitems].
    injection Hitems as Hitems. cbn [for_each]. unfold bind at 1.
    rewrite (lift_get_dict _ _ _ Hl), Hitems. cbn [for_dict]. unfold bind at 1.
    rewrite (lift_get_dict _ _ _ Hl), Hitems. reflexivity.
  - injection Hitems as ->. reflexivity.
Qed.

(** ** Bindings that the body keeps *)

Section Keeps.

Variable e : env_id.
Variable name : string.
Variable L : env_id.
Hypothesis other_scope : e <> L.

Local Notation keeps := (keeps e name L).

Lemma keeps_bind {A B} (m : M A) (k : A -> M B) :
  keeps m -> (forall a, keeps (k a)) -> keeps (bind m k).
Proof.
  intros Hm Hk s r s' Hcur H. unfold bind in H.
  destruct (m s) as [[a|ex| |] s1] eqn:Em;
    try (injection H as <- <-; exact (Hm _ _ _ Hcur Em)).
  destruct (Hm _ _ _ Hcur Em) as [Hc1 Hb1].
  destruct (Hk a _ _ _ Hc1 H) as [Hc2 Hb2]. split; [exact Hc2|congruence].
Qed.

Lemma keeps_unchanged {A} (m : M A) :
  (forall s r s', m s = (r, s') -> s' = s) -> keeps m.
Proof. intros Hm s r s' Hcur H. apply Hm in H as ->. by split. Qed.

Lemma keeps_ret {A} (a : A) : keeps (ret a).
Proof. apply keeps_unchanged. by intros s r s' [= _ <-]. Qed.

Lemma keeps_out_of_fuel {A} : keeps (@out_of_fuel A).
Proof. apply keeps_unchanged. by intros s r s' [= _ <-]. Qed.

Lemma keeps_unmodelled {A} : keeps (@unmodelled A).
Proof. apply keeps_unchanged. by intros s r s' [= _ <-]. Qed.

Lemma keeps_raise {A} (ex : exn) : keeps (@raise A ex).
Proof. apply keeps_unchanged. by intros s r s' [= _ <-]. Qed.

Lemma keeps_lift {A} (h : H A) : keeps (lift h).
Proof.
  intros s r s' Hcur H. unfold lift in H. destruct (h (host s)) as [r0 w].
  injection H as _ <-. by split.
Qed.

Lemma keeps_define (variable : string) (item : value) :
  keeps (define variable item false).
Proof.
  intros s r s' Hcur H. unfold define, env_define in H.
  destruct (envs s !! current_env s) as [E|] eqn:HE; injection H as _ <-;
    [|by split].
  split; [exact Hcur|]. unfold binding. cbn [envs set_envs].
  rewrite list_lookup_insert_ne by congruence. reflexivity.
Qed.

Variable variable : string.
Variable body : M value.
Hypothesis body_scope : forall s r s', body s = (r, s') -> current_env s' = current_env s.
Hypothesis body_binding : body_keeps e name L variable body.

(** One iteration: the variable is defined, the body runs, the loop
    goes on. *)
Lemma keeps_iteration (item result : value) (K : option value -> M value) :
  (forall r, keeps (K r)) ->
  keeps (bind (define variable item false)
           (fun _ => bind (loop_body body result) K)).
Proof.
  intros HK s r s' Hcur H. unfold bind at 1 in H.
  unfold define, env_define in H.
  destruct (envs s !! current_env s) as [E|] eqn:HE;
    [|injection H as _ <-; by split].
  set (sd := set_envs (<[current_env s:=define_in E variable item false]> (envs s)) s)
    in *.
  assert (Hcd : current_env sd = L) by exact Hcur.
  assert (Hbd : binding sd e name = binding s e name).
  { subst sd. unfold binding. cbn [set_envs envs].
    rewrite list_lookup_insert_ne by congruence. reflexivity. }
  assert (Hvd : is_Some (binding sd L variable)).
  { subst sd. unfold binding. cbn [set_envs envs]. rewrite <- Hcur.
    rewrite list_lookup_insert_eq by (by eapply lookup_lt_Some).
    cbn [define_in variables]. rewrite lookup_insert_eq. by eexists. }
  unfold bind at 1 in H. unfold loop_body at 1 in H.
  destruct (body sd) as [rb sb] eqn:Eb.
  pose proof (body_scope _ _ _ Eb) as Hcb.
  pose proof (body_binding _ _ _ Hcd Hvd Eb) as Hbb.
  assert (Hend : current_env sb = L /\ binding sb e name = binding s e name)
    by (split; congruence).
  destruct rb as [v|[]| |]; try (injection H as _ <-; exact Hend).
  - destruct (HK _ _ _ _ (proj1 Hend) H) as [Hc Hb]. split; [exact Hc|].
    rewrite Hb. exact (proj2 Hend).
  - destruct (HK _ _ _ _ (proj1 Hend) H) as [Hc Hb]. split; [exact Hc|].
    rewrite Hb. exact (proj2 Hend).
  - destruct (HK _ _ _ _ (proj1 Hend) H) as [Hc Hb]. split; [exact Hc|].
    rewrite Hb. exact (proj2 Hend).
Qed.

Lemma for_list_keeps (n : nat) (l : loc) :
  forall i result, keeps (for_list n variable body l i result).
Proof.
  induction n as [|n IH]; intros i result; cbn [for_list];
    [apply keeps_out_of_fuel|].
  apply keeps_bind; [apply keeps_lift|intros xs].
  destruct (xs !! i) as [item|]; [|apply keeps_ret].
  apply keeps_iteration. intros [v|]; [apply IH|apply keeps_ret].
Qed.

Lemma for_items_keeps (items : list value) :
  forall result, keeps (for_items variable body items result).
Proof.
  induction items as [|item items IH]; intros result; cbn [for_items];
    [apply keeps_ret|].
  apply keeps_iteration. intros [v|]; [apply IH|apply keeps_ret].
Qed.

Lemma for_dict_keeps (l : loc) (keys todo : list value) :
  forall result, keeps (for_dict variable body l keys todo result).
Proof.
  induction todo as [|item todo IH]; intros result; cbn [for_dict].
  - apply keeps_bind; [apply keeps_lift|intros kvs].
    destruct (negb _); [apply keeps_unmodelled|apply keeps_ret].
  - apply keeps_bind; [apply keeps_lift|intros kvs].
    destruct (negb _); [apply keeps_unmodelled|].
    apply keeps_iteration. intros [v|]; [apply IH|apply keeps_ret].
Qed.

Lemma for_each_keeps (n : nat) (it : value) :
  keeps (for_each n variable body it).
Proof.
  unfold for_each. destruct it; try apply keeps_raise.
  - apply for_items_keeps.
  - apply for_list_keeps.
  - apply keeps_bind; [apply keeps_lift|intros kvs]. apply for_dict_keeps.
  - apply for_items_keeps.
Qed.

End Keeps.

Lemma entered_define (variable : string) (x : value) (s1 : state) :
  set_envs
    (<[current_env (set_current (length (envs s1)) (with_scope (loop_scope ∅ s1) s1))
       :=define_in (loop_scope ∅ s1) variable x false]>
       (envs (set_current (length (envs s1)) (with_scope (loop_scope ∅ s1) s1))))
    (set_current (length (envs s1)) (with_scope (loop_scope ∅ s1) s1))
  = entered variable x s1.
Proof.
  unfold entered, with_scope, set_current, set_envs. cbn [envs current_env host
    global_env events]. f_equal.
  rewrite insert_app_r_alt by lia. rewrite Nat.sub_diag. reflexivity.
Qed.

Lemma evaluate_fuel (fuel : nat) (node : expr) (s s1 : state) (v : value) :
  evaluate fuel node s = (Val v, s1) -> exists n, fuel = S n.
Proof. destruct fuel; [discriminate|]. by eexists. Qed.

Lemma for_loop_first (fuel : nat) (variable : string) (iterable : expr)
    (body : list stmt) (s s' s1 : state) (r : outcome value) (it x : value)
    (rest : list value) :
  execute (S fuel) (ForStatement variable iterable body) s = (r, s') ->
  evaluate fuel iterable s = (Val it, s1) ->
  items_of (host s1) it = Some (x :: rest) ->
  (exists L, envs s' !! length (envs s1) = Some L
             /\ is_Some (variables L !! variable))
  /\ (forall rb sb,
        execute_Block (execute fuel) body (entered variable x s1) = (rb, sb) ->
        (rb = Raise BreakException ->
         r = Val VNone /\ s' = set_current (current_env s1) sb)
        /\ (forall ex, rb = Raise ex ->
              ex <> BreakException -> ex <> ContinueException ->
              r = Raise ex /\ s' = set_current (current_env s1) sb)).
Proof.
  intros H Hit Hitems.
  destruct (evaluate_fuel _ _ _ _ _ Hit) as [n ->].
  rewrite (execute_ForStatement_loop _ _ _ _ _ _ _ Hit) in H.
  unfold with_env in H.
  set (s0 := set_current (length (envs s1)) (with_scope (loop_scope ∅ s1) s1)) in *.
  assert (HE : envs s0 !! current_env s0 = Some (loop_scope ∅ s1)).
  { subst s0. unfold with_scope. cbn [set_current set_envs envs current_env].
    rewrite lookup_app_r by lia. by rewrite Nat.sub_diag. }
  destruct (for_each_first n variable (execute_Block (execute (S n)) body) it s0
              x rest (loop_scope ∅ s1) Hitems HE) as (k & Hfirst & Hbreak & Hrest).
  rewrite Hfirst in H. subst s0. rewrite entered_define in H.
  destruct (execute_evaluate_frame (S n)) as [Hx Hv].
  pose proof (execute_Block_frame _ Hx (S (length (envs s1))) body) as Hbody.
  split.
  - destruct (bind (loop_body (execute_Block (execute (S n)) body) VNone) k
                (entered variable x s1)) as [r0 s2] eqn:Erun.
    injection H as _ <-.
    assert (Hframe : below_stmt (S (length (envs s1)))
                       (bind (loop_body (execute_Block (execute (S n)) body) VNone) k)).
    { apply below_stmt_bind; [by apply below_stmt_loop_body|intros [v|]].
      - by apply Hrest.
      - rewrite Hbreak. apply below_expr_stmt, below_expr_ret. }
    destruct (Hframe (entered variable x s1) r0 s2) as [_ [_ Hch]]; [|exact Erun|].
    { unfold entered, with_scope. cbn [set_current set_envs envs].
      rewrite length_app. cbn [length]. lia. }
    destruct (Hch (length (envs s1)) (loop_scope (<[variable:=x]> ∅) s1))
      as (L & HL & Hrel); [lia| |].
    { unfold entered, with_scope. cbn [set_current set_envs envs].
      rewrite lookup_app_r by lia. by rewrite Nat.sub_diag. }
    exists L. split; [exact HL|].
    unfold entered in Hrel. cbn [set_current current_env] in Hrel.
    rewrite decide_True in Hrel by reflexivity.
    destruct Hrel as (Hdom & _ & _). apply elem_of_dom. apply Hdom.
    cbn [loop_scope variables]. apply elem_of_dom. rewrite lookup_insert_eq.
    by eexists.
  - intros rb sb Hb. unfold bind at 1 in H. unfold loop_body at 1 in H.
    rewrite Hb in H. split.
    + intros ->. rewrite Hbreak in H. by injection H as <- <-.
    + intros ex -> Hnb Hnc. destruct ex; try congruence; by injection H as <- <-.
Qed.

Lemma for_loop_empty (fuel : nat) (variable : string) (iterable : expr)
    (body : list stmt) (s s' s1 : state) (r : outcome value) (it : value) :
  execute (S fuel) (ForStatement variable iterable body) s = (r, s') ->
  evaluate fuel iterable s = (Val it, s1) ->
  items_of (host s1) it = Some [] ->
  r = Val VNone /\ s' = with_scope (loop_scope ∅ s1) s1.
Proof.
  intros H Hit Hitems.
  destruct (evaluate_fuel _ _ _ _ _ Hit) as [n ->].
  rewrite (execute_ForStatement_loop _ _ _ _ _ _ _ Hit) in H.
  unfold with_env in H. rewrite for_each_empty in H by exact Hitems.
  by injection H as <- <-.
Qed.

Lemma for_loop_keeps (fuel : nat) (variable : string) (iterable : expr)
    (body : list stmt) (s s' s1 : state) (r : outcome value) (it : value)
    (e : env_id) (name : string) :
  execute (S fuel) (ForStatement variable iterable body) s = (r, s') ->
  evaluate fuel iterable s = (Val it, s1) ->
  e < length (envs s1) ->
  body_keeps e name (length (envs s1)) variable (execute_Block (execute fuel) body) ->
  binding s' e name = binding s1 e name.
Proof.
  intros H Hit He Hbody.
  rewrite (execute_ForStatement_loop _ _ _ _ _ _ _ Hit) in H.
  unfold with_env in H.
  set (s0 := set_current (length (envs s1)) (with_scope (loop_scope ∅ s1) s1)) in *.
  destruct (for_each fuel variable (execute_Block (execute fuel) body) it s0)
    as [r0 s2] eqn:Erun.
  injection H as _ <-.
  destruct (execute_evaluate_frame fuel) as [Hx _].
  assert (Hscope : forall st rb sb,
            execute_Block (execute fuel) body st = (rb, sb) ->
            current_env sb = current_env st).
  { intros st rb sb Hb.
    by destruct (execute_Block_frame _ Hx 0 body st rb sb ltac:(lia) Hb) as [Hc _]. }
  destruct (for_each_keeps e name (length (envs s1)) ltac:(lia) variable _
              Hscope Hbody fuel it s0 r0 s2 eq_refl Erun) as [_ Hb].
  unfold binding in *. cbn [set_current envs]. rewrite Hb. subst s0.
  unfold with_scope. cbn [set_current set_envs envs]. by rewrite lookup_app_l.
Qed.


(** ** A body that assigns to the loop variable *)

Section Shadowing.

Variable e : env_id.
Variable name : string.
Variable L : env_id.
Variable variable : string.
Hypothesis other_scope : e <> L.

(** Run in the scope [L] that binds [variable], the computation ends
    there and leaves the binding of [name] in [e] as it was. *)
Let inside {A} (m : M A) : Prop :=
  forall s r s',
    current_env s = L -> is_Some (binding s L variable) -> m s = (r, s') ->
    current_env s' = L /\ is_Some (binding s' L variable)
    /\ binding s' e name = binding s e name.

Lemma inside_bind {A B} (m : M A) (k : A -> M B) :
  inside m -> (forall a, inside (k a)) -> inside (bind m k).
Proof.
  intros Hm Hk s r s' Hcur Hv H. unfold bind in H.
  destruct (m s) as [[a|ex| |] s1] eqn:Em;
    try (injection H as <- <-; exact (Hm _ _ _ Hcur Hv Em)).
  destruct (Hm _ _ _ Hcur Hv Em) as (Hc1 & Hv1 & Hb1).
  destruct (Hk a _ _ _ Hc1 Hv1 H) as (Hc2 & Hv2 & Hb2).
  split; [exact Hc2|]. split; [exact Hv2|congruence].
Qed.

Lemma inside_unchanged {A} (m : M A) :
  (forall s r s', m s = (r, s') -> envs s' = envs s /\ current_env s' = current_env s) ->
  inside m.
Proof.
  intros Hm s r s' Hcur Hv H. destruct (Hm _ _ _ H) as [He Hc].
  unfold binding in *. rewrite He. split; [congruence|]. by split.
Qed.

Lemma inside_ret {A} (a : A) : inside (ret a).
Proof. apply inside_unchanged. by intros s r s' [= _ <-]. Qed.

Lemma inside_out_of_fuel {A} : inside (@out_of_fuel A).
Proof. apply inside_unchanged. by intros s r s' [= _ <-]. Qed.

Lemma inside_get (x : string) : inside (get x).
Proof. apply inside_unchanged. by intros s r s' [= _ <-]. Qed.

Lemma inside_lift {A} (h : H A) : inside (lift h).
Proof.
  apply inside_unchanged. intros s r s' H. unfold lift in H.
  destruct (h (host s)) as [r0 w]. by injection H as _ <-.
Qed.

Lemma inside_assign (v : value) : inside (assign variable v).
Proof.
  intros s r s' Hcur Hv H. unfold assign in H.
  unfold binding in Hv. rewrite <- Hcur in Hv.
  destruct (envs s !! current_env s) as [E|] eqn:HE; [|by destruct Hv].
  destruct (length (envs s)) as [|n] eqn:Hlen.
  { apply lookup_lt_Some in HE. lia. }
  cbn [env_assign] in H. rewrite HE in H. destruct Hv as [w Hw]. rewrite Hw in H.
  destruct (decide (variable ∈ constants E)); injection H as _ <-.
  - unfold binding. rewrite <- Hcur, HE, Hw. by eauto.
  - unfold binding. cbn [set_envs envs current_env].
    pose proof (lookup_lt_Some _ _ _ HE) as Hlt. split; [exact Hcur|]. split.
    + rewrite <- Hcur, list_lookup_insert_eq by exact Hlt. cbn [variables].
      rewrite lookup_insert_eq. by eexists.
    + rewrite list_lookup_insert_ne by congruence. reflexivity.
Qed.

Lemma inside_evaluate_increment (fuel : nat) (k : Z) :
  inside (evaluate fuel (BinaryOp (Identifier variable) "+" (IntegerLiteral k))).
Proof.
  destruct fuel as [|fuel]; [apply inside_out_of_fuel|].
  cbn [evaluate evaluate_node]. unfold evaluate_BinaryOp.
  apply inside_bind; [|intros left].
  { destruct fuel; [apply inside_out_of_fuel|apply inside_get]. }
  apply inside_bind; [|intros right].
  { destruct fuel; [apply inside_out_of_fuel|apply inside_ret]. }
  apply inside_lift.
Qed.

(** The body [variable = variable + k] changes the binding of the loop
    variable in the scope of the loop, and no binding of another
    scope. *)
Lemma increment_keeps (fuel : nat) (k : Z) :
  body_keeps e name L variable
    (execute_Block (execute fuel)
       [Assignment (Identifier variable) "="
          (BinaryOp (Identifier variable) "+" (IntegerLiteral k))]).
Proof.
  intros st rb sb Hcur Hv H.
  assert (Hin : inside
            (execute_Block (execute fuel)
               [Assignment (Identifier variable) "="
                  (BinaryOp (Identifier variable) "+" (IntegerLiteral k))])).
  { unfold execute_Block. cbn [execute_from].
    apply inside_bind; [|intros r; apply inside_ret].
    destruct fuel as [|fuel]; [apply inside_out_of_fuel|].
    cbn [execute execute_node]. unfold execute_Assignment.
    apply inside_bind; [apply inside_evaluate_increment|intros v].
    apply inside_bind; [|intros _; apply inside_ret].
    cbn [String.eqb Ascii.eqb Bool.eqb]. apply inside_assign. }
  exact (proj2 (proj2 (Hin _ _ _ Hcur Hv H))).
Qed.

End Shadowing.


(** After [for i in [1, 2] { let t = i }] neither [i] nor [t] is
    visible; both are bound, to the last item, in the scope of the
    loop. *)
Example for_loop_names_do_not_leak :
  get "i" c7_final = (Raise (undefined_variable "i"), c7_final)
  /\ get "t" c7_final = (Raise (undefined_variable "t"), c7_final)
  /\ (variables <$> envs c7_final !! 1) =
       Some (<["t":=VInt 2]> (<["i":=VInt 2]> ∅)).
Proof. repeat split; vm_compute; reflexivity. Qed.

(** A variable of the enclosing scope with the name of the loop
    variable keeps its value: the loop binds, and the body assigns, the
    variable of the scope of the loop. *)
Example for_loop_shadows_outer_variable :
  get "i" (snd (run 10 c7_shadowing init)) =
    (Val (VInt 10), snd (run 10 c7_shadowing init)).
Proof. vm_compute. reflexivity. Qed.

End ScopeProofs.

(** ** String literals *)

Module LexerProofs.
Import Chars Lexer LexerSpec.

Lemma get_nth_error (s : string) (n : nat) :
  String.get n s = list_ascii_of_string s !! n.
Proof.
  revert n. induction s as [|c s IH]; intros [|n]; simpl; auto.
Qed.

Lemma current_char_rest lx : current_char lx = head (rest lx).
Proof.
  unfold current_char, rest. rewrite get_nth_error.
  generalize (list_ascii_of_string (source lx)) (pos lx).
  intros l n. revert l. induction n; intros [|x l]; simpl; auto.
Qed.

Lemma peek_rest lx k : peek lx k = rest lx !! k.
Proof.
  unfold peek, rest. rewrite get_nth_error. by rewrite lookup_drop.
Qed.

Lemma source_advance lx : source (advance lx) = source lx.
Proof. unfold advance. destruct (current_char lx) as [c|]; [destruct (Ascii.eqb c nl)|]; reflexivity. Qed.

Lemma pos_advance lx : pos (advance lx) = S (pos lx).
Proof. unfold advance. destruct (current_char lx) as [c|]; [destruct (Ascii.eqb c nl)|]; reflexivity. Qed.

Lemma tokens_advance lx : tokens (advance lx) = tokens lx.
Proof. unfold advance. destruct (current_char lx) as [c|]; [destruct (Ascii.eqb c nl)|]; reflexivity. Qed.

Lemma rest_advance lx : rest (advance lx) = tail (rest lx).
Proof.
  unfold rest. rewrite source_advance, pos_advance.
  generalize (list_ascii_of_string (source lx)) (pos lx).
  intros l n. revert l. induction n; intros [|x l]; simpl; auto.
Qed.

Lemma remaining_rest lx : remaining lx = length (rest lx).
Proof.
  unfold remaining, rest. rewrite length_drop.
  f_equal. generalize (source lx). induction s; simpl; auto.
Qed.

Lemma rest_advance_n k lx : rest (advance_n k lx) = drop k (rest lx).
Proof.
  revert lx. induction k; intros lx; simpl.
  - by rewrite drop_0.
  - rewrite IHk, rest_advance. destruct (rest lx); simpl; auto. by rewrite drop_nil.
Qed.

Lemma escape_chars_translate e :
  match escape_chars e with Some t => t | None => e end = translate_escape e.
Proof.
  unfold escape_chars, translate_escape.
  destruct (Ascii.eqb e "n"); auto.
  destruct (Ascii.eqb e "t"); auto.
  destruct (Ascii.eqb e "r"); auto.
  destruct (Ascii.eqb_spec e backslash); [subst; auto|].
  destruct (Ascii.eqb_spec e dquote); [subst; auto|].
  destruct (Ascii.eqb_spec e squote); [subst; auto|]. auto.
Qed.

Lemma loop_step_plain n q lx res c :
  current_char lx = Some c -> c <> q -> c <> backslash ->
  read_string_loop (S n) q lx res = read_string_loop n q (advance lx) (res ++ [c]).
Proof.
  intros Hc Hq Hb. cbn [read_string_loop]. rewrite Hc.
  destruct (Ascii.eqb_spec c q); [contradiction|].
  destruct (Ascii.eqb_spec c backslash); [contradiction|]. reflexivity.
Qed.

Lemma loop_step_escape n q lx res e :
  current_char lx = Some backslash -> q <> backslash ->
  current_char (advance lx) = Some e ->
  read_string_loop (S n) q lx res =
  read_string_loop n q (advance (advance lx)) (res ++ [translate_escape e]).
Proof.
  intros Hc Hq He. cbn [read_string_loop]. rewrite Hc.
  destruct (Ascii.eqb_spec backslash q); [congruence|].
  destruct (Ascii.eqb_spec backslash backslash); [|congruence].
  rewrite He. pose proof (escape_chars_translate e) as Ht.
  destruct (escape_chars e); [subst; reflexivity | rewrite <- Ht; reflexivity].
Qed.

(** The loop of [read_string] over a well-formed body. *)
Lemma read_string_loop_body q ps : forall n lx res tl,
  q <> backslash ->
  Forall (plain_ok q) ps ->
  rest lx = encode ps ++ tl ->
  length ps <= n ->
  read_string_loop n q lx res =
  read_string_loop (n - length ps) q (advance_n (length (encode ps)) lx) (res ++ decode ps).
Proof.
  induction ps as [|p ps IH]; intros n lx res tl Hqb Hok Hrest Hn.
  - simpl. rewrite Nat.sub_0_r, app_nil_r. reflexivity.
  - inversion Hok as [|? ? Hp Hps]; subst.
    destruct n as [|n]; [simpl in Hn; lia|].
    cbn [length] in Hn.
    change (encode (p :: ps)) with (encode_piece p ++ encode ps) in *.
    destruct p as [c|c]; cbn [encode_piece app] in Hrest.
    + destruct Hp as [Hq Hb].
      rewrite (loop_step_plain n q lx res c); auto.
      2:{ rewrite current_char_rest, Hrest. reflexivity. }
      rewrite (IH n (advance lx) (res ++ [c]) tl); auto.
      * cbn. by rewrite <- app_assoc.
      * rewrite rest_advance, Hrest. reflexivity.
      * lia.
    + rewrite (loop_step_escape n q lx res c); auto.
      2:{ rewrite current_char_rest, Hrest. reflexivity. }
      2:{ rewrite current_char_rest, rest_advance, Hrest. reflexivity. }
      rewrite (IH n (advance (advance lx)) (res ++ [translate_escape c]) tl); auto.
      * cbn. by rewrite <- app_assoc.
      * rewrite !rest_advance, Hrest. reflexivity.
      * lia.
Qed.

Lemma length_encode_ge ps : length ps <= length (encode ps).
Proof.
  induction ps as [|[c|c] ps IH]; [cbn; lia| |];
    change (encode (?p :: ps)) with (encode_piece p ++ encode ps);
    rewrite length_app; cbn; lia.
Qed.

(** [read_string] on a literal that is closed. *)
Lemma read_string_closed lx q ps after :
  q <> backslash ->
  Forall (plain_ok q) ps ->
  rest lx = q :: encode ps ++ q :: after ->
  read_string lx =
  Ok (Tokens.mkToken Tokens.STRING
        (Tokens.PStr (string_of_list_ascii (decode ps))) (line lx) (column lx),
      advance_n (length (encode ps) + 2) lx).
Proof.
  intros Hqb Hok Hrest. unfold read_string.
  rewrite current_char_rest, Hrest. cbn [head].
  assert (Hr1 : rest (advance lx) = encode ps ++ q :: after).
  { rewrite rest_advance, Hrest. reflexivity. }
  rewrite (read_string_loop_body q ps _ _ [] (q :: after) Hqb Hok Hr1).
  2:{ rewrite remaining_rest, Hr1, length_app. pose proof (length_encode_ge ps). simpl. lia. }
  set (lx2 := advance_n (length (encode ps)) (advance lx)).
  assert (Hr2 : rest lx2 = q :: after).
  { unfold lx2. rewrite rest_advance_n, Hr1. by rewrite drop_app_length. }
  assert (Hfuel : exists m, remaining (advance lx) - length ps = S m).
  { rewrite remaining_rest, Hr1, length_app. pose proof (length_encode_ge ps).
    simpl. exists (length (encode ps) + length after - length ps). lia. }
  destruct Hfuel as [m ->].
  cbn [read_string_loop]. rewrite current_char_rest, Hr2. cbn [head].
  rewrite Ascii.eqb_refl. rewrite current_char_rest, Hr2. cbn [head app].
  do 2 f_equal. unfold lx2.
  replace (length (encode ps) + 2) with (S (length (encode ps) + 1)) by lia.
  cbn [advance_n]. generalize (advance lx). generalize (length (encode ps)).
  induction n; intros l; simpl; auto.
Qed.

(** [read_string] on a literal that the end of the input cuts. *)
Lemma read_string_unterminated lx q ps tl :
  q <> backslash ->
  Forall (plain_ok q) ps ->
  tl = [] \/ tl = [backslash] ->
  rest lx = q :: encode ps ++ tl ->
  read_string lx = LexerError "Unterminated string literal" (line lx) (column lx).
Proof.
  intros Hqb Hok Htl Hrest. unfold read_string.
  rewrite current_char_rest, Hrest. cbn [head].
  assert (Hr1 : rest (advance lx) = encode ps ++ tl).
  { rewrite rest_advance, Hrest. reflexivity. }
  rewrite (read_string_loop_body q ps _ _ [] tl Hqb Hok Hr1).
  2:{ rewrite remaining_rest, Hr1, length_app. pose proof (length_encode_ge ps). lia. }
  set (lx2 := advance_n (length (encode ps)) (advance lx)).
  assert (Hr2 : rest lx2 = tl).
  { unfold lx2. rewrite rest_advance_n, Hr1. by rewrite drop_app_length. }
  destruct Htl as [-> | ->].
  - destruct (remaining (advance lx) - length ps) as [|m]; cbn [read_string_loop].
    + rewrite current_char_rest, Hr2. reflexivity.
    + rewrite current_char_rest, Hr2. cbn [head].
      rewrite current_char_rest, Hr2. reflexivity.
  - assert (Hfuel : exists m, remaining (advance lx) - length ps = S m).
    { rewrite remaining_rest, Hr1, length_app. pose proof (length_encode_ge ps).
      simpl. exists (length (encode ps) - length ps). lia. }
    destruct Hfuel as [m ->].
    cbn [read_string_loop]. rewrite current_char_rest, Hr2. cbn [head].
    destruct (Ascii.eqb_spec backslash q); [congruence|].
    destruct (Ascii.eqb_spec backslash backslash); [|congruence].
    rewrite current_char_rest, rest_advance, Hr2. cbn [tail head].
    assert (Hend : forall k res, exists lx3 res3,
              read_string_loop k q (advance (advance lx2)) res = (lx3, res3)
              /\ current_char lx3 = None).
    { intros k res. exists (advance (advance lx2)), res.
      assert (current_char (advance (advance lx2)) = None) as Hnone.
      { rewrite current_char_rest, !rest_advance, Hr2. reflexivity. }
      split; [|exact Hnone].
      destruct k; cbn [read_string_loop]; [reflexivity|]. by rewrite Hnone. }
    destruct (Hend m ([] ++ decode ps)) as (lx3 & res3 & -> & ->). reflexivity.
Qed.

(** *** The cursor of the lexer moves by [advance] only *)

Lemma cursor_rest a b : cursor a = cursor b -> rest a = rest b.
Proof. unfold cursor, rest. by intros [= -> -> _ _]. Qed.

Lemma cursor_current a b : cursor a = cursor b -> current_char a = current_char b.
Proof. unfold cursor, current_char. by intros [= -> -> _ _]. Qed.

Lemma cursor_advance a b : cursor a = cursor b -> cursor (advance a) = cursor (advance b).
Proof.
  intros H. pose proof (cursor_current _ _ H) as Hc. unfold cursor in *.
  injection H as Hs Hp Hl Hk. unfold advance. rewrite Hc.
  destruct (current_char b) as [c|]; [destruct (Ascii.eqb c nl)|]; simpl; congruence.
Qed.

Lemma cursor_advance_n k : forall a b,
  cursor a = cursor b -> cursor (advance_n k a) = cursor (advance_n k b).
Proof. induction k; intros a b H; simpl; auto using cursor_advance. Qed.

Lemma cursor_push lx t : cursor (push_token lx t) = cursor lx.
Proof. reflexivity. Qed.

Lemma pos_advance_n k lx : pos (advance_n k lx) = pos lx + k.
Proof. revert lx. induction k; intros lx; simpl; [lia|]. rewrite IHk, pos_advance. lia. Qed.

Lemma source_advance_n k lx : source (advance_n k lx) = source lx.
Proof. revert lx. induction k; intros lx; simpl; auto. by rewrite IHk, source_advance. Qed.

Lemma advance_n_add j k lx : advance_n (j + k) lx = advance_n k (advance_n j lx).
Proof. revert lx. induction j; intros lx; simpl; auto. Qed.

Lemma moved_refl lx : moved lx lx.
Proof. exists 0. split; [lia|reflexivity]. Qed.

Lemma moved_cursor a b c : cursor b = cursor c -> moved a b -> moved a c.
Proof. intros H (k & Hk & Hb). exists k. split; auto. congruence. Qed.

Lemma moved_trans a b c : moved a b -> moved b c -> moved a c.
Proof.
  intros (j & Hj & Hb) (k & Hk & Hc). exists (j + k). split.
  - rewrite (cursor_rest _ _ Hb), rest_advance_n, length_drop in Hk. lia.
  - rewrite Hc, advance_n_add. by apply cursor_advance_n.
Qed.

Lemma moved_advance lx c : current_char lx = Some c -> moved lx (advance lx).
Proof.
  intros Hc. exists 1. split; [|reflexivity].
  rewrite current_char_rest in Hc. destruct (rest lx); simpl in *; [discriminate|lia].
Qed.

Lemma moved_pos a b : moved a b -> pos a <= pos b /\ source b = source a.
Proof.
  intros (k & _ & Hb). unfold cursor in Hb. injection Hb as Hs Hp _ _.
  rewrite Hp, pos_advance_n, Hs, source_advance_n. split; [lia|reflexivity].
Qed.

Lemma since_newline_snoc l c col :
  since_newline (l ++ [c]) col =
  if Ascii.eqb c nl then 1 else S (since_newline l col).
Proof.
  revert col. induction l as [|x l IH]; intros col; simpl.
  - destruct (Ascii.eqb c nl); reflexivity.
  - destruct (Ascii.eqb x nl); apply IH.
Qed.

Lemma line_of_snoc l c :
  line_of (l ++ [c]) = if Ascii.eqb c nl then S (line_of l) else line_of l.
Proof.
  unfold line_of. induction l as [|x l IH]; cbn [app newlines].
  - destruct (Ascii.eqb c nl); reflexivity.
  - destruct (Ascii.eqb c nl), (Ascii.eqb x nl); lia.
Qed.

Lemma consumed_advance lx c :
  current_char lx = Some c -> consumed (advance lx) = consumed lx ++ [c].
Proof.
  intros Hc. unfold consumed. rewrite source_advance, pos_advance.
  unfold current_char in Hc. rewrite get_nth_error in Hc.
  by apply take_S_r.
Qed.

Lemma positioned_advance lx c :
  current_char lx = Some c -> positioned lx -> positioned (advance lx).
Proof.
  intros Hc [Hl Hk]. unfold positioned.
  rewrite (consumed_advance lx c Hc), line_of_snoc.
  unfold column_of in *. rewrite since_newline_snoc.
  unfold advance. rewrite Hc. destruct (Ascii.eqb c nl); simpl; split; congruence.
Qed.

Lemma positioned_cursor a b : cursor a = cursor b -> positioned a -> positioned b.
Proof.
  unfold cursor, positioned, consumed. intros [= Hs Hp Hl Hk] [H1 H2].
  rewrite <- Hs, <- Hp, <- Hl, <- Hk. auto.
Qed.

Lemma positioned_advance_n k : forall lx,
  k <= length (rest lx) -> positioned lx -> positioned (advance_n k lx).
Proof.
  induction k; intros lx Hk Hp; simpl; auto.
  destruct (rest lx) as [|c r] eqn:Hr; [simpl in Hk; lia|].
  apply IHk.
  - rewrite rest_advance, Hr. simpl in *. lia.
  - apply (positioned_advance lx c); auto. by rewrite current_char_rest, Hr.
Qed.

Lemma positioned_moved a b : positioned a -> moved a b -> positioned b.
Proof.
  intros Hp (k & Hk & Hb). apply (positioned_cursor (advance_n k a)); auto.
  by apply positioned_advance_n.
Qed.

Lemma positioned_init src : positioned (init src).
Proof. split; reflexivity. Qed.

(** *** Every routine moves the cursor forward *)

Lemma moved_step lx c lx' :
  current_char lx = Some c -> moved (advance lx) lx' -> moved lx lx'.
Proof. intros Hc H. eapply moved_trans; [by eapply moved_advance|exact H]. Qed.

Lemma skip_whitespace_loop_moved n : forall lx, moved lx (skip_whitespace_loop n lx).
Proof.
  induction n; intros lx; cbn [skip_whitespace_loop]; [apply moved_refl|].
  destruct (current_char lx) as [c|] eqn:Hc; [|apply moved_refl].
  destruct (char_in c _); [|apply moved_refl].
  eapply moved_step; eauto.
Qed.

Lemma skip_line_loop_moved n : forall lx, moved lx (skip_line_loop n lx).
Proof.
  induction n; intros lx; cbn [skip_line_loop]; [apply moved_refl|].
  destruct (current_char lx) as [c|] eqn:Hc; [|apply moved_refl].
  destruct (Ascii.eqb c nl); [apply moved_refl|].
  eapply moved_step; eauto.
Qed.

Lemma moved_advance2 lx c d :
  current_char lx = Some c -> peek lx 1 = Some d -> moved lx (advance (advance lx)).
Proof.
  intros Hc Hd. eapply moved_step; eauto. eapply (moved_advance _ d).
  rewrite current_char_rest, rest_advance. rewrite peek_rest in Hd.
  destruct (rest lx) as [|x [|y r]]; simpl in *; congruence.
Qed.

Lemma skip_block_loop_moved n : forall lx, moved lx (skip_block_loop n lx).
Proof.
  induction n; intros lx; cbn [skip_block_loop]; [apply moved_refl|].
  destruct (current_char lx) as [c|] eqn:Hc; [|apply moved_refl].
  destruct (peek lx 1) as [d|] eqn:Hd.
  - destruct (Ascii.eqb c "*" && Ascii.eqb d "/").
    + eapply moved_advance2; eauto.
    + eapply moved_step; eauto.
  - rewrite andb_false_r. eapply moved_step; eauto.
Qed.

Lemma skip_comment_moved lx : moved lx (skip_comment lx).
Proof.
  unfold skip_comment.
  destruct (current_char lx) as [c|] eqn:Hc; [|apply moved_refl].
  destruct (peek lx 1) as [d|] eqn:Hd; [|apply moved_refl].
  destruct (Ascii.eqb c "/" && Ascii.eqb d "/"); [apply skip_line_loop_moved|].
  destruct (Ascii.eqb c "/" && Ascii.eqb d "*"); [|apply moved_refl].
  eapply moved_trans; [eapply moved_advance2; eauto|apply skip_block_loop_moved].
Qed.

Lemma read_number_loop_moved n : forall lx res fl lx' res' fl',
  read_number_loop n lx res fl = Some (lx', res', fl') -> moved lx lx'.
Proof.
  induction n; intros lx res fl lx' res' fl' H; cbn [read_number_loop] in H.
  { injection H as <- _ _. apply moved_refl. }
  destruct (current_char lx) as [c|] eqn:Hc.
  2:{ injection H as <- _ _. apply moved_refl. }
  destruct (negb (is_ascii c)); [discriminate|].
  destruct (isdigit c).
  { eapply moved_step; eauto. }
  destruct (Ascii.eqb c ".").
  2:{ injection H as <- _ _. apply moved_refl. }
  destruct fl.
  { injection H as <- _ _. apply moved_refl. }
  destruct (peek lx 1) as [d|].
  2:{ injection H as <- _ _. apply moved_refl. }
  destruct (negb (is_ascii d)); [discriminate|].
  destruct (isdigit d).
  { eapply moved_step; eauto. }
  injection H as <- _ _. apply moved_refl.
Qed.

Lemma read_identifier_loop_moved n : forall lx res lx' res',
  read_identifier_loop n lx res = Some (lx', res') -> moved lx lx'.
Proof.
  induction n; intros lx res lx' res' H; cbn [read_identifier_loop] in H.
  { injection H as <- _. apply moved_refl. }
  destruct (current_char lx) as [c|] eqn:Hc.
  2:{ injection H as <- _. apply moved_refl. }
  destruct (negb (is_ascii c)); [discriminate|].
  destruct (isalnum c || Ascii.eqb c "_").
  { eapply moved_step; eauto. }
  injection H as <- _. apply moved_refl.
Qed.

(** The loop of [read_string] ends at the end of the input or where a
    run of [advance] over existing characters leads. *)
Lemma read_string_loop_moved n q : forall lx res lx' res',
  read_string_loop n q lx res = (lx', res') ->
  current_char lx' = None \/ moved lx lx'.
Proof.
  induction n; intros lx res lx' res' H; cbn [read_string_loop] in H.
  { injection H as <- _. right. apply moved_refl. }
  destruct (current_char lx) as [c|] eqn:Hc.
  2:{ injection H as <- _. right. apply moved_refl. }
  destruct (Ascii.eqb c q).
  { injection H as <- _. right. apply moved_refl. }
  destruct (Ascii.eqb c backslash).
  - destruct (current_char (advance lx)) as [e|] eqn:He.
    + assert (moved lx (advance (advance lx))) as Hm.
      { eapply moved_step; eauto. eapply moved_advance; eauto. }
      destruct (escape_chars e);
        (apply IHn in H; destruct H as [H|H]; [by left|right; eapply moved_trans; eauto]).
    + left.
      assert (Hnone : forall k r l2 r2,
                 read_string_loop k q (advance (advance lx)) r = (l2, r2) ->
                 current_char l2 = None).
      { intros k r l2 r2 Hk.
        assert (current_char (advance (advance lx)) = None) as Hn2.
        { rewrite current_char_rest, rest_advance.
          rewrite current_char_rest in He. destruct (rest (advance lx)); simpl in *; congruence. }
        destruct k; cbn [read_string_loop] in Hk.
        - by injection Hk as <- _.
        - rewrite Hn2 in Hk. by injection Hk as <- _. }
      eapply Hnone; eauto.
  - apply IHn in H. destruct H as [H|H]; [by left|right].
    eapply moved_step; eauto.
Qed.

Lemma moved_after_advance lx c lx' :
  current_char lx = Some c -> moved (advance lx) lx' ->
  moved lx lx' /\ pos lx < pos lx'.
Proof.
  intros Hc H. split; [by eapply moved_step|].
  apply moved_pos in H. rewrite pos_advance in H. lia.
Qed.

Lemma remaining_pos lx c : current_char lx = Some c -> exists n, remaining lx = S n.
Proof.
  rewrite current_char_rest, remaining_rest.
  destruct (rest lx); simpl; [discriminate|eauto].
Qed.

Lemma tokenize_step_moved lx c lx' :
  current_char lx = Some c -> tokenize_step c lx = Ok lx' ->
  moved lx lx' /\ pos lx < pos lx'.
Proof.
  intros Hc H. destruct (remaining_pos lx c Hc) as [n Hn].
  unfold tokenize_step in H.
  destruct (char_in c (String " " (String tab (String cr "")))) eqn:Hws.
  { injection H as <-. unfold skip_whitespace. rewrite Hn.
    cbn [skip_whitespace_loop]. rewrite Hc, Hws.
    eapply moved_after_advance; eauto. apply skip_whitespace_loop_moved. }
  destruct (Ascii.eqb c nl).
  { injection H as <-. split.
    - eapply moved_cursor; [|by eapply moved_advance].
      apply cursor_advance. symmetry. apply cursor_push.
    - rewrite pos_advance. simpl. lia. }
  destruct (Ascii.eqb_spec c "/") as [->|Hslash]; cbn [andb] in H.
  { destruct (peek lx 1) as [d|] eqn:Hd.
    - destruct (Ascii.eqb_spec d "/") as [->|Hd1].
      + cbn [orb] in H. injection H as <-. unfold skip_comment. rewrite Hc, Hd.
        cbn [Ascii.eqb andb]. rewrite Hn.
        change (Ascii.eqb "/" "/") with true. cbn [andb].
        cbn [skip_line_loop]. rewrite Hc.
        change (Ascii.eqb "/" nl) with false. cbn iota.
        eapply moved_after_advance; eauto. apply skip_line_loop_moved.
      + destruct (Ascii.eqb_spec d "*") as [->|Hd2].
        * cbn [orb] in H. injection H as <-. unfold skip_comment. rewrite Hc, Hd.
          change (Ascii.eqb "/" "/") with true.
          change (Ascii.eqb "*" "/") with false.
          change (Ascii.eqb "*" "*") with true. cbn [andb].
          assert (moved lx (advance (advance lx))) as Hm by (eapply moved_advance2; eauto).
          split.
          -- eapply moved_trans; [exact Hm|apply skip_block_loop_moved].
          -- pose proof (skip_block_loop_moved (remaining (advance (advance lx)))
                           (advance (advance lx))) as Hb.
             apply moved_pos in Hb. rewrite !pos_advance in Hb. lia.
        * cbn [orb] in H. revert H. 
          change (Ascii.eqb "/" dquote) with false.
          change (Ascii.eqb "/" squote) with false.
          change (negb (is_ascii "/")) with false.
          change (isdigit "/") with false.
          change (isalpha "/") with false.
          change (Ascii.eqb "/" "_") with false. cbn [orb].
          unfold read_operator_or_delimiter. rewrite Hc, Hd.
          intros H.
          destruct (Tokens.assoc (String "/" (String d "")) two_char_ops).
          -- injection H as <-. split.
             ++ eapply moved_cursor; [symmetry; apply cursor_push|].
                eapply moved_advance2; eauto.
             ++ simpl. rewrite !pos_advance. lia.
          -- destruct (Tokens.assoc "/" single_char_ops); [|discriminate].
             injection H as <-. split.
             ++ eapply moved_cursor; [symmetry; apply cursor_push|].
                eapply moved_advance; eauto.
             ++ simpl. rewrite !pos_advance. lia.
    - revert H.
      change (Ascii.eqb "/" dquote) with false.
      change (Ascii.eqb "/" squote) with false.
      change (negb (is_ascii "/")) with false.
      change (isdigit "/") with false.
      change (isalpha "/") with false.
      change (Ascii.eqb "/" "_") with false. cbn [orb].
      unfold read_operator_or_delimiter. rewrite Hc, Hd.
      intros H.
      destruct (Tokens.assoc "/" single_char_ops); [|discriminate].
      injection H as <-. split.
      ++ eapply moved_cursor; [symmetry; apply cursor_push|].
         eapply moved_advance; eauto.
      ++ simpl. rewrite !pos_advance. lia. }
  destruct (Ascii.eqb c dquote || Ascii.eqb c squote).
  { unfold append_read in H.
    destruct (read_string lx) as [[t lx1]| |] eqn:Hrs; try discriminate.
    injection H as <-. unfold read_string in Hrs. rewrite Hc in Hrs.
    destruct (read_string_loop (remaining (advance lx)) c (advance lx) [])
      as [lx2 res] eqn:Hloop.
    destruct (current_char lx2) as [e|] eqn:He; [|discriminate].
    injection Hrs as _ <-.
    apply read_string_loop_moved in Hloop. destruct Hloop as [Hx|Hm]; [congruence|].
    assert (moved (advance lx) (advance lx2)) as Hm2.
    { eapply moved_trans; [exact Hm|]. eapply moved_advance; eauto. }
    destruct (moved_after_advance lx c _ Hc Hm2) as [Ha Hb].
    split; [|exact Hb].
    eapply moved_cursor; [symmetry; apply cursor_push|exact Ha]. }
  destruct (negb (is_ascii c)) eqn:Hasc; [discriminate|].
  destruct (isdigit c) eqn:Hdig.
  { unfold append_read in H.
    destruct (read_number lx) as [[t lx1]| |] eqn:Hrn; try discriminate.
    injection H as <-. unfold read_number in Hrn. rewrite Hn in Hrn.
    cbn [read_number_loop] in Hrn. rewrite Hc, Hasc, Hdig in Hrn.
    destruct (read_number_loop n (advance lx) ([] ++ [c]) false)
      as [[[lx2 res] fl]|] eqn:Hloop; [|discriminate].
    apply read_number_loop_moved in Hloop.
    assert (lx1 = lx2) as ->.
    { destruct fl.
      - destruct (float_of_decimal res); [|discriminate]. by injection Hrn as _ <-.
      - destruct (length res <=? max_str_digits); [|discriminate]. by injection Hrn as _ <-. }
    destruct (moved_after_advance lx c _ Hc Hloop) as [Ha Hb].
    split; [|exact Hb].
    eapply moved_cursor; [symmetry; apply cursor_push|exact Ha]. }
  destruct (isalpha c || Ascii.eqb c "_") eqn:Halpha.
  { unfold append_read in H.
    destruct (read_identifier lx) as [[t lx1]| |] eqn:Hri; try discriminate.
    injection H as <-. unfold read_identifier in Hri. rewrite Hn in Hri.
    cbn [read_identifier_loop] in Hri. rewrite Hc, Hasc in Hri.
    assert (isalnum c || Ascii.eqb c "_" = true) as Hal.
    { unfold isalnum. destruct (isalpha c); simpl in *; auto.
      rewrite Halpha. by rewrite orb_true_r. }
    rewrite Hal in Hri.
    destruct (read_identifier_loop n (advance lx) ([] ++ [c])) as [[lx2 res]|] eqn:Hloop;
      [|discriminate].
    apply read_identifier_loop_moved in Hloop.
    assert (lx1 = lx2) as ->.
    { destruct (Tokens.assoc (string_of_list_ascii res) Tokens.KEYWORDS) as [ty|];
        [destruct ty|]; by injection Hri as _ <-. }
    destruct (moved_after_advance lx c _ Hc Hloop) as [Ha Hb].
    split; [|exact Hb].
    eapply moved_cursor; [symmetry; apply cursor_push|exact Ha]. }
  unfold read_operator_or_delimiter in H. rewrite Hc in H.
  destruct (peek lx 1) as [d|] eqn:Hd.
  - destruct (Tokens.assoc (String c (String d "")) two_char_ops).
    + injection H as <-. split.
      * eapply moved_cursor; [symmetry; apply cursor_push|].
        eapply moved_advance2; eauto.
      * simpl. rewrite !pos_advance. lia.
    + destruct (Tokens.assoc (String c "") single_char_ops); [|discriminate].
      injection H as <-. split.
      * eapply moved_cursor; [symmetry; apply cursor_push|].
        eapply moved_advance; eauto.
      * simpl. rewrite !pos_advance. lia.
  - destruct (Tokens.assoc (String c "") single_char_ops); [|discriminate].
    injection H as <-. split.
    * eapply moved_cursor; [symmetry; apply cursor_push|].
      eapply moved_advance; eauto.
    * simpl. rewrite !pos_advance. lia.
Qed.

Lemma loop_reaches_moved lx lx2 : loop_reaches lx lx2 -> moved lx lx2.
Proof.
  induction 1 as [lx|lx c lx1 lx2 Hc Hs _ IH]; [apply moved_refl|].
  eapply moved_trans; [|exact IH]. by eapply tokenize_step_moved.
Qed.

(** Fuel: the loop of [tokenize] gets to every state it reaches with
    fuel to spare. *)
Lemma loop_reaches_fuel lx lx2 :
  loop_reaches lx lx2 ->
  forall n, pos lx2 - pos lx < n ->
  exists m, 0 < m /\ tokenize_loop n lx = tokenize_loop m lx2.
Proof.
  induction 1 as [lx|lx c lx1 lx2 Hc Hs Hr IH]; intros n Hn.
  - exists n. split; [lia|reflexivity].
  - destruct (tokenize_step_moved lx c lx1 Hc Hs) as [_ Hlt].
    pose proof (loop_reaches_moved _ _ Hr) as Hm. apply moved_pos in Hm.
    destruct n as [|n]; [lia|]. cbn [tokenize_loop]. rewrite Hc, Hs.
    apply IH. lia.
Qed.

Lemma quote_not_backslash q : q = dquote \/ q = squote -> q <> backslash.
Proof. intros [-> | ->]; discriminate. Qed.

Lemma tokenize_step_quote q lx :
  q = dquote \/ q = squote ->
  tokenize_step q lx = append_read (read_string lx).
Proof. intros [-> | ->]; reflexivity. Qed.

(** C8. Wherever the loop of [tokenize] reaches an opening quote whose
    body runs to the end of the input, lexing the source fails with the
    one error "Unterminated string literal" at the line and column of
    that quote; and a closed literal gives a STRING token at the
    position of its opening quote whose text is the body with the
    escape sequences n, t, r, backslash and the two quotes translated
    and any other escaped character copied. *)
Theorem C8_unterminated_string_and_escapes
    (src : string) (lx : Lexer) (q : ascii) (ps : list piece) :
  loop_reaches (init src) lx ->
  q = dquote \/ q = squote ->
  Forall (plain_ok q) ps ->
  (forall tl, tl = [] \/ tl = [backslash] ->
     rest lx = q :: encode ps ++ tl ->
     tokenize src =
       Some (LexerError "Unterminated string literal"
               (line_of (consumed lx)) (column_of (consumed lx))))
  /\
  (forall after, rest lx = q :: encode ps ++ q :: after ->
     read_string lx =
       Ok (Tokens.mkToken Tokens.STRING
             (Tokens.PStr (string_of_list_ascii (decode ps)))
             (line_of (consumed lx)) (column_of (consumed lx)),
           advance_n (length (encode ps) + 2) lx)).
Proof.
  intros Hreach Hq Hok.
  pose proof (quote_not_backslash q Hq) as Hqb.
  pose proof (loop_reaches_moved _ _ Hreach) as Hm.
  pose proof (positioned_moved _ _ (positioned_init src) Hm) as [Hl Hc].
  split.
  - intros tl Htl Hrest.
    assert (Hlen : pos lx < String.length src).
    { apply moved_pos in Hm. destruct Hm as [_ Hs]. simpl in Hs.
      assert (remaining lx <> 0) as Hr by (rewrite remaining_rest, Hrest; simpl; lia).
      unfold remaining in Hr. rewrite Hs in Hr. lia. }
    unfold tokenize.
    destruct (loop_reaches_fuel _ _ Hreach (S (String.length src))) as (m & Hpos & ->).
    { simpl. lia. }
    destruct m as [|m]; [lia|]. cbn [tokenize_loop].
    rewrite current_char_rest, Hrest. cbn [head].
    rewrite (tokenize_step_quote q lx Hq).
    rewrite (read_string_unterminated lx q ps tl Hqb Hok Htl Hrest).
    cbn [append_read]. by rewrite Hl, Hc.
  - intros after Hrest.
    rewrite (read_string_closed lx q ps after Hqb Hok Hrest). by rewrite Hl, Hc.
Qed.

(** Every run of characters after an opening quote has one of the
    three shapes of the theorem: a body cut by the end of the input,
    possibly after a lone backslash, or a body and its closing quote. *)
Lemma body_decomposes (q : ascii) (cs : list ascii) :
  q <> backslash ->
  exists ps, Forall (plain_ok q) ps /\
    (cs = encode ps \/ cs = encode ps ++ [backslash]
     \/ exists after, cs = encode ps ++ q :: after).
Proof.
  intros Hqb.
  assert (H : forall n cs, length cs <= n ->
            exists ps, Forall (plain_ok q) ps /\
              (cs = encode ps \/ cs = encode ps ++ [backslash]
               \/ exists after, cs = encode ps ++ q :: after)).
  { clear cs. induction n as [|n IH]; intros cs Hn.
    - destruct cs; [|simpl in Hn; lia]. exists []. split; [constructor|by left].
    - destruct cs as [|c r]; [exists []; split; [constructor|by left]|].
      destruct (Ascii.eqb_spec c q) as [->|Hcq].
      { exists []. split; [constructor|]. right. right. by exists r. }
      destruct (Ascii.eqb_spec c backslash) as [->|Hcb].
      + destruct r as [|e r'].
        { exists []. split; [constructor|]. right. by left. }
        destruct (IH r') as (ps & Hok & Hshape); [simpl in Hn; lia|].
        exists (Escaped e :: ps). split; [constructor; [exact I|exact Hok]|].
        change (encode (Escaped e :: ps)) with (backslash :: e :: encode ps).
        destruct Hshape as [->|[->|[after ->]]]; [by left|right; by left|].
        right. right. by exists after.
      + destruct (IH r) as (ps & Hok & Hshape); [simpl in Hn; lia|].
        exists (Plain c :: ps). split; [constructor; [by split|exact Hok]|].
        change (encode (Plain c :: ps)) with (c :: encode ps).
        destruct Hshape as [->|[->|[after ->]]]; [by left|right; by left|].
        right. right. by exists after. }
  by apply (H (length cs)).
Qed.

Lemma loop_state_reaches k : forall lx lx',
  loop_state k lx = Some lx' -> loop_reaches lx lx'.
Proof.
  induction k; intros lx lx' H; cbn [loop_state] in H.
  - injection H as <-. constructor.
  - destruct (current_char lx) as [c|] eqn:Hc; [|discriminate].
    destruct (tokenize_step c lx) as [lx1| |] eqn:Hs; try discriminate.
    eapply reaches_step; eauto.
Qed.

Lemma C8_unterminated_string_and_escapes_witness :
  tokenize c8_src = Some (LexerError "Unterminated string literal" 2 3).
Proof.
  refine (proj1 (C8_unterminated_string_and_escapes c8_src c8_state squote c8_body
                   _ _ _) [] _ _).
  - apply (loop_state_reaches 7). vm_compute. reflexivity.
  - right. reflexivity.
  - repeat constructor; discriminate.
  - left. reflexivity.
  - vm_compute. reflexivity.
Defined.

(** A closed literal: [\t] and the doubled backslash are translated,
    and [\q] gives [q]. *)
Example escapes_in_a_closed_literal :
  tokenize "s = 'a\tb\q\\'" =
    Some (Ok [ Tokens.mkToken Tokens.IDENTIFIER (Tokens.PStr "s") 1 1;
               Tokens.mkToken Tokens.ASSIGN (Tokens.PStr "=") 1 3;
               Tokens.mkToken Tokens.STRING
                 (Tokens.PStr (String "a" (String tab (String "b" (String "q"
                    (String backslash EmptyString)))))) 1 5;
               Tokens.mkToken Tokens.EOF Tokens.PNone 1 15 ]).
Proof. vm_compute. reflexivity. Qed.

End LexerProofs.

(** ** The methods of lists *)

Module ListProofs.
Import Ast Py Interp ListSpec.

(** ** The insertion sort *)

Section InsertionSort.
Context {A : Type} (lt : A -> A -> bool).

Lemma insert_sorted_perm (x : A) (l : list A) :
  Permutation (x :: l) (insert_sorted lt x l).
Proof.
  induction l as [|y l IH]; cbn [insert_sorted]; [reflexivity|].
  destruct (lt x y); [reflexivity|].
  rewrite perm_swap. by constructor.
Qed.

Lemma fold_insert_perm (l acc : list A) :
  Permutation (acc ++ l) (fold_left (fun acc x => insert_sorted lt x acc) l acc).
Proof.
  revert acc. induction l as [|x l IH]; intros acc; cbn [fold_left].
  - by rewrite app_nil_r.
  - rewrite <- IH, <- insert_sorted_perm.
    rewrite <- Permutation_middle. reflexivity.
Qed.

Lemma stable_sort_perm (l : list A) : Permutation l (stable_sort lt l).
Proof. exact (fold_insert_perm l []). Qed.

Hypothesis lt_asym : forall x y, lt x y = true -> lt y x = false.

Let ordered (a b : A) : Prop := lt b a = false.

Lemma insert_sorted_HdRel (x y : A) (l : list A) :
  lt x y = false -> HdRel ordered y l -> HdRel ordered y (insert_sorted lt x l).
Proof.
  intros Hxy Hl. destruct l as [|z l]; cbn [insert_sorted].
  - by constructor.
  - destruct (lt x z); constructor; [exact Hxy | by inversion Hl].
Qed.

Lemma insert_sorted_Sorted (x : A) (l : list A) :
  Sorted ordered l -> Sorted ordered (insert_sorted lt x l).
Proof.
  induction 1 as [|y l Hl IH Hhd]; cbn [insert_sorted].
  - by repeat constructor.
  - destruct (lt x y) eqn:Hxy.
    + constructor; [by constructor|]. constructor. by apply lt_asym.
    + constructor; [exact IH|]. by apply insert_sorted_HdRel.
Qed.

Lemma fold_insert_Sorted (l acc : list A) :
  Sorted ordered acc ->
  Sorted ordered (fold_left (fun acc x => insert_sorted lt x acc) l acc).
Proof.
  revert acc. induction l as [|x l IH]; intros acc Hacc; cbn [fold_left];
    [exact Hacc|].
  by apply IH, insert_sorted_Sorted.
Qed.

Lemma stable_sort_Sorted (l : list A) :
  Sorted (fun a b => lt b a = false) (stable_sort lt l).
Proof. apply fold_insert_Sorted. constructor. Qed.

End InsertionSort.

Lemma Sorted_on {A} (R R' : A -> A -> Prop) (P : A -> Prop) (l : list A) :
  (forall a b, P a -> P b -> R a b -> R' a b) ->
  Forall P l -> Sorted R l -> Sorted R' l.
Proof.
  intros Himp HP Hs. induction Hs as [|a l Hs IH Hhd]; [constructor|].
  inversion HP as [|? ? Ha Hl]; subst. constructor; [by apply IH|].
  destruct Hhd as [|b l' Hab]; constructor.
  inversion Hl; subst. by apply Himp.
Qed.

Lemma Sorted_short {A} (R : A -> A -> Prop) (l : list A) :
  length l <= 1 -> Sorted R l.
Proof.
  destruct l as [|a [|b l]]; cbn; intros; [| |lia]; repeat constructor.
Qed.

(** ** [sorted] *)

Lemma py_sorted_perm (xs ys : list value) :
  py_sorted xs = Val ys -> Permutation xs ys.
Proof.
  unfold py_sorted. repeat case_match; intros [= <-]; try reflexivity;
    apply stable_sort_perm.
Qed.

Lemma as_int_num (v : value) (z : Z) : as_int v = Some z -> as_num v = Some (NInt z).
Proof. destruct v; cbn; intros [= <-]; reflexivity. Qed.

Lemma int_not_after (a b : value) :
  is_some (as_int a) = true -> is_some (as_int b) = true ->
  lt_by as_int Z.ltb b a = false -> not_after a b.
Proof.
  unfold not_after, lt_by, py_order.
  destruct (as_int a) as [x|] eqn:Ha; [|discriminate].
  destruct (as_int b) as [y|] eqn:Hb; [|discriminate].
  rewrite (as_int_num _ _ Ha), (as_int_num _ _ Hb). cbn. by intros _ _ ->.
Qed.

Lemma str_not_after (a b : value) :
  is_some (str_key a) = true -> is_some (str_key b) = true ->
  lt_by str_key (order_string OLt) b a = false -> not_after a b.
Proof.
  unfold not_after, lt_by.
  destruct a; try discriminate. destruct b; try discriminate. cbn.
  by intros _ _ ->.
Qed.

Lemma lt_by_asym {B} (key : value -> option B) (lt : B -> B -> bool) :
  (forall x y, lt x y = true -> lt y x = false) ->
  forall a b, lt_by key lt a b = true -> lt_by key lt b a = false.
Proof.
  intros Hlt a b. unfold lt_by. destruct (key a), (key b); auto.
Qed.

Lemma order_string_asym (s t : string) :
  order_string OLt s t = true -> order_string OLt t s = false.
Proof.
  unfold order_string. rewrite (String.compare_antisym s t).
  destruct (String.compare t s); cbn; congruence.
Qed.

Lemma Z_ltb_asym (x y : Z) : Z.ltb x y = true -> Z.ltb y x = false.
Proof. lia. Qed.

Lemma SFltb_asym (x y : spec_float) : SFltb x y = true -> SFltb y x = false.
Proof.
  unfold SFltb.
  destruct x as [[]|[]| |[] m1 e1], y as [[]|[]| |[] m2 e2]; cbn; try congruence.
  all: change (PosDef.Pos.compare_cont Eq m1 m2) with (Pos.compare m1 m2);
    change (PosDef.Pos.compare_cont Eq m2 m1) with (Pos.compare m2 m1);
    rewrite (Z.compare_antisym e1 e2), (Pos.compare_antisym m1 m2);
    destruct (e1 ?= e2)%Z; cbn; try congruence;
    destruct (m1 ?= m2)%positive; cbn; congruence.
Qed.

Lemma float_ltb_asym (x y : float) :
  PrimFloat.ltb x y = true -> PrimFloat.ltb y x = false.
Proof. rewrite !ltb_spec. apply SFltb_asym. Qed.

Lemma float_item_key (v : value) :
  match v with VFloat f => negb (is_nan f) | _ => false end = true ->
  exists f, v = VFloat f /\ float_key v = Some f.
Proof.
  destruct v as [| | |f| | | | | | | | | | | |]; try discriminate.
  intros Hnan. exists f. split; [reflexivity|].
  unfold float_key. cbn. by destruct (is_nan f).
Qed.

Lemma sort_lt_asym (x y : value) : sort_lt x y = true -> sort_lt y x = false.
Proof.
  unfold sort_lt, py_order.
  destruct (as_num x) as [[a|f]|] eqn:Hx, (as_num y) as [[b|g]|] eqn:Hy;
    try (destruct x; try discriminate Hx; destruct y; try discriminate Hy;
         try discriminate; cbn; apply order_string_asym).
  - cbn. lia.
  - cbn [to_float]. destruct (Chars.exact_float_range a); [|discriminate].
    cbn. apply float_ltb_asym.
  - cbn [to_float]. destruct (Chars.exact_float_range b); [|discriminate].
    cbn. apply float_ltb_asym.
  - cbn. apply float_ltb_asym.
Qed.

Lemma number_not_after (a b : value) :
  is_some (float_key a) = true -> is_some (float_key b) = true ->
  sort_lt b a = false -> not_after a b.
Proof.
  unfold not_after, sort_lt, float_key, py_order.
  destruct (as_num a) as [na|]; [|discriminate].
  destruct (as_num b) as [nb|]; [|discriminate].
  destruct (to_float na) as [fa|] eqn:Ha; [|discriminate].
  destruct (to_float nb) as [fb|] eqn:Hb; [|discriminate].
  intros _ _. destruct nb as [y|g], na as [x|f]; by intros ->.
Qed.

Lemma forallb_perm {A} (f : A -> bool) (l l' : list A) :
  Permutation l l' -> forallb f l = true -> Forall (fun a => f a = true) l'.
Proof.
  intros Hp Hf. rewrite <- Hp. apply List.Forall_forall.
  exact (proj1 (List.forallb_forall f l) Hf).
Qed.

Lemma strings_not_integers (xs : list value) :
  all_strings xs -> 1 < length xs ->
  forallb (fun v => is_some (as_int v)) xs = false
  /\ forallb (fun v => is_some (as_num v)) xs = false.
Proof.
  destruct xs as [|v xs]; cbn [length]; [lia|]. unfold all_strings. cbn [forallb].
  intros [Hv _]%andb_prop _. destruct v; try discriminate. split; reflexivity.
Qed.

Lemma py_sorted_integers (xs : list value) :
  all_integers xs -> exists ys, py_sorted xs = Val ys /\ Sorted not_after ys.
Proof.
  intros Hint. unfold py_sorted. destruct (length xs <=? 1) eqn:Hlen.
  - eexists; split; [reflexivity|]. apply Sorted_short. by apply Nat.leb_le.
  - rewrite Hint. eexists; split; [reflexivity|].
    eapply Sorted_on; [apply int_not_after| |].
    + eapply forallb_perm; [apply stable_sort_perm | exact Hint].
    + apply stable_sort_Sorted, lt_by_asym, Z_ltb_asym.
Qed.

Lemma floats_numbers (xs : list value) :
  all_floats xs ->
  forallb (fun v => is_some (as_num v)) xs = true
  /\ forallb (fun v => is_some (float_key v)) xs = true.
Proof.
  unfold all_floats. induction xs as [|v xs IH]; cbn [forallb]; [done|].
  intros [Hv Hxs]%andb_prop. destruct (IH Hxs) as [-> ->].
  destruct (float_item_key v Hv) as (f & -> & ->). done.
Qed.

Lemma floats_not_integers (xs : list value) :
  all_floats xs -> 1 < length xs ->
  forallb (fun v => is_some (as_int v)) xs = false.
Proof.
  destruct xs as [|v xs]; cbn [length]; [lia|]. unfold all_floats. cbn [forallb].
  intros [Hv _]%andb_prop _. by destruct (float_item_key v Hv) as (f & -> & _).
Qed.

Lemma numbers_are_numbers (xs : list value) :
  all_numbers xs -> forallb (fun v => is_some (as_num v)) xs = true.
Proof.
  unfold all_numbers. induction xs as [|v xs IH]; cbn [forallb]; [done|].
  intros [Hv Hxs]%andb_prop. rewrite (IH Hxs), andb_true_r.
  unfold float_key in Hv. by destruct (as_num v).
Qed.

(** Whatever [sorted] returns is in the order of the host's [<]. *)
Lemma py_sorted_sorted (xs ys : list value) :
  py_sorted xs = Val ys -> Sorted not_after ys.
Proof.
  unfold py_sorted. destruct (length xs <=? 1) eqn:Hlen.
  { intros [= <-]. apply Sorted_short. by apply Nat.leb_le. }
  destruct (forallb (fun v => is_some (as_int v)) xs) eqn:Hint.
  { intros [= <-]. eapply Sorted_on; [apply int_not_after| |].
    - eapply forallb_perm; [apply stable_sort_perm | exact Hint].
    - apply stable_sort_Sorted, lt_by_asym, Z_ltb_asym. }
  destruct (forallb (fun v => is_some (as_num v)) xs) eqn:Hnum.
  { destruct (forallb (fun v => is_some (float_key v)) xs) eqn:Hkey; [|discriminate].
    intros [= <-]. eapply Sorted_on; [apply number_not_after| |].
    - eapply forallb_perm; [apply stable_sort_perm | exact Hkey].
    - apply stable_sort_Sorted, sort_lt_asym. }
  destruct (forallb (fun v => is_some (str_key v)) xs) eqn:Hstr.
  { intros [= <-]. eapply Sorted_on; [apply str_not_after| |].
    - eapply forallb_perm; [apply stable_sort_perm | exact Hstr].
    - apply stable_sort_Sorted, lt_by_asym, order_string_asym. }
  destruct (forallb is_sequence xs); discriminate.
Qed.

Lemma py_sorted_numbers (xs : list value) :
  all_numbers xs -> exists ys, py_sorted xs = Val ys /\ Sorted not_after ys.
Proof.
  intros Hnum.
  assert (exists ys, py_sorted xs = Val ys) as [ys Hys].
  { unfold py_sorted. destruct (length xs <=? 1); [by eexists|].
    destruct (forallb (fun v => is_some (as_int v)) xs); [by eexists|].
    rewrite (numbers_are_numbers xs Hnum), Hnum. by eexists. }
  exists ys. split; [exact Hys|]. by apply py_sorted_sorted in Hys.
Qed.

Lemma py_sorted_floats (xs : list value) :
  all_floats xs -> exists ys, py_sorted xs = Val ys /\ Sorted not_after ys.
Proof.
  intros Hfl. apply py_sorted_numbers. by destruct (floats_numbers xs Hfl).
Qed.

Lemma py_sorted_strings (xs : list value) :
  all_strings xs -> exists ys, py_sorted xs = Val ys /\ Sorted not_after ys.
Proof.
  intros Hstr. unfold py_sorted. destruct (length xs <=? 1) eqn:Hlen.
  - eexists; split; [reflexivity|]. apply Sorted_short. by apply Nat.leb_le.
  - apply Nat.leb_gt in Hlen.
    destruct (strings_not_integers xs Hstr Hlen) as [-> ->]. rewrite Hstr.
    eexists; split; [reflexivity|].
    eapply Sorted_on; [apply str_not_after| |].
    + eapply forallb_perm; [apply stable_sort_perm | exact Hstr].
    + apply stable_sort_Sorted, lt_by_asym, order_string_asym.
Qed.

(** ** The three methods *)

(** ** The three methods *)

Lemma set_host_same (s : state) : set_host (host s) s = s.
Proof. by destruct s. Qed.

Lemma lift_new_list (ys : list value) (s : state) :
  lift (new_list ys) s =
    (Val (VList (length (heap (host s)))),
     with_heap (heap (host s) ++ [OList ys]) s).
Proof. reflexivity. Qed.

(** A call of a method of the receiver's table with the arguments
    evaluated. *)
Lemma evaluate_list_method (fuel : nat) (obj : expr) (method : string)
    (args : list expr) (s s1 s2 : state) (l : loc) (vs : list value)
    (r : H value) :
  evaluate fuel obj s = (Val (VList l), s1) ->
  evaluate_all (evaluate fuel) args s1 = (Val vs, s2) ->
  list_method l method vs = Some r ->
  evaluate (S fuel) (MethodCall obj method args) s = lift r s2.
Proof.
  intros Hobj Hargs Hm. cbn [evaluate evaluate_node].
  unfold evaluate_MethodCall, bind at 1. rewrite Hobj.
  unfold bind at 1. rewrite Hargs. by rewrite Hm.
Qed.

Lemma heap_kept (h : list obj) (l : loc) (o o' : obj) :
  h !! l = Some o -> l <> length h /\ (h ++ [o']) !! l = Some o.
Proof.
  intros Hl. pose proof (lookup_lt_Some _ _ _ Hl). split; [lia|].
  by rewrite lookup_app_l.
Qed.

(** C9. With the receiver evaluated to the list object [l] holding
    [xs]: [reverse] gives a new list object holding [rev xs]; [sort]
    gives, whenever the host orders the items, a new list object
    holding a permutation [ys] of [xs] that is in the order of the
    host's [<], which is the case for lists of integers, of floats, of
    strings and of numbers of mixed kinds, and raises what the host
    raises otherwise; in each case [l] still holds [xs]. [append]
    stores the item at the end of [l] itself and gives [l] back. *)
Theorem C9_list_methods (fuel : nat) (obj : expr) (s s1 : state) (l : loc)
    (xs : list value) :
  evaluate fuel obj s = (Val (VList l), s1) ->
  heap (host s1) !! l = Some (OList xs) ->
  let h := heap (host s1) in
  (evaluate (S fuel) (MethodCall obj "reverse" []) s =
     (Val (VList (length h)), with_heap (h ++ [OList (rev xs)]) s1)
   /\ l <> length h
   /\ (h ++ [OList (rev xs)]) !! l = Some (OList xs))
  /\ (forall ys, py_sorted xs = Val ys ->
      evaluate (S fuel) (MethodCall obj "sort" []) s =
        (Val (VList (length h)), with_heap (h ++ [OList ys]) s1)
      /\ (h ++ [OList ys]) !! l = Some (OList xs)
      /\ Permutation xs ys
      /\ Sorted not_after ys)
  /\ (all_integers xs \/ all_floats xs \/ all_strings xs \/ all_numbers xs ->
      exists ys, py_sorted xs = Val ys /\ Sorted not_after ys)
  /\ (forall e, py_sorted xs = Raise e ->
      evaluate (S fuel) (MethodCall obj "sort" []) s = (Raise e, s1))
  /\ (forall arg x s2 xs2,
      evaluate fuel arg s1 = (Val x, s2) ->
      heap (host s2) !! l = Some (OList xs2) ->
      evaluate (S fuel) (MethodCall obj "append" [arg]) s =
        (Val (VList l), with_heap (<[l:=OList (xs2 ++ [x])]> (heap (host s2))) s2)).
Proof.
  intros Hobj Hl h.
  assert (Hget : get_list l (host s1) = (Val xs, host s1)).
  { unfold get_list, hbind, get_obj. by rewrite Hl. }
  split; [split; [|split]|split; [|split; [|split]]].
  - rewrite (evaluate_list_method fuel obj "reverse" [] s s1 s1 l []
               (hbind (get_list l) (fun xs => new_list (rev xs))) Hobj);
      [|reflexivity|reflexivity].
    unfold lift, hbind. rewrite Hget. reflexivity.
  - exact (proj1 (heap_kept h l _ (OList (rev xs)) Hl)).
  - exact (proj2 (heap_kept h l _ (OList (rev xs)) Hl)).
  - intros ys Hys. split; [|split; [|split]].
    + rewrite (evaluate_list_method fuel obj "sort" [] s s1 s1 l []
                 (hbind (get_list l) (fun xs =>
                    hbind (of_outcome (py_sorted xs)) new_list)) Hobj);
        [|reflexivity|reflexivity].
      unfold lift, hbind. rewrite Hget. unfold of_outcome. rewrite Hys. reflexivity.
    + exact (proj2 (heap_kept h l _ (OList ys) Hl)).
    + by apply py_sorted_perm.
    + by apply py_sorted_sorted in Hys.
  - intros [Hint | [Hfl | [Hstr | Hnum]]];
      [by apply py_sorted_integers | by apply py_sorted_floats
      | by apply py_sorted_strings | by apply py_sorted_numbers].
  - intros e He.
    rewrite (evaluate_list_method fuel obj "sort" [] s s1 s1 l []
               (hbind (get_list l) (fun xs =>
                  hbind (of_outcome (py_sorted xs)) new_list)) Hobj);
      [|reflexivity|reflexivity].
    unfold lift, hbind. rewrite Hget. unfold of_outcome. rewrite He.
    by rewrite set_host_same.
  - intros arg x s2 xs2 Harg Hl2.
    rewrite (evaluate_list_method fuel obj "append" [arg] s s1 s2 l [x]
               (hbind (list_append l x) (fun _ => hret (VList l))) Hobj);
      [| |reflexivity].
    + unfold lift, hbind, list_append, hbind, get_list, hbind, get_obj.
      rewrite Hl2. reflexivity.
    + cbn [evaluate_all]. unfold bind. rewrite Harg. reflexivity.
Qed.

Lemma C9_list_methods_witness :
  evaluate 3 (MethodCall numbers "sort" []) init =
    (Val (VList 1),
     with_heap (heap (host numbers_state) ++ [OList [VInt 1; VInt 2; VInt 3]])
       numbers_state)
  /\ heap (host numbers_state) !! 0 = Some (OList [VInt 3; VInt 1; VInt 2]).
Proof.
  split.
  - apply (C9_list_methods 2 numbers init numbers_state 0
             [VInt 3; VInt 1; VInt 2]).
    + vm_compute. reflexivity.
    + vm_compute. reflexivity.
    + vm_compute. reflexivity.
  - vm_compute. reflexivity.
Defined.

(** Numbers of mixed kinds are put in order: [[2, 1.5, true]] gives
    [[true, 1.5, 2]]. *)
Example sort_of_mixed_numbers :
  all_numbers mixed_numbers
  /\ py_sorted mixed_numbers = Val [VBool true; VFloat 1.5; VInt 2].
Proof. split; vm_compute; reflexivity. Qed.

(** The sort of a list whose items the host does not order ends in the
    host's TypeError and gives no list. *)
Lemma C9_sort_of_mixed_list_raises :
  run_interpreter 10 mixed_sort = (Raise TypeError, "").
Proof. vm_compute. reflexivity. Qed.

End ListProofs.

(** ** Events *)

Module EventProofs.
Import Ast Py Interp EventSpec.

Lemma append_assoc (a b c : string) : (a +:+ b) +:+ c = a +:+ (b +:+ c).
Proof.
  induction a as [|x a IH]; [reflexivity|].
  change (String x ((a +:+ b) +:+ c) = String x (a +:+ (b +:+ c))). by rewrite IH.
Qed.

Lemma join_comma_separated (parts : list string) :
  join ", " parts = comma_separated parts.
Proof.
  induction parts as [|part [|part' rest] IH]; [reflexivity|reflexivity|].
  change (part +:+ ", " +:+ join ", " (part' :: rest)
          = part +:+ ", " +:+ comma_separated (part' :: rest)).
  by rewrite IH.
Qed.

Lemma displayed_repr_args (w : world) (vs : list value) (texts : list string) :
  displayed w vs texts ->
  repr_args (heap w) vs = Some ("[" +:+ comma_separated texts +:+ "]").
Proof.
  intros Hd. unfold repr_args.
  assert (option_map_all (py_repr_opt (heap w)) vs = Some texts) as ->.
  { induction Hd as [|v text vs texts Hv Hd IH]; cbn [option_map_all];
      [reflexivity|]. by rewrite Hv, IH. }
  by rewrite join_comma_separated.
Qed.

Lemma event_line_output (E : string) (texts : list string) :
  event_line E ("[" +:+ comma_separated texts +:+ "]") = event_output E texts.
Proof.
  unfold event_line, event_output. f_equal. f_equal.
  change (": " +:+ (("[" +:+ (comma_separated texts +:+ "]")) +:+ String Chars.nl ""))
    with (": [" +:+ ((comma_separated texts +:+ "]") +:+ String Chars.nl "")).
  by rewrite append_assoc.
Qed.

Lemma execute_EmitStatement_emitted (evaluate : expr -> M value) (E : string)
    (args : list expr) (s s1 : state) (vs : list value) (texts : list string) :
  evaluate_all evaluate args s = (Val vs, s1) ->
  displayed (host s1) vs texts ->
  execute_EmitStatement evaluate E args s =
    (Val VNone,
     emitted E (match events s1 !! E with Some l => l | None => [] end ++ [vs])
       (event_output E texts) s1).
Proof.
  intros Hargs Hrepr%displayed_repr_args.
  unfold execute_EmitStatement, bind at 1. rewrite Hargs.
  unfold bind, log_event, lift, of_heap, write, ret. cbn. rewrite Hrepr.
  by rewrite event_line_output.
Qed.

(** C10. When the arguments of [emit E(...)] evaluate to [vs], whose
    displays are [texts], the statement completes with none whether or
    not an entry for [E] exists: without one the log of [E] becomes the
    one-item list [[vs]], with one [vs] is appended to it, and in both
    cases the same line is printed: [[EVENT] E: ] followed by the
    displays between brackets, separated by commas, and a newline. *)
Theorem C10_emit_without_declaration (fuel : nat) (E : string) (args : list expr)
    (s s1 : state) (vs : list value) (texts : list string) :
  evaluate_all (evaluate fuel) args s = (Val vs, s1) ->
  displayed (host s1) vs texts ->
  (events s1 !! E = None ->
   execute (S fuel) (EmitStatement E args) s =
     (Val VNone, emitted E [vs] (event_output E texts) s1))
  /\ (forall log, events s1 !! E = Some log ->
      execute (S fuel) (EmitStatement E args) s =
        (Val VNone, emitted E (log ++ [vs]) (event_output E texts) s1)).
Proof.
  intros Hargs Hrepr.
  pose proof (execute_EmitStatement_emitted (evaluate fuel) E args s s1 vs texts
                Hargs Hrepr) as Hemit.
  split; [intros Hnone | intros log Hsome];
    cbn [execute execute_node]; rewrite Hemit; [rewrite Hnone | rewrite Hsome];
    reflexivity.
Qed.

Lemma C10_emit_without_declaration_witness :
  execute 3 (EmitStatement "Transfer" emit_arguments) init =
    (Val VNone,
     emitted "Transfer" [emit_values]
       ("[EVENT] Transfer: ['a', 5]" +:+ String Chars.nl "") init).
Proof.
  apply (C10_emit_without_declaration 2 "Transfer" emit_arguments init init
           emit_values ["'a'"; "5"]).
  - vm_compute. reflexivity.
  - repeat constructor.
  - vm_compute. reflexivity.
Defined.

(** The line and the log are those of the declared event. *)
Example emit_alone_and_declared :
  snd (run_interpreter 10 emit_alone) = snd (run_interpreter 10 emit_declared)
  /\ snd (run_interpreter 10 emit_alone)
     = "[EVENT] Transfer: ['a', 5]" +:+ String Chars.nl ""
  /\ events (snd (run 10 emit_alone init)) !! "Transfer" = Some [emit_values]
  /\ events (snd (run 10 emit_declared init)) !! "Transfer" = Some [emit_values].
Proof. repeat split; vm_compute; reflexivity. Qed.

End EventProofs.

(** ** Environments *)

Module EnvProofs.
Import Ast Py Interp EnvSpec.

(** Replacing a scope by one with the same parent and the same binding
    of [name] does not change what [name] resolves to, from any
    scope. *)
Lemma env_get_insert_same (name : string) (es : list Environment) (e : env_id)
    (E E' : Environment) :
  es !! e = Some E ->
  variables E' !! name = variables E !! name ->
  parent E' = parent E ->
  forall n e0, env_get n (<[e:=E']> es) e0 name = env_get n es e0 name.
Proof.
  intros HE Hv Hp. induction n as [|n IH]; intros e0; cbn [env_get]; [reflexivity|].
  destruct (decide (e0 = e)) as [->|Hne].
  - rewrite list_lookup_insert_eq by (by eapply lookup_lt_Some). rewrite HE, Hv, Hp.
    destruct (variables E !! name); [reflexivity|].
    destruct (parent E); [apply IH|reflexivity].
  - rewrite list_lookup_insert_ne by congruence.
    destruct (es !! e0) as [E0|]; [|reflexivity].
    destruct (variables E0 !! name); [reflexivity|].
    destruct (parent E0); [apply IH|reflexivity].
Qed.

Lemma get_set_envs (name : string) (es : list Environment) (s : state) :
  get name (set_envs es s) = (env_get (length es) es (current_env s) name, set_envs es s).
Proof. reflexivity. Qed.

(** X1. After [define], [get] of the name gives the value just
    defined, whatever the enclosing scopes bind, and every other name
    resolves as before. *)
Theorem define_then_get (name : string) (v : value) (is_const : bool)
    (s s' : state) :
  define name v is_const s = (Val tt, s') ->
  get name s' = (Val v, s')
  /\ forall other, other <> name -> get other s' = (fst (get other s), s').
Proof.
  unfold define, env_define. destruct (envs s !! current_env s) as [E|] eqn:HE;
    [|discriminate]. intros [= <-].
  pose proof (lookup_lt_Some _ _ _ HE) as Hlt. split.
  - rewrite get_set_envs. rewrite length_insert.
    destruct (length (envs s)) as [|n] eqn:Hn; [lia|]. cbn [env_get].
    rewrite list_lookup_insert_eq by lia. cbn [variables define_in].
    by rewrite lookup_insert_eq.
  - intros other Hne. rewrite get_set_envs, length_insert. cbn [get fst].
    f_equal. apply (env_get_insert_same other _ _ E); [exact HE| |reflexivity].
    cbn [variables define_in]. by rewrite lookup_insert_ne.
Qed.

Lemma define_then_get_witness :
  get "y" (snd (define "y" (VInt 2) false one_variable)) =
    (Val (VInt 2), snd (define "y" (VInt 2) false one_variable))
  /\ get "x" (snd (define "y" (VInt 2) false one_variable)) =
       (Val (VInt 1), snd (define "y" (VInt 2) false one_variable)).
Proof.
  destruct (define_then_get "y" (VInt 2) false one_variable
              (snd (define "y" (VInt 2) false one_variable))) as [Hy Hx].
  - vm_compute. reflexivity.
  - split; [exact Hy|]. rewrite (Hx "x") by discriminate. vm_compute. reflexivity.
Defined.

(** What a successful [assign] did: one scope on the chain, which
    bound the name and did not mark it constant, has the new value. *)
Lemma env_assign_val (name : string) (v : value) :
  forall n e s s',
    env_assign n e name v s = (Val tt, s') ->
    exists t E,
      envs s !! t = Some E
      /\ is_Some (variables E !! name)
      /\ (name ∉ constants E)
      /\ s' = set_envs (<[t:={| variables := <[name:=v]> (variables E);
                                constants := constants E;
                                parent := parent E |}]> (envs s)) s
      /\ env_get n (envs s') e name = Val v.
Proof.
  induction n as [|n IH]; intros e s s' H; cbn [env_assign] in H; [discriminate|].
  destruct (envs s !! e) as [E|] eqn:HE; [|discriminate].
  destruct (variables E !! name) as [old|] eqn:Hold.
  - destruct (decide (name ∈ constants E)) as [Hc|Hc]; [discriminate|].
    injection H as <-. exists e, E. repeat split; auto.
    cbn [env_get envs set_envs].
    rewrite list_lookup_insert_eq by (by eapply lookup_lt_Some). cbn [variables].
    by rewrite lookup_insert_eq.
  - destruct (parent E) as [p|] eqn:Hp; [|discriminate].
    destruct (IH p s s' H) as (t & Et & Ht & Hb & Hnc & -> & Hget).
    exists t, Et. repeat split; auto.
    cbn [env_get envs set_envs] in *.
    assert (t <> e) as Hte.
    { intros ->. rewrite HE in Ht. injection Ht as <-. rewrite Hold in Hb.
      by destruct Hb. }
    rewrite list_lookup_insert_ne by exact Hte. by rewrite HE, Hold, Hp.
Qed.

(** X2. After a successful [assign], [get] of the name gives the new
    value, every other name resolves as before, and no scope has
    gained or lost a name or a constant mark. *)
Theorem assign_then_get (name : string) (v : value) (s s' : state) :
  assign name v s = (Val tt, s') ->
  get name s' = (Val v, s')
  /\ (forall other, other <> name -> get other s' = (fst (get other s), s'))
  /\ current_env s' = current_env s
  /\ length (envs s') = length (envs s)
  /\ forall e E, envs s !! e = Some E ->
       exists E', envs s' !! e = Some E'
                  /\ dom (variables E') = dom (variables E)
                  /\ constants E' = constants E
                  /\ parent E' = parent E.
Proof.
  unfold assign. intros H.
  destruct (env_assign_val name v _ _ _ _ H) as (t & Et & Ht & Hb & Hnc & -> & Hget).
  split; [|split; [|split; [|split]]].
  - rewrite get_set_envs, length_insert. cbn [envs set_envs] in Hget.
    by rewrite Hget.
  - intros other Hne. rewrite get_set_envs, length_insert. cbn [get fst]. f_equal.
    apply (env_get_insert_same other _ _ Et); [exact Ht| |reflexivity].
    cbn [variables]. by rewrite lookup_insert_ne.
  - reflexivity.
  - cbn [envs set_envs]. by rewrite length_insert.
  - intros e E HE. cbn [envs set_envs]. destruct (decide (e = t)) as [->|Hne].
    + rewrite list_lookup_insert_eq by (by eapply lookup_lt_Some).
      rewrite Ht in HE. injection HE as <-. eexists; split; [reflexivity|].
      cbn [variables constants parent]. repeat split.
      rewrite dom_insert_L. destruct Hb as [old Hold].
      apply elem_of_dom_2 in Hold. set_solver.
    + rewrite list_lookup_insert_ne by congruence. by exists E.
Qed.

Lemma assign_then_get_witness :
  get "x" (snd (assign "x" (VInt 5) one_variable)) =
    (Val (VInt 5), snd (assign "x" (VInt 5) one_variable))
  /\ get "print" (snd (assign "x" (VInt 5) one_variable)) =
       (Val (VBuiltin b_print), snd (assign "x" (VInt 5) one_variable)).
Proof.
  destruct (assign_then_get "x" (VInt 5) one_variable
              (snd (assign "x" (VInt 5) one_variable))) as (Hx & Hother & _).
  - vm_compute. reflexivity.
  - split; [exact Hx|]. rewrite (Hother "print") by discriminate.
    vm_compute. reflexivity.
Defined.

Lemma env_exists_get_assign (name : string) (s : state) :
  forall n e b,
    env_exists n (envs s) e name = Some b ->
    if b then exists v, env_get n (envs s) e name = Val v
    else env_get n (envs s) e name = Raise (undefined_variable name)
         /\ forall v, env_assign n e name v s = (Raise (undefined_variable name), s).
Proof.
  induction n as [|n IH]; intros e b H; cbn [env_exists] in H; [discriminate|].
  cbn [env_get env_assign].
  destruct (envs s !! e) as [E|]; [|discriminate].
  destruct (variables E !! name) as [old|].
  - injection H as <-. by exists old.
  - destruct (parent E) as [p|]; [by apply IH|]. by injection H as <-.
Qed.

(** X3. [exists], [get] and [assign] agree on what is bound: where
    [exists] is false, [get] and [assign] raise "Undefined variable"
    and [assign] changes nothing; where it is true, [get] gives a
    value. *)
Theorem exists_agrees_with_get_and_assign (name : string) (s : state) (b : bool) :
  exists_ name s = (Val b, s) ->
  if b then exists v, get name s = (Val v, s)
  else get name s = (Raise (undefined_variable name), s)
       /\ forall v, assign name v s = (Raise (undefined_variable name), s).
Proof.
  unfold exists_, get, assign.
  destruct (env_exists _ _ _ _) as [b'|] eqn:Hex; [|discriminate]. intros [= <-].
  pose proof (env_exists_get_assign name s _ _ _ Hex) as H. destruct b'.
  - destruct H as [v ->]. by exists v.
  - destruct H as [-> Ha]. split; [reflexivity|]. exact Ha.
Qed.

Lemma exists_agrees_with_get_and_assign_witness :
  get "nowhere" one_variable = (Raise (undefined_variable "nowhere"), one_variable)
  /\ forall v, assign "nowhere" v one_variable =
                 (Raise (undefined_variable "nowhere"), one_variable).
Proof.
  apply (exists_agrees_with_get_and_assign "nowhere" one_variable false).
  vm_compute. reflexivity.
Defined.

(** X4. [define] does not look at the constant marks: declaring a name
    again in the scope where it is a constant succeeds and replaces the
    value, and the name stays a constant, so that an assignment to it
    still fails. *)
Theorem declaration_over_constant (name : string) (v : value) (is_const : bool)
    (s : state) (E : Environment) :
  envs s !! current_env s = Some E ->
  name ∈ constants E ->
  exists s',
    define name v is_const s = (Val tt, s')
    /\ get name s' = (Val v, s')
    /\ forall w, assign name w s' = (Raise (cannot_reassign name), s').
Proof.
  intros HE Hc. pose proof (lookup_lt_Some _ _ _ HE) as Hlt.
  eexists. split; [unfold define, env_define; rewrite HE; reflexivity|].
  split.
  - rewrite get_set_envs, length_insert.
    destruct (length (envs s)) as [|n] eqn:Hn; [lia|]. cbn [env_get].
    rewrite list_lookup_insert_eq by lia. cbn [variables define_in].
    by rewrite lookup_insert_eq.
  - intros w. unfold assign. cbn [envs set_envs current_env]. rewrite length_insert.
    destruct (length (envs s)) as [|n] eqn:Hn; [lia|]. cbn [env_assign envs set_envs].
    rewrite list_lookup_insert_eq by lia. cbn [variables define_in constants].
    rewrite lookup_insert_eq. rewrite decide_True; [reflexivity|].
    destruct is_const; set_solver.
Qed.

Lemma declaration_over_constant_witness :
  get "K" redeclared_state = (Val (VInt 4), redeclared_state)
  /\ assign "K" (VInt 5) redeclared_state =
       (Raise (cannot_reassign "K"), redeclared_state).
Proof.
  destruct (declaration_over_constant "K" (VInt 4) false
              (snd (execute 3 (VariableDeclaration "K" None (Some (IntegerLiteral 3)) true)
                      init))
              {| variables := <["K":=VInt 3]> (variables
                   (default {| variables := ∅; constants := ∅; parent := None |}
                      (envs init !! 0)));
                 constants := {["K"]};
                 parent := None |})
    as (s' & Hdef & Hget & Hassign).
  - vm_compute. reflexivity.
  - set_solver.
  - assert (s' = redeclared_state) as ->.
    { vm_compute in Hdef. injection Hdef as <-. vm_compute. reflexivity. }
    split; [exact Hget | exact (Hassign (VInt 5))].
Defined.

End EnvProofs.

(** ** Index and member access *)

Module CollectionProofs.
Import Ast Py Interp ListSpec CollectionSpec.

Lemma set_host_id (s : state) : set_host (host s) s = s.
Proof. by destruct s. Qed.

Lemma get_list_at (w : world) (l : loc) (xs : list value) :
  heap w !! l = Some (OList xs) -> get_list l w = (Val xs, w).
Proof. intros H. unfold get_list, hbind, get_obj. by rewrite H. Qed.

Lemma get_dict_at (w : world) (l : loc) (kvs : list (value * value)) :
  heap w !! l = Some (ODict kvs) -> get_dict l w = (Val kvs, w).
Proof. intros H. unfold get_dict, hbind, get_obj. by rewrite H. Qed.

Lemma evaluate_fuel_pos (fuel : nat) (e : expr) (s s' : state) (v : value) :
  evaluate fuel e s = (Val v, s') -> exists f, fuel = S f.
Proof. destruct fuel; [discriminate|]. by eexists. Qed.

Lemma norm_index_nonneg (len : nat) (i : Z) :
  (0 <= i < Z.of_nat len)%Z -> norm_index len i = Some (Z.to_nat i).
Proof.
  intros H. unfold norm_index.
  destruct (Z.ltb_spec i 0); [lia|].
  destruct (Z.leb_spec 0 i); [|lia]. destruct (Z.ltb_spec i (Z.of_nat len)); [|lia].
  reflexivity.
Qed.

Lemma norm_index_neg (len : nat) (i : Z) :
  (- Z.of_nat len <= i < 0)%Z -> norm_index len i = Some (Z.to_nat (i + Z.of_nat len)).
Proof.
  intros H. unfold norm_index.
  destruct (Z.ltb_spec i 0); [|lia].
  destruct (Z.leb_spec 0 (i + Z.of_nat len)); [|lia].
  destruct (Z.ltb_spec (i + Z.of_nat len) (Z.of_nat len)); [|lia].
  reflexivity.
Qed.

Lemma norm_index_out (len : nat) (i : Z) :
  (i < - Z.of_nat len \/ Z.of_nat len <= i)%Z -> norm_index len i = None.
Proof.
  intros H. unfold norm_index.
  destruct (Z.ltb_spec i 0).
  - destruct (Z.leb_spec 0 (i + Z.of_nat len)); [lia|]. reflexivity.
  - destruct (Z.leb_spec 0 i); [|lia].
    destruct (Z.ltb_spec i (Z.of_nat len)); [lia|]. reflexivity.
Qed.

Lemma norm_index_lt (len : nat) (i : Z) (j : nat) :
  norm_index len i = Some j -> j < len.
Proof.
  unfold norm_index.
  destruct (Z.ltb_spec i 0);
    match goal with |- context [(0 <=? ?a)%Z && (?a <? ?b)%Z] =>
      destruct (Z.leb_spec 0 a); destruct (Z.ltb_spec a b) end;
    cbn; intros [= <-]; lia.
Qed.

Lemma evaluate_IndexAccess_list (fuel : nat) (obj idx : expr) (s s1 s2 : state)
    (l : loc) (xs : list value) (i : Z) :
  evaluate fuel obj s = (Val (VList l), s1) ->
  evaluate fuel idx s1 = (Val (VInt i), s2) ->
  heap (host s2) !! l = Some (OList xs) ->
  evaluate (S fuel) (IndexAccess obj idx) s =
    (match norm_index (length xs) i with
     | Some j => match xs !! j with Some v => Val v | None => Unmodelled end
     | None => Raise IndexError
     end, s2).
Proof.
  intros Hobj Hidx Hl. cbn [evaluate evaluate_node].
  unfold evaluate_IndexAccess, bind at 1. rewrite Hobj.
  unfold bind at 1. rewrite Hidx.
  unfold lift, py_getitem, hbind. rewrite (get_list_at _ _ _ Hl). cbn [as_int].
  destruct (norm_index (length xs) i) as [j|]; cbn.
  - destruct (xs !! j); cbn; by rewrite set_host_id.
  - by rewrite set_host_id.
Qed.

(** X5. Indexing a list of [n] items by the integer [i]: the item at
    [i] when [0 <= i < n], the item at [i + n] when [-n <= i < 0], and
    otherwise the host's IndexError, which the evaluator does not turn
    into a runtime failure of its own; the state is that after the
    index was evaluated. *)
Theorem list_index_bounds (fuel : nat) (obj idx : expr) (s s1 s2 : state)
    (l : loc) (xs : list value) (i : Z) :
  evaluate fuel obj s = (Val (VList l), s1) ->
  evaluate fuel idx s1 = (Val (VInt i), s2) ->
  heap (host s2) !! l = Some (OList xs) ->
  let n := Z.of_nat (length xs) in
  ((0 <= i < n)%Z ->
     exists v, xs !! Z.to_nat i = Some v
               /\ evaluate (S fuel) (IndexAccess obj idx) s = (Val v, s2))
  /\ ((- n <= i < 0)%Z ->
     exists v, xs !! Z.to_nat (i + n) = Some v
               /\ evaluate (S fuel) (IndexAccess obj idx) s = (Val v, s2))
  /\ ((i < - n \/ n <= i)%Z ->
     evaluate (S fuel) (IndexAccess obj idx) s = (Raise IndexError, s2)).
Proof.
  intros Hobj Hidx Hl n.
  rewrite (evaluate_IndexAccess_list fuel obj idx s s1 s2 l xs i Hobj Hidx Hl).
  subst n. split; [|split]; intros Hi.
  - rewrite (norm_index_nonneg _ _ Hi).
    destruct (lookup_lt_is_Some_2 xs (Z.to_nat i)) as [v Hv]; [lia|].
    exists v. by rewrite Hv.
  - rewrite (norm_index_neg _ _ Hi).
    destruct (lookup_lt_is_Some_2 xs (Z.to_nat (i + Z.of_nat (length xs))))
      as [v Hv]; [lia|].
    exists v. by rewrite Hv.
  - by rewrite (norm_index_out _ _ Hi).
Qed.

Lemma list_index_bounds_witness :
  evaluate 3 (IndexAccess (Identifier "l") (IntegerLiteral 3)) list_state =
    (Raise IndexError, list_state).
Proof.
  refine (proj2 (proj2 (list_index_bounds 2 (Identifier "l") (IntegerLiteral 3)
                          list_state list_state list_state 0 three_items 3 _ _ _)) _).
  - vm_compute. reflexivity.
  - vm_compute. reflexivity.
  - vm_compute. reflexivity.
  - right. vm_compute. discriminate.
Defined.

(** X6. [obj[idx] = rhs] on a list evaluates the right-hand side
    first, then the list and the index; in range it replaces that one
    item of the list object in place and gives the right-hand value;
    out of range it ends in the host's IndexError with the list as it
    was. *)
Theorem list_index_assignment (fuel : nat) (obj idx rhs : expr)
    (s s0 s1 s2 : state) (l : loc) (xs : list value) (i : Z) (v : value) :
  evaluate fuel rhs s = (Val v, s0) ->
  evaluate fuel obj s0 = (Val (VList l), s1) ->
  evaluate fuel idx s1 = (Val (VInt i), s2) ->
  heap (host s2) !! l = Some (OList xs) ->
  let n := Z.of_nat (length xs) in
  (forall j, norm_index (length xs) i = Some j ->
     execute (S fuel) (Assignment (IndexAccess obj idx) "=" rhs) s =
       (Val v, with_heap (<[l:=OList (<[j:=v]> xs)]> (heap (host s2))) s2)
     /\ <[j:=v]> xs !! j = Some v
     /\ forall k, k <> j -> <[j:=v]> xs !! k = xs !! k)
  /\ ((i < - n \/ n <= i)%Z ->
     execute (S fuel) (Assignment (IndexAccess obj idx) "=" rhs) s =
       (Raise IndexError, s2)).
Proof.
  intros Hrhs Hobj Hidx Hl n.
  assert (Hexec : execute (S fuel) (Assignment (IndexAccess obj idx) "=" rhs) s =
            match norm_index (length xs) i with
            | Some j => (Val v, with_heap (<[l:=OList (<[j:=v]> xs)]> (heap (host s2))) s2)
            | None => (Raise IndexError, s2)
            end).
  { cbn [execute execute_node]. unfold execute_Assignment, bind at 1. rewrite Hrhs.
    unfold bind at 1. rewrite Hobj. unfold bind at 1. rewrite Hidx.
    cbn [String.eqb Ascii.eqb Bool.eqb].
    unfold bind, lift, py_setitem, hbind. rewrite (get_list_at _ _ _ Hl). cbn [as_int].
    destruct (norm_index (length xs) i) as [j|]; cbn; [reflexivity|].
    by rewrite set_host_id. }
  split.
  - intros j Hj. rewrite Hexec, Hj. split; [reflexivity|].
    pose proof (norm_index_lt _ _ _ Hj). split.
    + by apply list_lookup_insert_eq.
    + intros k Hk. by apply list_lookup_insert_ne.
  - intros Hi. subst n. by rewrite Hexec, (norm_index_out _ _ Hi).
Qed.

Lemma list_index_assignment_witness :
  execute 3 (Assignment (IndexAccess (Identifier "l") (IntegerLiteral (-1))) "="
               (IntegerLiteral 7)) list_state =
    (Val (VInt 7),
     with_heap (<[0:=OList [VInt 10; VInt 20; VInt 7]]> (heap (host list_state)))
       list_state).
Proof.
  refine (proj1 (proj1 (list_index_assignment 2 (Identifier "l") (IntegerLiteral (-1))
                          (IntegerLiteral 7) list_state list_state list_state
                          list_state 0 three_items (-1) (VInt 7) _ _ _ _) 2 _)).
  - vm_compute. reflexivity.
  - vm_compute. reflexivity.
  - vm_compute. reflexivity.
  - vm_compute. reflexivity.
  - vm_compute. reflexivity.
Defined.

(** ** Maps with string keys *)

Lemma key_eqb_str (k : string) (k' : value) :
  key_eqb (VStr k) k' = match k' with VStr t => String.eqb k t | _ => false end.
Proof. by destruct k' as [| | | | | | | | | | | | | | |]. Qed.

Lemma dict_lookup_set_same (k : string) (v : value) (kvs : list (value * value)) :
  dict_lookup (VStr k) (dict_set (VStr k) v kvs) = Some v.
Proof.
  induction kvs as [|[k0 v0] kvs IH]; cbn [dict_set dict_lookup].
  - rewrite key_eqb_str. by rewrite String.eqb_refl.
  - destruct (key_eqb (VStr k) k0) eqn:Hk; cbn [dict_lookup]; by rewrite Hk.
Qed.

Lemma dict_lookup_set_other (k k' : string) (v : value) (kvs : list (value * value)) :
  k' <> k ->
  dict_lookup (VStr k') (dict_set (VStr k) v kvs) = dict_lookup (VStr k') kvs.
Proof.
  intros Hne. induction kvs as [|[k0 v0] kvs IH]; cbn [dict_set dict_lookup].
  - rewrite key_eqb_str. by apply String.eqb_neq in Hne as ->.
  - destruct (key_eqb (VStr k) k0) eqn:Hk; cbn [dict_lookup].
    + rewrite key_eqb_str in Hk |- *. destruct k0; try discriminate.
      apply String.eqb_eq in Hk as <-. by apply String.eqb_neq in Hne as ->.
    + by rewrite IH.
Qed.

(** X7. On a map, [m.k] and [m['k']] give the same value when the key
    is present; when it is missing the member access fails with the
    runtime failure "Key 'k' not found in map" and the index access
    with the host's KeyError. *)
Theorem map_member_and_index (fuel : nat) (obj : expr) (k : string)
    (s s1 : state) (l : loc) (kvs : list (value * value)) :
  evaluate fuel obj s = (Val (VDict l), s1) ->
  heap (host s1) !! l = Some (ODict kvs) ->
  (forall v, dict_lookup (VStr k) kvs = Some v ->
     evaluate (S fuel) (MemberAccess obj k) s = (Val v, s1)
     /\ evaluate (S fuel) (IndexAccess obj (StringLiteral k)) s = (Val v, s1))
  /\ (dict_lookup (VStr k) kvs = None ->
     evaluate (S fuel) (MemberAccess obj k) s = (Raise (key_not_found k), s1)
     /\ evaluate (S fuel) (IndexAccess obj (StringLiteral k)) s = (Raise KeyError, s1)).
Proof.
  intros Hobj Hl. destruct (evaluate_fuel_pos _ _ _ _ _ Hobj) as [f ->].
  assert (Hm : evaluate (S (S f)) (MemberAccess obj k) s =
            (match dict_lookup (VStr k) kvs with
             | Some v => Val v
             | None => Raise (key_not_found k)
             end, s1)).
  { cbn [evaluate evaluate_node]. unfold evaluate_MemberAccess, bind at 1.
    cbn [evaluate] in Hobj. rewrite Hobj.
    unfold bind, lift, get_dict, hbind, get_obj. rewrite Hl. cbv beta iota.
    unfold hret. rewrite set_host_id.
    by destruct (dict_lookup (VStr k) kvs). }
  assert (Hi : evaluate (S (S f)) (IndexAccess obj (StringLiteral k)) s =
            (match dict_lookup (VStr k) kvs with
             | Some v => Val v
             | None => Raise KeyError
             end, s1)).
  { cbn [evaluate evaluate_node]. unfold evaluate_IndexAccess, bind at 1.
    cbn [evaluate] in Hobj. rewrite Hobj.
    change (evaluate_node (execute f) (evaluate f) (StringLiteral k))
      with (@ret value (VStr k)).
    unfold bind, ret, lift, py_getitem, get_dict, hbind, get_obj. rewrite Hl.
    cbn. destruct (dict_lookup (VStr k) kvs); cbn; by rewrite set_host_id. }
  split.
  - intros v Hv. by rewrite Hm, Hi, Hv.
  - intros Hnone. by rewrite Hm, Hi, Hnone.
Qed.

Lemma map_member_and_index_witness :
  evaluate 3 (MemberAccess (Identifier "m") "b") map_state =
    (Raise (key_not_found "b"), map_state)
  /\ evaluate 3 (IndexAccess (Identifier "m") (StringLiteral "b")) map_state =
    (Raise KeyError, map_state).
Proof.
  refine (proj2 (map_member_and_index 2 (Identifier "m") "b" map_state map_state 0
                   [(VStr "a", VInt 1)] _ _) _).
  - vm_compute. reflexivity.
  - vm_compute. reflexivity.
  - vm_compute. reflexivity.
Defined.

(** X8. [m.k = rhs] on a map evaluates the right-hand side, then the
    map, stores the value under the string key in the map object itself
    and gives the right-hand value; afterwards the key holds the value
    and every other string key holds what it held. *)
Theorem map_member_assignment (fuel : nat) (obj rhs : expr) (k : string)
    (s s0 s1 : state) (l : loc) (kvs : list (value * value)) (v : value) :
  evaluate fuel rhs s = (Val v, s0) ->
  evaluate fuel obj s0 = (Val (VDict l), s1) ->
  heap (host s1) !! l = Some (ODict kvs) ->
  execute (S fuel) (Assignment (MemberAccess obj k) "=" rhs) s =
    (Val v, with_heap (<[l:=ODict (dict_set (VStr k) v kvs)]> (heap (host s1))) s1)
  /\ dict_lookup (VStr k) (dict_set (VStr k) v kvs) = Some v
  /\ forall k', k' <> k ->
       dict_lookup (VStr k') (dict_set (VStr k) v kvs) = dict_lookup (VStr k') kvs.
Proof.
  intros Hrhs Hobj Hl. split; [|split].
  - cbn [execute execute_node]. unfold execute_Assignment, bind at 1. rewrite Hrhs.
    unfold bind at 1. rewrite Hobj. cbn [String.eqb Ascii.eqb Bool.eqb].
    unfold bind, lift, py_setitem, get_dict, hbind, get_obj. rewrite Hl.
    reflexivity.
  - apply dict_lookup_set_same.
  - intros k' Hne. by apply dict_lookup_set_other.
Qed.

Lemma map_member_assignment_witness :
  execute 3 (Assignment (MemberAccess (Identifier "m") "b") "=" (IntegerLiteral 2))
    map_state =
    (Val (VInt 2),
     with_heap (<[0:=ODict [(VStr "a", VInt 1); (VStr "b", VInt 2)]]>
                  (heap (host map_state))) map_state).
Proof.
  refine (proj1 (map_member_assignment 2 (Identifier "m") (IntegerLiteral 2) "b"
                   map_state map_state map_state 0 [(VStr "a", VInt 1)] (VInt 2)
                   _ _ _)).
  - vm_compute. reflexivity.
  - vm_compute. reflexivity.
  - vm_compute. reflexivity.
Defined.

End CollectionProofs.

(** ** Calls, loops and scopes *)

Module CallProofs.
Import Ast Py Interp ScopeSpec CallSpec.

(** ** Calls *)

Lemma bind_parameters_fit (evaluate : expr -> M value) (func_env : env_id) :
  forall (params : list Param) (args : list value),
    Forall (fun p => default_value p = None) params ->
    bind_parameters evaluate func_env params args =
    bind_parameters evaluate func_env params (fit_arguments (length params) args).
Proof.
  unfold fit_arguments.
  induction params as [|p params IH]; intros args Hd; [by destruct args|].
  inversion Hd as [|? ? Hp Hps]; subst.
  destruct args as [|a args]; cbn [bind_parameters length repeat app take].
  - rewrite Hp. f_equal. by rewrite (IH [] Hps).
  - f_equal. rewrite (IH args Hps). f_equal.
    replace (VNone :: repeat VNone (length params))
      with (repeat VNone (length params) ++ [VNone])
      by (by rewrite <- repeat_cons).
    rewrite app_assoc.
    rewrite (take_app_le (args ++ repeat VNone (length params)) [VNone]);
      [reflexivity|].
    rewrite length_app, repeat_length. lia.
Qed.

(** X9. A call never fails on the number of arguments: with
    parameters that have no default values, the call behaves as the
    call with the arguments cut to the number of parameters and filled
    up with none. *)
Theorem call_fits_arguments (execute : stmt -> M value) (evaluate : expr -> M value)
    (i : nat) (d : fundecl) (closure : env_id) (args : list value) (s : state) :
  no_defaults d ->
  call_function execute evaluate (VFunction i d closure) args s =
  call_function execute evaluate (VFunction i d closure)
    (fit_arguments (length (fn_parameters d)) args) s.
Proof.
  intros Hd. unfold call_function, bind, new_env.
  by rewrite (bind_parameters_fit evaluate (length (envs s)) (fn_parameters d) args Hd).
Qed.

Lemma call_fits_arguments_witness :
  call_function (execute 5) (evaluate 5) (VFunction 0 pair_function 0)
    [VInt 1; VInt 2; VInt 3] init =
  call_function (execute 5) (evaluate 5) (VFunction 0 pair_function 0)
    [VInt 1; VInt 2] init
  /\ call_function (execute 5) (evaluate 5) (VFunction 0 pair_function 0)
       [VInt 1] init =
     call_function (execute 5) (evaluate 5) (VFunction 0 pair_function 0)
       [VInt 1; VNone] init.
Proof.
  split.
  - apply (call_fits_arguments (execute 5) (evaluate 5) 0 pair_function 0
             [VInt 1; VInt 2; VInt 3] init).
    repeat constructor.
  - apply (call_fits_arguments (execute 5) (evaluate 5) 0 pair_function 0
             [VInt 1] init).
    repeat constructor.
Defined.

(** What a call makes of the way the body ended. *)
Lemma call_function_outcome (execute : stmt -> M value) (evaluate : expr -> M value)
    (i : nat) (d : fundecl) (closure : env_id) (args : list value)
    (s s1 s2 : state) (r : outcome value) :
  bind (new_env (Some closure))
    (fun func_env =>
       bind (bind_parameters evaluate func_env (fn_parameters d) args)
         (fun _ => ret func_env)) s = (Val (length (envs s)), s1) ->
  execute_Block execute (fn_body d) (set_current (length (envs s)) s1) = (r, s2) ->
  call_function execute evaluate (VFunction i d closure) args s =
    (match r with
     | Val _ => Val VNone
     | Raise (ReturnValue v) => Val v
     | other => other
     end, set_current (current_env s1) s2).
Proof.
  intros Hbind Hbody. unfold call_function.
  unfold bind at 1. unfold bind at 1 in Hbind.
  cbn [new_env] in *.
  unfold bind at 1. unfold bind at 1 in Hbind.
  destruct (bind_parameters evaluate _ _ _ _) as [[[]|e| |] s1'] eqn:Eb;
    try discriminate Hbind.
  injection Hbind as <-.
  unfold with_env, catch_return. rewrite Hbody.
  destruct r as [v|[]| |]; reflexivity.
Qed.

(** X10. A call catches the return of its body and nothing else: when
    the body ends in a break or a continue, which no loop of the body
    caught, the call ends in it too, with the scope of the caller
    restored, so that a loop around the call is the one that sees
    it. *)
Theorem call_lets_loop_control_through
    (execute : stmt -> M value) (evaluate : expr -> M value)
    (i : nat) (d : fundecl) (closure : env_id) (args : list value)
    (s s1 s2 : state) (e : exn) :
  e = BreakException \/ e = ContinueException ->
  bind (new_env (Some closure))
    (fun func_env =>
       bind (bind_parameters evaluate func_env (fn_parameters d) args)
         (fun _ => ret func_env)) s = (Val (length (envs s)), s1) ->
  execute_Block execute (fn_body d) (set_current (length (envs s)) s1) =
    (Raise e, s2) ->
  call_function execute evaluate (VFunction i d closure) args s =
    (Raise e, set_current (current_env s1) s2).
Proof.
  intros He Hbind Hbody.
  rewrite (call_function_outcome _ _ _ _ _ _ _ _ _ _ Hbind Hbody).
  by destruct He as [-> | ->].
Qed.

Lemma call_lets_loop_control_through_witness :
  call_function (execute 5) (evaluate 5) (VFunction 0 stop_function 0) [] init =
    (Raise BreakException,
     set_current 0
       (set_envs (envs init ++ [{| variables := ∅; constants := ∅; parent := Some 0 |}])
          init)).
Proof.
  apply (call_lets_loop_control_through (execute 5) (evaluate 5) 0 stop_function 0 []
           init
           (set_envs (envs init ++ [{| variables := ∅; constants := ∅;
                                       parent := Some 0 |}]) init)
           (set_current 1
              (set_envs (envs init ++ [{| variables := ∅; constants := ∅;
                                          parent := Some 0 |}]) init))
           BreakException).
  - left. reflexivity.
  - reflexivity.
  - reflexivity.
Defined.

(** The loop ends and the program goes on. *)
Example loop_stopped_by_called_function :
  run_interpreter 10 loop_stopped_by_call = (Val VNone, "done" +:+ String Chars.nl "").
Proof. vm_compute. reflexivity. Qed.

(** ** The while loop *)

Lemma lift_is_truthy_state (c : value) (s s' : state) (t : bool) :
  lift (is_truthy c) s = (Val t, s') -> s' = s.
Proof.
  unfold lift. destruct c; cbn;
    try (intros [= _ <-]; by destruct s).
  all: unfold get_list, get_dict, hbind, get_obj;
    destruct (heap (host s) !! _) as [[]|]; cbn; try discriminate;
    intros [= _ <-]; by destruct s.
Qed.

Lemma while_loop_exit (cond body : M value) :
  forall n result s v s',
    while_loop n cond body result s = (Val v, s') ->
    (exists s0 c, cond s0 = (Val c, s') /\ lift (is_truthy c) s' = (Val false, s'))
    \/ (exists s0, body s0 = (Raise BreakException, s')).
Proof.
  induction n as [|n IH]; intros result s v s' H; cbn [while_loop] in H;
    [discriminate|].
  unfold bind at 1 in H. destruct (cond s) as [[c| | |] s1] eqn:Hc; try discriminate.
  unfold bind at 1 in H.
  destruct (lift (is_truthy c) s1) as [[t| | |] s2] eqn:Ht; try discriminate.
  pose proof (lift_is_truthy_state _ _ _ _ Ht) as ->.
  destruct t.
  - unfold bind at 1 in H. unfold loop_body in H.
    destruct (body s1) as [[w|[]| |] s3] eqn:Hb; try discriminate.
    + by apply IH in H.
    + injection H as _ <-. right. by exists s1.
    + by apply IH in H.
  - injection H as _ <-. left. by exists s, c.
Qed.

(** X11. A while statement that completes normally has ended either on
    a condition that evaluated to a falsy value, in the state that
    evaluation left, or on a break raised by its body. *)
Theorem while_ends_on_falsy_condition_or_break (fuel : nat) (condition : expr)
    (body : list stmt) (s s' : state) (v : value) :
  execute (S fuel) (WhileStatement condition body) s = (Val v, s') ->
  (exists s0 c, evaluate fuel condition s0 = (Val c, s')
                /\ lift (is_truthy c) s' = (Val false, s'))
  \/ (exists s0, execute_Block (execute fuel) body s0 = (Raise BreakException, s')).
Proof.
  cbn [execute execute_node]. unfold execute_WhileStatement. apply while_loop_exit.
Qed.

Lemma while_ends_on_falsy_condition_or_break_witness :
  (exists s0 c,
     evaluate 9 (ComparisonOp (Identifier "i") "<" (IntegerLiteral 3)) s0 =
       (Val c, counting_end)
     /\ lift (is_truthy c) counting_end = (Val false, counting_end))
  \/ (exists s0,
        execute_Block (execute 9) [Assignment (Identifier "i") "+=" (IntegerLiteral 1)]
          s0 = (Raise BreakException, counting_end)).
Proof.
  apply (while_ends_on_falsy_condition_or_break 9
           (ComparisonOp (Identifier "i") "<" (IntegerLiteral 3))
           [Assignment (Identifier "i") "+=" (IntegerLiteral 1)]
           counting_start counting_end (VInt 1)).
  vm_compute. reflexivity.
Defined.

(** ** Scopes *)

(** X12. Whatever a statement does and however it ends, the scope
    pointer is afterwards where it was, no scope has been removed, the
    current scope has at most gained names and constant marks, and
    every other scope that existed binds the same names, with the same
    constant marks and the same values of its constants. *)
Theorem scopes_after_statement (fuel : nat) (node : stmt) (s s' : state)
    (r : outcome value) :
  execute fuel node s = (r, s') ->
  current_env s' = current_env s
  /\ length (envs s) <= length (envs s')
  /\ forall e E, envs s !! e = Some E ->
       exists E', envs s' !! e = Some E'
                  /\ (if decide (e = current_env s) then extended E E'
                      else assigned_only E E').
Proof.
  destruct (ScopeProofs.execute_evaluate_frame fuel) as [Hx _]. intros H.
  destruct (Hx (length (envs s)) node s r s' ltac:(lia) H) as [Hcur [Hlen Hch]].
  split; [exact Hcur|]. split; [exact Hlen|].
  intros e E HE. destruct (Hch e E) as (E' & HE' & Hrel); [|exact HE|].
  { by eapply lookup_lt_Some. }
  exists E'. split; [exact HE'|].
  destruct (decide (e = current_env s)) as [->|Hne].
  - by rewrite decide_True in Hrel.
  - by rewrite decide_False in Hrel by congruence.
Qed.

Lemma scopes_after_statement_witness :
  current_env counting_end = current_env counting_start
  /\ length (envs counting_start) <= length (envs counting_end)
  /\ forall e E, envs counting_start !! e = Some E ->
       exists E', envs counting_end !! e = Some E'
                  /\ (if decide (e = current_env counting_start) then extended E E'
                      else assigned_only E E').
Proof.
  apply (scopes_after_statement 10 counting_loop counting_start counting_end
           (fst (execute 10 counting_loop counting_start))).
  vm_compute. reflexivity.
Defined.

(** X13. An expression, whatever it evaluates and however it ends,
    leaves the scope pointer where it was, removes no scope, and adds
    no name and no constant mark to any scope that existed: each one
    binds the same names, with the same constant marks and the same
    values of its constants. *)
Theorem scopes_after_expression (fuel : nat) (node : expr) (s s' : state)
    (r : outcome value) :
  evaluate fuel node s = (r, s') ->
  current_env s' = current_env s
  /\ length (envs s) <= length (envs s')
  /\ forall e E, envs s !! e = Some E ->
       exists E', envs s' !! e = Some E' /\ assigned_only E E'.
Proof.
  destruct (ScopeProofs.execute_evaluate_frame fuel) as [_ Hv]. intros H.
  destruct (Hv (length (envs s)) node s r s' ltac:(lia) H) as [Hcur [Hlen Hch]].
  split; [exact Hcur|]. split; [exact Hlen|].
  intros e E HE. destruct (Hch e E) as (E' & HE' & Hrel); [|exact HE|].
  { by eapply lookup_lt_Some. }
  exists E'. split; [exact HE'|]. exact Hrel.
Qed.

Lemma scopes_after_expression_witness :
  current_env
    (snd (evaluate 9 (FunctionCall (Identifier "println") [Identifier "i"])
            counting_end))
  = current_env counting_end
  /\ length (envs counting_end)
     <= length (envs (snd (evaluate 9
                             (FunctionCall (Identifier "println") [Identifier "i"])
                             counting_end)))
  /\ forall e E, envs counting_end !! e = Some E ->
       exists E',
         envs (snd (evaluate 9 (FunctionCall (Identifier "println") [Identifier "i"])
                      counting_end)) !! e = Some E'
         /\ assigned_only E E'.
Proof.
  apply (scopes_after_expression 9
           (FunctionCall (Identifier "println") [Identifier "i"]) counting_end
           (snd (evaluate 9 (FunctionCall (Identifier "println") [Identifier "i"])
                   counting_end))
           (fst (evaluate 9 (FunctionCall (Identifier "println") [Identifier "i"])
                   counting_end))).
  vm_compute. reflexivity.
Defined.

End CallProofs.

(** ** Struct instances and list methods *)

Module StructProofs.
Import Ast Py Interp ListSpec StructSpec.

Lemma instance_values_names (fields : list (string * string)) :
  forall args, map fst (instance_values fields args) = map fst fields.
Proof.
  induction fields as [|[n t] fields IH]; intros args; [reflexivity|].
  destruct args; cbn [instance_values map fst]; by rewrite IH.
Qed.

Lemma assoc_instance_values (fields : list (string * string)) :
  forall args k name ty,
    NoDup (map fst fields) ->
    fields !! k = Some (name, ty) ->
    Tokens.assoc name (instance_values fields args) = Some (default VNone (args !! k)).
Proof.
  induction fields as [|[n t] fields IH]; intros args k name ty Hnd Hk;
    [discriminate|].
  apply NoDup_cons in Hnd as [Hn Hnd].
  destruct k as [|k]; cbn in Hk.
  - injection Hk as -> ->. destruct args; cbn [instance_values Tokens.assoc];
      by rewrite String.eqb_refl.
  - assert (name <> n) as Hne.
    { intros ->. apply Hn. change (map fst fields) with (fst <$> fields).
      exact (list_elem_of_fmap_2 fst fields (n, ty) (list_elem_of_lookup_2 _ _ _ Hk)). }
    apply String.eqb_neq in Hne.
    destruct args as [|a args]; cbn [instance_values Tokens.assoc]; rewrite Hne.
    + rewrite (IH [] k name ty Hnd Hk). by rewrite lookup_nil.
    + by rewrite (IH args k name ty Hnd Hk).
Qed.

(** X14. Calling a struct builds an instance with exactly the declared
    fields, in their order: the arguments are taken by position,
    missing ones are none and surplus ones are dropped; so reading a
    declared field of the new instance never fails. *)
Theorem struct_call_builds_declared_fields (fuel : nat) (f : expr) (args : list expr)
    (s s1 s2 : state) (i : nat) (name : string) (fields : list (string * string))
    (vs : list value) :
  evaluate fuel f s = (Val (VStruct i name fields), s1) ->
  evaluate_all (evaluate fuel) args s1 = (Val vs, s2) ->
  NoDup (map fst fields) ->
  let h := heap (host s2) in
  let vals := instance_values fields vs in
  evaluate (S fuel) (FunctionCall f args) s =
    (Val (VInstance (length h)),
     with_heap (h ++ [OInstance (VStruct i name fields) vals]) s2)
  /\ map fst vals = map fst fields
  /\ forall k field ty,
       fields !! k = Some (field, ty) ->
       instance_get (length h) field
         (host (with_heap (h ++ [OInstance (VStruct i name fields) vals]) s2)) =
         (Val (default VNone (vs !! k)),
          host (with_heap (h ++ [OInstance (VStruct i name fields) vals]) s2)).
Proof.
  intros Hf Hargs Hnd h vals. split; [|split].
  - cbn [evaluate evaluate_node]. unfold evaluate_FunctionCall, bind at 1.
    rewrite Hf. unfold bind at 1. rewrite Hargs. reflexivity.
  - apply instance_values_names.
  - intros k field ty Hk. unfold instance_get, hbind, get_obj.
    cbn [with_heap set_host host heap].
    rewrite lookup_app_r by lia. rewrite Nat.sub_diag. cbn [lookup list_lookup].
    subst vals. by rewrite (assoc_instance_values fields vs k field ty Hnd Hk).
Qed.

Lemma struct_call_builds_declared_fields_witness :
  evaluate 4 (FunctionCall (Identifier "P") [IntegerLiteral 1; IntegerLiteral 2;
                                             IntegerLiteral 3])
    point_state =
    (Val (VInstance 1),
     with_heap (heap (host point_state)
                ++ [OInstance point_struct [("x", VInt 1); ("y", VInt 2)]])
       point_state).
Proof.
  refine (proj1 (struct_call_builds_declared_fields 3 (Identifier "P")
                   [IntegerLiteral 1; IntegerLiteral 2; IntegerLiteral 3]
                   point_state point_state point_state 0 "P"
                   [("x", "int"); ("y", "int")] [VInt 1; VInt 2; VInt 3] _ _ _)).
  - vm_compute. reflexivity.
  - vm_compute. reflexivity.
  - repeat constructor; set_solver.
Defined.

(** A field that the call left without an argument reads as none. *)
Example missing_field_is_none :
  evaluate 4 (MemberAccess (Identifier "p") "y") point_state = (Val VNone, point_state)
  /\ evaluate 4 (MemberAccess (Identifier "p") "z") point_state =
       (Raise (unknown_field "z" "P"), point_state).
Proof. split; vm_compute; reflexivity. Qed.

(** ** [pop], [length] and unknown methods of lists *)

(** X15. On a list, [pop()] of the empty list ends in the host's
    IndexError; otherwise it removes the last item from the list object
    itself and gives it; [length()] gives the number of items; and a
    method outside the table of list methods is the runtime failure
    "Unknown method". *)
Theorem list_pop_length_and_unknown_method (fuel : nat) (obj : expr)
    (s s1 : state) (l : loc) (xs : list value) :
  evaluate fuel obj s = (Val (VList l), s1) ->
  heap (host s1) !! l = Some (OList xs) ->
  (xs = [] ->
     evaluate (S fuel) (MethodCall obj "pop" []) s = (Raise IndexError, s1))
  /\ (forall front x, xs = front ++ [x] ->
        evaluate (S fuel) (MethodCall obj "pop" []) s =
          (Val x, with_heap (<[l:=OList front]> (heap (host s1))) s1))
  /\ evaluate (S fuel) (MethodCall obj "length" []) s =
       (Val (VInt (Z.of_nat (length xs))), s1)
  /\ (forall method, method ∉ list_methods ->
        evaluate (S fuel) (MethodCall obj method []) s =
          (Raise (RuntimeError ("Unknown method '" +:+ method +:+ "' on list")), s1)).
Proof.
  intros Hobj Hl.
  assert (Hget : get_list l (host s1) = (Val xs, host s1)).
  { unfold get_list, hbind, get_obj. by rewrite Hl. }
  split; [|split; [|split]].
  - intros ->.
    rewrite (ListProofs.evaluate_list_method fuel obj "pop" [] s s1 s1 l []
               (list_pop l (VInt (-1))) Hobj); [|reflexivity|reflexivity].
    unfold lift, list_pop, hbind. rewrite Hget. cbn. by destruct s1.
  - intros front x ->.
    rewrite (ListProofs.evaluate_list_method fuel obj "pop" [] s s1 s1 l []
               (list_pop l (VInt (-1))) Hobj); [|reflexivity|reflexivity].
    unfold lift, list_pop, hbind. rewrite Hget. cbn [as_int].
    assert (norm_index (length (front ++ [x])) (-1) = Some (length front)) as ->.
    { unfold norm_index. rewrite length_app. cbn [length].
      replace (-1 + Z.of_nat (length front + 1))%Z with (Z.of_nat (length front))
        by lia.
      cbn. destruct (Z.leb_spec 0 (Z.of_nat (length front))); [|lia].
      destruct (Z.ltb_spec (Z.of_nat (length front)) (Z.of_nat (length front + 1)));
        [|lia].
      cbn. by rewrite Nat2Z.id. }
    rewrite lookup_app_r by lia. rewrite Nat.sub_diag. cbn [lookup list_lookup].
    rewrite take_app_length. rewrite drop_ge by (rewrite length_app; cbn; lia).
    rewrite app_nil_r. reflexivity.
  - rewrite (ListProofs.evaluate_list_method fuel obj "length" [] s s1 s1 l []
               (hbind (get_list l) (fun xs => hret (VInt (Z.of_nat (length xs)))))
               Hobj); [|reflexivity|reflexivity].
    unfold lift, hbind. rewrite Hget. cbn. by destruct s1.
  - intros method Hm. cbn [evaluate evaluate_node].
    unfold evaluate_MethodCall, bind at 1. rewrite Hobj.
    unfold bind at 1. cbn [evaluate_all]. unfold ret at 1.
    assert (list_method l method [] = None) as ->; [|reflexivity].
    unfold list_method, list_methods in *.
    repeat match goal with
    | |- context [String.eqb method ?m] =>
        destruct (String.eqb_spec method m) as [->|_]; [exfalso; apply Hm; set_solver|]
    end.
    reflexivity.
Qed.

Lemma list_pop_length_and_unknown_method_witness :
  evaluate 3 (MethodCall (Identifier "l") "pop" []) empty_list_state =
    (Raise IndexError, empty_list_state).
Proof.
  refine (proj1 (list_pop_length_and_unknown_method 2 (Identifier "l")
                   empty_list_state empty_list_state 0 [] _ _) _).
  - vm_compute. reflexivity.
  - vm_compute. reflexivity.
  - reflexivity.
Defined.

End StructProofs.

(** ** The loop of the lexer *)

Module TokenizeProofs.
Import Chars Lexer LexerSpec LexerProofs TokenizeSpec.

Lemma length_chars (s : string) : length (list_ascii_of_string s) = String.length s.
Proof. induction s; simpl; auto. Qed.

Lemma in_source_moved (a b : Lexer) : in_source a -> moved a b -> in_source b.
Proof.
  unfold in_source. intros Ha (k & Hk & Hb).
  unfold cursor in Hb. injection Hb as Hs Hp _ _.
  rewrite Hs, Hp, pos_advance_n, source_advance_n.
  unfold rest in Hk. rewrite length_drop, length_chars in Hk. lia.
Qed.

Lemma current_char_none (lx : Lexer) :
  in_source lx -> current_char lx = None -> pos lx = String.length (source lx).
Proof.
  unfold in_source. intros Hin Hc. rewrite current_char_rest in Hc.
  unfold rest in Hc. destruct (drop _ _) eqn:Hd; [|discriminate].
  apply (f_equal length) in Hd. rewrite length_drop, length_chars in Hd.
  cbn in Hd. lia.
Qed.

Lemma tokenize_loop_total :
  forall n lx,
    in_source lx ->
    String.length (source lx) - pos lx < n ->
    exists r, tokenize_loop n lx = Some r.
Proof.
  induction n as [|n IH]; intros lx Hin Hn; [lia|]. cbn [tokenize_loop].
  destruct (current_char lx) as [c|] eqn:Hc; [|by eexists].
  destruct (tokenize_step c lx) as [lx'|m l k|] eqn:Hs; [|by eexists|by eexists].
  destruct (tokenize_step_moved lx c lx' Hc Hs) as [Hm Hlt].
  apply IH; [by eapply in_source_moved|].
  destruct (moved_pos _ _ Hm) as [_ ->].
  destruct (remaining_pos lx c Hc) as [m Hrem]. unfold remaining in Hrem. lia.
Qed.

(** X16. The loop of [tokenize] ends on every source: each iteration
    consumes at least one character, so as many iterations as the
    source has characters, and one more, give a token list, a lexer
    error or behaviour outside the embedding, never a loop that is cut
    off. *)
Theorem tokenize_terminates (src : string) :
  exists r, tokenize src = Some r.
Proof.
  unfold tokenize. apply tokenize_loop_total.
  - unfold in_source. cbn. lia.
  - cbn. lia.
Qed.

(** ** The tokens of a run *)

Lemma tokens_advance_n (k : nat) : forall lx, tokens (advance_n k lx) = tokens lx.
Proof. induction k; intros lx; cbn [advance_n]; [|rewrite IHk, tokens_advance]; auto. Qed.

Lemma tokens_skip_whitespace_loop (n : nat) :
  forall lx, tokens (skip_whitespace_loop n lx) = tokens lx.
Proof.
  induction n as [|n IH]; intros lx; cbn [skip_whitespace_loop]; [reflexivity|].
  destruct (current_char lx); [|reflexivity].
  destruct (char_in _ _); [|reflexivity]. by rewrite IH, tokens_advance.
Qed.

Lemma tokens_skip_line_loop (n : nat) :
  forall lx, tokens (skip_line_loop n lx) = tokens lx.
Proof.
  induction n as [|n IH]; intros lx; cbn [skip_line_loop]; [reflexivity|].
  destruct (current_char lx); [|reflexivity].
  destruct (Ascii.eqb _ _); [reflexivity|]. by rewrite IH, tokens_advance.
Qed.

Lemma tokens_skip_block_loop (n : nat) :
  forall lx, tokens (skip_block_loop n lx) = tokens lx.
Proof.
  induction n as [|n IH]; intros lx; cbn [skip_block_loop]; [reflexivity|].
  destruct (current_char lx); [|reflexivity].
  destruct (_ && _); [by rewrite !tokens_advance|]. by rewrite IH, tokens_advance.
Qed.

Lemma tokens_skip_comment (lx : Lexer) : tokens (skip_comment lx) = tokens lx.
Proof.
  unfold skip_comment. destruct (current_char lx); [|reflexivity].
  destruct (peek lx 1); [|reflexivity].
  destruct (_ && _); [apply tokens_skip_line_loop|].
  destruct (_ && _); [|reflexivity].
  by rewrite tokens_skip_block_loop, !tokens_advance.
Qed.

Lemma tokens_read_string_loop (n : nat) (q : ascii) :
  forall lx res lx' res',
    read_string_loop n q lx res = (lx', res') -> tokens lx' = tokens lx.
Proof.
  induction n as [|n IH]; intros lx res lx' res' H; cbn [read_string_loop] in H.
  - by injection H as <- _.
  - destruct (current_char lx) as [c|]; [|by injection H as <- _].
    destruct (Ascii.eqb c q); [by injection H as <- _|].
    destruct (Ascii.eqb c backslash).
    + destruct (current_char (advance lx)) as [e|].
      * destruct (escape_chars e); apply IH in H; by rewrite H, !tokens_advance.
      * apply IH in H. by rewrite H, !tokens_advance.
    + apply IH in H. by rewrite H, tokens_advance.
Qed.

Lemma tokens_read_number_loop (n : nat) :
  forall lx res fl lx' res' fl',
    read_number_loop n lx res fl = Some (lx', res', fl') -> tokens lx' = tokens lx.
Proof.
  induction n as [|n IH]; intros lx res fl lx' res' fl' H; cbn [read_number_loop] in H.
  - by injection H as <- _ _.
  - destruct (current_char lx) as [c|]; [|by injection H as <- _ _].
    destruct (negb (is_ascii c)); [discriminate|].
    destruct (isdigit c); [apply IH in H; by rewrite H, tokens_advance|].
    destruct (Ascii.eqb c "."); [|by injection H as <- _ _].
    destruct fl; [by injection H as <- _ _|].
    destruct (peek lx 1) as [d|]; [|by injection H as <- _ _].
    destruct (negb (is_ascii d)); [discriminate|].
    destruct (isdigit d); [apply IH in H; by rewrite H, tokens_advance|].
    by injection H as <- _ _.
Qed.

Lemma tokens_read_identifier_loop (n : nat) :
  forall lx res lx' res',
    read_identifier_loop n lx res = Some (lx', res') -> tokens lx' = tokens lx.
Proof.
  induction n as [|n IH]; intros lx res lx' res' H; cbn [read_identifier_loop] in H.
  - by injection H as <- _.
  - destruct (current_char lx) as [c|]; [|by injection H as <- _].
    destruct (negb (is_ascii c)); [discriminate|].
    destruct (_ || _); [apply IH in H; by rewrite H, tokens_advance|].
    by injection H as <- _.
Qed.

Lemma assoc_in {A} (k : string) (l : list (string * A)) (v : A) :
  Tokens.assoc k l = Some v -> In v (map snd l).
Proof.
  induction l as [|[k' v'] l IH]; cbn; [discriminate|].
  destruct (String.eqb k k'); [intros [= ->]; by left|]. intros H. right. by apply IH.
Qed.

Lemma keywords_not_eof (w : string) (ty : Tokens.TokenType) :
  Tokens.assoc w Tokens.KEYWORDS = Some ty -> ty <> Tokens.EOF.
Proof.
  intros H%assoc_in Heq. subst ty. cbn in H.
  repeat (destruct H as [H|H]; [discriminate H|]). exact H.
Qed.

Lemma two_char_ops_not_eof (w : string) (ty : Tokens.TokenType) :
  Tokens.assoc w two_char_ops = Some ty -> ty <> Tokens.EOF.
Proof.
  intros H%assoc_in Heq. subst ty. cbn in H.
  repeat (destruct H as [H|H]; [discriminate H|]). exact H.
Qed.

Lemma single_char_ops_not_eof (w : string) (ty : Tokens.TokenType) :
  Tokens.assoc w single_char_ops = Some ty -> ty <> Tokens.EOF.
Proof.
  intros H%assoc_in Heq. subst ty. cbn in H.
  repeat (destruct H as [H|H]; [discriminate H|]). exact H.
Qed.

(** A reader gives one token that is not EOF and leaves the token list
    alone. *)
Lemma read_string_token (lx : Lexer) (t : Tokens.Token) (lx' : Lexer) :
  read_string lx = Ok (t, lx') ->
  tokens lx' = tokens lx /\ Tokens.type t <> Tokens.EOF.
Proof.
  unfold read_string. destruct (current_char lx) as [q|]; [|discriminate].
  destruct (read_string_loop _ _ _ _) as [lx2 res] eqn:Hl.
  destruct (current_char lx2); [|discriminate]. intros [= <- <-].
  apply tokens_read_string_loop in Hl. rewrite tokens_advance, Hl, tokens_advance.
  split; [reflexivity|discriminate].
Qed.

Lemma read_number_token (lx : Lexer) (t : Tokens.Token) (lx' : Lexer) :
  read_number lx = Ok (t, lx') ->
  tokens lx' = tokens lx /\ Tokens.type t <> Tokens.EOF.
Proof.
  unfold read_number.
  destruct (read_number_loop _ _ _ _) as [[[lx2 res] fl]|] eqn:Hl; [|discriminate].
  apply tokens_read_number_loop in Hl. destruct fl.
  - destruct (float_of_decimal res); [|discriminate]. intros [= <- <-].
    split; [exact Hl|discriminate].
  - destruct (_ <=? _); [|discriminate]. intros [= <- <-].
    split; [exact Hl|discriminate].
Qed.

Lemma read_identifier_token (lx : Lexer) (t : Tokens.Token) (lx' : Lexer) :
  read_identifier lx = Ok (t, lx') ->
  tokens lx' = tokens lx /\ Tokens.type t <> Tokens.EOF.
Proof.
  unfold read_identifier.
  destruct (read_identifier_loop _ _ _) as [[lx2 res]|] eqn:Hl; [|discriminate].
  apply tokens_read_identifier_loop in Hl.
  destruct (Tokens.assoc _ Tokens.KEYWORDS) as [ty|] eqn:Hk.
  - pose proof (keywords_not_eof _ _ Hk) as Hne.
    destruct ty; intros [= <- <-]; (split; [exact Hl|]); cbn; congruence.
  - intros [= <- <-]. split; [exact Hl|discriminate].
Qed.

Lemma read_operator_token (lx : Lexer) (t : Tokens.Token) (lx' : Lexer) :
  read_operator_or_delimiter lx = Some (t, lx') ->
  tokens lx' = tokens lx /\ Tokens.type t <> Tokens.EOF.
Proof.
  unfold read_operator_or_delimiter. destruct (current_char lx) as [c|]; [|discriminate].
  destruct (peek lx 1) as [d|].
  - destruct (Tokens.assoc _ two_char_ops) as [ty|] eqn:H2.
    + intros [= <- <-]. rewrite !tokens_advance. split; [reflexivity|].
      by eapply two_char_ops_not_eof.
    + destruct (Tokens.assoc _ single_char_ops) as [ty|] eqn:H1; [|discriminate].
      intros [= <- <-]. rewrite tokens_advance. split; [reflexivity|].
      by eapply single_char_ops_not_eof.
  - destruct (Tokens.assoc _ single_char_ops) as [ty|] eqn:H1; [|discriminate].
    intros [= <- <-]. rewrite tokens_advance. split; [reflexivity|].
    by eapply single_char_ops_not_eof.
Qed.

Lemma tokenize_step_no_eof (lx : Lexer) (c : ascii) (lx' : Lexer) :
  tokenize_step c lx = Ok lx' -> no_eof (tokens lx) -> no_eof (tokens lx').
Proof.
  unfold tokenize_step, no_eof. intros H Hno.
  destruct (char_in c _).
  { injection H as <-. unfold skip_whitespace. by rewrite tokens_skip_whitespace_loop. }
  destruct (Ascii.eqb c nl).
  { injection H as <-. rewrite tokens_advance. cbn [tokens push_token].
    apply Forall_app. split; [exact Hno|]. repeat constructor. discriminate. }
  destruct (_ && _).
  { injection H as <-. by rewrite tokens_skip_comment. }
  assert (Hread : forall r, append_read r = Ok lx' ->
            (forall t l, r = Ok (t, l) ->
               tokens l = tokens lx /\ Tokens.type t <> Tokens.EOF) ->
            Forall (fun t => Tokens.type t <> Tokens.EOF) (tokens lx')).
  { intros [[t l]| |] Hr Ht; try discriminate. injection Hr as <-.
    destruct (Ht t l eq_refl) as [Hl Hne]. cbn [tokens push_token]. rewrite Hl.
    apply Forall_app. split; [exact Hno|]. by repeat constructor. }
  destruct (_ || _).
  { apply (Hread _ H). intros t l. apply read_string_token. }
  destruct (negb (is_ascii c)); [discriminate|].
  destruct (isdigit c).
  { apply (Hread _ H). intros t l. apply read_number_token. }
  destruct (_ || _).
  { apply (Hread _ H). intros t l. apply read_identifier_token. }
  destruct (read_operator_or_delimiter lx) as [[t l]|] eqn:Hop; [|discriminate].
  injection H as <-. destruct (read_operator_token _ _ _ Hop) as [Hl Hne].
  cbn [tokens push_token]. rewrite Hl.
  apply Forall_app. split; [exact Hno|]. by repeat constructor.
Qed.

Lemma tokenize_loop_eof (src : string) (toks : list Tokens.Token) :
  forall n lx,
    source lx = src -> in_source lx -> positioned lx -> no_eof (tokens lx) ->
    tokenize_loop n lx = Some (Ok toks) ->
    exists front, toks = front ++ [eof_token src] /\ no_eof front.
Proof.
  induction n as [|n IH]; intros lx Hsrc Hin Hpos Hno H; cbn [tokenize_loop] in H;
    [discriminate|].
  destruct (current_char lx) as [c|] eqn:Hc.
  - destruct (tokenize_step c lx) as [lx'| |] eqn:Hs; try discriminate.
    destruct (tokenize_step_moved lx c lx' Hc Hs) as [Hm _].
    apply (IH lx'); auto.
    + destruct (moved_pos _ _ Hm) as [_ ->]. exact Hsrc.
    + by eapply in_source_moved.
    + by eapply positioned_moved.
    + by eapply tokenize_step_no_eof.
  - injection H as <-. exists (tokens lx). split; [|exact Hno]. f_equal. f_equal.
    pose proof (current_char_none lx Hin Hc) as Hend.
    destruct Hpos as [Hl Hk]. unfold make_token, eof_token, chars.
    assert (consumed lx = list_ascii_of_string src) as Hall.
    { unfold consumed. rewrite Hend, Hsrc. apply take_ge. by rewrite length_chars. }
    by rewrite Hl, Hk, Hall.
Qed.

(** X17. A token list that [tokenize] gives ends with the EOF token,
    placed at the line and column that follow the last character of the
    source, and holds no other EOF token. *)
Theorem tokens_end_with_one_eof (src : string) (toks : list Tokens.Token) :
  tokenize src = Some (Ok toks) ->
  exists front, toks = front ++ [eof_token src] /\ no_eof front.
Proof.
  unfold tokenize. apply tokenize_loop_eof.
  - reflexivity.
  - unfold in_source. cbn. lia.
  - apply positioned_init.
  - constructor.
Qed.

Lemma tokens_end_with_one_eof_witness :
  exists front,
    [ Tokens.mkToken Tokens.IDENTIFIER (Tokens.PStr "x") 1 1;
      Tokens.mkToken Tokens.NEWLINE (Tokens.PStr (String nl "")) 1 2;
      Tokens.mkToken Tokens.EOF Tokens.PNone 2 1 ] =
    front ++ [eof_token (String "x" (String nl ""))]
    /\ no_eof front.
Proof.
  apply (tokens_end_with_one_eof (String "x" (String nl ""))).
  vm_compute. reflexivity.
Defined.

(** ** Characters without a rule *)

Lemma tokenize_step_unexpected (c : ascii) (lx : Lexer) :
  unexpected c = true ->
  current_char lx = Some c ->
  tokenize_step c lx =
    LexerError ("Unexpected character: " +:+ String c "") (line lx) (column lx).
Proof.
  intros Hu Hc.
  destruct c as [[] [] [] [] [] [] [] []]; try (vm_compute in Hu; discriminate Hu);
    unfold tokenize_step, read_operator_or_delimiter; rewrite Hc;
    destruct (peek lx 1) as [d|]; reflexivity.
Qed.

Lemma loop_reaches_source (a b : Lexer) : loop_reaches a b -> source b = source a.
Proof. intros H%loop_reaches_moved. by destruct (moved_pos _ _ H). Qed.

(** X18. Wherever the loop of [tokenize] comes to a character it has no
    rule for, lexing fails with "Unexpected character" and that
    character, at its line and column. *)
Theorem unexpected_character_fails (src : string) (lx : Lexer) (c : ascii)
    (tl : list ascii) :
  loop_reaches (init src) lx ->
  rest lx = c :: tl ->
  unexpected c = true ->
  tokenize src =
    Some (LexerError ("Unexpected character: " +:+ String c "")
            (line_of (consumed lx)) (column_of (consumed lx))).
Proof.
  intros Hreach Hrest Hu.
  pose proof (loop_reaches_moved _ _ Hreach) as Hm.
  pose proof (positioned_moved _ _ (positioned_init src) Hm) as [Hl Hk].
  assert (Hc : current_char lx = Some c) by (by rewrite current_char_rest, Hrest).
  unfold tokenize.
  destruct (loop_reaches_fuel _ _ Hreach (S (String.length src))) as (m & Hpos & ->).
  { apply moved_pos in Hm as [_ Hs]. cbn in Hs.
    destruct (remaining_pos lx c Hc) as [k Hrem]. unfold remaining in Hrem.
    rewrite Hs in Hrem. cbn. lia. }
  destruct m as [|m]; [lia|]. cbn [tokenize_loop].
  rewrite Hc, (tokenize_step_unexpected c lx Hu Hc). by rewrite Hl, Hk.
Qed.

Lemma unexpected_character_fails_witness :
  tokenize "let x = 1 @ 2" = Some (LexerError "Unexpected character: @" 1 11).
Proof.
  apply (unexpected_character_fails "let x = 1 @ 2"
           (default (init "") (loop_state 8 (init "let x = 1 @ 2")))
           "@" (list_ascii_of_string " 2")).
  - apply (loop_state_reaches 8). vm_compute. reflexivity.
  - vm_compute. reflexivity.
  - vm_compute. reflexivity.
Defined.

(** ** Comments *)

Lemma loop_reaches_step (a b b' : Lexer) (c : ascii) :
  loop_reaches a b -> current_char b = Some c -> tokenize_step c b = Ok b' ->
  loop_reaches a b'.
Proof.
  induction 1 as [lx|lx c0 lx1 lx2 Hc0 Hs0 _ IH]; intros Hc Hs.
  - eapply reaches_step; eauto. constructor.
  - eapply reaches_step; eauto.
Qed.

Lemma advance_n_S (k : nat) (lx : Lexer) :
  advance_n (S k) lx = advance_n k (advance lx).
Proof. reflexivity. Qed.

Lemma skip_line_loop_run (body tl : list ascii) :
  forallb not_newline body = true ->
  tl = [] \/ (exists r, tl = nl :: r) ->
  forall n lx,
    rest lx = body ++ tl -> length body <= n ->
    skip_line_loop n lx = advance_n (length body) lx.
Proof.
  intros Hbody Htl. induction body as [|c body IH]; intros n lx Hrest Hn.
  - destruct n as [|n]; [reflexivity|]. cbn [skip_line_loop length advance_n].
    rewrite current_char_rest, Hrest. cbn [app].
    destruct Htl as [-> | [r ->]]; [reflexivity|]. cbn [head].
    by rewrite Ascii.eqb_refl.
  - cbn [forallb] in Hbody. apply andb_prop in Hbody as [Hc Hbody].
    destruct n as [|n]; [cbn in Hn; lia|]. cbn [skip_line_loop length].
    rewrite current_char_rest, Hrest. cbn [app head].
    unfold not_newline in Hc. apply negb_true_iff in Hc. rewrite Hc.
    rewrite advance_n_S. apply IH; [exact Hbody| |cbn in Hn; lia].
    by rewrite rest_advance, Hrest.
Qed.

Lemma skip_block_loop_run (text : list ascii) :
  forall n lx,
    rest lx = text -> length text <= n ->
    skip_block_loop n lx =
      advance_n (match find_close text with
                 | Some k => k + 2
                 | None => length text
                 end) lx.
Proof.
  induction text as [|c r IH]; intros n lx Hrest Hn.
  - destruct n as [|n]; [reflexivity|]. cbn [skip_block_loop find_close length].
    by rewrite current_char_rest, Hrest.
  - destruct n as [|n]; [cbn in Hn; lia|]. cbn [skip_block_loop find_close].
    rewrite current_char_rest, peek_rest, Hrest. cbn [head].
    replace ((c :: r) !! 1) with (head r) by (by destruct r).
    replace (match head r with Some d => Ascii.eqb d "/" | None => false end)
      with (match r with d :: _ => Ascii.eqb d "/" | [] => false end)
      by (by destruct r).
    destruct (Ascii.eqb c "*" && _); [reflexivity|].
    rewrite (IH n (advance lx)); [|by rewrite rest_advance, Hrest|cbn in Hn; lia].
    destruct (find_close r) as [k|]; reflexivity.
Qed.

Lemma find_close_bound (text : list ascii) (k : nat) :
  find_close text = Some k -> k + 2 <= length text.
Proof.
  revert k. induction text as [|c r IH]; intros k; cbn [find_close]; [discriminate|].
  destruct (Ascii.eqb c "*" && _) eqn:Hc.
  - intros [= <-]. destruct r; [|cbn; lia].
    by rewrite andb_false_r in Hc.
  - destruct (find_close r) as [j|]; [|discriminate]. intros [= <-].
    specialize (IH j eq_refl). cbn. lia.
Qed.

Lemma tokenize_step_comment (lx : Lexer) (d : ascii) (tl : list ascii) :
  rest lx = "/"%char :: d :: tl ->
  d = "/"%char \/ d = "*"%char ->
  tokenize_step "/" lx = Ok (skip_comment lx).
Proof.
  intros Hrest Hd. unfold tokenize_step. cbn [char_in Ascii.eqb Bool.eqb orb].
  change (Ascii.eqb "/" nl) with false. cbv beta iota.
  rewrite peek_rest, Hrest. cbn [lookup list_lookup].
  by destruct Hd as [-> | ->].
Qed.

(** X19. Comments give no token. Wherever the loop of [tokenize]
    comes to [//], it next stands before the newline that ends the
    line, or at the end of the input, with the tokens it had; and
    where it comes to [/*] and the text that follows has a first [*/],
    it next stands just after it, with the tokens it had. *)
Theorem comments_give_no_token (src : string) (lx : Lexer) :
  loop_reaches (init src) lx ->
  (forall body tl,
     rest lx = "/"%char :: "/"%char :: body ++ tl ->
     forallb not_newline body = true ->
     tl = [] \/ (exists r, tl = nl :: r) ->
     exists lx', loop_reaches (init src) lx'
                 /\ tokens lx' = tokens lx /\ rest lx' = tl)
  /\ (forall text k,
        rest lx = "/"%char :: "*"%char :: text ->
        find_close text = Some k ->
        exists lx', loop_reaches (init src) lx'
                    /\ tokens lx' = tokens lx /\ rest lx' = drop (k + 2) text).
Proof.
  intros Hreach. split.
  - intros body tl Hrest Hbody Htl. exists (skip_comment lx).
    assert (Hc : current_char lx = Some "/"%char)
      by (by rewrite current_char_rest, Hrest).
    split; [|split].
    + eapply loop_reaches_step; [exact Hreach|exact Hc|].
      eapply tokenize_step_comment; [exact Hrest|by left].
    + apply tokens_skip_comment.
    + unfold skip_comment. rewrite Hc, peek_rest, Hrest. cbn [lookup list_lookup].
      cbn [Ascii.eqb Bool.eqb andb].
      rewrite (skip_line_loop_run ("/"%char :: "/"%char :: body) tl).
      * rewrite rest_advance_n, Hrest. cbn [length drop].
        by rewrite drop_app_length.
      * cbn [forallb]. by rewrite Hbody.
      * exact Htl.
      * exact Hrest.
      * rewrite remaining_rest, Hrest. cbn [length]. rewrite length_app. lia.
  - intros text k Hrest Hk. exists (skip_comment lx).
    assert (Hc : current_char lx = Some "/"%char)
      by (by rewrite current_char_rest, Hrest).
    split; [|split].
    + eapply loop_reaches_step; [exact Hreach|exact Hc|].
      eapply tokenize_step_comment; [exact Hrest|by right].
    + apply tokens_skip_comment.
    + unfold skip_comment. rewrite Hc, peek_rest, Hrest. cbn [lookup list_lookup].
      cbn [Ascii.eqb Bool.eqb andb].
      rewrite (skip_block_loop_run text).
      * rewrite Hk, !rest_advance_n, !rest_advance, Hrest. reflexivity.
      * by rewrite !rest_advance, Hrest.
      * rewrite remaining_rest, !rest_advance, Hrest. reflexivity.
Qed.

Lemma loop_ends_at_eof (src : string) (lx : Lexer) :
  loop_reaches (init src) lx -> rest lx = [] ->
  tokenize src = Some (Ok (tokens lx ++ [eof_token src])).
Proof.
  intros Hreach Hrest.
  pose proof (loop_reaches_moved _ _ Hreach) as Hm.
  pose proof (positioned_moved _ _ (positioned_init src) Hm) as [Hl Hk].
  assert (Hin : in_source lx).
  { eapply in_source_moved; [|exact Hm]. unfold in_source. cbn. lia. }
  assert (Hsrc : source lx = src) by (by rewrite (loop_reaches_source _ _ Hreach)).
  assert (Hc : current_char lx = None) by (by rewrite current_char_rest, Hrest).
  unfold tokenize.
  destruct (loop_reaches_fuel _ _ Hreach (S (String.length src))) as (m & Hpos & ->).
  { unfold in_source in Hin. rewrite Hsrc in Hin. cbn. lia. }
  destruct m as [|m]; [lia|]. cbn [tokenize_loop]. rewrite Hc.
  do 3 f_equal. pose proof (current_char_none lx Hin Hc) as Hend.
  unfold make_token, eof_token, chars.
  assert (consumed lx = list_ascii_of_string src) as Hall.
  { unfold consumed. rewrite Hend, Hsrc. apply take_ge. by rewrite length_chars. }
  by rewrite Hl, Hk, Hall.
Qed.

(** X20. A block comment that is never closed is not an error: where
    the loop of [tokenize] comes to [/*] and no [*/] follows, the rest
    of the input is skipped and the token list is the tokens read so
    far and EOF. A [/] directly after the [/*] does not close it. *)
Theorem unclosed_block_comment_is_accepted (src : string) (lx : Lexer)
    (text : list ascii) :
  loop_reaches (init src) lx ->
  rest lx = "/"%char :: "*"%char :: text ->
  find_close text = None ->
  tokenize src = Some (Ok (tokens lx ++ [eof_token src])).
Proof.
  intros Hreach Hrest Hnone.
  assert (Hc : current_char lx = Some "/"%char)
    by (by rewrite current_char_rest, Hrest).
  rewrite <- (tokens_skip_comment lx). apply loop_ends_at_eof.
  - eapply loop_reaches_step; [exact Hreach|exact Hc|].
    eapply tokenize_step_comment; [exact Hrest|by right].
  - unfold skip_comment. rewrite Hc, peek_rest, Hrest. cbn [lookup list_lookup].
    cbn [Ascii.eqb Bool.eqb andb].
    rewrite (skip_block_loop_run text).
    + rewrite Hnone, !rest_advance_n, !rest_advance, Hrest. cbn [tail].
      by rewrite drop_all.
    + by rewrite !rest_advance, Hrest.
    + rewrite remaining_rest, !rest_advance, Hrest. reflexivity.
Qed.

Lemma unclosed_block_comment_is_accepted_witness :
  tokenize "x /*/ y" =
    Some (Ok [ Tokens.mkToken Tokens.IDENTIFIER (Tokens.PStr "x") 1 1;
               eof_token "x /*/ y" ]).
Proof.
  apply (unclosed_block_comment_is_accepted "x /*/ y"
           (default (init "") (loop_state 2 (init "x /*/ y")))
           (list_ascii_of_string "/ y")).
  - apply (loop_state_reaches 2). vm_compute. reflexivity.
  - vm_compute. reflexivity.
  - vm_compute. reflexivity.
Defined.

Lemma comments_give_no_token_witness :
  exists lx',
    loop_reaches (init "x // c") lx'
    /\ tokens lx' = [Tokens.mkToken Tokens.IDENTIFIER (Tokens.PStr "x") 1 1]
    /\ rest lx' = [].
Proof.
  refine (proj1 (comments_give_no_token "x // c"
                   (default (init "") (loop_state 2 (init "x // c"))) _)
            (list_ascii_of_string " c") [] _ _ _).
  - apply (loop_state_reaches 2). vm_compute. reflexivity.
  - vm_compute. reflexivity.
  - vm_compute. reflexivity.
  - left. reflexivity.
Defined.

(** ** Words and numbers *)

Lemma word_start_class (c : ascii) :
  word_start c = true ->
  char_in c (String " " (String tab (String cr ""))) = false
  /\ Ascii.eqb c nl = false
  /\ Ascii.eqb c "/" = false
  /\ Ascii.eqb c dquote || Ascii.eqb c squote = false
  /\ is_ascii c = true
  /\ isdigit c = false
  /\ isalpha c || Ascii.eqb c "_" = true.
Proof.
  destruct c as [[] [] [] [] [] [] [] []]; intros H;
    try (vm_compute in H; discriminate H); vm_compute; auto 10.
Qed.

Lemma digit_class (c : ascii) :
  isdigit c = true ->
  char_in c (String " " (String tab (String cr ""))) = false
  /\ Ascii.eqb c nl = false
  /\ Ascii.eqb c "/" = false
  /\ Ascii.eqb c dquote || Ascii.eqb c squote = false
  /\ is_ascii c = true
  /\ Ascii.eqb c "." = false.
Proof.
  destruct c as [[] [] [] [] [] [] [] []]; intros H;
    try (vm_compute in H; discriminate H); vm_compute; auto 10.
Qed.

Lemma read_identifier_loop_run (tl : list ascii) :
  stops word_char tl ->
  forall word n lx res,
    rest lx = word ++ tl ->
    forallb word_char word = true ->
    length word <= n ->
    read_identifier_loop n lx res = Some (advance_n (length word) lx, res ++ word).
Proof.
  intros Htl. induction word as [|c word IH]; intros n lx res Hrest Hw Hn.
  - rewrite app_nil_r. destruct n as [|n]; [reflexivity|].
    cbn [read_identifier_loop length advance_n].
    rewrite current_char_rest, Hrest. cbn [app].
    destruct tl as [|d tl]; [reflexivity|]. cbn [head].
    destruct Htl as [Ha Hd]. unfold word_char in Hd. rewrite Ha in Hd |- *.
    cbn [negb andb] in *. by rewrite Hd.
  - cbn [forallb] in Hw. apply andb_prop in Hw as [Hc Hw].
    destruct n as [|n]; [cbn in Hn; lia|]. cbn [read_identifier_loop length].
    rewrite current_char_rest, Hrest. cbn [app head].
    unfold word_char in Hc. apply andb_prop in Hc as [Ha Hc]. rewrite Ha, Hc.
    cbn [negb]. rewrite advance_n_S.
    rewrite (IH n (advance lx) (res ++ [c]));
      [by rewrite <- app_assoc|by rewrite rest_advance, Hrest|exact Hw|cbn in Hn; lia].
Qed.

Lemma loop_reaches_positioned (src : string) (lx : Lexer) :
  loop_reaches (init src) lx ->
  line lx = line_of (consumed lx) /\ column lx = column_of (consumed lx).
Proof.
  intros Hreach. apply (positioned_moved (init src)); [apply positioned_init|].
  by apply loop_reaches_moved.
Qed.

(** X21. A word is one token. Wherever the loop of [tokenize] comes to
    a letter or an underscore, the longest run of letters, digits and
    underscores from there is read as one token at the position of its
    first character: the keyword the table has for the word (with the
    boolean for [true] and [false], and NULL without a value for
    [none]), or else IDENTIFIER with the word as its value. *)
Theorem word_is_one_token (src : string) (lx : Lexer) (c : ascii)
    (word tl : list ascii) :
  loop_reaches (init src) lx ->
  rest lx = c :: word ++ tl ->
  word_start c = true ->
  forallb word_char word = true ->
  stops word_char tl ->
  exists lx',
    loop_reaches (init src) lx'
    /\ tokens lx' =
         tokens lx ++ [token_at lx (word_token (string_of_list_ascii (c :: word)))]
    /\ rest lx' = tl.
Proof.
  intros Hreach Hrest Hc Hw Htl.
  destruct (word_start_class c Hc) as (Hws & Hnl & Hsl & Hq & Ha & Hd & Hal).
  destruct (loop_reaches_positioned src lx Hreach) as [Hl Hk].
  assert (Hcur : current_char lx = Some c) by (by rewrite current_char_rest, Hrest).
  assert (Hloop : read_identifier_loop (remaining lx) lx [] =
            Some (advance_n (length (c :: word)) lx, c :: word)).
  { rewrite (read_identifier_loop_run tl Htl (c :: word)); [reflexivity|exact Hrest| |].
    - cbn [forallb]. rewrite Hw. unfold word_char, word_start in *.
      apply andb_prop in Hc as [-> Hc']. unfold isalnum.
      apply orb_prop in Hc' as [-> | ->]; cbn; by rewrite ?orb_true_r.
    - rewrite remaining_rest, Hrest. cbn [length]. rewrite length_app. lia. }
  assert (Hstep : tokenize_step c lx =
            Ok (push_token (advance_n (length (c :: word)) lx)
                  (token_at lx (word_token (string_of_list_ascii (c :: word)))))).
  { unfold tokenize_step. rewrite Hws, Hnl, Hsl, Hq, Ha, Hd, Hal. cbn [andb negb].
    unfold read_identifier. rewrite Hloop. unfold token_at, word_token.
    rewrite <- Hl, <- Hk.
    destruct (Tokens.assoc _ Tokens.KEYWORDS) as [[]|]; reflexivity. }
  eexists. split; [|split].
  - eapply loop_reaches_step; [exact Hreach|exact Hcur|exact Hstep].
  - cbn [tokens push_token]. by rewrite tokens_advance_n.
  - change (rest (push_token ?l ?t)) with (rest l).
    rewrite rest_advance_n, Hrest. cbn [length drop]. by rewrite drop_app_length.
Qed.

Lemma word_is_one_token_witness :
  exists lx',
    loop_reaches (init "true_x=1") lx'
    /\ tokens lx' = [] ++ [Tokens.mkToken Tokens.IDENTIFIER (Tokens.PStr "true_x") 1 1]
    /\ rest lx' = list_ascii_of_string "=1".
Proof.
  apply (word_is_one_token "true_x=1" (init "true_x=1") "t"
           (list_ascii_of_string "rue_x") (list_ascii_of_string "=1")).
  - constructor.
  - reflexivity.
  - reflexivity.
  - reflexivity.
  - split; reflexivity.
Defined.

Lemma read_number_loop_run (tl : list ascii) :
  number_ends tl ->
  forall digits n lx res,
    rest lx = digits ++ tl ->
    forallb isdigit digits = true ->
    length digits <= n ->
    read_number_loop n lx res false =
      Some (advance_n (length digits) lx, res ++ digits, false).
Proof.
  intros Htl. induction digits as [|c digits IH]; intros n lx res Hrest Hd Hn.
  - rewrite app_nil_r. destruct n as [|n]; [reflexivity|].
    cbn [read_number_loop length advance_n].
    rewrite current_char_rest, peek_rest, Hrest. cbn [app].
    destruct tl as [|d tl]; [reflexivity|]. cbn [head].
    destruct Htl as (Ha & Hnd & Hdot). rewrite Ha, Hnd. cbn [negb].
    destruct (Ascii.eqb d ".") eqn:Hp; [|reflexivity].
    specialize (Hdot eq_refl). cbn [lookup list_lookup].
    destruct tl as [|e tl]; [reflexivity|]. cbn [lookup list_lookup].
    destruct Hdot as [He Hne]. by rewrite He, Hne.
  - cbn [forallb] in Hd. apply andb_prop in Hd as [Hc Hd].
    destruct n as [|n]; [cbn in Hn; lia|]. cbn [read_number_loop length].
    rewrite current_char_rest, Hrest. cbn [app head].
    destruct (digit_class c Hc) as (_ & _ & _ & _ & Ha & _). rewrite Ha, Hc.
    cbn [negb]. rewrite advance_n_S.
    rewrite (IH n (advance lx) (res ++ [c]));
      [by rewrite <- app_assoc|by rewrite rest_advance, Hrest|exact Hd|cbn in Hn; lia].
Qed.

(** X22. An integer literal is one token. Wherever the loop of
    [tokenize] comes to a digit, the run of digits from there, ended by
    the end of the input, by a character that is neither a digit nor a
    dot, or by a dot that no digit follows, is read as one INTEGER
    token at the position of its first digit, whose value is the number
    the digits spell in base ten; the dot is left for the next
    token. *)
Theorem digits_are_one_integer (src : string) (lx : Lexer) (c : ascii)
    (digits tl : list ascii) :
  loop_reaches (init src) lx ->
  rest lx = c :: digits ++ tl ->
  isdigit c = true ->
  forallb isdigit digits = true ->
  number_ends tl ->
  length (c :: digits) <= max_str_digits ->
  exists lx',
    loop_reaches (init src) lx'
    /\ tokens lx' =
         tokens lx ++ [token_at lx (Tokens.INTEGER,
                                    Tokens.PInt (int_of_digits (c :: digits)))]
    /\ rest lx' = tl.
Proof.
  intros Hreach Hrest Hc Hd Htl Hlen.
  destruct (digit_class c Hc) as (Hws & Hnl & Hsl & Hq & Ha & _).
  destruct (loop_reaches_positioned src lx Hreach) as [Hl Hk].
  assert (Hcur : current_char lx = Some c) by (by rewrite current_char_rest, Hrest).
  assert (Hloop : read_number_loop (remaining lx) lx [] false =
            Some (advance_n (length (c :: digits)) lx, c :: digits, false)).
  { rewrite (read_number_loop_run tl Htl (c :: digits)); [reflexivity|exact Hrest| |].
    - cbn [forallb]. by rewrite Hc, Hd.
    - rewrite remaining_rest, Hrest. cbn [length]. rewrite length_app. lia. }
  assert (Hstep : tokenize_step c lx =
            Ok (push_token (advance_n (length (c :: digits)) lx)
                  (token_at lx (Tokens.INTEGER,
                                Tokens.PInt (int_of_digits (c :: digits)))))).
  { unfold tokenize_step. rewrite Hws, Hnl, Hsl, Hq, Ha, Hc. cbn [andb negb].
    unfold read_number. rewrite Hloop. unfold token_at. cbn [fst snd].
    rewrite <- Hl, <- Hk. apply Nat.leb_le in Hlen. by rewrite Hlen. }
  eexists. split; [|split].
  - eapply loop_reaches_step; [exact Hreach|exact Hcur|exact Hstep].
  - cbn [tokens push_token]. by rewrite tokens_advance_n.
  - change (rest (push_token ?l ?t)) with (rest l).
    rewrite rest_advance_n, Hrest. cbn [length drop]. by rewrite drop_app_length.
Qed.

Lemma digits_are_one_integer_witness :
  exists lx',
    loop_reaches (init "12.x") lx'
    /\ tokens lx' = [] ++ [Tokens.mkToken Tokens.INTEGER (Tokens.PInt 12) 1 1]
    /\ rest lx' = list_ascii_of_string ".x".
Proof.
  apply (digits_are_one_integer "12.x" (init "12.x") "1"
           (list_ascii_of_string "2") (list_ascii_of_string ".x")).
  - constructor.
  - reflexivity.
  - reflexivity.
  - reflexivity.
  - split; [reflexivity|]. split; [reflexivity|]. intros _. split; reflexivity.
  - vm_compute. lia.
Defined.

End TokenizeProofs.

(** ** Compiled operator expressions *)

Module OperatorProofs.
Import Ast Py Bytecode OperatorSpec.

(** ** The compiler on operator expressions *)

Lemma length_code_of (e : expr) : operator_expr e = true -> length (code_of e) = size e.
Proof.
  induction e; cbn [operator_expr code_of size]; try discriminate; try reflexivity.
  - intros [[Ho Hl]%andb_prop Hr]%andb_prop.
    destruct (Compiler.binary_opcode operator); [|discriminate].
    rewrite !length_app, IHe1, IHe2 by assumption. cbn. lia.
  - intros [Ho Ha]%andb_prop.
    destruct (unary_opcode operator); [|discriminate].
    rewrite !length_app, IHe by assumption. cbn. lia.
  - intros [[Ho Hl]%andb_prop Hr]%andb_prop.
    destruct (Compiler.comparison_opcode operator); [|discriminate].
    rewrite !length_app, IHe1, IHe2 by assumption. cbn. lia.
Qed.

Lemma emit__appends (op : OpCode) (arg : operand_value) (c : Compiler.Compiler) :
  Compiler.emit_ op arg c =
    Compiler.Ok (tt, Compiler.with_instructions
                       (Compiler.instructions c ++ [mkInstruction op arg]) c).
Proof. reflexivity. Qed.

Lemma with_instructions_twice (a b : list Instruction) (c : Compiler.Compiler) :
  Compiler.with_instructions b (Compiler.with_instructions a c) =
  Compiler.with_instructions b c.
Proof. reflexivity. Qed.

Lemma with_instructions_same (c : Compiler.Compiler) :
  Compiler.with_instructions (Compiler.instructions c) c = c.
Proof. by destruct c. Qed.

(** The compiler appends the postfix code and changes nothing else. *)
Lemma compile_expression_code :
  forall fuel e c,
    operator_expr e = true ->
    size e <= fuel ->
    Compiler.compile_expression fuel e c =
      Compiler.Ok (tt, Compiler.with_instructions
                         (Compiler.instructions c ++ code_of e) c).
Proof.
  induction fuel as [|fuel IH]; intros e c He Hsize.
  { destruct e; cbn in Hsize; lia. }
  cbn [Compiler.compile_expression].
  destruct e; cbn [operator_expr] in He; try discriminate He;
    cbn [Compiler.compile_expression_node code_of size] in *;
    try apply emit__appends.
  - apply andb_prop in He as [[Ho Hl]%andb_prop Hr].
    unfold Compiler.bind. rewrite (IH e1 c Hl) by lia.
    rewrite (IH e2 _ Hr) by lia.
    destruct (Compiler.binary_opcode operator) as [o|]; [|discriminate].
    cbn [Compiler.emit_opt]. rewrite emit__appends.
    cbn [Compiler.instructions Compiler.with_instructions].
    by rewrite <- !app_assoc.
  - apply andb_prop in He as [Ho Ha].
    unfold Compiler.compile_UnaryOp, Compiler.bind. rewrite (IH e c Ha) by lia.
    unfold unary_opcode in *.
    destruct (String.eqb operator "-"); [|destruct (String.eqb operator "~");
      [|destruct (String.eqb operator "not"); [|discriminate]]];
      rewrite emit__appends; cbn [Compiler.instructions Compiler.with_instructions];
      by rewrite <- !app_assoc.
  - apply andb_prop in He as [[Ho Hl]%andb_prop Hr].
    unfold Compiler.bind. rewrite (IH e1 c Hl) by lia.
    rewrite (IH e2 _ Hr) by lia.
    destruct (Compiler.comparison_opcode operator) as [o|]; [|discriminate].
    cbn [Compiler.emit_opt]. rewrite emit__appends.
    cbn [Compiler.instructions Compiler.with_instructions].
    by rewrite <- !app_assoc.
Qed.

(** ** The machine on the postfix code *)

Lemma run_loop_step (instructions : list Instruction) (m m' : VM.VirtualMachine)
    (i : Instruction) (F : nat) :
  instructions !! VM.pc m = Some i ->
  VM.execute_instruction i (snd (VM.set_pc (S (VM.pc m)) m)) = (Val false, m') ->
  VM.run_loop (S F) instructions m = VM.run_loop F instructions m'.
Proof.
  intros Hi Hx. cbn [VM.run_loop]. rewrite Hi. unfold VM.bind at 1.
  cbn [VM.set_pc snd] in *. unfold VM.bind at 1. by rewrite Hx.
Qed.

Lemma run_loop_fail (instructions : list Instruction) (m m' : VM.VirtualMachine)
    (i : Instruction) (F : nat) (r : outcome bool) :
  instructions !! VM.pc m = Some i ->
  VM.execute_instruction i (snd (VM.set_pc (S (VM.pc m)) m)) = (r, m') ->
  match r with
  | Val _ | OutOfFuel => True
  | Raise ex => VM.run_loop (S F) instructions m = (Raise ex, m')
  | Unmodelled => VM.run_loop (S F) instructions m = (Unmodelled, m')
  end.
Proof.
  intros Hi Hx. destruct r; try exact I; cbn [VM.run_loop]; rewrite Hi;
    unfold VM.bind at 1; cbn [VM.set_pc snd] in *; unfold VM.bind at 1;
    by rewrite Hx.
Qed.

Lemma lookup_code (pre code post : list Instruction) (k : nat) (i : Instruction) :
  code !! k = Some i -> (pre ++ code ++ post) !! (k + length pre) = Some i.
Proof.
  intros H. rewrite lookup_app_r by lia.
  replace (k + length pre - length pre) with k by lia.
  by apply lookup_app_l_Some.
Qed.

(** The results of the operators on values that are not tuples are
    not tuples. *)
Lemma binary_not_tuple (o : OpCode) (f : value -> value -> H value)
    (a b r : value) (w w' : world) :
  binary_function o = Some f ->
  not_tuple a = true -> not_tuple b = true ->
  f a b w = (Val r, w') -> not_tuple r = true.
Proof.
  intros Hf Ha Hb H.
  destruct o; cbn [binary_function] in Hf; try discriminate Hf;
    injection Hf as <-;
    destruct a; try discriminate Ha; destruct b; try discriminate Hb;
    cbn in H;
    unfold float_binop, py_eq_value, py_order_value, of_heap, of_outcome, hbind,
      hret, hraise, hunmodelled, new_list, alloc, get_list, get_obj in H;
    repeat (match type of H with
            | context [match ?x with _ => _ end] => destruct x eqn:?
            | context [if ?x then _ else _] => destruct x eqn:?
            end; try discriminate H);
    try discriminate H;
    try (injection H as <- _; reflexivity).
  all: match goal with
       | Hq : match ?x with _ => _ end = Some _ |- _ =>
           destruct x; [injection Hq as <-|discriminate Hq]
       end;
    injection H as <- _; reflexivity.
Qed.

Lemma binary_step (instructions : list Instruction) (m : VM.VirtualMachine)
    (o : OpCode) (fn : value -> value -> H value) (a b : value) (st : list value)
    (F : nat) (ro : outcome value) (w3 : world) :
  binary_function o = Some fn ->
  instructions !! VM.pc m = Some (instr o) ->
  VM.stack m = b :: a :: st ->
  fn a b (VM.host m) = (ro, w3) ->
  match ro with
  | Val v =>
      VM.run_loop (S F) instructions m =
        VM.run_loop F instructions
          {| VM.host := w3; VM.stack := v :: st; VM.frames := VM.frames m;
             VM.globals := VM.globals m; VM.constants := VM.constants m;
             VM.pc := S (VM.pc m) |}
  | _ =>
      exists m', VM.run_loop (S F) instructions m = (ending ro, m')
                 /\ VM.host m' = w3
  end.
Proof.
  intros Hfn Hi Hst Hop.
  assert (Hx : VM.execute_instruction (instr o) (snd (VM.set_pc (S (VM.pc m)) m)) =
            match ro with
            | Val v => (Val false,
                        {| VM.host := w3; VM.stack := v :: st;
                           VM.frames := VM.frames m; VM.globals := VM.globals m;
                           VM.constants := VM.constants m; VM.pc := S (VM.pc m) |})
            | Raise ex => (Raise ex,
                        {| VM.host := w3; VM.stack := st;
                           VM.frames := VM.frames m; VM.globals := VM.globals m;
                           VM.constants := VM.constants m; VM.pc := S (VM.pc m) |})
            | Unmodelled => (Unmodelled,
                        {| VM.host := w3; VM.stack := st;
                           VM.frames := VM.frames m; VM.globals := VM.globals m;
                           VM.constants := VM.constants m; VM.pc := S (VM.pc m) |})
            | OutOfFuel => (OutOfFuel,
                        {| VM.host := w3; VM.stack := st;
                           VM.frames := VM.frames m; VM.globals := VM.globals m;
                           VM.constants := VM.constants m; VM.pc := S (VM.pc m) |})
            end).
  { destruct o; cbn [binary_function] in Hfn; try discriminate Hfn;
      injection Hfn as <-;
      unfold VM.execute_instruction, instr; cbn [opcode operand];
      unfold VM.binary, VM.bind, VM.pop, VM.lift, VM.push, VM.ret, VM.set_pc;
      cbn [snd VM.stack VM.host VM.set_stack VM.frames VM.globals VM.constants VM.pc];
      rewrite Hst; cbn [VM.stack VM.host VM.set_stack VM.frames VM.globals
                        VM.constants VM.pc];
      rewrite Hop; by destruct ro. }
  destruct ro as [v|ex| |].
  - by apply (run_loop_step _ _ _ (instr o)).
  - eexists. split; [exact (run_loop_fail _ _ _ _ F _ Hi Hx)|reflexivity].
  - eexists. split; [exact (run_loop_fail _ _ _ _ F _ Hi Hx)|reflexivity].
  - eexists. split.
    + cbn [VM.run_loop]. rewrite Hi.
      unfold VM.bind at 1. cbn [VM.set_pc snd] in *. unfold VM.bind at 1.
      by rewrite Hx.
    + reflexivity.
Qed.

(** The evaluator applies to the two operand values the function that
    the instruction of the operator applies. *)
Lemma binary_chain (op : string) (o : OpCode) :
  Compiler.binary_opcode op = Some o ->
  exists fn,
    binary_function o = Some fn
    /\ forall evaluate l r,
         Interp.evaluate_BinaryOp evaluate l op r =
         Interp.bind (evaluate l) (fun left =>
           Interp.bind (evaluate r) (fun right => Interp.lift (fn left right))).
Proof.
  unfold Compiler.binary_opcode.
  repeat match goal with
  | |- context [String.eqb op ?lit] =>
      destruct (String.eqb_spec op lit) as [->|_];
        [intros [= <-]; eexists; split; [reflexivity|reflexivity]|]
  end.
  discriminate.
Qed.

Lemma comparison_chain (op : string) (o : OpCode) :
  Compiler.comparison_opcode op = Some o ->
  exists fn,
    binary_function o = Some fn
    /\ forall evaluate l r,
         Interp.evaluate_ComparisonOp evaluate l op r =
         Interp.bind (evaluate l) (fun left =>
           Interp.bind (evaluate r) (fun right => Interp.lift (fn left right))).
Proof.
  unfold Compiler.comparison_opcode.
  repeat match goal with
  | |- context [String.eqb op ?lit] =>
      destruct (String.eqb_spec op lit) as [->|_];
        [intros [= <-]; eexists; split; [reflexivity|reflexivity]|]
  end.
  discriminate.
Qed.

Lemma py_bool_is_truthy (v : value) : not_tuple v = true -> py_bool v = is_truthy v.
Proof. by destruct v. Qed.

(** The unary operators: what the evaluator computes from the operand
    and what the instruction does to the stack. *)
Lemma unary_step (instructions : list Instruction) (m : VM.VirtualMachine)
    (op : string) (o : OpCode) (a : value) (st : list value) (F : nat)
    (s : Interp.state) (e : expr) :
  unary_opcode op = Some o ->
  instructions !! VM.pc m = Some (instr o) ->
  VM.stack m = a :: st ->
  not_tuple a = true ->
  VM.host m = Interp.host s ->
  forall ro s',
    Interp.evaluate_UnaryOp (fun _ => Interp.ret a) op e s = (ro, s') ->
    match ro with
    | Val v =>
        not_tuple v = true
        /\ VM.run_loop (S F) instructions m =
             VM.run_loop F instructions
               {| VM.host := Interp.host s'; VM.stack := v :: st;
                  VM.frames := VM.frames m; VM.globals := VM.globals m;
                  VM.constants := VM.constants m; VM.pc := S (VM.pc m) |}
    | _ =>
        exists m', VM.run_loop (S F) instructions m = (ending ro, m')
                   /\ VM.host m' = Interp.host s'
    end.
Proof.
  intros Hop Hi Hst Hnt Hhost. unfold unary_opcode in Hop.
  assert (Hrun : forall (h : H value) ro w,
            h (VM.host m) = (ro, w) ->
            (forall mm, VM.stack mm = a :: st ->
               VM.execute_instruction (instr o) mm =
                 VM.bind (VM.lift h)
                   (fun r => VM.bind (VM.push r) (fun _ => VM.ret false))
                   (VM.set_stack st mm)) ->
            match ro with
            | Val v =>
                VM.run_loop (S F) instructions m =
                  VM.run_loop F instructions
                    {| VM.host := w; VM.stack := v :: st;
                       VM.frames := VM.frames m; VM.globals := VM.globals m;
                       VM.constants := VM.constants m; VM.pc := S (VM.pc m) |}
            | _ => exists m', VM.run_loop (S F) instructions m = (ending ro, m')
                              /\ VM.host m' = w
            end).
  { intros h ro w Hh Hdef.
    assert (Hx : VM.execute_instruction (instr o) (snd (VM.set_pc (S (VM.pc m)) m)) =
              match ro with
              | Val v => (Val false,
                          {| VM.host := w; VM.stack := v :: st;
                             VM.frames := VM.frames m; VM.globals := VM.globals m;
                             VM.constants := VM.constants m; VM.pc := S (VM.pc m) |})
              | Raise ex => (Raise ex,
                          {| VM.host := w; VM.stack := st;
                             VM.frames := VM.frames m; VM.globals := VM.globals m;
                             VM.constants := VM.constants m; VM.pc := S (VM.pc m) |})
              | Unmodelled => (Unmodelled,
                          {| VM.host := w; VM.stack := st;
                             VM.frames := VM.frames m; VM.globals := VM.globals m;
                             VM.constants := VM.constants m; VM.pc := S (VM.pc m) |})
              | OutOfFuel => (OutOfFuel,
                          {| VM.host := w; VM.stack := st;
                             VM.frames := VM.frames m; VM.globals := VM.globals m;
                             VM.constants := VM.constants m; VM.pc := S (VM.pc m) |})
              end).
    { rewrite Hdef by exact Hst.
      unfold VM.bind, VM.lift, VM.push, VM.ret, VM.set_pc.
      cbn [snd VM.stack VM.host VM.set_stack VM.frames VM.globals VM.constants VM.pc].
      rewrite Hh. by destruct ro. }
    destruct ro as [v|ex| |].
    - by apply (run_loop_step _ _ _ (instr o)).
    - eexists. split; [exact (run_loop_fail _ _ _ _ F _ Hi Hx)|reflexivity].
    - eexists. split; [exact (run_loop_fail _ _ _ _ F _ Hi Hx)|reflexivity].
    - eexists. split.
      + cbn [VM.run_loop]. rewrite Hi.
        unfold VM.bind at 1. cbn [VM.set_pc snd] in *. unfold VM.bind at 1.
        by rewrite Hx.
      + reflexivity. }
  destruct (String.eqb_spec op "-") as [->|_].
  { injection Hop as <-. intros ro s' Hk.
    change (Interp.lift (py_neg a) s = (ro, s')) in Hk. unfold Interp.lift in Hk.
    rewrite <- Hhost in Hk. destruct (py_neg a (VM.host m)) as [ro' w] eqn:Hh.
    injection Hk as <- <-. cbn [Interp.host Interp.set_host].
    assert (Hdef : forall mm, VM.stack mm = a :: st ->
              VM.execute_instruction (instr NEG) mm =
                VM.bind (VM.lift (py_neg a))
                  (fun r => VM.bind (VM.push r) (fun _ => VM.ret false))
                  (VM.set_stack st mm)).
    { intros mm Hmm. unfold VM.execute_instruction, instr. cbn [opcode operand].
      unfold VM.bind at 1 2. unfold VM.pop. by rewrite Hmm. }
    specialize (Hrun (py_neg a) ro' w Hh Hdef).
    destruct ro' as [v| | |]; try exact Hrun. split; [|exact Hrun].
    destruct a; try discriminate Hnt; cbn in Hh; try discriminate Hh;
      try (destruct b); injection Hh as <- _; reflexivity. }
  destruct (String.eqb_spec op "~") as [->|_].
  { injection Hop as <-. intros ro s' Hk.
    change (Interp.lift (py_invert a) s = (ro, s')) in Hk. unfold Interp.lift in Hk.
    rewrite <- Hhost in Hk. destruct (py_invert a (VM.host m)) as [ro' w] eqn:Hh.
    injection Hk as <- <-. cbn [Interp.host Interp.set_host].
    assert (Hdef : forall mm, VM.stack mm = a :: st ->
              VM.execute_instruction (instr BIT_NOT) mm =
                VM.bind (VM.lift (py_invert a))
                  (fun r => VM.bind (VM.push r) (fun _ => VM.ret false))
                  (VM.set_stack st mm)).
    { intros mm Hmm. unfold VM.execute_instruction, instr. cbn [opcode operand].
      unfold VM.bind at 1 2. unfold VM.pop. by rewrite Hmm. }
    specialize (Hrun (py_invert a) ro' w Hh Hdef).
    destruct ro' as [v| | |]; try exact Hrun. split; [|exact Hrun].
    destruct a; try discriminate Hnt; cbn in Hh; try discriminate Hh;
      try (destruct b); injection Hh as <- _; reflexivity. }
  destruct (String.eqb_spec op "not") as [->|_]; [|discriminate].
  injection Hop as <-. intros ro s' Hk.
  change (Interp.bind (Interp.lift (is_truthy a))
            (fun t => Interp.ret (VBool (negb t))) s = (ro, s')) in Hk.
  unfold Interp.bind, Interp.lift, Interp.ret in Hk. rewrite <- Hhost in Hk.
  destruct (is_truthy a (VM.host m)) as [rt w] eqn:Ht.
  assert (Hx : VM.execute_instruction (instr NOT) (snd (VM.set_pc (S (VM.pc m)) m)) =
            match rt with
            | Val t => (Val false,
                        {| VM.host := w; VM.stack := VBool (negb t) :: st;
                           VM.frames := VM.frames m; VM.globals := VM.globals m;
                           VM.constants := VM.constants m; VM.pc := S (VM.pc m) |})
            | Raise ex => (Raise ex,
                        {| VM.host := w; VM.stack := st;
                           VM.frames := VM.frames m; VM.globals := VM.globals m;
                           VM.constants := VM.constants m; VM.pc := S (VM.pc m) |})
            | Unmodelled => (Unmodelled,
                        {| VM.host := w; VM.stack := st;
                           VM.frames := VM.frames m; VM.globals := VM.globals m;
                           VM.constants := VM.constants m; VM.pc := S (VM.pc m) |})
            | OutOfFuel => (OutOfFuel,
                        {| VM.host := w; VM.stack := st;
                           VM.frames := VM.frames m; VM.globals := VM.globals m;
                           VM.constants := VM.constants m; VM.pc := S (VM.pc m) |})
            end).
  { unfold VM.execute_instruction, instr. cbn [opcode operand].
    unfold VM.bind, VM.pop, VM.lift, VM.push, VM.ret, VM.set_pc.
    cbn [snd VM.stack VM.host VM.set_stack VM.frames VM.globals VM.constants VM.pc].
    rewrite Hst.
    cbn [VM.stack VM.host VM.set_stack VM.frames VM.globals VM.constants VM.pc].
    rewrite (py_bool_is_truthy a Hnt), Ht. by destruct rt. }
  destruct rt as [t|ex| |]; injection Hk as <- <-;
    cbn [Interp.host Interp.set_host ending].
  - split; [reflexivity|]. by apply (run_loop_step _ _ _ (instr NOT)).
  - eexists. split; [exact (run_loop_fail _ _ _ _ F _ Hi Hx)|reflexivity].
  - eexists. split; [exact (run_loop_fail _ _ _ _ F _ Hi Hx)|reflexivity].
  - eexists. split.
    + cbn [VM.run_loop]. rewrite Hi.
      unfold VM.bind at 1. cbn [VM.set_pc snd] in *. unfold VM.bind at 1.
      by rewrite Hx.
    + reflexivity.
Qed.

Lemma lookup_operator (pre a b post : list Instruction) (i : Instruction) (n : nat) :
  n = length b + (length a + length pre) ->
  (pre ++ (a ++ b ++ [i]) ++ post) !! n = Some i.
Proof.
  intros ->.
  replace (pre ++ (a ++ b ++ [i]) ++ post) with ((pre ++ a ++ b) ++ i :: post)
    by (rewrite <- !app_assoc; reflexivity).
  apply list_lookup_middle. rewrite !length_app. lia.
Qed.

Definition simulated (f : nat) : Prop :=
  forall e s r s',
    operator_expr e = true -> size e <= f ->
    Interp.evaluate f e s = (r, s') ->
    forall instructions pre post m,
      instructions = pre ++ code_of e ++ post ->
      VM.pc m = length pre -> VM.host m = Interp.host s ->
      simulates instructions m (size e) r (Interp.host s').

Lemma simulates_binary (f : nat) (l r0 : expr) (o : OpCode)
    (fn : value -> value -> H value) (s s' : Interp.state) (r : outcome value) :
  simulated f ->
  operator_expr l = true -> operator_expr r0 = true ->
  size l + size r0 <= f ->
  binary_function o = Some fn ->
  Interp.bind (Interp.evaluate f l)
    (fun left => Interp.bind (Interp.evaluate f r0)
       (fun right => Interp.lift (fn left right))) s = (r, s') ->
  forall instructions pre post m,
    instructions = pre ++ (code_of l ++ code_of r0 ++ [instr o]) ++ post ->
    VM.pc m = length pre -> VM.host m = Interp.host s ->
    simulates instructions m (S (size l + size r0)) r (Interp.host s').
Proof.
  intros IH Hl Hr Hsz Hfn Heval instructions pre post m Hcode Hpc Hhost.
  unfold Interp.bind at 1 in Heval.
  destruct (Interp.evaluate f l s) as [rl s1] eqn:El.
  assert (IHl : simulates instructions m (size l) rl (Interp.host s1)).
  { apply (IH l s rl s1 Hl ltac:(lia) El instructions pre
             (code_of r0 ++ [instr o] ++ post) m); [|exact Hpc|exact Hhost].
    rewrite Hcode, <- !app_assoc. reflexivity. }
  destruct rl as [a|ex| |].
  2-4: injection Heval as <- <-; intros F HF; apply IHl; lia.
  destruct IHl as [Hnta Hrunl].
  unfold Interp.bind at 1 in Heval.
  destruct (Interp.evaluate f r0 s1) as [rr s2] eqn:Er.
  assert (IHr : simulates instructions (pushed a (size l) (Interp.host s1) m)
                  (size r0) rr (Interp.host s2)).
  { apply (IH r0 s1 rr s2 Hr ltac:(lia) Er instructions (pre ++ code_of l)
             ([instr o] ++ post)); [| |reflexivity].
    - rewrite Hcode, <- !app_assoc. reflexivity.
    - cbn [pushed VM.pc]. rewrite length_app, length_code_of by exact Hl. lia. }
  destruct rr as [b|ex| |].
  2-4: injection Heval as <- <-; intros F HF;
       replace F with (size l + (F - size l)) by lia; rewrite Hrunl;
       apply IHr; lia.
  destruct IHr as [Hntb Hrunr].
  unfold Interp.lift in Heval.
  destruct (fn a b (Interp.host s2)) as [ro w3] eqn:Hop.
  injection Heval as <- <-. cbn [Interp.host Interp.set_host].
  set (m2 := pushed b (size r0) (Interp.host s2)
               (pushed a (size l) (Interp.host s1) m)) in *.
  assert (Hi : instructions !! VM.pc m2 = Some (instr o)).
  { rewrite Hcode. apply lookup_operator. subst m2. cbn [pushed VM.pc].
    rewrite !length_code_of by assumption. lia. }
  assert (Hstep := fun F =>
            binary_step instructions m2 o fn a b (VM.stack m) F ro w3 Hfn Hi
              eq_refl Hop).
  destruct ro as [v|ex| |].
  - split; [exact (binary_not_tuple o fn a b v _ _ Hfn Hnta Hntb Hop)|].
    intros F.
    replace (S (size l + size r0) + F) with (size l + (size r0 + S F)) by lia.
    rewrite Hrunl, Hrunr, (Hstep F). f_equal. subst m2. unfold pushed.
    cbn [VM.host VM.stack VM.frames VM.globals VM.constants VM.pc].
    f_equal. lia.
  - intros F HF.
    replace F with (size l + (size r0 + S (F - S (size l + size r0)))) by lia.
    rewrite Hrunl, Hrunr. apply Hstep.
  - intros F HF.
    replace F with (size l + (size r0 + S (F - S (size l + size r0)))) by lia.
    rewrite Hrunl, Hrunr. apply Hstep.
  - intros F HF.
    replace F with (size l + (size r0 + S (F - S (size l + size r0)))) by lia.
    rewrite Hrunl, Hrunr. apply Hstep.
Qed.

Lemma simulates_literal (instructions pre post : list Instruction)
    (m : VM.VirtualMachine) (i : Instruction) (v : value) (s : Interp.state) :
  instructions = pre ++ [i] ++ post ->
  VM.pc m = length pre -> VM.host m = Interp.host s ->
  not_tuple v = true ->
  VM.execute_instruction i (snd (VM.set_pc (S (VM.pc m)) m))
  = (Val false, pushed v 1 (VM.host m) m) ->
  simulates instructions m 1 (Val v) (Interp.host s).
Proof.
  intros Hcode Hpc Hhost Hnt Hx. split; [exact Hnt|]. intros F.
  rewrite <- Hhost. apply run_loop_step with i; [|exact Hx].
  rewrite Hcode, Hpc. by apply list_lookup_middle.
Qed.

Lemma evaluate_simulated (f : nat) : simulated f.
Proof.
  induction f as [|f IH]; intros e s r s' He Hsz Heval instructions pre post m
    Hcode Hpc Hhost.
  { destruct e; cbn in Hsz; lia. }
  cbn [Interp.evaluate] in Heval.
  destruct e; cbn [operator_expr] in He; try discriminate He;
    cbn [Interp.evaluate_node size code_of] in *.
  1-5: injection Heval as <- <-;
       eapply simulates_literal; [exact Hcode|exact Hpc|exact Hhost|reflexivity|reflexivity].
  - (* BinaryOp *)
    apply andb_prop in He as [He Hr]. apply andb_prop in He as [Ho Hl].
    destruct (Compiler.binary_opcode operator) as [o|] eqn:Hbo; [|discriminate Ho].
    destruct (binary_chain _ _ Hbo) as (fn & Hfn & Hchain).
    rewrite Hchain in Heval.
    eapply (simulates_binary f); eauto. lia.
  - (* UnaryOp *)
    apply andb_prop in He as [Ho Ha].
    destruct (unary_opcode operator) as [o|] eqn:Huo; [|discriminate Ho].
    assert (Heval' :
      Interp.bind (Interp.evaluate f e)
        (fun a => Interp.evaluate_UnaryOp (fun _ => Interp.ret a) operator e) s
      = (r, s')) by exact Heval.
    clear Heval. unfold Interp.bind at 1 in Heval'.
    destruct (Interp.evaluate f e s) as [ra s1] eqn:Ea.
    assert (IHa : simulates instructions m (size e) ra (Interp.host s1)).
    { apply (IH e s ra s1 Ha ltac:(lia) Ea instructions pre ([instr o] ++ post) m);
        [|exact Hpc|exact Hhost].
      rewrite Hcode, <- !app_assoc. reflexivity. }
    destruct ra as [a|ex| |].
    2-4: injection Heval' as <- <-; intros F HF; apply IHa; lia.
    destruct IHa as [Hnta Hruna].
    set (m1 := pushed a (size e) (Interp.host s1) m) in *.
    assert (Hi : instructions !! VM.pc m1 = Some (instr o)).
    { rewrite Hcode. subst m1. cbn [pushed VM.pc].
      replace (pre ++ (code_of e ++ [instr o]) ++ post)
        with ((pre ++ code_of e) ++ instr o :: post)
        by (rewrite <- !app_assoc; reflexivity).
      apply list_lookup_middle. rewrite length_app, length_code_of by exact Ha. lia. }
    assert (Hstep := fun F =>
              unary_step instructions m1 operator o a (VM.stack m) F s1 e Huo Hi
                eq_refl Hnta eq_refl r s' Heval').
    destruct r as [v|ex| |].
    + split; [exact (proj1 (Hstep 0))|]. intros F.
      replace (S (size e) + F) with (size e + S F) by lia.
      rewrite Hruna, (proj2 (Hstep F)). reflexivity.
    + intros F HF. replace F with (size e + S (F - S (size e))) by lia.
      rewrite Hruna. apply Hstep.
    + intros F HF. replace F with (size e + S (F - S (size e))) by lia.
      rewrite Hruna. apply Hstep.
    + intros F HF. replace F with (size e + S (F - S (size e))) by lia.
      rewrite Hruna. apply Hstep.
  - (* ComparisonOp *)
    apply andb_prop in He as [He Hr]. apply andb_prop in He as [Ho Hl].
    destruct (Compiler.comparison_opcode operator) as [o|] eqn:Hbo; [|discriminate Ho].
    destruct (comparison_chain _ _ Hbo) as (fn & Hfn & Hchain).
    rewrite Hchain in Heval.
    eapply (simulates_binary f); eauto. lia.
Qed.

Lemma size_pos (e : expr) : 1 <= size e.
Proof. destruct e; cbn; lia. Qed.

Lemma compile_print_program (F : nat) (e : expr) :
  operator_expr e = true -> size e + 2 <= F ->
  Compiler.compile F (print_program e) = Compiler.Ok (code_of e ++ print_tail, []).
Proof.
  intros He HF. pose proof (size_pos e) as Hpos.
  destruct F as [|[|[|F]]]; try lia.
  unfold Compiler.compile, print_program.
  cbn [Compiler.compile_statements Compiler.compile_statement
       Compiler.compile_statement_node].
  unfold Compiler.compile_ExpressionStatement.
  cbn [Compiler.compile_expression Compiler.compile_expression_node
       Compiler.compile_expressions].
  unfold Compiler.bind.
  change (Compiler.compile_expression_node (Compiler.compile_expression F) e)
    with (Compiler.compile_expression (S F) e).
  rewrite (compile_expression_code (S F) e _ He) by lia.
  cbn. rewrite <- !app_assoc. reflexivity.
Qed.

Lemma py_print_none (args : list value) (e : string) (w w' : world) (x : value) :
  py_print args e w = (Val x, w') -> x = VNone.
Proof.
  unfold py_print, hbind. destruct (hmap py_str args w) as [[parts| | |] w1]; try discriminate.
  destruct (write _ w1) as [[u| | |] w2]; try discriminate.
  unfold hret. by intros [= <- _].
Qed.

Lemma print_tail_run (instructions : list Instruction) (v : value) (w : world)
    (n F : nat) (consts : list value) (g : gmap string value)
    (rp : outcome value) (w' : world) :
  (forall k i, print_tail !! k = Some i -> instructions !! (k + n) = Some i) ->
  g !! "println" = Some (VHostFn vm_println) ->
  py_print [v] (String Chars.nl "") w = (rp, w') ->
  exists m',
    VM.run_loop (4 + F) instructions
      {| VM.host := w; VM.stack := [v]; VM.frames := [∅];
         VM.globals := g; VM.constants := consts; VM.pc := n |}
    = (ending rp, m')
    /\ VM.host m' = w'
    /\ match rp with Val _ => VM.stack m' = [] | _ => True end.
Proof.
  intros Hcode Hg Hp.
  set (m0 := {| VM.host := w; VM.stack := [v]; VM.frames := [∅];
                VM.globals := g; VM.constants := consts; VM.pc := n |}).
  set (m1 := {| VM.host := w; VM.stack := [VHostFn vm_println; v]; VM.frames := [∅];
                VM.globals := g; VM.constants := consts; VM.pc := S n |}).
  change (4 + F) with (S (3 + F)).
  rewrite (run_loop_step instructions m0 m1 _ (3 + F) (Hcode 0 _ eq_refl)).
  2:{ subst m0 m1. unfold VM.execute_instruction. cbn -[lookup].
      unfold VM.bind. cbn [VM.globals]. rewrite lookup_empty, Hg. reflexivity. }
  assert (Hi : instructions !! VM.pc m1 = Some (mkInstruction CALL (ArgInt 1)))
    by exact (Hcode 1 _ eq_refl).
  assert (Hx : VM.execute_instruction (mkInstruction CALL (ArgInt 1))
                 (snd (VM.set_pc (S (VM.pc m1)) m1))
               = match rp with
                 | Val r =>
                     (Val false,
                      {| VM.host := w'; VM.stack := [r]; VM.frames := [∅];
                         VM.globals := g; VM.constants := consts;
                         VM.pc := S (S n) |})
                 | Raise ex =>
                     (Raise ex,
                      {| VM.host := w'; VM.stack := []; VM.frames := [∅];
                         VM.globals := g; VM.constants := consts;
                         VM.pc := S (S n) |})
                 | Unmodelled =>
                     (Unmodelled,
                      {| VM.host := w'; VM.stack := []; VM.frames := [∅];
                         VM.globals := g; VM.constants := consts;
                         VM.pc := S (S n) |})
                 | OutOfFuel =>
                     (OutOfFuel,
                      {| VM.host := w'; VM.stack := []; VM.frames := [∅];
                         VM.globals := g; VM.constants := consts;
                         VM.pc := S (S n) |})
                 end).
  { subst m1. unfold VM.execute_instruction. cbn -[py_print Z.to_nat].
    change (Z.to_nat 1) with 1. cbn [VM.pop_n].
    unfold VM.bind, VM.pop, VM.set_stack, VM.lift, VM.ret, VM.push.
    cbn [VM.stack VM.host VM.frames VM.globals VM.constants VM.pc rev app].
    rewrite Hp. by destruct rp. }
  destruct rp as [r|ex| |].
  - change (3 + F) with (S (2 + F)).
    rewrite (run_loop_step instructions m1 _ _ (2 + F) Hi Hx).
    change (2 + F) with (S (S F)).
    set (m2 := {| VM.host := w'; VM.stack := [r]; VM.frames := [∅];
                  VM.globals := g; VM.constants := consts; VM.pc := S (S n) |}).
    set (m3 := {| VM.host := w'; VM.stack := []; VM.frames := [∅];
                  VM.globals := g; VM.constants := consts; VM.pc := S (S (S n)) |}).
    rewrite (run_loop_step instructions m2 m3 _ (S F) (Hcode 2 _ eq_refl))
      by reflexivity.
    cbn [VM.run_loop]. subst m3. cbn [VM.pc].
    rewrite (Hcode 3 _ eq_refl : instructions !! S (S (S n)) = _). eexists. split; [reflexivity|].
    split; reflexivity.
  - eexists. split; [exact (run_loop_fail instructions m1 _ _ (2 + F) _ Hi Hx)|].
    split; [reflexivity|exact I].
  - eexists. split; [exact (run_loop_fail instructions m1 _ _ (2 + F) _ Hi Hx)|].
    split; [reflexivity|exact I].
  - eexists. split.
    { change (3 + F) with (S (2 + F)). cbn [VM.run_loop]. rewrite Hi.
      unfold VM.bind at 1. cbn [VM.set_pc snd] in *. unfold VM.bind at 1.
      rewrite Hx. reflexivity. }
    split; [reflexivity|exact I].
Qed.

Lemma lookup_print_tail (e : expr) (k : nat) (i : Instruction) :
  operator_expr e = true ->
  print_tail !! k = Some i ->
  (code_of e ++ print_tail) !! (k + (size e + 0)) = Some i.
Proof.
  intros He Hk. rewrite lookup_app_r; rewrite length_code_of by exact He; [|lia].
  replace (k + (size e + 0) - size e) with k by lia. exact Hk.
Qed.

Lemma interpreter_print_program (f : nat) (e : expr) :
  Interp.run (S (S (S f))) (print_program e) Interp.init =
  match Interp.evaluate (S f) e Interp.init with
  | (Val v, s1) =>
      let '(rp, w') := py_print [v] (String Chars.nl "") (Interp.host s1) in
      (rp, Interp.set_host w' s1)
  | (Raise ex, s1) => (Raise ex, s1)
  | (Unmodelled, s1) => (Unmodelled, s1)
  | (OutOfFuel, s1) => (OutOfFuel, s1)
  end.
Proof.
  unfold Interp.run, print_program, Interp.execute_Block.
  cbn [Interp.execute_from Interp.execute Interp.execute_node Interp.evaluate
       Interp.evaluate_node].
  unfold Interp.evaluate_FunctionCall.
  unfold Interp.bind at 1 2.
  change (Interp.evaluate_node (Interp.execute f) (Interp.evaluate f)
            (Identifier "println") Interp.init)
    with (@Val value (VBuiltin b_println), Interp.init).
  cbn [Interp.evaluate_all]. unfold Interp.bind.
  destruct (Interp.evaluate_node (Interp.execute f) (Interp.evaluate f) e
              Interp.init) as [[v| | |] s1]; try reflexivity.
  unfold Interp.ret, Interp.lift. cbn [Interp.call_builtin].
  destruct (py_print [v] (String Chars.nl "") (Interp.host s1)) as [[x| | |] w'];
    reflexivity.
Qed.

(** X23. A program that prints an expression built from literals with
    the binary, unary and comparison operators is compiled without
    error, and the virtual machine, running the compiled code, ends as
    the tree-walking interpreter does and prints the same text: the
    same value printed, or the same exception of the host raised at the
    same operator. *)
Theorem operator_expression_backends_agree (e : expr) (f F : nat) :
  operator_expr e = true ->
  size e + 2 <= f -> size e + 4 <= F ->
  run_vm F (print_program e) = Some (run_interpreter f (print_program e)).
Proof.
  intros He Hf HF. pose proof (size_pos e) as Hpos.
  unfold run_vm. rewrite (compile_print_program F e He) by lia.
  destruct f as [|[|[|f]]]; try lia.
  unfold run_interpreter, Interp.run_program.
  rewrite interpreter_print_program.
  destruct (Interp.evaluate (S f) e Interp.init) as [r s1] eqn:Ee.
  pose proof (evaluate_simulated (S f) e Interp.init r s1 He ltac:(lia) Ee
                (code_of e ++ print_tail) [] print_tail (started [])
                eq_refl eq_refl eq_refl) as Hsim.
  unfold VM.run. unfold VM.bind at 1 2.
  change (VM.run_loop F (code_of e ++ print_tail) _)
    with (VM.run_loop F (code_of e ++ print_tail) (started [])).
  destruct r as [v|ex| |].
  - destruct Hsim as [_ Hrun].
    replace F with (size e + (4 + (F - size e - 4))) by lia. rewrite Hrun.
    destruct (py_print [v] (String Chars.nl "") (Interp.host s1)) as [rp w'] eqn:Hp.
    destruct (print_tail_run (code_of e ++ print_tail) v (Interp.host s1)
                (size e + 0) (F - size e - 4) [] (VM.globals VM.init) rp w'
                (fun k i => lookup_print_tail e k i He) eq_refl Hp)
      as (m' & Hm' & Hhost & Hstack).
    unfold pushed, started. cbn [VM.host VM.stack VM.frames VM.globals VM.constants VM.pc].
    change (VM.stack VM.init) with (@nil value).
    rewrite Hm'. destruct rp as [x|ex| |]; cbn [ending]; rewrite ?Hhost; try reflexivity.
    unfold VM.peek. rewrite Hstack, Hhost.
    by rewrite (py_print_none _ _ _ _ _ Hp).
  - destruct (Hsim F ltac:(lia)) as (m' & Hm' & Hhost). rewrite Hm'.
    cbn [ending]. cbv beta iota. by rewrite Hhost.
  - destruct (Hsim F ltac:(lia)) as (m' & Hm' & Hhost). rewrite Hm'.
    cbn [ending]. cbv beta iota. by rewrite Hhost.
  - destruct (Hsim F ltac:(lia)) as (m' & Hm' & Hhost). rewrite Hm'.
    cbn [ending]. cbv beta iota. by rewrite Hhost.
Qed.

Lemma operator_expression_backends_agree_witness :
  run_vm 11 (print_program sample_expr)
  = Some (run_interpreter 9 (print_program sample_expr))
  /\ run_interpreter 9 (print_program sample_expr)
     = (Val VNone, String.append "True" (String Chars.nl "")).
Proof.
  split.
  - apply operator_expression_backends_agree; [reflexivity|cbn; lia|cbn; lia].
  - vm_compute. reflexivity.
Defined.

End OperatorProofs.

(** ** The parser *)

Module GrammarProofs.
Import Ast GrammarSpec.

Lemma current_token_at (tokens : list Tokens.Token) (pos : nat) (t : Tokens.Token) :
  tokens !! pos = Some t -> Parser.current_token tokens pos = Parser.Ok (t, pos).
Proof. intros H. unfold Parser.current_token. by rewrite H. Qed.

Lemma match_at (tokens : list Tokens.Token) (pos : nat) (t : Tokens.Token)
    (tys : list Tokens.TokenType) :
  tokens !! pos = Some t ->
  Parser.match_ tokens tys pos
  = Parser.Ok (existsb (Tokens.tt_eqb (Tokens.type t)) tys, pos).
Proof.
  intros H. unfold Parser.match_, Parser.bind. by rewrite (current_token_at _ _ _ H).
Qed.

Lemma advance_at (tokens : list Tokens.Token) (pos : nat) (t : Tokens.Token) :
  tokens !! pos = Some t -> Parser.advance tokens pos = Parser.Ok (t, S pos).
Proof.
  intros H. unfold Parser.advance, Parser.bind. by rewrite (current_token_at _ _ _ H).
Qed.

Lemma expect_at (tokens : list Tokens.Token) (pos : nat) (t : Tokens.Token)
    (ty : Tokens.TokenType) (message : option string) :
  tokens !! pos = Some t -> Tokens.type t = ty ->
  Parser.expect tokens ty message pos = Parser.Ok (t, S pos).
Proof.
  intros H Hty. unfold Parser.expect, Parser.bind at 1.
  rewrite (current_token_at _ _ _ H). unfold Tokens.tt_eqb.
  destruct (Tokens.TokenType_eq_dec (Tokens.type t) ty); [|contradiction].
  cbn [negb]. by apply advance_at.
Qed.

Lemma skip_newlines_other (tokens : list Tokens.Token) (pos n : nat) (t : Tokens.Token) :
  tokens !! pos = Some t -> Tokens.type t <> Tokens.NEWLINE ->
  Parser.skip_newlines_loop tokens (S n) pos = Parser.Ok (tt, pos).
Proof.
  intros H Hty. cbn [Parser.skip_newlines_loop]. unfold Parser.bind at 1.
  rewrite (current_token_at _ _ _ H). unfold Tokens.tt_eqb.
  by destruct (Tokens.TokenType_eq_dec (Tokens.type t) Tokens.NEWLINE).
Qed.

Lemma not_consumed_types (t : Tokens.Token) :
  not_consumed t = true ->
  existsb (Tokens.tt_eqb (Tokens.type t)) [Tokens.RBRACE; Tokens.EOF] = false
  /\ existsb (Tokens.tt_eqb (Tokens.type t)) [Tokens.FN] = false
  /\ existsb (Tokens.tt_eqb (Tokens.type t)) [Tokens.ASYNC] = false
  /\ Tokens.type t <> Tokens.NEWLINE.
Proof.
  unfold not_consumed. destruct (Tokens.type t); cbn; intros H;
    try discriminate H; repeat split; try reflexivity; discriminate.
Qed.

Lemma parse_impl_loop_stuck (tokens : list Tokens.Token) (parse_statement : Parser.P stmt)
    (pos : nat) (t : Tokens.Token) :
  tokens !! pos = Some t -> not_consumed t = true ->
  forall n methods,
    Parser.parse_impl_loop tokens parse_statement n methods pos = Parser.OutOfFuel.
Proof.
  intros H Hnc. destruct (not_consumed_types t Hnc) as (He & Hf & Ha & Hn).
  induction n as [|n IH]; intros methods; [reflexivity|].
  cbn [Parser.parse_impl_loop]. unfold Parser.bind at 1.
  rewrite (match_at _ _ _ _ H), He. unfold Parser.bind at 1.
  rewrite (match_at _ _ _ _ H), Hf. unfold Parser.bind at 1.
  rewrite (match_at _ _ _ _ H), Ha. unfold Parser.bind at 1.
  unfold Parser.ret at 1. unfold Parser.bind at 1.
  destruct n as [|n]; [reflexivity|].
  rewrite (skip_newlines_other _ _ _ _ H Hn). apply IH.
Qed.

Lemma parse_impl_block_stuck (tokens : list Tokens.Token)
    (parse_statement : Parser.P stmt) (pos : nat) (t0 t1 t2 t : Tokens.Token) :
  tokens !! pos = Some t0 -> Tokens.type t0 = Tokens.IMPL ->
  tokens !! S pos = Some t1 -> Tokens.type t1 = Tokens.IDENTIFIER ->
  tokens !! S (S pos) = Some t2 -> Tokens.type t2 = Tokens.LBRACE ->
  tokens !! S (S (S pos)) = Some t -> not_consumed t = true ->
  forall n, Parser.parse_impl_block tokens parse_statement n pos = Parser.OutOfFuel.
Proof.
  intros H0 Hi H1 Hid H2 Hl H Hnc n.
  destruct (not_consumed_types t Hnc) as (_ & _ & _ & Hn).
  unfold Parser.parse_impl_block. unfold Parser.bind at 1.
  rewrite (expect_at _ _ _ _ _ H0 Hi). unfold Parser.bind at 1.
  rewrite (expect_at _ _ _ _ _ H1 Hid). unfold Parser.bind at 1.
  destruct n as [|n]; [reflexivity|].
  rewrite (skip_newlines_other _ _ n _ H2) by (rewrite Hl; discriminate).
  unfold Parser.bind at 1.
  rewrite (expect_at _ _ _ _ _ H2 Hl). unfold Parser.bind at 1.
  rewrite (skip_newlines_other _ _ n _ H Hn). unfold Parser.bind at 1.
  by rewrite (parse_impl_loop_stuck tokens parse_statement _ t H Hnc).
Qed.

(** X24. A program that begins with [impl Name {] followed by a token
    that is neither [fn], [async], a newline, the closing brace nor the
    end of the input is never parsed to the end: the loop of
    [parse_impl_block] does not consume that token, and [parse] runs
    out of every fuel. *)
Theorem impl_block_does_not_end (tokens : list Tokens.Token)
    (t0 t1 t2 t : Tokens.Token) :
  tokens !! 0 = Some t0 -> Tokens.type t0 = Tokens.IMPL ->
  tokens !! 1 = Some t1 -> Tokens.type t1 = Tokens.IDENTIFIER ->
  tokens !! 2 = Some t2 -> Tokens.type t2 = Tokens.LBRACE ->
  tokens !! 3 = Some t -> not_consumed t = true ->
  forall fuel, Parser.parse tokens fuel = Parser.OutOfFuel.
Proof.
  intros H0 Hi H1 Hid H2 Hl H Hnc fuel.
  unfold Parser.parse. unfold Parser.bind at 1.
  destruct fuel as [|fuel]; [reflexivity|].
  rewrite (skip_newlines_other _ _ fuel _ H0) by (rewrite Hi; discriminate).
  cbn [Parser.parse_loop]. unfold Parser.bind at 1.
  rewrite (match_at _ _ _ _ H0), Hi. cbn [existsb Tokens.tt_eqb orb].
  replace (Tokens.tt_eqb Tokens.IMPL Tokens.EOF) with false by reflexivity.
  cbn [orb]. unfold Parser.bind at 1.
  cbn [Parser.parse_statement]. unfold Parser.parse_statement_body.
  unfold Parser.bind at 1.
  destruct fuel as [|fuel]; [reflexivity|].
  rewrite (skip_newlines_other _ _ fuel _ H0) by (rewrite Hi; discriminate).
  unfold Parser.bind at 1. rewrite (current_token_at _ _ _ H0), Hi.
  by rewrite (parse_impl_block_stuck tokens _ 0 t0 t1 t2 t H0 Hi H1 Hid H2 Hl H Hnc).
Qed.

Lemma impl_block_does_not_end_witness :
  exists tokens,
    Lexer.tokenize impl_source = Some (Lexer.Ok tokens)
    /\ forall fuel, Parser.parse tokens fuel = Parser.OutOfFuel.
Proof.
  eexists. split; [vm_compute; reflexivity|].
  eapply impl_block_does_not_end; reflexivity.
Defined.

(** ** Operator levels of the expression parser *)

Section Chain.

Variable tokens : list Tokens.Token.
Variable ops : list Tokens.TokenType.
Variable node : expr -> string -> expr -> expr.
Variable sub : Parser.P expr.
Variable item : nat -> expr -> nat -> Prop.
Variable ok : nat -> Prop.
Variable bound : nat.

Hypothesis sub_item :
  forall pos e p, item pos e p -> ok p -> p - pos <= bound -> sub pos = Parser.Ok (e, p).
Hypothesis ok_op :
  forall p t, tokens !! p = Some t ->
    existsb (Tokens.tt_eqb (Tokens.type t)) ops = true -> ok p.
Hypothesis item_grows : forall pos e p, item pos e p -> pos < p.

Lemma left_assoc_loop_step (n : nat) (left : expr) (p : nat) (t : Tokens.Token)
    (op : string) (r : expr) (p' : nat) :
  tokens !! p = Some t ->
  existsb (Tokens.tt_eqb (Tokens.type t)) ops = true ->
  Tokens.value t = Tokens.PStr op ->
  sub (S p) = Parser.Ok (r, p') ->
  Parser.left_assoc_loop tokens (S n) ops sub node left p
  = Parser.left_assoc_loop tokens n ops sub node (node left op r) p'.
Proof.
  intros Ht Hops Hv Hsub. cbn [Parser.left_assoc_loop]. unfold Parser.bind at 1.
  rewrite (match_at _ _ _ _ Ht), Hops. unfold Parser.bind at 1.
  rewrite (advance_at _ _ _ Ht). unfold Parser.bind at 1.
  unfold Parser.str_value. rewrite Hv. unfold Parser.ret at 1.
  unfold Parser.bind at 1. by rewrite Hsub.
Qed.

Lemma left_assoc_loop_end (n : nat) (left : expr) (p : nat) (t : Tokens.Token) :
  tokens !! p = Some t ->
  existsb (Tokens.tt_eqb (Tokens.type t)) ops = false ->
  Parser.left_assoc_loop tokens (S n) ops sub node left p = Parser.Ok (left, p).
Proof.
  intros Ht Hops. cbn [Parser.left_assoc_loop]. unfold Parser.bind at 1.
  by rewrite (match_at _ _ _ _ Ht), Hops.
Qed.

Lemma chain_grows (pos : nat) (e : expr) (p : nat) :
  chain tokens item ops node pos e p -> pos < p.
Proof.
  induction 1 as [pos e p Hitem|pos l p t op r p' Hchain IH Ht Hops Hv Hitem].
  - by eapply item_grows.
  - pose proof (item_grows _ _ _ Hitem). lia.
Qed.

Lemma chain_loop (pos : nat) (e : expr) (p : nat) :
  chain tokens item ops node pos e p -> ok p -> p - pos <= bound ->
  exists j e0 p0,
    sub pos = Parser.Ok (e0, p0) /\ j + p0 <= p /\ pos < p0
    /\ forall m, Parser.left_assoc_loop tokens (j + m) ops sub node e0 p0
                 = Parser.left_assoc_loop tokens m ops sub node e p.
Proof.
  induction 1 as [pos e p Hitem|pos l p t op r p' Hchain IH Ht Hops Hv Hitem];
    intros Hok Hb.
  - exists 0, e, p. split; [by apply sub_item|]. split; [lia|].
    split; [by eapply item_grows|]. reflexivity.
  - pose proof (item_grows _ _ _ Hitem) as Hg.
    pose proof (chain_grows _ _ _ Hchain) as Hc.
    destruct (IH (ok_op p t Ht Hops) ltac:(lia))
      as (j & e0 & p0 & Hsub & Hj & Hpos & Hloop).
    exists (S j), e0, p0. split; [exact Hsub|].
    split; [lia|]. split; [exact Hpos|].
    intros m. replace (S j + m) with (j + S m) by lia. rewrite Hloop.
    apply left_assoc_loop_step with t; try assumption.
    apply sub_item; [assumption|assumption|lia].
Qed.

Lemma chain_parsed (pos : nat) (e : expr) (p : nat) (t : Tokens.Token) (n : nat) :
  chain tokens item ops node pos e p -> ok p ->
  tokens !! p = Some t ->
  existsb (Tokens.tt_eqb (Tokens.type t)) ops = false ->
  p - pos <= bound -> p - pos <= n ->
  Parser.bind sub (fun left => Parser.left_assoc_loop tokens n ops sub node left) pos
  = Parser.Ok (e, p).
Proof.
  intros Hchain Hok Ht Hops Hb Hn.
  destruct (chain_loop pos e p Hchain Hok Hb)
    as (j & e0 & p0 & Hsub & Hj & Hpos & Hloop).
  unfold Parser.bind. rewrite Hsub.
  replace n with (j + S (n - S j)) by lia. rewrite Hloop.
  by apply left_assoc_loop_end with t.
Qed.

End Chain.

Lemma follows_app_l (tokens : list Tokens.Token) (a b : list Tokens.TokenType) (p : nat) :
  follows tokens (a ++ b) p -> follows tokens a p.
Proof.
  intros (t & Ht & H). exists t. split; [exact Ht|].
  rewrite existsb_app in H. by apply orb_false_elim in H as [H _].
Qed.

Lemma follows_app_r (tokens : list Tokens.Token) (a b : list Tokens.TokenType) (p : nat)
    (t : Tokens.Token) :
  follows tokens (a ++ b) p -> tokens !! p = Some t ->
  existsb (Tokens.tt_eqb (Tokens.type t)) b = false.
Proof.
  intros (t' & Ht' & H) Ht. rewrite Ht in Ht'. injection Ht' as <-.
  rewrite existsb_app in H. by apply orb_false_elim in H as [_ H].
Qed.

Lemma atom_type (t : Tokens.Token) (e : expr) :
  atom_expr t = Some e ->
  existsb (Tokens.tt_eqb (Tokens.type t))
    [Tokens.MINUS; Tokens.BIT_NOT; Tokens.AWAIT; Tokens.NOT] = false.
Proof.
  unfold atom_expr. destruct (Tokens.type t); try discriminate; reflexivity.
Qed.

Lemma parse_primary_atom (tokens : list Tokens.Token) (parse_expression : Parser.P expr)
    (n pos : nat) (t : Tokens.Token) (e : expr) :
  tokens !! pos = Some t -> atom_expr t = Some e ->
  Parser.parse_primary tokens parse_expression n pos = Parser.Ok (e, S pos).
Proof.
  intros Ht He. unfold Parser.parse_primary. unfold Parser.bind at 1.
  rewrite (current_token_at _ _ _ Ht). unfold atom_expr in He.
  destruct (Tokens.type t); try discriminate He;
    unfold Parser.bind at 1; rewrite (advance_at _ _ _ Ht);
    unfold Parser.str_value;
    destruct (Tokens.value t); try discriminate He; by injection He as <-.
Qed.

Lemma parse_power_atom (tokens : list Tokens.Token) (parse_expression : Parser.P expr)
    (n pos : nat) (e : expr) (p : nat) :
  atom tokens pos e p -> follows tokens after_atom p ->
  Parser.parse_power tokens parse_expression (S (S (S n))) pos = Parser.Ok (e, p).
Proof.
  intros (t & Ht & He & ->) (t' & Ht' & Hnext).
  pose proof (atom_type t e He) as Hty.
  cbn [Parser.parse_power Parser.parse_unary]. unfold Parser.bind at 1 2.
  rewrite (match_at _ _ _ _ Ht).
  replace (existsb (Tokens.tt_eqb (Tokens.type t)) [Tokens.MINUS; Tokens.BIT_NOT])
    with false by (revert Hty; destruct (Tokens.type t); cbn; congruence).
  unfold Parser.parse_await. unfold Parser.bind at 1.
  rewrite (match_at _ _ _ _ Ht).
  replace (existsb (Tokens.tt_eqb (Tokens.type t)) [Tokens.AWAIT])
    with false by (revert Hty; destruct (Tokens.type t); cbn; congruence).
  unfold Parser.parse_postfix. unfold Parser.bind at 1.
  rewrite (parse_primary_atom _ _ _ _ _ _ Ht He).
  cbn [Parser.parse_postfix_loop]. unfold Parser.bind at 1.
  rewrite (current_token_at _ _ _ Ht').
  revert Hnext. unfold after_atom.
  destruct (Tokens.type t') eqn:Hty'; cbn; intros Hnext; try discriminate Hnext;
    unfold Parser.ret at 1; unfold Parser.bind at 1;
    rewrite (match_at _ _ _ _ Ht'), Hty'; reflexivity.
Qed.

Lemma ops_follow (tokens : list Tokens.Token) (ops excluded : list Tokens.TokenType)
    (p : nat) (t : Tokens.Token) :
  (forall ty, existsb (Tokens.tt_eqb ty) ops = true ->
              existsb (Tokens.tt_eqb ty) excluded = false) ->
  tokens !! p = Some t ->
  existsb (Tokens.tt_eqb (Tokens.type t)) ops = true ->
  follows tokens excluded p.
Proof. intros H Ht Hops. exists t. split; [exact Ht|by apply H]. Qed.

Lemma atom_grows (tokens : list Tokens.Token) (pos : nat) (e : expr) (p : nat) :
  atom tokens pos e p -> pos < p.
Proof. intros (t & _ & _ & ->). lia. Qed.

Lemma parse_multiplicative_product (tokens : list Tokens.Token)
    (parse_expression : Parser.P expr) (n pos : nat) (e : expr) (p : nat) :
  product tokens pos e p -> follows tokens after_product p ->
  p - pos <= S (S (S n)) ->
  Parser.parse_multiplicative tokens parse_expression (S (S (S n))) pos
  = Parser.Ok (e, p).
Proof.
  intros Hchain Hok Hn. destruct (Hok) as (t & Ht & _).
  unfold Parser.parse_multiplicative.
  apply chain_parsed with (item := atom tokens) (ok := follows tokens after_atom)
                          (bound := S (S (S n))) (t := t); try assumption.
  - intros pos' e' p' Hitem Hok' _. by apply parse_power_atom.
  - intros p' t' Ht' Hops. apply (ops_follow tokens multiplicative_ops after_atom p' t'); try assumption.
    intros ty. destruct ty; cbn; congruence.
  - apply atom_grows.
  - by apply follows_app_l in Hok.
  - by apply (follows_app_r tokens after_atom multiplicative_ops p).
Qed.

Lemma product_grows (tokens : list Tokens.Token) (pos : nat) (e : expr) (p : nat) :
  product tokens pos e p -> pos < p.
Proof. apply chain_grows, atom_grows. Qed.

Lemma parse_additive_sum (tokens : list Tokens.Token)
    (parse_expression : Parser.P expr) (n pos : nat) (e : expr) (p : nat) :
  sum tokens pos e p -> follows tokens after_sum p ->
  p - pos <= S (S (S n)) ->
  Parser.parse_additive tokens parse_expression (S (S (S n))) pos
  = Parser.Ok (e, p).
Proof.
  intros Hchain Hok Hn. destruct (Hok) as (t & Ht & _).
  unfold Parser.parse_additive.
  apply chain_parsed with (item := product tokens) (ok := follows tokens after_product)
                          (bound := S (S (S n))) (t := t); try assumption.
  - intros pos' e' p' Hitem Hok' Hb. by apply parse_multiplicative_product.
  - intros p' t' Ht' Hops. apply (ops_follow tokens additive_ops after_product p' t'); try assumption.
    intros ty. destruct ty; cbn; congruence.
  - apply product_grows.
  - by apply follows_app_l in Hok.
  - by apply (follows_app_r tokens after_product additive_ops p).
Qed.

Lemma sum_grows (tokens : list Tokens.Token) (pos : nat) (e : expr) (p : nat) :
  sum tokens pos e p -> pos < p.
Proof. apply chain_grows, product_grows. Qed.

Lemma parse_comparison_chain (tokens : list Tokens.Token)
    (parse_expression : Parser.P expr) (n pos : nat) (e : expr) (p : nat) :
  comparison tokens pos e p -> follows tokens after_comparison p ->
  p - pos <= S (S (S n)) ->
  Parser.parse_comparison tokens parse_expression (S (S (S n))) pos
  = Parser.Ok (e, p).
Proof.
  intros Hchain Hok Hn. destruct (Hok) as (t & Ht & _).
  unfold Parser.parse_comparison.
  apply chain_parsed with (item := sum tokens) (ok := follows tokens after_sum)
                          (bound := S (S (S n))) (t := t); try assumption.
  - intros pos' e' p' Hitem Hok' Hb. by apply parse_additive_sum.
  - intros p' t' Ht' Hops. apply (ops_follow tokens comparison_ops after_sum p' t'); try assumption.
    intros ty. destruct ty; cbn; congruence.
  - apply sum_grows.
  - by apply follows_app_l in Hok.
  - by apply (follows_app_r tokens after_sum comparison_ops p).
Qed.

Lemma chain_first (tokens : list Tokens.Token) (item : nat -> expr -> nat -> Prop)
    (ops : list Tokens.TokenType) (node : expr -> string -> expr -> expr)
    (Q : nat -> Prop) :
  (forall pos e p, item pos e p -> Q pos) ->
  forall pos e p, chain tokens item ops node pos e p -> Q pos.
Proof. intros Hitem pos e p. induction 1; eauto. Qed.

Lemma comparison_first (tokens : list Tokens.Token) (pos : nat) (e : expr) (p : nat) :
  comparison tokens pos e p ->
  exists t e0, tokens !! pos = Some t /\ atom_expr t = Some e0.
Proof.
  set (Q := fun pos => exists t e0, tokens !! pos = Some t /\ atom_expr t = Some e0).
  apply (chain_first tokens (sum tokens) comparison_ops ComparisonOp Q).
  apply (chain_first tokens (product tokens) additive_ops BinaryOp Q).
  apply (chain_first tokens (atom tokens) multiplicative_ops BinaryOp Q).
  intros pos' e' p' (t & Ht & He & _). exists t, e'. by split.
Qed.

Lemma comparison_grows (tokens : list Tokens.Token) (pos : nat) (e : expr) (p : nat) :
  comparison tokens pos e p -> pos < p.
Proof. apply chain_grows, sum_grows. Qed.

Lemma logical_loop_end (tokens : list Tokens.Token) (n : nat) (kw : Tokens.TokenType)
    (op : string) (sub : Parser.P expr) (left : expr) (p : nat) (t : Tokens.Token) :
  tokens !! p = Some t -> Tokens.type t <> kw ->
  Parser.logical_loop tokens (S n) kw op sub left p = Parser.Ok (left, p).
Proof.
  intros Ht Hty. cbn [Parser.logical_loop]. unfold Parser.bind at 1.
  rewrite (match_at _ _ _ _ Ht). cbn [existsb]. unfold Tokens.tt_eqb.
  by destruct (Tokens.TokenType_eq_dec (Tokens.type t) kw).
Qed.

(** X25. Precedence and associativity of the expression parser: on
    tokens that form comparisons of sums of products of literals and
    names, followed by a token that does not continue an expression,
    [parse_expression] returns the tree in which products are nested in
    sums and sums in comparisons, each level nested to the left, and
    stops at that token. *)
Theorem comparison_of_sums_of_products (tokens : list Tokens.Token) (pos : nat)
    (e : expr) (p fuel : nat) :
  comparison tokens pos e p ->
  follows tokens after_expression p ->
  p - pos + 4 <= fuel ->
  Parser.parse_expression tokens fuel pos = Parser.Ok (e, p).
Proof.
  intros Hchain Hok Hfuel.
  pose proof (comparison_grows _ _ _ _ Hchain) as Hg.
  destruct (comparison_first _ _ _ _ Hchain) as (t0 & e0 & Ht0 & He0).
  destruct Hok as (t & Ht & Hend).
  destruct fuel as [|[|[|[|[|n]]]]]; try lia.
  cbn [Parser.parse_expression]. unfold Parser.parse_or_expression.
  unfold Parser.parse_and_expression. cbn [Parser.parse_not_expression].
  unfold Parser.bind at 1 2 3. rewrite (match_at _ _ _ _ Ht0).
  replace (existsb (Tokens.tt_eqb (Tokens.type t0)) [Tokens.NOT])
    with false
    by (pose proof (atom_type t0 e0 He0) as Hty; revert Hty;
        destruct (Tokens.type t0); cbn; congruence).
  rewrite (parse_comparison_chain tokens _ n pos e p Hchain).
  - rewrite (logical_loop_end _ _ _ _ _ _ _ t Ht).
    + apply (logical_loop_end _ _ _ _ _ _ _ t Ht).
      intros Hor. revert Hend. rewrite Hor. discriminate.
    + intros Hand. revert Hend. rewrite Hand. discriminate.
  - exists t. split; [exact Ht|].
    unfold after_expression in Hend. rewrite existsb_app in Hend.
    by apply orb_false_elim in Hend as [Hend _].
  - lia.
Qed.

Ltac an_atom := eexists; split; [reflexivity|split; reflexivity].
Ltac operator_at q :=
  eapply chain_more with (p := q); [|reflexivity|reflexivity|reflexivity|].

Lemma comparison_of_sums_of_products_witness :
  exists tokens,
    Lexer.tokenize chain_source = Some (Lexer.Ok tokens)
    /\ Parser.parse_expression tokens 15 0 = Parser.Ok (chain_expr, 11).
Proof.
  eexists. split; [vm_compute; reflexivity|].
  apply comparison_of_sums_of_products.
  - unfold comparison, chain_expr.
    operator_at 9; [operator_at 7|].
    + apply chain_one. operator_at 5; [operator_at 1|].
      * apply chain_one, chain_one. an_atom.
      * operator_at 3; [apply chain_one|]; an_atom.
      * apply chain_one. an_atom.
    + apply chain_one, chain_one. an_atom.
    + apply chain_one, chain_one. an_atom.
  - eexists. split; reflexivity.
  - cbn. lia.
Defined.

End GrammarProofs.
